(** * msdfgen (TypeScript port): a shallow embedding of the core and its
      checked properties.

    Numbers.  There are two models of a JavaScript [number].

    In the first a number is an exact rational ([Q]); [===] on numbers
    is [Qeq_bool], [<] is [Qltb].  Rounding of IEEE doubles, infinities
    and signed zeros are not modelled, and a division by zero yields 0
    as in [Qdiv].  Where the code lets a value be [undefined] or [NaN]
    (a property that an object does not have, the cached ordinate of a
    scanline) the type [jsval] is used.  [Math.sqrt], [Math.sin],
    [Math.acos], [Math.cos] and the cube root taken with [Math.pow] are
    parameters, gathered in [MathOps].  This model serves the results
    that depend on comparisons and on the structure of the code only,
    and the identities that hold in exact arithmetic and are stated as
    such.

    In the second ([Float64], [Float32] and the modules of [Double]) a
    number is a binary64 value with the rounding operations of IEEE
    754, and a [Float32Array] holds binary32 values.  It serves the
    results that rounding, overflow or NaN decide: the cases of
    [solveQuadratic], the round trip of a [DistanceMapping], the
    winding of a contour, and the cells that the generators write.
    There the edge segments are the instances of an interface, as they
    are the subclasses of an abstract class in the source.

    The seed of the edge colorings is a [bigint], an integer of either
    sign ([Z]).

    Objects.  A plain object literal whose properties are inspected by
    name ([in], property reads) is a finite map from property names to
    [jsval].  Edge segments held by a contour are values: every
    [EdgeSegment] object is assumed to be referenced by one holder.

    The first part of the file holds the definitions, module by module
    after the source files; the second part holds the lemmas. *)

From Stdlib Require Import ZArith QArith Qabs Qround Qminmax Lia Lqa List Bool
  String Sorted.
From Stdlib Require Import SpecFloat.
From stdpp Require Import base list strings gmap.

Open Scope Q_scope.

(** ** JavaScript numbers and values *)

Definition Qltb (x y : Q) : bool := negb (Qle_bool y x).
Definition Qgtb (x y : Q) : bool := Qltb y x.
Definition Qgeb (x y : Q) : bool := Qle_bool y x.

(** [Math.sign]. *)
Definition sign (q : Q) : Q :=
  match q ?= 0 with
  | Lt => -1
  | Eq => 0
  | Gt => 1
  end.

(** [Number.MAX_VALUE], the largest finite double: (2^53 - 1) * 2^971. *)
Definition MAX_VALUE : Q := inject_Z ((2 ^ 53 - 1) * 2 ^ 971).

Inductive jsval : Type :=
| JUndefined
| JNaN
| JNum (q : Q).

(** [a === b] when [b] is a number. *)
Definition js_strict_eq_num (a : jsval) (b : Q) : bool :=
  match a with
  | JNum q => Qeq_bool q b
  | _ => false
  end.

(** [a + b] and [a - b]: ToNumber sends [undefined] to NaN. *)
Definition js_add (a b : jsval) : jsval :=
  match a, b with
  | JNum p, JNum q => JNum (p + q)
  | _, _ => JNaN
  end.

Definition js_sub (a b : jsval) : jsval :=
  match a, b with
  | JNum p, JNum q => JNum (p - q)
  | _, _ => JNaN
  end.

(** [a < b]: false as soon as one side is [undefined] or NaN. *)
Definition js_lt (a b : jsval) : bool :=
  match a, b with
  | JNum p, JNum q => Qltb p q
  | _, _ => false
  end.

Definition js_neg (a : jsval) : jsval :=
  match a with
  | JNum p => JNum (- p)
  | _ => JNaN
  end.

(** An object literal: property name to value. *)
Abbreviation jsobj := (gmap string jsval).

(** [o.k]: a missing property reads as [undefined]. *)
Definition js_get (o : jsobj) (k : string) : jsval :=
  match o !! k with
  | Some v => v
  | None => JUndefined
  end.

(** ['k' in o]. *)
Definition js_in (k : string) (o : jsobj) : bool :=
  match o !! k with
  | Some _ => true
  | None => false
  end.

(** The functions of [Math] that have no rational counterpart. *)
Record MathOps : Type := {
  sqrt : Q -> Q;
  sin : Q -> Q;
  acos : Q -> Q;
  cos : Q -> Q;
  cbrt : Q -> Q  (* Math.pow(x, 1 / 3) *)
}.

(** ** types/Vector2.ts *)

Module Vector2.

Record t : Type := mk { x : Q; y : Q }.

Definition squaredLength (v : t) : Q := x v * x v + y v * y v.

Definition length (M : MathOps) (v : t) : Q :=
  sqrt M (x v * x v + y v * y v).

Definition normalize (M : MathOps) (v : t) (allowZero : bool) : t :=
  let len := length M v in
  if negb (Qeq_bool len 0) then mk (x v / len) (y v / len)
  else mk 0 (if allowZero then 0 else 1).

Definition getOrthonormal (M : MathOps) (v : t) (polarity allowZero : bool) : t :=
  let len := length M v in
  if negb (Qeq_bool len 0) then
    if polarity then mk (- y v / len) (x v / len)
    else mk (y v / len) (- x v / len)
  else
    let sign := if allowZero then 0 else 1 in
    if polarity then mk 0 sign else mk 0 (- sign).

Definition add (a b : t) : t := mk (x a + x b) (y a + y b).
Definition subtract (a b : t) : t := mk (x a - x b) (y a - y b).
Definition mul (a b : t) : t := mk (x a * x b) (y a * y b).
Definition div (a b : t) : t := mk (x a / x b) (y a / y b).
Definition scale (a : t) (value : Q) : t := mk (x a * value) (y a * value).
Definition multiply (a : t) (value : Q) : t := scale a value.

Definition equals (a b : t) : bool :=
  Qeq_bool (x a) (x b) && Qeq_bool (y a) (y b).

Definition dotProduct (a b : t) : Q := x a * x b + y a * y b.
Definition crossProduct (a b : t) : Q := x a * y b - y a * x b.

(** [mix] on numbers and on vectors. *)
Definition mixQ (a b t : Q) : Q := a + t * (b - a).
Definition mix (a b : t) (t : Q) : Vector2.t :=
  mk (x a + t * (x b - x a)) (y a + t * (y b - y a)).

Definition getOrthogonal (v : t) (polarity : bool) : t :=
  if polarity then mk (- y v) (x v) else mk (y v) (- x v).

Definition negate (v : t) : t := mk (- x v) (- y v).

End Vector2.

Definition Point2 : Type := Vector2.t.

(** ** edge/equation-solver.ts *)

Module EquationSolver.

Definition solveQuadratic (M : MathOps) (a b c : Q) : list Q :=
  if Qeq_bool a 0 || Qgtb (Qabs b) (1e12 * Qabs a) then
    if Qeq_bool b 0 then []
    else [- c / b]
  else
    let discriminant := b * b - 4 * a * c in
    if Qgtb discriminant 0 then
      let sqrtD := sqrt M discriminant in
      [(- b + sqrtD) / (2 * a); (- b - sqrtD) / (2 * a)]
    else if Qeq_bool discriminant 0 then [- b / (2 * a)]
    else [].

(** 2 * Math.PI, as the rational nearest to the double. *)
Definition TWO_PI : Q := 6.283185307179586.

Definition solveCubicNormed (M : MathOps) (a b c : Q) : list Q :=
  let a2 := a * a in
  let q := (1 / 9) * (a2 - 3 * b) in
  let r := (1 / 54) * (a * (2 * a2 - 9 * b) + 27 * c) in
  let r2 := r * r in
  let q3 := q * q * q in
  let aThird := a * (1 / 3) in
  if Qltb r2 q3 then
    let t := r / sqrt M q3 in
    let t := if Qltb t (-1) then -1 else t in
    let t := if Qgtb t 1 then 1 else t in
    let t := acos M t in
    let qMult := -2 * sqrt M q in
    [qMult * cos M ((1 / 3) * t) - aThird;
     qMult * cos M ((1 / 3) * (t + TWO_PI)) - aThird;
     qMult * cos M ((1 / 3) * (t - TWO_PI)) - aThird]
  else
    let u := (if Qltb r 0 then 1 else -1) * cbrt M (Qabs r + sqrt M (r2 - q3)) in
    let v := if Qeq_bool u 0 then 0 else q / u in
    let root1 := u + v - aThird in
    if Qeq_bool u v || Qltb (Qabs (u - v)) (1e-12 * Qabs (u + v)) then
      let root2 := -0.5 * (u + v) - aThird in
      [root1; root2]
    else [root1].

Definition solveCubic (M : MathOps) (a b c d : Q) : list Q :=
  if negb (Qeq_bool a 0) && Qltb (Qabs (b / a)) 1e6 then
    solveCubicNormed M (b / a) (c / a) (d / a)
  else solveQuadratic M b c d.

(** The test that sends [solveQuadratic] to its linear branch. *)
Definition linearFallback (a b : Q) : Prop :=
  a == 0 \/ Qabs b > 1e12 * Qabs a.

End EquationSolver.

(** ** types/Range.ts and types/DistanceMapping.ts *)

Module Range.

Record t : Type := mk { lower : Q; upper : Q }.

(** [new Range(width)] and [new Range(lower, upper)]. *)
Definition symmetrical (width : Q) : t :=
  let halfWidth := width * 0.5 in mk (- halfWidth) halfWidth.

Definition width (r : t) : Q := upper r - lower r.

End Range.

Module DistanceMapping.

Record t : Type := mk { scale : Q; translate : Q }.

(** [new DistanceMapping()], the identity. *)
Definition identity : t := mk 1 0.

(** [new DistanceMapping(range)]. *)
Definition fromRange (range : Range.t) : t :=
  let rangeWidth := Range.upper range - Range.lower range in
  mk (1 / rangeWidth) (- Range.lower range).

Definition map (m : t) (distance : Q) : Q :=
  scale m * (distance + translate m).

Definition mapDelta (m : t) (delta : Q) : Q := scale m * delta.

Definition getInverse (m : t) : t :=
  mk (1 / scale m) (- scale m * translate m).

(** [DistanceMapping.inverse(range)]; [rangeWidth || 1] is 1 when the
    width is 0. *)
Definition inverse (range : Range.t) : t :=
  let rangeWidth := Range.upper range - Range.lower range in
  mk rangeWidth
     (Range.lower range / (if Qeq_bool rangeWidth 0 then 1 else rangeWidth)).

End DistanceMapping.

(** A [MathOps] to evaluate the examples with.  The square root is
    the exact one on squares of rationals (the only arguments it gets
    in the examples); the other functions are never reached there,
    but for [sin], whose value does not matter where it is. *)
Definition exampleSqrt (q : Q) : Q :=
  let r := Qred q in
  inject_Z (Z.sqrt (Qnum r)) / inject_Z (Z.sqrt (Zpos (Qden r))).

Definition exampleMath : MathOps :=
  {| sqrt := exampleSqrt; sin := fun q => q; acos := fun q => q;
     cos := fun q => q; cbrt := fun q => q |}.

(** ** types/SignedDistance.ts *)

Module SignedDistance.

Record t : Type := mk { distance : Q; dot : Q }.

(** [new SignedDistance()]. *)
Definition empty : t := mk (- MAX_VALUE) 0.

Definition lessThan (a other : t) : bool :=
  let absA := Qabs (distance a) in
  let absB := Qabs (distance other) in
  Qltb absA absB || (Qeq_bool absA absB && Qltb (dot a) (dot other)).

Definition greaterThan (a other : t) : bool :=
  let absA := Qabs (distance a) in
  let absB := Qabs (distance other) in
  Qgtb absA absB || (Qeq_bool absA absB && Qgtb (dot a) (dot other)).

Definition lessThanOrEqual (a other : t) : bool :=
  let absA := Qabs (distance a) in
  let absB := Qabs (distance other) in
  Qltb absA absB || (Qeq_bool absA absB && Qle_bool (dot a) (dot other)).

Definition greaterThanOrEqual (a other : t) : bool :=
  let absA := Qabs (distance a) in
  let absB := Qabs (distance other) in
  Qgtb absA absB || (Qeq_bool absA absB && Qgeb (dot a) (dot other)).

End SignedDistance.

(** ** edge/EdgeColor.ts *)

Module EdgeColor.

(** The enumeration is used as a 3-bit number. *)
Definition t : Type := Z.

Definition BLACK : t := 0%Z.
Definition RED : t := 1%Z.
Definition GREEN : t := 2%Z.
Definition YELLOW : t := 3%Z.
Definition BLUE : t := 4%Z.
Definition MAGENTA : t := 5%Z.
Definition CYAN : t := 6%Z.
Definition WHITE : t := 7%Z.

(** A test [if (a & b)]. *)
Definition has (color channel : t) : bool :=
  negb (Z.land color channel =? 0)%Z.

Definition numChannels (color : t) : nat :=
  ((if has color RED then 1 else 0)
   + (if has color GREEN then 1 else 0)
   + (if has color BLUE then 1 else 0))%nat.

Definition intersectColors (a b : t) : t := Z.land a b.
Definition complementColor (color : t) : t := Z.lxor color WHITE.

Definition hasRed (color : t) : bool := negb (Z.land color RED =? 0)%Z.
Definition hasGreen (color : t) : bool := negb (Z.land color GREEN =? 0)%Z.
Definition hasBlue (color : t) : bool := negb (Z.land color BLUE =? 0)%Z.

Definition combineColors (a b : t) : t := Z.lor a b.

End EdgeColor.

(** ** edge/EdgeSegment.ts: results of the edge queries *)

(** [{ x, dy }], the object an edge pushes for a scanline crossing. *)
Definition edgeIntersection (x dy : Q) : jsobj :=
  <[ "x"%string := JNum x ]> (<[ "dy"%string := JNum dy ]> ∅).

(** [nonZeroSign], the same in the three segment files. *)
Definition nonZeroSign (n : Q) : Q := 2 * (if Qgtb n 0 then 1 else 0) - 1.

(** [SignedDistanceResult]: the distance and the parameter. *)
Definition SignedDistanceResult : Type := (SignedDistance.t * Q)%type.

(** [t >= 0 && t <= 1] and [t > 0 && t < 1]. *)
Definition inUnitClosed (t : Q) : bool := Qgeb t 0 && Qle_bool t 1.
Definition inUnitOpen (t : Q) : bool := Qgtb t 0 && Qltb t 1.

(** ** edge/LinearSegment.ts *)

Module LinearSegment.

Record t : Type := mk { p0 : Point2; p1 : Point2; color : EdgeColor.t }.

Definition setColor (e : t) (c : EdgeColor.t) : t := mk (p0 e) (p1 e) c.

Definition point (e : t) (t : Q) : Point2 := Vector2.mix (p0 e) (p1 e) t.

Definition direction (e : t) (_t : Q) : Vector2.t :=
  Vector2.subtract (p1 e) (p0 e).

Definition signedDistance (M : MathOps) (e : t) (origin : Point2)
  : SignedDistanceResult :=
  let aq := Vector2.subtract origin (p0 e) in
  let ab := Vector2.subtract (p1 e) (p0 e) in
  let param := Vector2.dotProduct aq ab / Vector2.dotProduct ab ab in
  let eq := Vector2.subtract (if Qgtb param 0.5 then p1 e else p0 e) origin in
  let endpointDistance := Vector2.length M eq in
  let orthoDistance :=
    Vector2.dotProduct (Vector2.getOrthonormal M ab false false) aq in
  if inUnitOpen param && Qltb (Qabs orthoDistance) endpointDistance then
    (SignedDistance.mk orthoDistance 0, param)
  else
    (SignedDistance.mk
       (nonZeroSign (Vector2.crossProduct aq ab) * endpointDistance)
       (Qabs (Vector2.dotProduct (Vector2.normalize M ab false)
                                 (Vector2.normalize M eq false))),
     param).

Definition scanlineIntersections (e : t) (y : Q) : list jsobj :=
  if (Qgeb y (Vector2.y (p0 e)) && Qltb y (Vector2.y (p1 e)))
     || (Qgeb y (Vector2.y (p1 e)) && Qltb y (Vector2.y (p0 e)))
  then
    let param := (y - Vector2.y (p0 e)) / (Vector2.y (p1 e) - Vector2.y (p0 e)) in
    let x := Vector2.mixQ (Vector2.x (p0 e)) (Vector2.x (p1 e)) param in
    let dy := sign (Vector2.y (p1 e) - Vector2.y (p0 e)) in
    [edgeIntersection x dy]
  else [].

Definition reverse (e : t) : t := mk (p1 e) (p0 e) (color e).

Definition splitInThirds (e : t) : t * t * t :=
  let q0 := p0 e in
  let q1 := point e (1 / 3) in
  let q2 := point e (2 / 3) in
  let q3 := p1 e in
  (mk q0 q1 (color e), mk q1 q2 (color e), mk q2 q3 (color e)).

Definition moveStartPoint (e : t) (to : Point2) : t := mk to (p1 e) (color e).
Definition moveEndPoint (e : t) (to : Point2) : t := mk (p0 e) to (color e).

End LinearSegment.

(** ** edge/QuadraticSegment.ts *)

Module QuadraticSegment.

Record t : Type :=
  mk { p0 : Point2; p1 : Point2; p2 : Point2; color : EdgeColor.t }.

Definition setColor (e : t) (c : EdgeColor.t) : t := mk (p0 e) (p1 e) (p2 e) c.

Definition point (e : t) (t : Q) : Point2 :=
  Vector2.mix (Vector2.mix (p0 e) (p1 e) t) (Vector2.mix (p1 e) (p2 e) t) t.

(** [!tangent.x && !tangent.y]. *)
Definition isZeroVector (v : Vector2.t) : bool :=
  Qeq_bool (Vector2.x v) 0 && Qeq_bool (Vector2.y v) 0.

Definition direction (e : t) (t : Q) : Vector2.t :=
  let tangent :=
    Vector2.mix (Vector2.subtract (p1 e) (p0 e))
                (Vector2.subtract (p2 e) (p1 e)) t in
  if isZeroVector tangent then Vector2.subtract (p2 e) (p0 e)
  else tangent.

(** One pass of the loop over the roots of the derivative. *)
Definition considerRoot (M : MathOps) (qa ab br : Vector2.t)
  (acc : Q * Q) (t : Q) : Q * Q :=
  let '(minDistance, param) := acc in
  if inUnitOpen t then
    let qe := Vector2.add (Vector2.add qa (Vector2.multiply ab (2 * t)))
                          (Vector2.multiply br (t * t)) in
    let distance := Vector2.length M qe in
    if Qle_bool distance (Qabs minDistance) then
      (nonZeroSign
         (Vector2.crossProduct (Vector2.add ab (Vector2.multiply br t)) qe)
       * distance, t)
    else acc
  else acc.

Definition signedDistance (M : MathOps) (e : t) (origin : Point2)
  : SignedDistanceResult :=
  let qa := Vector2.subtract (p0 e) origin in
  let ab := Vector2.subtract (p1 e) (p0 e) in
  let br := Vector2.subtract (Vector2.subtract (p2 e) (p1 e)) ab in
  let a := Vector2.dotProduct br br in
  let b := 3 * Vector2.dotProduct ab br in
  let c := 2 * Vector2.dotProduct ab ab + Vector2.dotProduct qa br in
  let d := Vector2.dotProduct qa ab in
  let solutions := EquationSolver.solveCubic M a b c d in
  let epDir := direction e 0 in
  let minDistance :=
    nonZeroSign (Vector2.crossProduct epDir qa) * Vector2.length M qa in
  let param :=
    - Vector2.dotProduct qa epDir / Vector2.dotProduct epDir epDir in
  let distanceB := Vector2.length M (Vector2.subtract (p2 e) origin) in
  let '(minDistance, param) :=
    if Qltb distanceB (Qabs minDistance) then
      let epDir := direction e 1 in
      (nonZeroSign (Vector2.crossProduct epDir (Vector2.subtract (p2 e) origin))
       * distanceB,
       Vector2.dotProduct (Vector2.subtract origin (p1 e)) epDir
       / Vector2.dotProduct epDir epDir)
    else (minDistance, param) in
  let '(minDistance, param) :=
    fold_left (considerRoot M qa ab br) solutions (minDistance, param) in
  if inUnitClosed param then (SignedDistance.mk minDistance 0, param)
  else if Qltb param 0.5 then
    (SignedDistance.mk minDistance
       (Qabs (Vector2.dotProduct (Vector2.normalize M (direction e 0) false)
                                 (Vector2.normalize M qa false))),
     param)
  else
    (SignedDistance.mk minDistance
       (Qabs (Vector2.dotProduct
                (Vector2.normalize M (direction e 1) false)
                (Vector2.normalize M (Vector2.subtract (p2 e) origin) false))),
     param).

Definition crossingAt (e : t) (t : Q) : list jsobj :=
  if inUnitClosed t then
    let x := Vector2.mixQ
               (Vector2.mixQ (Vector2.x (p0 e)) (Vector2.x (p1 e)) t)
               (Vector2.mixQ (Vector2.x (p1 e)) (Vector2.x (p2 e)) t) t in
    let dy := sign (Vector2.mixQ (Vector2.y (p1 e) - Vector2.y (p0 e))
                                 (Vector2.y (p2 e) - Vector2.y (p1 e)) t) in
    [edgeIntersection x dy]
  else [].

Definition scanlineIntersections (M : MathOps) (e : t) (y : Q) : list jsobj :=
  let a := Vector2.y (p0 e) - 2 * Vector2.y (p1 e) + Vector2.y (p2 e) in
  let b := 2 * (Vector2.y (p1 e) - Vector2.y (p0 e)) in
  let c := Vector2.y (p0 e) - y in
  let solutions := EquationSolver.solveQuadratic M a b c in
  flat_map (crossingAt e) solutions.

Definition reverse (e : t) : t := mk (p2 e) (p1 e) (p0 e) (color e).

Definition splitInThirds (e : t) : t * t * t :=
  let q0 := p0 e in
  let q1 := Vector2.mix (p0 e) (p1 e) (1 / 3) in
  let q2 := point e (1 / 3) in
  let q3 := Vector2.mix (Vector2.mix (p0 e) (p1 e) (5 / 9))
                        (Vector2.mix (p1 e) (p2 e) (4 / 9)) (1 / 2) in
  let q4 := point e (2 / 3) in
  let q5 := Vector2.mix (p1 e) (p2 e) (2 / 3) in
  let q6 := p2 e in
  (mk q0 q1 q2 (color e), mk q2 q3 q4 (color e), mk q4 q5 q6 (color e)).

Definition moveStartPoint (e : t) (to : Point2) : t :=
  let orig := p0 e in
  mk to (Vector2.add (p1 e) (Vector2.subtract to orig)) (p2 e) (color e).

Definition moveEndPoint (e : t) (to : Point2) : t :=
  let orig := p2 e in
  mk (p0 e) (Vector2.add (p1 e) (Vector2.subtract to orig)) to (color e).

End QuadraticSegment.

(** ** edge/CubicSegment.ts *)

Module CubicSegment.

Record t : Type :=
  mk { p0 : Point2; p1 : Point2; p2 : Point2; p3 : Point2;
       color : EdgeColor.t }.

Definition setColor (e : t) (c : EdgeColor.t) : t :=
  mk (p0 e) (p1 e) (p2 e) (p3 e) c.

Definition CUBIC_SEARCH_STARTS : nat := 4.
Definition CUBIC_SEARCH_STEPS : nat := 4.

Definition point (e : t) (t : Q) : Point2 :=
  let p12 := Vector2.mix (p1 e) (p2 e) t in
  Vector2.mix
    (Vector2.mix (Vector2.mix (p0 e) (p1 e) t) p12 t)
    (Vector2.mix p12 (Vector2.mix (p2 e) (p3 e) t) t)
    t.

Definition direction (e : t) (t : Q) : Vector2.t :=
  let tangent :=
    Vector2.mix
      (Vector2.mix (Vector2.subtract (p1 e) (p0 e))
                   (Vector2.subtract (p2 e) (p1 e)) t)
      (Vector2.mix (Vector2.subtract (p2 e) (p1 e))
                   (Vector2.subtract (p3 e) (p2 e)) t)
      t in
  if QuadraticSegment.isZeroVector tangent then
    if Qeq_bool t 0 then Vector2.subtract (p2 e) (p0 e)
    else if Qeq_bool t 1 then Vector2.subtract (p3 e) (p1 e)
    else tangent
  else tangent.

(** The vectors [qe], [d1] and [d2] of the Newton search at [t]. *)
Definition searchQe (qa ab br as_ : Vector2.t) (t : Q) : Vector2.t :=
  Vector2.add
    (Vector2.add (Vector2.add qa (Vector2.multiply ab (3 * t)))
                 (Vector2.multiply br (3 * t * t)))
    (Vector2.multiply as_ (t * t * t)).

Definition searchD1 (ab br as_ : Vector2.t) (t : Q) : Vector2.t :=
  Vector2.add
    (Vector2.add (Vector2.multiply ab 3) (Vector2.multiply br (6 * t)))
    (Vector2.multiply as_ (3 * t * t)).

Definition searchD2 (br as_ : Vector2.t) (t : Q) : Vector2.t :=
  Vector2.add (Vector2.multiply br 6) (Vector2.multiply as_ (6 * t)).

Definition newtonStep (qa ab br as_ : Vector2.t) (t : Q) : Q :=
  let qe := searchQe qa ab br as_ t in
  let d1 := searchD1 ab br as_ t in
  let d2 := searchD2 br as_ t in
  t - Vector2.dotProduct qe d1
      / (Vector2.dotProduct d1 d1 + Vector2.dotProduct qe d2).

(** The [do ... while] loop: [remainingSteps] is the counter before its
    decrement; the result is the last [t] with its [qe] and [d1]. *)
Fixpoint refine (qa ab br as_ : Vector2.t) (remainingSteps : nat)
  (improvedT : Q) : Q * Vector2.t * Vector2.t :=
  let t := improvedT in
  let qe := searchQe qa ab br as_ t in
  let d1 := searchD1 ab br as_ t in
  match remainingSteps with
  | S ((S _) as remaining) =>
      let improvedT := newtonStep qa ab br as_ t in
      if inUnitOpen improvedT then refine qa ab br as_ remaining improvedT
      else (t, qe, d1)
  | _ => (t, qe, d1)
  end.

(** One pass of the loop over the search starts. *)
Definition searchFrom (M : MathOps) (qa ab br as_ : Vector2.t)
  (acc : Q * Q) (i : nat) : Q * Q :=
  let '(minDistance, param) := acc in
  let t := (1 / inject_Z (Z.of_nat CUBIC_SEARCH_STARTS)) * inject_Z (Z.of_nat i) in
  let improvedT := newtonStep qa ab br as_ t in
  if inUnitOpen improvedT then
    let '(t, qe, d1) := refine qa ab br as_ CUBIC_SEARCH_STEPS improvedT in
    let distance := Vector2.length M qe in
    if Qltb distance (Qabs minDistance) then
      (nonZeroSign (Vector2.crossProduct d1 qe) * distance, t)
    else acc
  else acc.

Definition signedDistance (M : MathOps) (e : t) (origin : Point2)
  : SignedDistanceResult :=
  let qa := Vector2.subtract (p0 e) origin in
  let ab := Vector2.subtract (p1 e) (p0 e) in
  let br := Vector2.subtract (Vector2.subtract (p2 e) (p1 e)) ab in
  let as_ :=
    Vector2.subtract
      (Vector2.subtract (Vector2.subtract (p3 e) (p2 e))
                        (Vector2.subtract (p2 e) (p1 e)))
      br in
  let epDir := direction e 0 in
  let minDistance :=
    nonZeroSign (Vector2.crossProduct epDir qa) * Vector2.length M qa in
  let param :=
    - Vector2.dotProduct qa epDir / Vector2.dotProduct epDir epDir in
  let distanceB := Vector2.length M (Vector2.subtract (p3 e) origin) in
  let '(minDistance, param) :=
    if Qltb distanceB (Qabs minDistance) then
      let epDir := direction e 1 in
      (nonZeroSign (Vector2.crossProduct epDir (Vector2.subtract (p3 e) origin))
       * distanceB,
       Vector2.dotProduct
         (Vector2.subtract epDir (Vector2.subtract (p3 e) origin)) epDir
       / Vector2.dotProduct epDir epDir)
    else (minDistance, param) in
  let '(minDistance, param) :=
    fold_left (searchFrom M qa ab br as_)
              (seq 0 (S CUBIC_SEARCH_STARTS)) (minDistance, param) in
  if inUnitClosed param then (SignedDistance.mk minDistance 0, param)
  else if Qltb param 0.5 then
    (SignedDistance.mk minDistance
       (Qabs (Vector2.dotProduct (Vector2.normalize M (direction e 0) false)
                                 (Vector2.normalize M qa false))),
     param)
  else
    (SignedDistance.mk minDistance
       (Qabs (Vector2.dotProduct
                (Vector2.normalize M (direction e 1) false)
                (Vector2.normalize M (Vector2.subtract (p3 e) origin) false))),
     param).

Definition crossingAt (e : t) (t : Q) : list jsobj :=
  if inUnitClosed t then
    let p12x := Vector2.x (Vector2.mix (p1 e) (p2 e) t) in
    let x :=
      Vector2.mixQ
        (Vector2.mixQ (Vector2.mixQ (Vector2.x (p0 e)) (Vector2.x (p1 e)) t) p12x t)
        (Vector2.mixQ p12x (Vector2.mixQ (Vector2.x (p2 e)) (Vector2.x (p3 e)) t) t)
        t in
    let dy :=
      sign (Vector2.mixQ
              (Vector2.mixQ (Vector2.y (p1 e) - Vector2.y (p0 e))
                            (Vector2.y (p2 e) - Vector2.y (p1 e)) t)
              (Vector2.mixQ (Vector2.y (p2 e) - Vector2.y (p1 e))
                            (Vector2.y (p3 e) - Vector2.y (p2 e)) t)
              t) in
    [edgeIntersection x dy]
  else [].

Definition scanlineIntersections (M : MathOps) (e : t) (y : Q) : list jsobj :=
  let a := - Vector2.y (p0 e) + 3 * Vector2.y (p1 e) - 3 * Vector2.y (p2 e)
           + Vector2.y (p3 e) in
  let b := 3 * Vector2.y (p0 e) - 6 * Vector2.y (p1 e) + 3 * Vector2.y (p2 e) in
  let c := -3 * Vector2.y (p0 e) + 3 * Vector2.y (p1 e) in
  let d := Vector2.y (p0 e) - y in
  let solutions := EquationSolver.solveCubic M a b c d in
  flat_map (crossingAt e) solutions.

Definition reverse (e : t) : t := mk (p3 e) (p2 e) (p1 e) (p0 e) (color e).

Definition splitInThirds (e : t) : t * t * t :=
  let t1 := 1 / 3 in
  let p01_1 := Vector2.mix (p0 e) (p1 e) t1 in
  let p12_1 := Vector2.mix (p1 e) (p2 e) t1 in
  let p23_1 := Vector2.mix (p2 e) (p3 e) t1 in
  let p012_1 := Vector2.mix p01_1 p12_1 t1 in
  let p123_1 := Vector2.mix p12_1 p23_1 t1 in
  let p0123_1 := Vector2.mix p012_1 p123_1 t1 in
  let tAdjusted := 0.5 in
  let p01_2 := Vector2.mix p0123_1 p123_1 tAdjusted in
  let p12_2 := Vector2.mix p123_1 p23_1 tAdjusted in
  let p23_2 := Vector2.mix p23_1 (p3 e) tAdjusted in
  let p012_2 := Vector2.mix p01_2 p12_2 tAdjusted in
  let p123_2 := Vector2.mix p12_2 p23_2 tAdjusted in
  let p0123_2 := Vector2.mix p012_2 p123_2 tAdjusted in
  (mk (p0 e) p01_1 p012_1 p0123_1 (color e),
   mk p0123_1 p01_2 p012_2 p0123_2 (color e),
   mk p0123_2 p123_2 p23_2 (p3 e) (color e)).

Definition moveStartPoint (e : t) (to : Point2) : t :=
  mk to (Vector2.add (p1 e) (Vector2.subtract to (p0 e))) (p2 e) (p3 e)
     (color e).

Definition moveEndPoint (e : t) (to : Point2) : t :=
  mk (p0 e) (p1 e) (Vector2.add (p2 e) (Vector2.subtract to (p3 e))) to
     (color e).

End CubicSegment.

(** ** edge/EdgeSegment.ts: the abstract class and its three subclasses *)

Module EdgeSegment.

Inductive t : Type :=
| Linear (e : LinearSegment.t)
| Quadratic (e : QuadraticSegment.t)
| Cubic (e : CubicSegment.t).

Definition color (e : t) : EdgeColor.t :=
  match e with
  | Linear s => LinearSegment.color s
  | Quadratic s => QuadraticSegment.color s
  | Cubic s => CubicSegment.color s
  end.

(** [edge.color = c]. *)
Definition setColor (e : t) (c : EdgeColor.t) : t :=
  match e with
  | Linear s => Linear (LinearSegment.setColor s c)
  | Quadratic s => Quadratic (QuadraticSegment.setColor s c)
  | Cubic s => Cubic (CubicSegment.setColor s c)
  end.

Definition point (e : t) (t : Q) : Point2 :=
  match e with
  | Linear s => LinearSegment.point s t
  | Quadratic s => QuadraticSegment.point s t
  | Cubic s => CubicSegment.point s t
  end.

Definition direction (e : t) (t : Q) : Vector2.t :=
  match e with
  | Linear s => LinearSegment.direction s t
  | Quadratic s => QuadraticSegment.direction s t
  | Cubic s => CubicSegment.direction s t
  end.

Definition signedDistance (M : MathOps) (e : t) (origin : Point2)
  : SignedDistanceResult :=
  match e with
  | Linear s => LinearSegment.signedDistance M s origin
  | Quadratic s => QuadraticSegment.signedDistance M s origin
  | Cubic s => CubicSegment.signedDistance M s origin
  end.

Definition scanlineIntersections (M : MathOps) (e : t) (y : Q) : list jsobj :=
  match e with
  | Linear s => LinearSegment.scanlineIntersections s y
  | Quadratic s => QuadraticSegment.scanlineIntersections M s y
  | Cubic s => CubicSegment.scanlineIntersections M s y
  end.

Definition reverse (e : t) : t :=
  match e with
  | Linear s => Linear (LinearSegment.reverse s)
  | Quadratic s => Quadratic (QuadraticSegment.reverse s)
  | Cubic s => Cubic (CubicSegment.reverse s)
  end.

Definition splitInThirds (e : t) : t * t * t :=
  match e with
  | Linear s =>
      let '(a, b, c) := LinearSegment.splitInThirds s in
      (Linear a, Linear b, Linear c)
  | Quadratic s =>
      let '(a, b, c) := QuadraticSegment.splitInThirds s in
      (Quadratic a, Quadratic b, Quadratic c)
  | Cubic s =>
      let '(a, b, c) := CubicSegment.splitInThirds s in
      (Cubic a, Cubic b, Cubic c)
  end.

Definition moveStartPoint (e : t) (to : Point2) : t :=
  match e with
  | Linear s => Linear (LinearSegment.moveStartPoint s to)
  | Quadratic s => Quadratic (QuadraticSegment.moveStartPoint s to)
  | Cubic s => Cubic (CubicSegment.moveStartPoint s to)
  end.

Definition moveEndPoint (e : t) (to : Point2) : t :=
  match e with
  | Linear s => Linear (LinearSegment.moveEndPoint s to)
  | Quadratic s => Quadratic (QuadraticSegment.moveEndPoint s to)
  | Cubic s => Cubic (CubicSegment.moveEndPoint s to)
  end.

(** The default of the base class, which no subclass overrides. *)
Definition distanceToPerpendicularDistance (M : MathOps) (e : t)
  (distance : SignedDistance.t) (origin : Point2) (param : Q)
  : SignedDistance.t :=
  if Qltb param 0.0001 || Qgtb param 0.9999 then
    let dir := if Qltb param 0.5 then direction e 0 else direction e 1 in
    let dirNorm := Vector2.normalize M dir true in
    let aq := Vector2.subtract origin (point e param) in
    let ts := Vector2.dotProduct aq dirNorm in
    let pseudoDistance := Vector2.crossProduct aq dirNorm in
    if Qltb (Qabs pseudoDistance) (Qabs (SignedDistance.distance distance))
    then SignedDistance.mk pseudoDistance ts
    else distance
  else distance.

End EdgeSegment.

(** ** shape/EdgeHolder.ts, shape/Contour.ts, shape/Shape.ts *)

(** An [EdgeHolder] holds a segment or [null]. *)
Definition EdgeHolder : Type := option EdgeSegment.t.

Module Contour.

Record t : Type := mk { edges : list EdgeHolder }.

Definition shoelace (a b : Point2) : Q :=
  (Vector2.x b - Vector2.x a) * (Vector2.y a + Vector2.y b).

(** [edges.map(h => h.get())]: [None] when some [get()] throws. *)
Fixpoint getAll (hs : list EdgeHolder) : option (list EdgeSegment.t) :=
  match hs with
  | [] => Some []
  | None :: _ => None
  | Some e :: hs' =>
      match getAll hs' with
      | Some es => Some (e :: es)
      | None => None
      end
  end.

(** The loop of the general case of [winding]: [prev] is carried from
    one edge to the next. *)
Fixpoint windingLoop (hs : list EdgeHolder) (prev : Point2) (total : Q)
  : option Q :=
  match hs with
  | [] => Some total
  | None :: _ => None
  | Some edge :: hs' =>
      let cur := EdgeSegment.point edge 0 in
      windingLoop hs' cur (total + shoelace prev cur)
  end.

(** The sum whose sign [winding] returns; [None] when [get()] throws on
    an empty holder. *)
Definition windingTotal (c : t) : option Q :=
  match edges c with
  | [] => Some 0
  | [h0] =>
      match h0 with
      | Some edge =>
          let a := EdgeSegment.point edge 0 in
          let b := EdgeSegment.point edge (1 / 3) in
          let c := EdgeSegment.point edge (2 / 3) in
          Some (0 + shoelace a b + shoelace b c + shoelace c a)
      | None => None
      end
  | [h0; h1] =>
      match h0, h1 with
      | Some edge0, Some edge1 =>
          let a := EdgeSegment.point edge0 0 in
          let b := EdgeSegment.point edge0 0.5 in
          let c := EdgeSegment.point edge1 0 in
          let d := EdgeSegment.point edge1 0.5 in
          Some (0 + shoelace a b + shoelace b c + shoelace c d + shoelace d a)
      | _, _ => None
      end
  | hs =>
      match last hs with
      | Some (Some lastEdge) =>
          windingLoop hs (EdgeSegment.point lastEdge 0) 0
      | _ => None
      end
  end.

Definition winding (c : t) : option Q :=
  match windingTotal c with
  | Some total => Some (sign total)
  | None => None
  end.

(** Every held edge is reversed, then the array is. *)
Definition reverse (c : t) : t :=
  mk (rev (List.map (option_map EdgeSegment.reverse) (edges c))).

End Contour.

Module Shape.

Record t : Type := mk { contours : list Contour.t; inverseYAxis : bool }.

(** The enumeration [YAxisOrientation]: TOP_UP = 1, TOP_DOWN = -1. *)
Definition TOP_UP : Z := 1%Z.
Definition TOP_DOWN : Z := (-1)%Z.

Definition getYAxisOrientation (s : t) : Z :=
  if inverseYAxis s then TOP_DOWN else TOP_UP.

(** The loop of [normalize]; [None] when [winding] throws. *)
Fixpoint normalizeContours (cs : list Contour.t) : option (list Contour.t) :=
  match cs with
  | [] => Some []
  | contour :: cs' =>
      match Contour.winding contour with
      | None => None
      | Some w =>
          let contour' := if Qltb w 0 then Contour.reverse contour else contour in
          match normalizeContours cs' with
          | Some r => Some (contour' :: r)
          | None => None
          end
      end
  end.

Definition normalize (s : t) : option t :=
  match normalizeContours (contours s) with
  | Some cs => Some (mk cs (inverseYAxis s))
  | None => None
  end.

End Shape.

(** ** edge-coloring/edge-coloring.ts *)

Module EdgeColoring.

Definition EDGE_LENGTH_PRECISION : nat := 4.

Definition symmetricalTrichotomy (position n : nat) : Z :=
  (Qfloor (3 + 2.875 * inject_Z (Z.of_nat position) / (inject_Z (Z.of_nat n) - 1)
           - 1.4375 + 0.5) - 3)%Z.

(** The total over the positions 0 .. n-1, which the comment of the
    function announces as zero. *)
Definition trichotomyTotal (n : nat) : Z :=
  fold_right Z.add 0%Z (List.map (fun i => symmetricalTrichotomy i n) (seq 0 n)).

Definition isCorner (aDir bDir : Vector2.t) (crossThreshold : Q) : bool :=
  Qle_bool (Vector2.dotProduct aDir bDir) 0
  || Qgtb (Qabs (Vector2.crossProduct aDir bDir)) crossThreshold.

Definition estimateEdgeLength (M : MathOps) (edge : EdgeSegment.t) : Q :=
  fst (fold_left
         (fun (acc : Q * Point2) (i : nat) =>
            let '(len, prev) := acc in
            let cur :=
              EdgeSegment.point
                edge (inject_Z (Z.of_nat i)
                      / inject_Z (Z.of_nat EDGE_LENGTH_PRECISION)) in
            (len + Vector2.length M (Vector2.subtract cur prev), cur))
         (seq 1 EDGE_LENGTH_PRECISION)
         (0, EdgeSegment.point edge 0)).

(** The seed is a [bigint], of either sign.  On bigints [&] and [>>]
    work on the two's complement (as [Z.land] and [Z.shiftr] do), [%]
    takes the sign of the dividend ([Z.rem]) and [/] rounds towards zero
    ([Z.quot]).  Each extraction returns the value and the seed that is
    left; the bit is 0 or 1 for every seed, the trit lies in -2 .. 2. *)
Definition seedExtract2 (seed : Z) : nat * Z :=
  (Z.to_nat (Z.land seed 1), Z.shiftr seed 1).

Definition seedExtract3 (seed : Z) : Z * Z :=
  (Z.rem seed 3, Z.quot seed 3).

(** [colors[k]] on an array of colors.  An index outside the array
    reads [undefined]: [initColor] gets one for a seed whose remainder by
    3 is negative.  The running color is then [undefined] until the
    first [switchColor], which every branch of the colorings calls
    before it paints an edge, and there it is an operand of [&] and [<<],
    which convert it to 0: BLACK, which is 0, stands for it. *)
Definition colorAt (colors : list EdgeColor.t) (k : Z) : EdgeColor.t :=
  if (k <? 0)%Z then EdgeColor.BLACK
  else nth (Z.to_nat k) colors EdgeColor.BLACK.

(** [initColor] reads [colors[seed % 3n]]: the seed gives a color when
    the remainder is not negative, as it is for every seed from 0 on. *)
Definition seedGivesColor (seed : Z) : Prop := (0 <= Z.rem seed 3)%Z.

Definition initColor (seed : Z) : EdgeColor.t * Z :=
  let colors := [EdgeColor.CYAN; EdgeColor.MAGENTA; EdgeColor.YELLOW] in
  let '(v, seed) := seedExtract3 seed in
  (colorAt colors v, seed).

(** The second half of [switchColor]: a rotation of the three bits by
    one or two places. *)
Definition rotateColor (seed : Z) (currentColor : EdgeColor.t)
  : EdgeColor.t * Z :=
  let '(bit, seed) := seedExtract2 seed in
  let shifted := Z.shiftl currentColor (1 + Z.of_nat bit) in
  (Z.land (Z.lor shifted (Z.shiftr shifted 3)) EdgeColor.WHITE, seed).

Definition switchColor (seed : Z) (currentColor : EdgeColor.t)
  (banned : option EdgeColor.t) : EdgeColor.t * Z :=
  match banned with
  | Some banned =>
      let combined := Z.land currentColor banned in
      if (combined =? EdgeColor.RED)%Z || (combined =? EdgeColor.GREEN)%Z
         || (combined =? EdgeColor.BLUE)%Z
      then (Z.lxor combined EdgeColor.WHITE, seed)
      else rotateColor seed currentColor
  | None => rotateColor seed currentColor
  end.

(** The loop that identifies the corners of a contour. *)
Fixpoint cornerLoop (M : MathOps) (crossThreshold : Q)
  (es : list EdgeSegment.t) (prevDirection : Vector2.t) (index : nat)
  : list nat :=
  match es with
  | [] => []
  | edge :: es' =>
      let rest :=
        cornerLoop M crossThreshold es' (EdgeSegment.direction edge 1) (S index) in
      if isCorner (Vector2.normalize M prevDirection true)
                  (Vector2.normalize M (EdgeSegment.direction edge 0) true)
                  crossThreshold
      then index :: rest
      else rest
  end.

Definition findCorners (M : MathOps) (crossThreshold : Q)
  (es : list EdgeSegment.t) : list nat :=
  match last es with
  | Some lastEdge =>
      cornerLoop M crossThreshold es (EdgeSegment.direction lastEdge 1) 0
  | None => []
  end.

(** [edge.color = color] at every edge. *)
Definition paintAll (color : EdgeColor.t) (es : list EdgeSegment.t)
  : list EdgeSegment.t :=
  List.map (fun e => EdgeSegment.setColor e color) es.

(** The loops of the shape
    [for (let i = 0; i < m; i++) { ...; contour.edges[(start + i) % m].get().color = color; }].
    [body i st] is what the loop computes at [i] before it paints: the
    state it leaves and the color it paints.  [paintLoop ... k] is the
    state and the edges after the iterations 0 .. k-1. *)
Fixpoint paintLoop {St : Type} (body : nat -> St -> St * EdgeColor.t)
  (start m : nat) (st0 : St) (es0 : list EdgeSegment.t) (k : nat)
  : St * list EdgeSegment.t :=
  match k with
  | O => (st0, es0)
  | S i =>
      let '(st, es) := paintLoop body start m st0 es0 i in
      let '(st, color) := body i st in
      (st, alter (fun e => EdgeSegment.setColor e color)
                 ((start + i) mod m)%nat es)
  end.

(** [parts[k]!.color = color] on the array of thirds. *)
Definition paintPart (color : EdgeColor.t) (k : nat)
  (parts : list (option EdgeSegment.t)) : list (option EdgeSegment.t) :=
  alter (option_map (fun e => EdgeSegment.setColor e color)) k parts.

(** The teardrop of one or two edges: the array [parts] once the
    thirds of the edges are stored in it.  [corner] is 0 or 1, so
    every index lies in the array of 7. *)
Definition splitParts (es : list EdgeSegment.t) (corner : nat)
  : list (option EdgeSegment.t) :=
  match es with
  | [] => replicate 7 None
  | edge0 :: rest =>
      let parts : list (option EdgeSegment.t) := replicate 7 None in
      let '(a0, a1, a2) := EdgeSegment.splitInThirds edge0 in
      let parts := <[ (0 + 3 * corner)%nat := Some a0 ]> parts in
      let parts := <[ (1 + 3 * corner)%nat := Some a1 ]> parts in
      let parts := <[ (2 + 3 * corner)%nat := Some a2 ]> parts in
      match rest with
      | edge1 :: _ =>
          let '(b0, b1, b2) := EdgeSegment.splitInThirds edge1 in
          let parts := <[ (3 - 3 * corner)%nat := Some b0 ]> parts in
          let parts := <[ (4 - 3 * corner)%nat := Some b1 ]> parts in
          <[ (5 - 3 * corner)%nat := Some b2 ]> parts
      | [] => parts
      end
  end.

(** The thirds are colored and replace the edges. *)
Definition splitTeardrop (es : list EdgeSegment.t) (corner : nat)
  (colors : list EdgeColor.t) : list EdgeSegment.t :=
  let parts := splitParts es corner in
  match es with
  | [] => []
  | _ :: _ :: _ =>
      let parts := paintPart (colorAt colors 0) 1 parts in
      let parts := paintPart (colorAt colors 0) 0 parts in
      let parts := paintPart (colorAt colors 1) 3 parts in
      let parts := paintPart (colorAt colors 1) 2 parts in
      let parts := paintPart (colorAt colors 2) 5 parts in
      let parts := paintPart (colorAt colors 2) 4 parts in
      omap id parts
  | [_] =>
      let parts := paintPart (colorAt colors 0) 0 parts in
      let parts := paintPart (colorAt colors 1) 1 parts in
      let parts := paintPart (colorAt colors 2) 2 parts in
      omap id parts
  end.

(** The teardrop case, common to edgeColoringSimple and
    edgeColoringInkTrap. *)
Definition colorTeardrop (st : EdgeColor.t * Z) (corner : nat)
  (es : list EdgeSegment.t) : list EdgeSegment.t * (EdgeColor.t * Z) :=
  let '(color, seed) := st in
  let '(color, seed) := switchColor seed color None in
  let c0 := color in
  let '(color, seed) := switchColor seed color None in
  let colors := [c0; EdgeColor.WHITE; color] in
  let m := length es in
  if (3 <=? m)%nat then
    (snd (paintLoop
            (fun i (st : unit) =>
               (st, colorAt colors (1 + symmetricalTrichotomy i m)))
            corner m tt es m),
     (color, seed))
  else (splitTeardrop es corner colors, (color, seed)).

(** The state of the loop over a contour with several corners. *)
Record SplineState : Type :=
  mkSplineState { spline : nat; splineColor : EdgeColor.t; splineSeed : Z }.

(** The step to the next spline: the color is switched, and the color
    of the first spline is banned for the last one. *)
Definition advanceSpline (cornerCount : nat) (initialColor : EdgeColor.t)
  (st : SplineState) : SplineState :=
  let spline := (spline st + 1)%nat in
  let bannedColor :=
    if (spline =? cornerCount - 1)%nat then initialColor else EdgeColor.BLACK in
  let '(color, seed) :=
    switchColor (splineSeed st) (splineColor st) (Some bannedColor) in
  mkSplineState spline color seed.

(** What that loop does at [i] before it paints. *)
Definition nextSpline (corners : list nat) (start m : nat)
  (initialColor : EdgeColor.t) (i : nat) (st : SplineState)
  : SplineState * EdgeColor.t :=
  let cornerCount := length corners in
  let idx := ((start + i) mod m)%nat in
  if (spline st + 1 <? cornerCount)%nat
     && (nth (spline st + 1) corners 0 =? idx)%nat
  then
    let st := advanceSpline cornerCount initialColor st in
    (st, splineColor st)
  else (st, splineColor st).

(** One pass of the loop of [edgeColoringSimple] over the contours, on
    the edges of a contour that has some. *)
Definition colorEdgesSimple (M : MathOps) (crossThreshold : Q)
  (st : EdgeColor.t * Z) (es : list EdgeSegment.t)
  : list EdgeSegment.t * (EdgeColor.t * Z) :=
  let corners := findCorners M crossThreshold es in
  match corners with
  | [] =>
      let '(color, seed) := st in
      let '(color, seed) := switchColor seed color None in
      (paintAll color es, (color, seed))
  | [corner] => colorTeardrop st corner es
  | start :: _ =>
      let '(color, seed) := st in
      let m := length es in
      let '(color, seed) := switchColor seed color None in
      let initialColor := color in
      let '(st, es) :=
        paintLoop (nextSpline corners start m initialColor)
                  start m (mkSplineState 0 color seed) es m in
      (es, (splineColor st, splineSeed st))
  end.

(** The loop over the contours; [color] and [seed] pass from a contour
    to the next.  [None]: a [get()] threw on an empty holder. *)
Fixpoint colorContours
  (colorEdges : EdgeColor.t * Z -> list EdgeSegment.t ->
                list EdgeSegment.t * (EdgeColor.t * Z))
  (st : EdgeColor.t * Z) (contours : list Contour.t)
  : option (list Contour.t) :=
  match contours with
  | [] => Some []
  | contour :: contours' =>
      match Contour.edges contour with
      | [] =>
          match colorContours colorEdges st contours' with
          | Some r => Some (contour :: r)
          | None => None
          end
      | _ =>
          match Contour.getAll (Contour.edges contour) with
          | None => None
          | Some es =>
              let '(es, st) := colorEdges st es in
              match colorContours colorEdges st contours' with
              | Some r => Some (Contour.mk (List.map Some es) :: r)
              | None => None
              end
          end
      end
  end.

Definition edgeColoringSimple (M : MathOps) (shape : Shape.t)
  (angleThreshold : Q) (seed : Z) : option Shape.t :=
  let crossThreshold := sin M angleThreshold in
  match colorContours (colorEdgesSimple M crossThreshold) (initColor seed)
                      (Shape.contours shape) with
  | Some contours => Some (Shape.mk contours (Shape.inverseYAxis shape))
  | None => None
  end.

(** *** edgeColoringInkTrap *)

Record InkTrapCorner : Type :=
  mkCorner {
    index : nat;
    prevEdgeLengthEstimate : Q;
    minor : bool;
    cornerColor : EdgeColor.t
  }.

(** [corners[k]]; every read lies in the array, and [noCorner] only
    completes the function. *)
Definition noCorner : InkTrapCorner := mkCorner 0 0 false EdgeColor.BLACK.

Definition cornerAt (corners : list InkTrapCorner) (k : nat) : InkTrapCorner :=
  nth k corners noCorner.

Definition addLength (splineLength : Q) (c : InkTrapCorner) : InkTrapCorner :=
  mkCorner (index c) (prevEdgeLengthEstimate c + splineLength) (minor c)
           (cornerColor c).

Definition setMinor (c : InkTrapCorner) : InkTrapCorner :=
  mkCorner (index c) (prevEdgeLengthEstimate c) true (cornerColor c).

Definition setCornerColor (color : EdgeColor.t) (c : InkTrapCorner)
  : InkTrapCorner :=
  mkCorner (index c) (prevEdgeLengthEstimate c) (minor c) color.

(** The loop that identifies the corners and measures the splines
    before them; it returns the corners and the length left over. *)
Fixpoint inkTrapCornerLoop (M : MathOps) (crossThreshold : Q)
  (es : list EdgeSegment.t) (prevDirection : Vector2.t) (index : nat)
  (splineLength : Q) : list InkTrapCorner * Q :=
  match es with
  | [] => ([], splineLength)
  | edge :: es' =>
      if isCorner (Vector2.normalize M prevDirection true)
                  (Vector2.normalize M (EdgeSegment.direction edge 0) true)
                  crossThreshold
      then
        let '(rest, len) :=
          inkTrapCornerLoop M crossThreshold es' (EdgeSegment.direction edge 1)
                            (S index) (0 + estimateEdgeLength M edge) in
        (mkCorner index splineLength false EdgeColor.BLACK :: rest, len)
      else
        inkTrapCornerLoop M crossThreshold es' (EdgeSegment.direction edge 1)
                          (S index) (splineLength + estimateEdgeLength M edge)
  end.

Definition findInkTrapCorners (M : MathOps) (crossThreshold : Q)
  (es : list EdgeSegment.t) : list InkTrapCorner * Q :=
  match last es with
  | Some lastEdge =>
      inkTrapCornerLoop M crossThreshold es (EdgeSegment.direction lastEdge 1) 0 0
  | None => ([], 0)
  end.

(** One iteration of the loop that identifies the minor corners. *)
Definition markMinor (cornerCount : nat) (st : list InkTrapCorner * Z)
  (i : nat) : list InkTrapCorner * Z :=
  let '(corners, majorCornerCount) := st in
  let prev := prevEdgeLengthEstimate (cornerAt corners i) in
  let next := prevEdgeLengthEstimate (cornerAt corners ((i + 1) mod cornerCount)) in
  let nextNext :=
    prevEdgeLengthEstimate (cornerAt corners ((i + 2) mod cornerCount)) in
  if Qgtb prev next && Qltb next nextNext
  then (alter setMinor ((i + 1) mod cornerCount)%nat corners,
        (majorCornerCount - 1)%Z)
  else st.

Record MajorState : Type :=
  mkMajorState {
    msCorners : list InkTrapCorner;
    msMajorCornerCount : Z;
    msColor : EdgeColor.t;
    msSeed : Z;
    msInitialColor : EdgeColor.t
  }.

(** One iteration of the loop that colors the major corners. *)
Definition colorMajor (st : MajorState) (i : nat) : MajorState :=
  if negb (minor (cornerAt (msCorners st) i)) then
    let majorCornerCount := (msMajorCornerCount st - 1)%Z in
    let bannedColor :=
      if (majorCornerCount =? 0)%Z then msInitialColor st else EdgeColor.BLACK in
    let '(color, seed) := switchColor (msSeed st) (msColor st) (Some bannedColor) in
    mkMajorState (alter (setCornerColor color) i (msCorners st))
                 majorCornerCount color seed
                 (if (msInitialColor st =? EdgeColor.BLACK)%Z
                  then color else msInitialColor st)
  else st.

(** One iteration of the loop that colors the minor corners. *)
Definition colorMinor (cornerCount : nat)
  (st : list InkTrapCorner * EdgeColor.t) (i : nat)
  : list InkTrapCorner * EdgeColor.t :=
  let '(corners, color) := st in
  if minor (cornerAt corners i) then
    let nextColor := cornerColor (cornerAt corners ((i + 1) mod cornerCount)) in
    (alter (setCornerColor (Z.lxor (Z.land color nextColor) EdgeColor.WHITE))
           i corners,
     color)
  else (corners, cornerColor (cornerAt corners i)).

(** The colors of the corners of a contour with several corners. *)
Definition colorInkTrapCorners (corners : list InkTrapCorner)
  (splineLength : Q) (st : EdgeColor.t * Z)
  : list InkTrapCorner * (EdgeColor.t * Z) :=
  let '(color, seed) := st in
  let cornerCount := length corners in
  let '(corners, majorCornerCount) :=
    if (3 <? cornerCount)%nat then
      fold_left (markMinor cornerCount) (seq 0 cornerCount)
                (alter (addLength splineLength) 0%nat corners,
                 Z.of_nat cornerCount)
    else (corners, Z.of_nat cornerCount) in
  let st :=
    fold_left colorMajor (seq 0 cornerCount)
              (mkMajorState corners majorCornerCount color seed EdgeColor.BLACK) in
  let '(corners, color) :=
    fold_left (colorMinor cornerCount) (seq 0 cornerCount)
              (msCorners st, msColor st) in
  (corners, (color, msSeed st)).

(** What the loop that applies the colors does at [i] before it
    paints; the state is [spline] and [color]. *)
Definition nextInkTrapSpline (corners : list InkTrapCorner) (start m : nat)
  (i : nat) (st : nat * EdgeColor.t) : (nat * EdgeColor.t) * EdgeColor.t :=
  let idx := ((start + i) mod m)%nat in
  if (fst st + 1 <? length corners)%nat
     && (index (cornerAt corners (fst st + 1)) =? idx)%nat
  then
    let color := cornerColor (cornerAt corners (fst st + 1)) in
    ((fst st + 1, color)%nat, color)
  else (st, snd st).

(** The case of several corners: the corners are colored, then the
    colors are applied to the edges. *)
Definition colorInkTrapSplines (corners : list InkTrapCorner)
  (splineLength : Q) (st : EdgeColor.t * Z) (es : list EdgeSegment.t)
  : list EdgeSegment.t * (EdgeColor.t * Z) :=
  let '(corners, (color, seed)) :=
    colorInkTrapCorners corners splineLength st in
  let start := index (cornerAt corners 0) in
  let color := cornerColor (cornerAt corners 0) in
  let m := length es in
  let '((_, color), es) :=
    paintLoop (nextInkTrapSpline corners start m) start m
              (0%nat, color) es m in
  (es, (color, seed)).

Definition colorEdgesInkTrap (M : MathOps) (crossThreshold : Q)
  (st : EdgeColor.t * Z) (es : list EdgeSegment.t)
  : list EdgeSegment.t * (EdgeColor.t * Z) :=
  let '(corners, splineLength) := findInkTrapCorners M crossThreshold es in
  match corners with
  | [] =>
      let '(color, seed) := st in
      let '(color, seed) := switchColor seed color None in
      (paintAll color es, (color, seed))
  | [corner] => colorTeardrop st (index corner) es
  | _ => colorInkTrapSplines corners splineLength st es
  end.

Definition edgeColoringInkTrap (M : MathOps) (shape : Shape.t)
  (angleThreshold : Q) (seed : Z) : option Shape.t :=
  let crossThreshold := sin M angleThreshold in
  match colorContours (colorEdgesInkTrap M crossThreshold) (initColor seed)
                      (Shape.contours shape) with
  | Some contours => Some (Shape.mk contours (Shape.inverseYAxis shape))
  | None => None
  end.

(** *** edgeColoringByDistance: the splines

    [edgeSegments] holds references to edge objects of the shape; the
    colors are written through them at the end.  Here a contour under
    segmentation is a list of slots: an edge that is already final
    (painted WHITE), or the place of the edge in [edgeSegments]. *)

Definition EDGE_DISTANCE_PRECISION : nat := 16.
Definition MAX_RECOLOR_STEPS : nat := 16.

Inductive Slot : Type :=
  | Kept (e : EdgeSegment.t)
  | Ref (k : nat).

Record Segmentation : Type :=
  mkSegmentation {
    edgeSegments : list EdgeSegment.t;
    splineStarts : list nat
  }.

(** [splineStarts.push(edgeSegments.length)] *)
Definition pushStart (seg : Segmentation) : Segmentation :=
  mkSegmentation (edgeSegments seg)
                 (splineStarts seg ++ [length (edgeSegments seg)]).

(** [edgeSegments.push(contour.edges[idx].get())]; [idx] always lies in
    the contour. *)
Definition pushEdgeAt (es : list EdgeSegment.t) (idx : nat)
  (st : Segmentation * list Slot) : Segmentation * list Slot :=
  let '(seg, slots) := st in
  match es !! idx with
  | Some e =>
      (mkSegmentation (edgeSegments seg ++ [e]) (splineStarts seg),
       <[ idx := Ref (length (edgeSegments seg)) ]> slots)
  | None => st
  end.

(** [contour.edges[idx].get().color = EdgeColor.WHITE] *)
Definition keepWhite (es : list EdgeSegment.t) (idx : nat)
  (slots : list Slot) : list Slot :=
  match es !! idx with
  | Some e => <[ idx := Kept (EdgeSegment.setColor e EdgeColor.WHITE) ]> slots
  | None => slots
  end.

(** One iteration of the loop over a teardrop of three edges or more. *)
Definition segmentTeardropStep (es : list EdgeSegment.t) (corner m : nat)
  (st : Segmentation * list Slot) (i : nat) : Segmentation * list Slot :=
  let st := if (i =? m / 2)%nat then (pushStart (fst st), snd st) else st in
  let tri := symmetricalTrichotomy i m in
  if negb (tri =? 0)%Z then pushEdgeAt es ((corner + i) mod m) st
  else (fst st, keepWhite es ((corner + i) mod m) (snd st)).

(** The teardrop of one or two edges; [None]: a part is [null], which
    makes the function throw (there is none when [corner] lies in the
    contour). *)
Definition segmentSplitTeardrop (es : list EdgeSegment.t) (corner : nat)
  (seg : Segmentation) : option (Segmentation * list Slot) :=
  let parts := splitParts es corner in
  let k := length (edgeSegments seg) in
  let white := fun e => Kept (EdgeSegment.setColor e EdgeColor.WHITE) in
  match es with
  | [] => Some (seg, [])
  | _ :: _ :: _ =>
      match parts with
      | Some q0 :: Some q1 :: Some q2 :: Some q3 :: Some q4 :: Some q5 :: _ =>
          Some (mkSegmentation
                  (edgeSegments seg ++ [q0; q1] ++ [q4; q5])
                  (splineStarts seg ++ [(k + 2)%nat]),
                [Ref k; Ref (k + 1); white q2; white q3;
                 Ref (k + 2); Ref (k + 3)])
      | _ => None
      end
  | [_] =>
      match parts with
      | Some q0 :: Some q1 :: Some q2 :: _ =>
          Some (mkSegmentation
                  (edgeSegments seg ++ [q0] ++ [q2])
                  (splineStarts seg ++ [(k + 1)%nat]),
                [Ref k; white q1; Ref (k + 1)])
      | _ => None
      end
  end.

(** One iteration of the loop over a contour with several corners; the
    state holds [spline] as well. *)
Definition segmentSplineStep (es : list EdgeSegment.t) (corners : list nat)
  (start m : nat) (st : Segmentation * list Slot * nat) (i : nat)
  : Segmentation * list Slot * nat :=
  let '(seg, slots, spline) := st in
  let idx := ((start + i) mod m)%nat in
  let '(seg, spline) :=
    if (spline + 1 <? length corners)%nat
       && (nth (spline + 1) corners 0 =? idx)%nat
    then (pushStart seg, (spline + 1)%nat) else (seg, spline) in
  (pushEdgeAt es idx (seg, slots), spline).

(** One pass of the loop over the contours, on the edges of a contour
    that has some. *)
Definition segmentContour (M : MathOps) (crossThreshold : Q)
  (seg : Segmentation) (es : list EdgeSegment.t)
  : option (Segmentation * list Slot) :=
  let corners := findCorners M crossThreshold es in
  let seg := pushStart seg in
  let m := length es in
  match corners with
  | [] =>
      Some (mkSegmentation (edgeSegments seg ++ es) (splineStarts seg),
            List.map Ref (seq (length (edgeSegments seg)) m))
  | [corner] =>
      if (3 <=? m)%nat then
        Some (fold_left (segmentTeardropStep es corner m) (seq 0 m)
                        (seg, List.map Kept es))
      else segmentSplitTeardrop es corner seg
  | start :: _ =>
      Some (fst (fold_left (segmentSplineStep es corners start m) (seq 0 m)
                           (seg, List.map Kept es, 0%nat)))
  end.

(** The loop over the contours.  [None]: the function throws. *)
Fixpoint segmentContours (M : MathOps) (crossThreshold : Q)
  (seg : Segmentation) (contours : list Contour.t)
  : option (Segmentation * list (list Slot)) :=
  match contours with
  | [] => Some (seg, [])
  | contour :: contours' =>
      match Contour.edges contour with
      | [] =>
          match segmentContours M crossThreshold seg contours' with
          | Some (seg, r) => Some (seg, [] :: r)
          | None => None
          end
      | _ =>
          match Contour.getAll (Contour.edges contour) with
          | None => None
          | Some es =>
              match segmentContour M crossThreshold seg es with
              | None => None
              | Some (seg, slots) =>
                  match segmentContours M crossThreshold seg contours' with
                  | Some (seg, r) => Some (seg, slots :: r)
                  | None => None
                  end
              end
          end
      end
  end.

(** *** edgeColoringByDistance: the distances *)

Definition edgeToEdgeDistance (M : MathOps) (a b : EdgeSegment.t)
  (precision : nat) : Q :=
  let a0 := EdgeSegment.point a 0 in
  let a1 := EdgeSegment.point a 1 in
  let b0 := EdgeSegment.point b 0 in
  let b1 := EdgeSegment.point b 1 in
  if Vector2.equals a0 b0 || Vector2.equals a0 b1
     || Vector2.equals a1 b0 || Vector2.equals a1 b1
  then 0
  else
    let iFac := 1 / inject_Z (Z.of_nat precision) in
    let minDistance := Vector2.length M (Vector2.subtract b0 a0) in
    let minDistance :=
      fold_left
        (fun minDistance i =>
           let t := iFac * inject_Z (Z.of_nat i) in
           let d :=
             Qabs (SignedDistance.distance
                     (fst (EdgeSegment.signedDistance
                             M a (EdgeSegment.point b t)))) in
           Qmin minDistance d)
        (seq 0 (S precision)) minDistance in
    fold_left
      (fun minDistance i =>
         let t := iFac * inject_Z (Z.of_nat i) in
         let d :=
           Qabs (SignedDistance.distance
                   (fst (EdgeSegment.signedDistance
                           M b (EdgeSegment.point a t)))) in
         Qmin minDistance d)
      (seq 0 (S precision)) minDistance.

(** The edges [edgeSegments[from]] .. [edgeSegments[to - 1]]. *)
Definition splineEdges (edgeSegments : list EdgeSegment.t) (from to : nat)
  : list EdgeSegment.t :=
  take (to - from) (drop from edgeSegments).

(** The inner loop ends when [minDistance > 0] fails; [minDistance] does
    not change after that. *)
Definition splineToSplineDistance (M : MathOps)
  (edgeSegments : list EdgeSegment.t) (aStart aEnd bStart bEnd : nat)
  (precision : nat) : Q :=
  fold_left
    (fun minDistance a =>
       fold_left
         (fun minDistance b =>
            if Qgtb minDistance 0
            then Qmin minDistance (edgeToEdgeDistance M a b precision)
            else minDistance)
         (splineEdges edgeSegments bStart bEnd) minDistance)
    (splineEdges edgeSegments aStart aEnd) MAX_VALUE.

Record GraphEdge : Type :=
  mkGraphEdge { geDistance : Q; geI : nat; geJ : nat }.

(** [graphEdgeDistances] before it is sorted; an entry reads
    [distanceMatrix[i][j]], which holds the distance of the splines
    [i] and [j]. *)
Definition graphEdgeDistances (M : MathOps) (seg : Segmentation)
  (splineCount : nat) : list GraphEdge :=
  flat_map
    (fun i =>
       List.map
         (fun j =>
            mkGraphEdge
              (splineToSplineDistance
                 M (edgeSegments seg)
                 (nth i (splineStarts seg) 0%nat)
                 (nth (i + 1) (splineStarts seg) 0%nat)
                 (nth j (splineStarts seg) 0%nat)
                 (nth (j + 1) (splineStarts seg) 0%nat)
                 EDGE_DISTANCE_PRECISION)
              i j)
         (seq (i + 1) (splineCount - (i + 1))))
    (seq 0 splineCount).

(** [sort((a, b) => a.distance - b.distance)], a stable sort. *)
Fixpoint insertEdge (e : GraphEdge) (l : list GraphEdge) : list GraphEdge :=
  match l with
  | [] => [e]
  | x :: l' =>
      if Qle_bool (geDistance x) (geDistance e)
      then x :: insertEdge e l' else e :: l
  end.

Definition sortEdges (l : list GraphEdge) : list GraphEdge :=
  fold_left (fun sorted e => insertEdge e sorted) l [].

(** The entries of distance zero at the head of the sorted array, and
    the rest. *)
Fixpoint zeroEdges (l : list GraphEdge) : list GraphEdge * list GraphEdge :=
  match l with
  | [] => ([], [])
  | e :: l' =>
      if Qeq_bool (geDistance e) 0
      then let '(z, r) := zeroEdges l' in (e :: z, r)
      else ([], l)
  end.

(** *** edgeColoringByDistance: the graph *)

Definition EdgeMatrix : Type := list (list bool).

Definition edgeAt (edgeMatrix : EdgeMatrix) (i j : nat) : bool :=
  nth j (nth i edgeMatrix []) false.

(** [edgeMatrix[i][j] = v; edgeMatrix[j][i] = v] *)
Definition setEdge (v : bool) (i j : nat) (edgeMatrix : EdgeMatrix)
  : EdgeMatrix :=
  alter (fun row => <[ i := v ]> row) j
        (alter (fun row => <[ j := v ]> row) i edgeMatrix).

(** Numbers as 32-bit integers, and [x << y]. *)
Definition toInt32 (z : Z) : Z := ((z + 2 ^ 31) mod 2 ^ 32 - 2 ^ 31)%Z.

Definition shiftLeft (x y : Z) : Z := toInt32 (Z.shiftl x (y mod 32)).

(** One iteration of the loop of [colorSecondDegreeGraph]. *)
Definition colorVertex (edgeMatrix : EdgeMatrix) (st : list Z * Z) (i : nat)
  : list Z * Z :=
  let '(coloring, seed) := st in
  let possibleColors :=
    fold_left
      (fun possibleColors j =>
         if edgeAt edgeMatrix i j
         then Z.land possibleColors (Z.lnot (shiftLeft 1 (nth j coloring 0%Z)))
         else possibleColors)
      (seq 0 i) 7%Z in
  let '(color, seed) :=
    match possibleColors with
    | 1%Z => (0%Z, seed)
    | 2%Z => (1%Z, seed)
    | 3%Z => let '(bit, seed) := seedExtract2 seed in (Z.of_nat bit, seed)
    | 4%Z => (2%Z, seed)
    | 5%Z =>
        let '(bit, seed) := seedExtract2 seed in
        ((if (bit =? 0)%nat then 0%Z else 2%Z), seed)
    | 6%Z => let '(bit, seed) := seedExtract2 seed in ((Z.of_nat bit + 1)%Z, seed)
    | 7%Z =>
        let '(trit, seed) := seedExtract3 seed in
        (Z.rem (trit + Z.of_nat i) 3, seed)
    | _ => (0%Z, seed)
    end in
  (<[ i := color ]> coloring, seed).

Definition colorSecondDegreeGraph (coloring : list Z) (edgeMatrix : EdgeMatrix)
  (vertexCount : nat) (seed : Z) : list Z * Z :=
  fold_left (colorVertex edgeMatrix) (seq 0 vertexCount) (coloring, seed).

Definition vertexPossibleColors (coloring : list Z) (edgeVector : list bool)
  (vertexCount : nat) : Z :=
  let usedColors :=
    fold_left
      (fun usedColors i =>
         if nth i edgeVector false
         then Z.lor usedColors (shiftLeft 1 (nth i coloring 0%Z))
         else usedColors)
      (seq 0 vertexCount) 0%Z in
  Z.land 7 (Z.lnot usedColors).

Definition uncolorSameNeighbors (uncolored : list nat) (coloring : list Z)
  (edgeMatrix : EdgeMatrix) (vertex vertexCount : nat)
  : list nat * list Z :=
  fold_left
    (fun (st : list nat * list Z) i =>
       let '(uncolored, coloring) := st in
       if edgeAt edgeMatrix vertex i
          && (nth i coloring 0 =? nth vertex coloring 0)%Z
       then (uncolored ++ [i], <[ i := (-1)%Z ]> coloring)
       else st)
    (seq (vertex + 1) (vertexCount - (vertex + 1)) ++ seq 0 vertex)
    (uncolored, coloring).

Definition FIRST_POSSIBLE_COLOR : list Z := [-1; 0; 1; 0; 2; 2; 1; 0]%Z.

Definition firstPossibleColor (possibleColors : Z) : Z :=
  nth (Z.to_nat possibleColors) FIRST_POSSIBLE_COLOR (-1)%Z.

(** [do { coloringBuffer[i] = step++ % 3; } while (...)]: the color
    picked and the new [step].  A second round picks the next value of
    [step % 3], which is not the color of [vertexA] that the first
    round met, so there is no third round ([pickColor_ends]). *)
Definition pickColor (adjacentToA : bool) (colorA : Z) (step : nat)
  : Z * nat :=
  let c := Z.of_nat (step mod 3) in
  if adjacentToA && (c =? colorA)%Z
  then (Z.of_nat (S step mod 3), S (S step))
  else (c, S step).

(** The [while] loop of [tryAddEdge].  Every call on [fuel] follows a
    round that has raised [step], so that with MAX_RECOLOR_STEPS of
    fuel at the start [step < MAX_RECOLOR_STEPS] fails where the fuel
    is used up, and the loop ends there as well ([recolorLoop_fuel]). *)
Fixpoint recolorLoop (fuel : nat) (edgeMatrix : EdgeMatrix)
  (vertexA vertexCount : nat) (step : nat)
  (uncolored : list nat) (coloringBuffer : list Z) {struct fuel}
  : list nat * list Z :=
  match fuel with
  | O => (uncolored, coloringBuffer)
  | S fuel' =>
      (fix drain (uncolored : list nat) (coloringBuffer : list Z)
         {struct uncolored} : list nat * list Z :=
         match uncolored with
         | [] => ([], coloringBuffer)
         | i :: rest =>
             if negb (step <? MAX_RECOLOR_STEPS)%nat
             then (uncolored, coloringBuffer)
             else
               let possibleColors :=
                 vertexPossibleColors
                   coloringBuffer (nth i edgeMatrix []) vertexCount in
               if negb (possibleColors =? 0)%Z
               then drain rest
                          (<[ i := firstPossibleColor possibleColors ]>
                             coloringBuffer)
               else
                 let '(c, step') :=
                   pickColor (edgeAt edgeMatrix i vertexA)
                             (nth vertexA coloringBuffer 0%Z) step in
                 let coloringBuffer := <[ i := c ]> coloringBuffer in
                 let '(uncolored', coloringBuffer) :=
                   uncolorSameNeighbors
                     rest coloringBuffer edgeMatrix i vertexCount in
                 recolorLoop fuel' edgeMatrix vertexA vertexCount step'
                             uncolored' coloringBuffer
         end) uncolored coloringBuffer
  end.

(** [tryAddEdge]: the coloring and the matrix it leaves.  The buffer is
    overwritten with the coloring before it is read, so that it need
    not be passed from a call to the next. *)
Definition tryAddEdge (coloring : list Z) (edgeMatrix : EdgeMatrix)
  (vertexCount vertexA vertexB : nat) : list Z * EdgeMatrix :=
  let edgeMatrix := setEdge true vertexA vertexB edgeMatrix in
  if negb (nth vertexA coloring 0 =? nth vertexB coloring 0)%Z
  then (coloring, edgeMatrix)
  else
    let bPossibleColors :=
      vertexPossibleColors coloring (nth vertexB edgeMatrix []) vertexCount in
    if negb (bPossibleColors =? 0)%Z
    then (<[ vertexB := firstPossibleColor bPossibleColors ]> coloring,
          edgeMatrix)
    else
      let coloringBuffer := coloring in
      let coloringBuffer :=
        <[ vertexB :=
             firstPossibleColor
               (Z.land 7 (Z.lnot (shiftLeft 1 (nth vertexA coloringBuffer 0%Z)))) ]>
          coloringBuffer in
      let '(uncolored, coloringBuffer) :=
        uncolorSameNeighbors [] coloringBuffer edgeMatrix vertexB vertexCount in
      let '(uncolored, coloringBuffer) :=
        recolorLoop MAX_RECOLOR_STEPS edgeMatrix vertexA vertexCount 0
                    uncolored coloringBuffer in
      match uncolored with
      | _ :: _ => (coloring, setEdge false vertexA vertexB edgeMatrix)
      | [] => (coloringBuffer, edgeMatrix)
      end.

(** The coloring of the splines. *)
Definition colorSplines (M : MathOps) (seg : Segmentation)
  (splineCount : nat) (seed : Z) : list Z :=
  let '(zero, rest) :=
    zeroEdges (sortEdges (graphEdgeDistances M seg splineCount)) in
  let edgeMatrix : EdgeMatrix :=
    replicate splineCount (replicate splineCount false) in
  let edgeMatrix :=
    fold_left (fun edgeMatrix e => setEdge true (geI e) (geJ e) edgeMatrix)
              zero edgeMatrix in
  let '(coloring, _) :=
    colorSecondDegreeGraph (replicate splineCount 0%Z) edgeMatrix
                           splineCount seed in
  fst (fold_left
         (fun (st : list Z * EdgeMatrix) e =>
            tryAddEdge (fst st) (snd st) splineCount (geI e) (geJ e))
         rest (coloring, edgeMatrix)).

(** *** edgeColoringByDistance: the colors of the edges *)

(** [array[k]] for a number [k]; [None] is [undefined]. *)
Definition atZ {A : Type} (l : list A) (k : Z) : option A :=
  if (k <? 0)%Z then None else l !! Z.to_nat k.

(** [colors[coloring[spline]]]; BLACK stands for [undefined]. *)
Definition splineColorOf (coloring : list Z) (spline : Z) : EdgeColor.t :=
  match atZ coloring spline with
  | Some c =>
      colorAt [EdgeColor.YELLOW; EdgeColor.CYAN; EdgeColor.MAGENTA] c
  | None => EdgeColor.BLACK
  end.

(** One iteration of the loop that applies the colors. *)
Definition applySplineColor (splineStarts : list nat) (coloring : list Z)
  (st : Z * list EdgeSegment.t) (i : nat) : Z * list EdgeSegment.t :=
  let '(spline, edgeSegments) := st in
  let spline :=
    match atZ splineStarts (spline + 1) with
    | Some s => if (s =? i)%nat then (spline + 1)%Z else spline
    | None => spline
    end in
  (spline,
   alter (fun e => EdgeSegment.setColor e (splineColorOf coloring spline))
         i edgeSegments).

(** The edge that a slot stands for once the colors are applied. *)
Definition resolveSlot (edgeSegments : list EdgeSegment.t) (slot : Slot)
  : EdgeHolder :=
  match slot with
  | Kept e => Some e
  | Ref k => edgeSegments !! k
  end.

Definition edgeColoringByDistance (M : MathOps) (shape : Shape.t)
  (angleThreshold : Q) (seed : Z) : option Shape.t :=
  let crossThreshold := sin M angleThreshold in
  match segmentContours M crossThreshold (mkSegmentation [] [])
                        (Shape.contours shape) with
  | None => None
  | Some (seg, slots) =>
      let seg := pushStart seg in
      let segmentCount := length (edgeSegments seg) in
      let splineCount := (length (splineStarts seg) - 1)%nat in
      if (splineCount =? 0)%nat then Some shape
      else
        let coloring := colorSplines M seg splineCount seed in
        let '(_, edgeSegments) :=
          fold_left (applySplineColor (splineStarts seg) coloring)
                    (seq 0 segmentCount) ((-1)%Z, edgeSegments seg) in
        Some (Shape.mk
                (List.map
                   (fun contour =>
                      Contour.mk (List.map (resolveSlot edgeSegments) contour))
                   slots)
                (Shape.inverseYAxis shape))
  end.

(** *** What the colorings are to achieve *)

(** The color that iteration [i] of a painting loop paints. *)
Definition paintedColor {St : Type} (body : nat -> St -> St * EdgeColor.t)
  (start m : nat) (st0 : St) (es0 : list EdgeSegment.t) (i : nat)
  : EdgeColor.t :=
  snd (body i (fst (paintLoop body start m st0 es0 i))).

(** Colors of two channels. *)
Definition twoChannel (c : EdgeColor.t) : Prop :=
  c = EdgeColor.CYAN \/ c = EdgeColor.MAGENTA \/ c = EdgeColor.YELLOW.

(** The colors of two channels and WHITE: the colors that every
    channel but one, or every channel, sees. *)
Definition visible (c : EdgeColor.t) : Prop :=
  In c [EdgeColor.CYAN; EdgeColor.MAGENTA; EdgeColor.YELLOW; EdgeColor.WHITE].

(** The number of channels of a color. *)
Definition popcount (c : EdgeColor.t) : Z :=
  (Z.b2z (Z.testbit c 0) + Z.b2z (Z.testbit c 1) + Z.b2z (Z.testbit c 2))%Z.

(** The edge that ends at the corner at position [k] of a contour and
    the edge that starts there share one channel at most. *)
Definition cornerSeparated (es : list EdgeSegment.t) (k : nat) : bool :=
  match es !! ((k + length es - 1) mod length es)%nat, es !! k with
  | Some a, Some b =>
      (popcount (Z.land (EdgeSegment.color a) (EdgeSegment.color b)) <=? 1)%Z
  | _, _ => false
  end.

Definition sameColor (es : list EdgeSegment.t) : bool :=
  match es with
  | [] => true
  | e :: es' =>
      forallb (fun e' => (EdgeSegment.color e' =? EdgeSegment.color e)%Z) es'
  end.

(** Where the detected corners of a contour of [m] edges lie in the
    contour that the coloring leaves.  The positions are kept, but for
    a teardrop of fewer than three edges: its edges are replaced by
    their thirds, in an order that starts at the corner. *)
Definition cornerPositions (m : nat) (corners : list nat) : list nat :=
  match corners with
  | [corner] => if (m <? 3)%nat then [0%nat] else [corner]
  | _ => corners
  end.

(** The requirement on a contour, from the edges before the coloring and
    the edges after it: one color on a contour without corners, no two
    common channels across a detected corner. *)
Definition properlyColored (M : MathOps) (crossThreshold : Q)
  (input output : list EdgeSegment.t) : bool :=
  match findCorners M crossThreshold input with
  | [] => sameColor output
  | corners =>
      forallb (cornerSeparated output) (cornerPositions (length input) corners)
  end.

(** *** The loops of edgeColoringInkTrap, iteration by iteration

    What is true of the corners after [i] iterations of each of the
    three loops of the case of several corners.  [flags] are the
    [minor] fields and [lens] the [prevEdgeLengthEstimate] fields. *)

Definition minorFlags (corners : list InkTrapCorner) : list bool :=
  List.map minor corners.

Definition colorOf (corners : list InkTrapCorner) (k : nat) : EdgeColor.t :=
  cornerColor (cornerAt corners k).

Definition countMajors (flags : list bool) : nat :=
  length (List.filter negb flags).

(** The test of the first loop at [i]: the spline before corner
    [(i + 1) % n] is shorter than the splines around it. *)
Definition shorterThanNeighbours (lens : list Q) (n i : nat) : bool :=
  Qgtb (nth i lens 0) (nth ((i + 1) mod n) lens 0)
  && Qltb (nth ((i + 1) mod n) lens 0) (nth ((i + 2) mod n) lens 0).

(** [(color & nextColor) ^ WHITE] *)
Definition thirdColor (a b : EdgeColor.t) : EdgeColor.t :=
  Z.lxor (Z.land a b) EdgeColor.WHITE.

Record markInv (n : nat) (idxs : list nat) (lens : list Q) (i : nat)
  (st : list InkTrapCorner * Z) : Prop :=
  mkMarkInv {
    mark_index : List.map index (fst st) = idxs;
    mark_lens : List.map prevEdgeLengthEstimate (fst st) = lens;
    mark_flag : forall k,
      nth k (minorFlags (fst st)) false = true ->
      exists i', (i' < i)%nat /\ k = ((i' + 1) mod n)%nat
                 /\ shorterThanNeighbours lens n i' = true;
    mark_count : snd st = Z.of_nat (countMajors (minorFlags (fst st)))
  }.

Record majorInv (n : nat) (idxs : list nat) (flags : list bool) (i : nat)
  (st : MajorState) : Prop :=
  mkMajorInv {
    major_index : List.map index (msCorners st) = idxs;
    major_flags : minorFlags (msCorners st) = flags;
    major_count :
      msMajorCornerCount st = Z.of_nat (countMajors (drop i flags));
    major_color : twoChannel (msColor st);
    major_two : forall k,
      (k < i)%nat -> nth k flags false = false ->
      twoChannel (colorOf (msCorners st) k);
    major_prev : forall p k,
      (p < k)%nat -> (k < i)%nat ->
      nth p flags false = false -> nth k flags false = false ->
      (forall q, (p < q)%nat -> (q < k)%nat -> nth q flags false = true) ->
      colorOf (msCorners st) k <> colorOf (msCorners st) p;
    major_current : forall p,
      (p < i)%nat -> nth p flags false = false ->
      (forall q, (p < q)%nat -> (q < i)%nat -> nth q flags false = true) ->
      msColor st = colorOf (msCorners st) p;
    major_initial_none :
      (forall q, (q < i)%nat -> nth q flags false = true) ->
      msInitialColor st = EdgeColor.BLACK;
    major_initial : forall f,
      (f < i)%nat -> nth f flags false = false ->
      (forall q, (q < f)%nat -> nth q flags false = true) ->
      msInitialColor st = colorOf (msCorners st) f;
    major_wrap : forall f l,
      (f < l)%nat -> (l < i)%nat ->
      nth f flags false = false -> nth l flags false = false ->
      (forall q, (q < f)%nat -> nth q flags false = true) ->
      (forall q, (l < q)%nat -> (q < n)%nat -> nth q flags false = true) ->
      colorOf (msCorners st) l <> colorOf (msCorners st) f
  }.

Record minorInv (n : nat) (idxs : list nat) (flags : list bool)
  (majorColor : EdgeColor.t) (majorColors : nat -> EdgeColor.t) (i : nat)
  (st : list InkTrapCorner * EdgeColor.t) : Prop :=
  mkMinorInv {
    minor_index : List.map index (fst st) = idxs;
    minor_flags : minorFlags (fst st) = flags;
    minor_majors : forall k,
      nth k flags false = false -> colorOf (fst st) k = majorColors k;
    minor_done : forall k,
      (k < i)%nat -> nth k flags false = true ->
      colorOf (fst st) k
      = thirdColor (majorColors ((k + n - 1) mod n)%nat)
                   (majorColors ((k + 1) mod n)%nat);
    minor_first : i = 0%nat -> snd st = majorColor;
    minor_current : forall i',
      i = S i' -> nth i' flags false = false -> snd st = majorColors i'
  }.

(** No two corners that follow each other around the contour are
    minor. *)
Definition noAdjacentMinors (flags : list bool) : Prop :=
  forall k, (k < length flags)%nat -> nth k flags false = true ->
            nth ((k + 1) mod length flags) flags false = false.

(** *** The splines of edgeColoringByDistance, contour by contour *)

(** Every spline has an edge: the starts grow and lie below the number
    of edges. *)
Record segmented (seg : Segmentation) : Prop :=
  mkSegmented {
    segmented_sorted : StronglySorted lt (splineStarts seg);
    segmented_bound :
      Forall (fun s => (s < length (edgeSegments seg))%nat) (splineStarts seg)
  }.

(** The same while the last spline may still be empty. *)
Record segmentedOpen (seg : Segmentation) : Prop :=
  mkSegmentedOpen {
    open_sorted : StronglySorted lt (splineStarts seg);
    open_bound :
      Forall (fun s => (s <= length (edgeSegments seg))%nat) (splineStarts seg)
  }.

(** Edges and starts are only added at the end. *)
Definition extends (seg seg' : Segmentation) : Prop :=
  splineStarts seg `prefix_of` splineStarts seg'
  /\ edgeSegments seg `prefix_of` edgeSegments seg'.

(** The spline number [j] starts at edge [k] and holds the edges [es]. *)
Definition splineHolds (seg : Segmentation) (j k : nat)
  (es : list EdgeSegment.t) : Prop :=
  splineStarts seg !! j = Some k
  /\ splineStarts seg !! S j = Some (k + length es)%nat
  /\ forall i, (i < length es)%nat -> edgeSegments seg !! (k + i)%nat = es !! i.

(** The spline in which the loop that applies the colors is after [i]
    iterations: the starts up to it lie behind, the others ahead. *)
Record applyInv (splineStarts : list nat) (i : nat) (spline : Z) : Prop :=
  mkApplyInv {
    apply_range : (-1 <= spline < Z.of_nat (length splineStarts))%Z;
    apply_behind : forall j,
      (Z.of_nat j <= spline)%Z -> (nth j splineStarts 0 < i)%nat;
    apply_ahead : forall j,
      (spline < Z.of_nat j)%Z -> (j < length splineStarts)%nat ->
      (i <= nth j splineStarts 0)%nat
  }.

(** *** The requirement on a shape *)

(** [shape'] is [shape] after a coloring: no two common channels across
    a detected corner, one color on a contour without corners. *)
Definition coloringProper (M : MathOps) (angleThreshold : Q)
  (shape shape' : Shape.t) : Prop :=
  Forall2
    (fun c c' => forall es,
       Contour.getAll (Contour.edges c) = Some es ->
       exists es',
         Contour.edges c' = List.map Some es'
         /\ properlyColored M (sin M angleThreshold) es es' = true)
    (Shape.contours shape) (Shape.contours shape').

(** The part on the contours without corners only. *)
Definition smoothProper (M : MathOps) (angleThreshold : Q)
  (shape shape' : Shape.t) : Prop :=
  Forall2
    (fun c c' => forall es,
       Contour.getAll (Contour.edges c) = Some es ->
       findCorners M (sin M angleThreshold) es = [] ->
       exists es',
         Contour.edges c' = List.map Some es' /\ sameColor es' = true)
    (Shape.contours shape) (Shape.contours shape').

End EdgeColoring.

(** ** distance/Scanline.ts *)

Module Scanline.

(** A stored intersection [{ x, direction }]; both fields hold whatever
    [addIntersection] was called with. *)
Record Intersection : Type := mkIntersection { x : jsval; direction : jsval }.

Record t : Type := mk { intersections : list Intersection; lastIndex : nat }.

(** [new Scanline()]. *)
Definition empty : t := mk [] 0.

Definition addIntersection (s : t) (x direction : jsval) : t :=
  if js_strict_eq_num direction 0 then s
  else mk (intersections s ++ [mkIntersection x direction]) (lastIndex s).

(** [comparator(a, b) > 0] for the comparator [(a, b) => a.x - b.x]; a
    NaN result orders nothing. *)
Definition comesAfter (a b : Intersection) : bool :=
  match js_sub (x a) (x b) with
  | JNum d => Qgtb d 0
  | _ => false
  end.

(** [Array.prototype.sort] is stable: insertion from the left. *)
Fixpoint insertSorted (a : Intersection) (l : list Intersection)
  : list Intersection :=
  match l with
  | [] => [a]
  | b :: l' => if comesAfter b a then a :: b :: l' else b :: insertSorted a l'
  end.

Definition sortIntersections (l : list Intersection) : list Intersection :=
  fold_left (fun acc a => insertSorted a acc) l [].

Definition sort (s : t) : t := mk (sortIntersections (intersections s)) 0.

(** The loop of [countWinding], with its [break]. *)
Fixpoint countWindingFrom (l : list Intersection) (qx : Q) (winding : jsval)
  : jsval :=
  match l with
  | [] => winding
  | intersection :: l' =>
      if js_lt (x intersection) (JNum qx)
      then countWindingFrom l' qx (js_add winding (direction intersection))
      else winding
  end.

Definition countWinding (s : t) (qx : Q) : jsval :=
  countWindingFrom (intersections s) qx (JNum 0).

(** [countWinding(x) !== 0]. *)
Definition filled (s : t) (qx : Q) : bool :=
  negb (js_strict_eq_num (countWinding s qx) 0).

Definition reset (s : t) : t := mk [] 0.

Definition getIntersectionCount (s : t) : nat := length (intersections s).

(** The loop of [filledSequential] from the index [i] on, over the
    intersections that are left; the state is [winding] and
    [lastIndex]. *)
Fixpoint sequentialLoop (l : list Intersection) (qx : Q) (i : nat)
  (st : jsval * nat) : jsval * nat :=
  match l with
  | [] => st
  | intersection :: l' =>
      if js_lt (x intersection) (JNum qx)
      then sequentialLoop l' qx (S i)
                          (js_add (fst st) (direction intersection), S i)
      else st
  end.

(** The answer and the scanline with its cached index. *)
Definition filledSequential (s : t) (qx : Q) : bool * t :=
  let '(winding, lastIndex) :=
    sequentialLoop (drop (lastIndex s) (intersections s)) qx (lastIndex s)
                   (JNum 0, lastIndex s) in
  (negb (js_strict_eq_num winding 0), mk (intersections s) lastIndex).

End Scanline.

(** ** types/MultiDistance.ts, types/MultiAndTrueDistance.ts: the objects
       the selectors return *)

(** The data properties of a [SignedDistance], a [MultiDistance] and a
    [MultiAndTrueDistance] instance.  Their methods (lessThan, median,
    ...) live on the prototypes; none is named distance, r, g, b or a,
    the only names the combiners look up with [in]. *)
Definition signedDistanceObject (d : SignedDistance.t) : jsobj :=
  <[ "distance"%string := JNum (SignedDistance.distance d) ]>
    (<[ "dot"%string := JNum (SignedDistance.dot d) ]> ∅).

Definition multiDistanceObject (r g b : Q) : jsobj :=
  <[ "r"%string := JNum r ]>
    (<[ "g"%string := JNum g ]> (<[ "b"%string := JNum b ]> ∅)).

Definition multiAndTrueDistanceObject (r g b a : Q) : jsobj :=
  <[ "a"%string := JNum a ]> (multiDistanceObject r g b).

(** [MultiDistance.median]. *)
Definition median (r g b : Q) : Q :=
  Qmax (Qmin r g) (Qmin (Qmax r g) b).

(** ** distance/*Selector.ts *)

(** The interface [EdgeSelector<T>].  [reset] ignores its argument in
    the four implementations, so it is the state it leaves; the cache of
    a selector is written and never read by the combiners and is left
    out. *)
Record EdgeSelector : Type := {
  selectorState : Type;
  selectorReset : selectorState;
  selectorAddEdge :
    selectorState -> SignedDistance.t -> EdgeSegment.t -> Point2 -> Q ->
    selectorState;
  selectorDistance : selectorState -> jsobj
}.

Module TrueDistanceSelector.

Definition reset : SignedDistance.t := SignedDistance.mk (- MAX_VALUE) 0.

Definition addEdge (minDistance : SignedDistance.t)
  (distance : SignedDistance.t) (edge : EdgeSegment.t) (origin : Point2)
  (param : Q) : SignedDistance.t :=
  if SignedDistance.lessThan distance minDistance then distance
  else minDistance.

Definition distance (minDistance : SignedDistance.t) : jsobj :=
  signedDistanceObject minDistance.

Definition selector : EdgeSelector :=
  {| selectorState := SignedDistance.t;
     selectorReset := reset;
     selectorAddEdge := addEdge;
     selectorDistance := distance |}.

End TrueDistanceSelector.

Module PerpendicularDistanceSelector.

Definition reset : SignedDistance.t := SignedDistance.mk (- MAX_VALUE) 0.

(** [perpDistance || distance] is [perpDistance]: an object is truthy. *)
Definition addEdge (M : MathOps) (minDistance : SignedDistance.t)
  (distance : SignedDistance.t) (edge : EdgeSegment.t) (origin : Point2)
  (param : Q) : SignedDistance.t :=
  let perpDistance :=
    EdgeSegment.distanceToPerpendicularDistance M edge distance origin param in
  let finalDistance := perpDistance in
  if SignedDistance.lessThan finalDistance minDistance then finalDistance
  else minDistance.

Definition distance (minDistance : SignedDistance.t) : jsobj :=
  signedDistanceObject minDistance.

Definition selector (M : MathOps) : EdgeSelector :=
  {| selectorState := SignedDistance.t;
     selectorReset := reset;
     selectorAddEdge := addEdge M;
     selectorDistance := distance |}.

End PerpendicularDistanceSelector.

Module MultiDistanceSelector.

Record state : Type :=
  mk { r : SignedDistance.t; g : SignedDistance.t; b : SignedDistance.t }.

Definition reset : state :=
  mk (SignedDistance.mk (- MAX_VALUE) 0)
     (SignedDistance.mk (- MAX_VALUE) 0)
     (SignedDistance.mk (- MAX_VALUE) 0).

(** One channel of [addEdge]. *)
Definition updateChannel (channel : EdgeColor.t) (edge : EdgeSegment.t)
  (distance current : SignedDistance.t) : SignedDistance.t :=
  if EdgeColor.has (EdgeSegment.color edge) channel then
    if SignedDistance.lessThan distance current then distance else current
  else current.

Definition addEdge (s : state) (distance : SignedDistance.t)
  (edge : EdgeSegment.t) (origin : Point2) (param : Q) : state :=
  mk (updateChannel EdgeColor.RED edge distance (r s))
     (updateChannel EdgeColor.GREEN edge distance (g s))
     (updateChannel EdgeColor.BLUE edge distance (b s)).

Definition distance (s : state) : jsobj :=
  multiDistanceObject (SignedDistance.distance (r s))
                      (SignedDistance.distance (g s))
                      (SignedDistance.distance (b s)).

Definition selector : EdgeSelector :=
  {| selectorState := state;
     selectorReset := reset;
     selectorAddEdge := addEdge;
     selectorDistance := distance |}.

End MultiDistanceSelector.

Module MultiAndTrueDistanceSelector.

Record state : Type :=
  mk { r : SignedDistance.t; g : SignedDistance.t; b : SignedDistance.t;
       a : SignedDistance.t }.

Definition reset : state :=
  mk (SignedDistance.mk (- MAX_VALUE) 0)
     (SignedDistance.mk (- MAX_VALUE) 0)
     (SignedDistance.mk (- MAX_VALUE) 0)
     (SignedDistance.mk (- MAX_VALUE) 0).

Definition addEdge (s : state) (distance : SignedDistance.t)
  (edge : EdgeSegment.t) (origin : Point2) (param : Q) : state :=
  mk (MultiDistanceSelector.updateChannel EdgeColor.RED edge distance (r s))
     (MultiDistanceSelector.updateChannel EdgeColor.GREEN edge distance (g s))
     (MultiDistanceSelector.updateChannel EdgeColor.BLUE edge distance (b s))
     (if SignedDistance.lessThan distance (a s) then distance else a s).

Definition distance (s : state) : jsobj :=
  multiAndTrueDistanceObject (SignedDistance.distance (r s))
                             (SignedDistance.distance (g s))
                             (SignedDistance.distance (b s))
                             (SignedDistance.distance (a s)).

Definition selector : EdgeSelector :=
  {| selectorState := state;
     selectorReset := reset;
     selectorAddEdge := addEdge;
     selectorDistance := distance |}.

End MultiAndTrueDistanceSelector.

(** ** distance/SimpleContourCombiner.ts *)

Module SimpleContourCombiner.

(** The body of the inner loop: an empty holder is skipped. *)
Definition feedEdge (M : MathOps) (S : EdgeSelector) (origin : Point2)
  (st : selectorState S) (edgeHolder : EdgeHolder) : selectorState S :=
  match edgeHolder with
  | None => st
  | Some edge =>
      let '(distance, param) := EdgeSegment.signedDistance M edge origin in
      selectorAddEdge S st distance edge origin param
  end.

Definition feedContour (M : MathOps) (S : EdgeSelector) (origin : Point2)
  (st : selectorState S) (contour : Contour.t) : selectorState S :=
  fold_left (feedEdge M S origin) (Contour.edges contour) st.

(** Reset, then every edge of every contour. *)
Definition feedContours (M : MathOps) (S : EdgeSelector) (origin : Point2)
  (contours : list Contour.t) : selectorState S :=
  fold_left (feedContour M S origin) contours (selectorReset S).

Definition distance (M : MathOps) (S : EdgeSelector) (origin : Point2)
  (contours : list Contour.t) : jsobj :=
  selectorDistance S (feedContours M S origin contours).

End SimpleContourCombiner.

(** ** distance/OverlappingContourCombiner.ts *)

Module OverlappingContourCombiner.

(** The fields that outlive a call of [distance]: the selector is reset
    at the start of every call. *)
Record t : Type := mk { scanline : Scanline.t; lastY : jsval }.

(** The constructor: an empty scanline, [lastY = NaN]. *)
Definition create : t := mk Scanline.empty JNaN.

(** The innermost loop of [updateScanline]: the properties [x] and
    [direction] of each object the edge returned. *)
Definition addCrossings (s : Scanline.t) (crossings : list jsobj) : Scanline.t :=
  fold_left
    (fun s intersection =>
       Scanline.addIntersection s (js_get intersection "x")
                                  (js_get intersection "direction"))
    crossings s.

Definition scanEdge (M : MathOps) (y : Q) (s : Scanline.t)
  (edgeHolder : EdgeHolder) : Scanline.t :=
  match edgeHolder with
  | None => s
  | Some edge => addCrossings s (EdgeSegment.scanlineIntersections M edge y)
  end.

Definition scanContour (M : MathOps) (y : Q) (s : Scanline.t)
  (contour : Contour.t) : Scanline.t :=
  fold_left (scanEdge M y) (Contour.edges contour) s.

Definition updateScanline (M : MathOps) (s : Scanline.t) (y : Q)
  (contours : list Contour.t) : Scanline.t :=
  Scanline.sort (fold_left (scanContour M y) contours (Scanline.reset s)).

(** The sign correction at the end of [distance]. *)
Definition correctSign (filled : bool) (dist : jsobj) : jsobj :=
  if js_in "distance" dist then
    let isInside := filled in
    let distanceIsNegative := js_lt (js_get dist "distance") (JNum 0) in
    if negb (eqb isInside distanceIsNegative) then
      if js_in "r" dist && js_in "g" dist && js_in "b" dist then
        let dist := <[ "r"%string := js_neg (js_get dist "r") ]> dist in
        let dist := <[ "g"%string := js_neg (js_get dist "g") ]> dist in
        let dist := <[ "b"%string := js_neg (js_get dist "b") ]> dist in
        if js_in "a" dist
        then <[ "a"%string := js_neg (js_get dist "a") ]> dist
        else dist
      else <[ "distance"%string := js_neg (js_get dist "distance") ]> dist
    else dist
  else dist.

Definition distance (M : MathOps) (S : EdgeSelector) (c : t)
  (origin : Point2) (contours : list Contour.t) : jsobj * t :=
  let c :=
    if negb (js_strict_eq_num (lastY c) (Vector2.y origin))
    then mk (updateScanline M (scanline c) (Vector2.y origin) contours)
            (JNum (Vector2.y origin))
    else c in
  let dist :=
    selectorDistance S (SimpleContourCombiner.feedContours M S origin contours) in
  let filled := Scanline.filled (scanline c) (Vector2.x origin) in
  (correctSign filled dist, c).

Definition reset (c : t) : t := mk (Scanline.reset (scanline c)) JNaN.

End OverlappingContourCombiner.

(** ** distance/ShapeDistanceFinder.ts: the interface of the combiners *)

Record ContourCombiner : Type := {
  combinerState : Type;
  combinerCreate : combinerState;
  combinerDistance :
    combinerState -> Point2 -> list Contour.t -> jsobj * combinerState
}.

Definition simpleCombiner (M : MathOps) (S : EdgeSelector) : ContourCombiner :=
  {| combinerState := unit;
     combinerCreate := tt;
     combinerDistance := fun c origin contours =>
       (SimpleContourCombiner.distance M S origin contours, c) |}.

Definition overlappingCombiner (M : MathOps) (S : EdgeSelector)
  : ContourCombiner :=
  {| combinerState := OverlappingContourCombiner.t;
     combinerCreate := OverlappingContourCombiner.create;
     combinerDistance := OverlappingContourCombiner.distance M S |}.

(** ** types/Projection.ts, generators/SDFTransformation.ts *)

Module Projection.

Record t : Type := mk { scale : Vector2.t; translate : Vector2.t }.

Definition project (p : t) (coord : Point2) : Point2 :=
  Vector2.mul (scale p) (Vector2.add coord (translate p)).

Definition unproject (p : t) (coord : Point2) : Point2 :=
  Vector2.subtract (Vector2.div coord (scale p)) (translate p).

End Projection.

Module SDFTransformation.

Record t : Type :=
  mk { projection : Projection.t; distanceMapping : DistanceMapping.t }.

Definition unproject (tr : t) (point : Point2) : Point2 :=
  Projection.unproject (projection tr) point.

End SDFTransformation.

(** ** bitmap/Bitmap.ts *)

Module Bitmap.

(** The typed array is a list of numbers (NaN included); the rounding
    of a store into a [Float32Array] is not modelled. *)
Record t : Type :=
  mk { width : nat; height : nat; channelCount : nat; data : list jsval }.

(** [new Bitmap(Float32Array, channels, width, height)]: zero filled. *)
Definition create (channels width height : nat) : t :=
  mk width height channels (replicate (channels * width * height) (JNum 0)).

(** [array[offset] = v] on a typed array: [v] is converted to a number
    and an index outside the array is ignored. *)
Definition store (pixels : list jsval) (offset : Z) (v : jsval) : list jsval :=
  if (0 <=? offset)%Z then
    <[ Z.to_nat offset := match v with JUndefined => JNaN | _ => v end ]> pixels
  else pixels.

(** [array[offset]] on a typed array: [undefined] outside the array. *)
Definition load (pixels : list jsval) (offset : Z) : jsval :=
  if (0 <=? offset)%Z then
    match pixels !! Z.to_nat offset with
    | Some v => v
    | None => JUndefined
    end
  else JUndefined.

(** The coordinates and the channel are integers. *)
Definition getChannel (b : t) (x y channel : Z) : jsval :=
  let index :=
    (Z.of_nat (channelCount b) * (Z.of_nat (width b) * y + x) + channel)%Z in
  load (data b) index.

Definition setChannel (b : t) (x y channel : Z) (value : jsval) : t :=
  let index :=
    (Z.of_nat (channelCount b) * (Z.of_nat (width b) * y + x) + channel)%Z in
  mk (width b) (height b) (channelCount b) (store (data b) index value).

End Bitmap.

(** ** generators/msdfgen.ts *)

Module Generators.

(** [(d) => distanceMapping.map(d)] applied to a property read. *)
Definition mapValue (m : DistanceMapping.t) (d : jsval) : jsval :=
  match d with
  | JNum q => JNum (DistanceMapping.map m q)
  | _ => JNaN
  end.

(** The three converters. *)
Definition singleChannelConvert (m : DistanceMapping.t)
  (pixels : list jsval) (offset : Z) (distance : jsobj) : list jsval :=
  Bitmap.store pixels offset (mapValue m (js_get distance "distance")).

Definition multiChannelConvert (m : DistanceMapping.t)
  (pixels : list jsval) (offset : Z) (distance : jsobj) : list jsval :=
  let pixels := Bitmap.store pixels offset (mapValue m (js_get distance "r")) in
  let pixels :=
    Bitmap.store pixels (offset + 1) (mapValue m (js_get distance "g")) in
  Bitmap.store pixels (offset + 2) (mapValue m (js_get distance "b")).

Definition multiAndTrueChannelConvert (m : DistanceMapping.t)
  (pixels : list jsval) (offset : Z) (distance : jsobj) : list jsval :=
  let pixels := Bitmap.store pixels offset (mapValue m (js_get distance "r")) in
  let pixels :=
    Bitmap.store pixels (offset + 1) (mapValue m (js_get distance "g")) in
  let pixels :=
    Bitmap.store pixels (offset + 2) (mapValue m (js_get distance "b")) in
  Bitmap.store pixels (offset + 3) (mapValue m (js_get distance "a")).

(** [orientation === 'Y_UPWARD']: a number is never strictly equal to a
    string. *)
Definition strictEqNumberString (n : Z) (s : string) : bool := false.

Section DistanceField.
Variable C : ContourCombiner.
Variable convertDistance : list jsval -> Z -> jsobj -> list jsval.
Variable shape : Shape.t.
Variable transformation : SDFTransformation.t.
Variables width channelCount : Z.

(** The inner loop: [cols] columns remain, the current one is [x]. *)
Fixpoint columnLoop (cols : nat) (y x xDirection : Z)
  (st : combinerState C * list jsval) : combinerState C * list jsval :=
  match cols with
  | O => st
  | S cols' =>
      let '(combiner, pixels) := st in
      let p := SDFTransformation.unproject transformation
                 (Vector2.mk (inject_Z x + 0.5) (inject_Z y + 0.5)) in
      let '(distance, combiner) :=
        combinerDistance C combiner p (Shape.contours shape) in
      let pixelOffset := ((y * width + x) * channelCount)%Z in
      let pixels := convertDistance pixels pixelOffset distance in
      columnLoop cols' y (x + xDirection)%Z xDirection (combiner, pixels)
  end.

(** The outer loop: [rows] rows remain, the current one is [row]. *)
Fixpoint rowLoop (rows : nat) (row yDirection yStart xDirection : Z)
  (st : combinerState C * list jsval) : combinerState C * list jsval :=
  match rows with
  | O => st
  | S rows' =>
      let y := if (yDirection <? 0)%Z then (yStart - row * yDirection)%Z
               else (yStart + row * yDirection)%Z in
      let x := if (xDirection <? 0)%Z then (width - 1)%Z else 0%Z in
      let st := columnLoop (Z.to_nat width) y x xDirection st in
      rowLoop rows' (row + 1)%Z yDirection yStart (- xDirection)%Z st
  end.

End DistanceField.

Definition generateDistanceField (C : ContourCombiner) (output : Bitmap.t)
  (shape : Shape.t) (transformation : SDFTransformation.t)
  (convertDistance : list jsval -> Z -> jsobj -> list jsval) : Bitmap.t :=
  let width := Z.of_nat (Bitmap.width output) in
  let height := Z.of_nat (Bitmap.height output) in
  let channelCount := Z.of_nat (Bitmap.channelCount output) in
  let pixels := Bitmap.data output in
  let yDirection :=
    if strictEqNumberString (Shape.getYAxisOrientation shape) "Y_UPWARD"
    then (-1)%Z else 1%Z in
  let yStart := if (yDirection <? 0)%Z then (height - 1)%Z else 0%Z in
  let '(_, pixels) :=
    rowLoop C convertDistance shape transformation width channelCount
            (Bitmap.height output) 0 yDirection yStart 1
            (combinerCreate C, pixels) in
  Bitmap.mk (Bitmap.width output) (Bitmap.height output)
            (Bitmap.channelCount output) pixels.

(** [GeneratorConfig]: only [overlapSupport] is read. *)
Record GeneratorConfig : Type := { overlapSupport : bool }.

(** [new GeneratorConfig()]. *)
Definition defaultConfig : GeneratorConfig := {| overlapSupport := true |}.

Definition combinerFor (M : MathOps) (config : GeneratorConfig)
  (S : EdgeSelector) : ContourCombiner :=
  if overlapSupport config then overlappingCombiner M S
  else simpleCombiner M S.

Definition generateSDF (M : MathOps) (output : Bitmap.t) (shape : Shape.t)
  (transformation : SDFTransformation.t) (config : GeneratorConfig) : Bitmap.t :=
  generateDistanceField
    (combinerFor M config TrueDistanceSelector.selector)
    output shape transformation
    (singleChannelConvert (SDFTransformation.distanceMapping transformation)).

Definition generatePSDF (M : MathOps) (output : Bitmap.t) (shape : Shape.t)
  (transformation : SDFTransformation.t) (config : GeneratorConfig) : Bitmap.t :=
  generateDistanceField
    (combinerFor M config (PerpendicularDistanceSelector.selector M))
    output shape transformation
    (singleChannelConvert (SDFTransformation.distanceMapping transformation)).

Definition generateMSDF (M : MathOps) (output : Bitmap.t) (shape : Shape.t)
  (transformation : SDFTransformation.t) (config : GeneratorConfig) : Bitmap.t :=
  generateDistanceField
    (combinerFor M config MultiDistanceSelector.selector)
    output shape transformation
    (multiChannelConvert (SDFTransformation.distanceMapping transformation)).

Definition generateMTSDF (M : MathOps) (output : Bitmap.t) (shape : Shape.t)
  (transformation : SDFTransformation.t) (config : GeneratorConfig) : Bitmap.t :=
  generateDistanceField
    (combinerFor M config MultiAndTrueDistanceSelector.selector)
    output shape transformation
    (multiAndTrueChannelConvert (SDFTransformation.distanceMapping transformation)).

End Generators.

(** The crossings that the edges of [contours] report at ordinate [y],
    in the order in which [updateScanline] visits them. *)
Definition reportedCrossings (M : MathOps) (y : Q) (contours : list Contour.t)
  : list jsobj :=
  flat_map
    (fun contour =>
       flat_map
         (fun edgeHolder : EdgeHolder =>
            match edgeHolder with
            | Some edge => EdgeSegment.scanlineIntersections M edge y
            | None => []
            end)
         (Contour.edges contour))
    contours.

(** The guard of [LinearSegment.scanlineIntersections]. *)
Definition inLinearSpan (e : LinearSegment.t) (y : Q) : Prop :=
  (Vector2.y (LinearSegment.p0 e) <= y /\ y < Vector2.y (LinearSegment.p1 e))
  \/ (Vector2.y (LinearSegment.p1 e) <= y /\ y < Vector2.y (LinearSegment.p0 e)).

(** A crossing object without the property [direction]. *)
Definition lacksDirection (o : jsobj) : Prop :=
  js_get o "direction" = JUndefined.

(** What [addIntersection] stores for such a crossing object. *)
Definition recordOf (o : jsobj) : Scanline.Intersection :=
  Scanline.mkIntersection (js_get o "x") JUndefined.

(** The scanline of the combiner holds no crossing. *)
Definition scanlineEmpty (c : OverlappingContourCombiner.t) : Prop :=
  Scanline.intersections (OverlappingContourCombiner.scanline c) = [].

(** A bitmap of the dimensions of [output] whose cells all hold [v]. *)
Definition filledWith (output : Bitmap.t) (v : Q) : Bitmap.t :=
  Bitmap.mk (Bitmap.width output) (Bitmap.height output)
            (Bitmap.channelCount output)
            (replicate (Bitmap.channelCount output * Bitmap.width output
                        * Bitmap.height output) (JNum v)).

(** The invariant [new Bitmap(...)] establishes. *)
Definition wellSized (output : Bitmap.t) : Prop :=
  length (Bitmap.data output)
  = (Bitmap.channelCount output * Bitmap.width output
     * Bitmap.height output)%nat.

(** The inputs of the test "should handle empty shapes gracefully" of
    msdfgen.test.ts: a 16 x 16 one-channel bitmap, the projection with
    scale (14, 14) and translation (-0.5, -0.5), the range [-2, 2]. *)
Definition testBitmap : Bitmap.t := Bitmap.create 1 16 16.

Definition testTransformation : SDFTransformation.t :=
  SDFTransformation.mk
    (Projection.mk (Vector2.mk 14 14) (Vector2.mk (-0.5) (-0.5)))
    (DistanceMapping.fromRange (Range.mk (-2) 2)).

Definition emptyShape : Shape.t := Shape.mk [] false.

(** ** A scanline of numeric crossings *)

(** The intersection [{ x, direction }] of two numbers. *)
Definition numericIntersection (p : Q * Q) : Scanline.Intersection :=
  Scanline.mkIntersection (JNum (fst p)) (JNum (snd p)).

(** The scanline after [addIntersection(x, direction)] for every pair
    of [l], in the order of the list. *)
Definition scanlineOf (l : list (Q * Q)) : Scanline.t :=
  fold_left
    (fun s p => Scanline.addIntersection s (JNum (fst p)) (JNum (snd p)))
    l Scanline.empty.

(** The sum of the directions of the crossings of [l] on the left of
    [qx]. *)
Definition windingLeftOf (l : list (Q * Q)) (qx : Q) : Q :=
  fold_right (fun p acc => snd p + acc) 0
             (List.filter (fun p => Qltb (fst p) qx) l).

(** The same sum and the number of crossings over the leading
    crossings of [l] that lie on the left of [qx]. *)
Fixpoint leadingSum (l : list (Q * Q)) (qx : Q) : Q :=
  match l with
  | [] => 0
  | p :: l' => if Qltb (fst p) qx then snd p + leadingSum l' qx else 0
  end.

Fixpoint leadingCount (l : list (Q * Q)) (qx : Q) : nat :=
  match l with
  | [] => 0
  | p :: l' => if Qltb (fst p) qx then S (leadingCount l' qx) else 0
  end.

(** The crossings are ordered by x. *)
Definition orderedByX (l : list (Q * Q)) : Prop :=
  StronglySorted (fun p q => fst p <= fst q) l.

(** The crossings that [addIntersection] keeps. *)
Definition keptCrossings (l : list (Q * Q)) : list (Q * Q) :=
  List.filter (fun p => negb (Qeq_bool (snd p) 0)) l.

(** ** Closed contours *)

(** Two points with equal coordinates. *)
Definition veq (a b : Point2) : Prop :=
  Vector2.x a == Vector2.x b /\ Vector2.y a == Vector2.y b.

(** [l] with its first element moved to the end. *)
Definition rotate1 {A : Type} (l : list A) : list A :=
  match l with
  | [] => []
  | a :: l' => l' ++ [a]
  end.

(** The edges form a closed loop: every edge ends where the next one
    starts, and the last edge ends where the first one starts. *)
Definition closedLoop (es : list EdgeSegment.t) : Prop :=
  Forall2 veq (List.map (fun e => EdgeSegment.point e 1) es)
              (rotate1 (List.map (fun e => EdgeSegment.point e 0) es)).

(** A contour without empty holder whose edges form a closed loop. *)
Definition closedContour (c : Contour.t) : Prop :=
  exists es, Contour.getAll (Contour.edges c) = Some es /\ closedLoop es.

(** The sum of [shoelace] over the consecutive pairs of a list. *)
Fixpoint chain (l : list Point2) : Q :=
  match l with
  | a :: (b :: _) as tl => Contour.shoelace a b + chain tl
  | _ => 0
  end.

(** The open polyline (0,0) -> (1,0) -> (0,1) -> (1,1), a contour that
    is not closed. *)
Definition zigzag : Contour.t :=
  Contour.mk
    [Some (EdgeSegment.Linear
             (LinearSegment.mk (Vector2.mk 0 0) (Vector2.mk 1 0) EdgeColor.WHITE));
     Some (EdgeSegment.Linear
             (LinearSegment.mk (Vector2.mk 1 0) (Vector2.mk 0 1) EdgeColor.WHITE));
     Some (EdgeSegment.Linear
             (LinearSegment.mk (Vector2.mk 0 1) (Vector2.mk 1 1) EdgeColor.WHITE))].

(** The clockwise square of shape.test.ts. *)
Definition clockwiseSquare : Contour.t :=
  Contour.mk
    [Some (EdgeSegment.Linear
             (LinearSegment.mk (Vector2.mk 0 0) (Vector2.mk 1 0) EdgeColor.WHITE));
     Some (EdgeSegment.Linear
             (LinearSegment.mk (Vector2.mk 1 0) (Vector2.mk 1 1) EdgeColor.WHITE));
     Some (EdgeSegment.Linear
             (LinearSegment.mk (Vector2.mk 1 1) (Vector2.mk 0 1) EdgeColor.WHITE));
     Some (EdgeSegment.Linear
             (LinearSegment.mk (Vector2.mk 0 1) (Vector2.mk 0 0) EdgeColor.WHITE))].

(** Two petals that meet at the origin, each made of two quadratic
    arcs: a closed contour whose four edges all touch the origin. *)
Definition petalEdges : list EdgeSegment.t :=
  [EdgeSegment.Quadratic
     (QuadraticSegment.mk (Vector2.mk 0 0) (Vector2.mk 1 0) (Vector2.mk 1 1)
                          EdgeColor.WHITE);
   EdgeSegment.Quadratic
     (QuadraticSegment.mk (Vector2.mk 1 1) (Vector2.mk 0 1) (Vector2.mk 0 0)
                          EdgeColor.WHITE);
   EdgeSegment.Quadratic
     (QuadraticSegment.mk (Vector2.mk 0 0) (Vector2.mk (-1) 0)
                          (Vector2.mk (-1) (-1)) EdgeColor.WHITE);
   EdgeSegment.Quadratic
     (QuadraticSegment.mk (Vector2.mk (-1) (-1)) (Vector2.mk 0 (-1))
                          (Vector2.mk 0 0) EdgeColor.WHITE)].

Definition petals : Shape.t :=
  Shape.mk [Contour.mk (List.map Some petalEdges)] false.

(** A closed contour of four quadratic arcs without a corner. *)
Definition roundContour : Contour.t :=
  Contour.mk
    [Some (EdgeSegment.Quadratic
             (QuadraticSegment.mk (Vector2.mk 1 0) (Vector2.mk 1 1)
                                  (Vector2.mk 0 1) EdgeColor.WHITE));
     Some (EdgeSegment.Quadratic
             (QuadraticSegment.mk (Vector2.mk 0 1) (Vector2.mk (-1) 1)
                                  (Vector2.mk (-1) 0) EdgeColor.WHITE));
     Some (EdgeSegment.Quadratic
             (QuadraticSegment.mk (Vector2.mk (-1) 0) (Vector2.mk (-1) (-1))
                                  (Vector2.mk 0 (-1)) EdgeColor.WHITE));
     Some (EdgeSegment.Quadratic
             (QuadraticSegment.mk (Vector2.mk 0 (-1)) (Vector2.mk 1 (-1))
                                  (Vector2.mk 1 0) EdgeColor.WHITE))].

(** A square and a round contour. *)
Definition squareAndRound : Shape.t :=
  Shape.mk [clockwiseSquare; roundContour] false.

(** The winding of [c] is defined and not negative. *)
Definition windingNonNegative (c : Contour.t) : Prop :=
  exists w, Contour.winding c = Some w /\ 0 <= w.

(** [reverse] negates the winding of [c]. *)
Definition reverseNegatesWinding (c : Contour.t) : Prop :=
  exists w, Contour.winding c = Some w /\
            Contour.winding (Contour.reverse c) = Some (- w).

(** ** Geometry of a colored contour *)

(** An edge with its color forgotten. *)
Definition geometry (e : EdgeSegment.t) : EdgeSegment.t :=
  EdgeSegment.setColor e EdgeColor.WHITE.

(** The three thirds of an edge, in order. *)
Definition thirds (e : EdgeSegment.t) : list EdgeSegment.t :=
  let '(a, b, c) := EdgeSegment.splitInThirds e in [a; b; c].

(** The edges of a contour listed from the edge number [k]. *)
Definition startingAt {A : Type} (k : nat) (l : list A) : list A :=
  drop k l ++ take k l.

(** What a coloring may do to the edges of a contour: it changes
    nothing but colors, or the contour has one or two edges and each is
    replaced by its thirds, listed from some edge of the contour. *)
Definition recolored (es es' : list EdgeSegment.t) : Prop :=
  List.map geometry es' = List.map geometry es
  \/ ((length es <= 2)%nat
      /\ exists corner, (corner < length es)%nat
           /\ List.map geometry es'
              = List.map geometry (flat_map thirds (startingAt corner es))).

(** No holder of the contour is empty. *)
Definition allHeld (c : Contour.t) : Prop := ~ In None (Contour.edges c).

(** The direction in which the contour arrives at its edge number [i]:
    the direction at the end of the edge before, the last edge for the
    first one. *)
Definition arrivalDirection (es : list EdgeSegment.t) (i : nat)
  : option Vector2.t :=
  (fun e => EdgeSegment.direction e 1)
    <$> es !! ((i + length es - 1) mod length es)%nat.

(** The junction at the start of the edge number [i] is a corner. *)
Definition cornerAtEdge (M : MathOps) (crossThreshold : Q)
  (es : list EdgeSegment.t) (i : nat) : Prop :=
  exists e prev,
    es !! i = Some e /\ arrivalDirection es i = Some prev
    /\ EdgeColoring.isCorner
         (Vector2.normalize M prev true)
         (Vector2.normalize M (EdgeSegment.direction e 0) true)
         crossThreshold = true.

(** ** Pixels of a bitmap *)

(** The pixel (x, y) and the channel lie in the bitmap. *)
Definition inBitmap (b : Bitmap.t) (x y channel : Z) : Prop :=
  (0 <= x < Z.of_nat (Bitmap.width b))%Z
  /\ (0 <= y < Z.of_nat (Bitmap.height b))%Z
  /\ (0 <= channel < Z.of_nat (Bitmap.channelCount b))%Z.

(** The point at which [generateDistanceField] samples the pixel
    (x, y): the center of the pixel, unprojected. *)
Definition pixelCenter (tr : SDFTransformation.t) (x y : Z) : Point2 :=
  SDFTransformation.unproject
    tr (Vector2.mk (inject_Z x + 0.5) (inject_Z y + 0.5)).

(** The distance object that the combiner without overlap support
    computes for the pixel (x, y). *)
Definition distanceAtPixel (M : MathOps) (S : EdgeSelector) (shape : Shape.t)
  (tr : SDFTransformation.t) (x y : Z) : jsobj :=
  SimpleContourCombiner.distance M S (pixelCenter tr x y)
                                 (Shape.contours shape).

(** The state of the selector [S] once every edge of the shape was fed
    to it for the pixel (x, y). *)
Definition selectedAtPixel (M : MathOps) (S : EdgeSelector) (shape : Shape.t)
  (tr : SDFTransformation.t) (x y : Z) : selectorState S :=
  SimpleContourCombiner.feedContours M S (pixelCenter tr x y)
                                     (Shape.contours shape).

(** The generator configuration without overlap support. *)
Definition noOverlapSupport : Generators.GeneratorConfig :=
  {| Generators.overlapSupport := false |}.

(** The property that holds the channel number [k] of a multi-channel
    distance. *)
Definition channelName (k : nat) : string :=
  match k with
  | 0%nat => "r"
  | 1%nat => "g"
  | 2%nat => "b"
  | _ => "a"
  end.

(** Two bitmaps of the same dimensions, with arrays of the same
    length. *)
Definition sameDimensions (a b : Bitmap.t) : Prop :=
  Bitmap.width a = Bitmap.width b
  /\ Bitmap.height a = Bitmap.height b
  /\ Bitmap.channelCount a = Bitmap.channelCount b
  /\ length (Bitmap.data a) = length (Bitmap.data b).

(** ===================================================================== *)
(** * The code over IEEE-754 doubles

    The second model of the numbers.  Here a [number] is a binary64
    value with the operations of IEEE 754 (round to nearest, ties to
    even), as [SpecFloat] of the standard library defines them: every
    [+], [-], [*] and [/] rounds, a division by zero gives an infinity
    or NaN, a comparison with NaN is false.  A [Float32Array] holds
    binary32 values and a store into it rounds once more.  The modules
    below are the source again, for the functions whose results the
    rounding decides; they carry the names of the source inside
    [Double]. *)

(** ** Numbers *)

Module Float64.

Definition prec : Z := 53.
Definition emax : Z := 1024.

(** A zero or an infinity with its sign, NaN, or the finite number
    (-1)^s * m * 2^e. *)
Definition t : Type := spec_float.

(** The double nearest to an integer; an integer below 2^53 in absolute
    value is a double. *)
Definition ofZ (z : Z) : t := binary_normalize prec emax z 0 false.

Definition zero : t := S754_zero false.
Definition one : t := ofZ 1.
Definition nan : t := S754_nan.
Definition infinity : t := S754_infinity false.

Definition add : t -> t -> t := SFadd prec emax.
Definition sub : t -> t -> t := SFsub prec emax.
Definition mul : t -> t -> t := SFmul prec emax.
Definition div : t -> t -> t := SFdiv prec emax.
Definition neg : t -> t := SFopp.
Definition abs : t -> t := SFabs.

(** The correctly rounded square root, which the engines compute for
    [Math.sqrt]. *)
Definition sqrt : t -> t := SFsqrt prec emax.

(** [===], [<], [<=], [>], [>=] on numbers. *)
Definition eqb : t -> t -> bool := SFeqb.
Definition ltb : t -> t -> bool := SFltb.
Definition leb : t -> t -> bool := SFleb.
Definition gtb (a b : t) : bool := SFltb b a.
Definition geb (a b : t) : bool := SFleb b a.

(** The decimal literal n * 10^-k, for n and 10^k below 2^53: both are
    doubles, and their quotient, rounded once, is the double nearest to
    the literal. *)
Definition decimal (n : Z) (k : nat) : t :=
  div (ofZ n) (ofZ (10 ^ Z.of_nat k)).

(** [Number.MAX_VALUE]: (2^53 - 1) * 2^971. *)
Definition MAX_VALUE : t := SFmax_float prec emax.

(** [Math.sign]. *)
Definition sign (x : t) : t :=
  match x with
  | S754_nan => S754_nan
  | S754_zero s => S754_zero s
  | S754_infinity s | S754_finite s _ _ => if s then ofZ (-1) else ofZ 1
  end.

(** A number as a condition: 0, -0 and NaN are falsy. *)
Definition truthy (x : t) : bool :=
  match x with
  | S754_zero _ | S754_nan => false
  | _ => true
  end.

End Float64.

Module Float32.

Definition prec : Z := 24.
Definition emax : Z := 128.

Definition t : Type := spec_float.

Definition zero : t := S754_zero false.

(** What a store into a [Float32Array] keeps of a number: the nearest
    binary32 value, ties to even, an infinity beyond the range
    ([Math.fround]). *)
Definition fround (x : Float64.t) : t :=
  match x with
  | S754_finite s m e => binary_normalize prec emax (cond_Zopp s (Zpos m)) e s
  | _ => x
  end.

(** What a read returns: the same number, as a double. *)
Definition toNumber (x : t) : Float64.t :=
  match x with
  | S754_finite s m e =>
      binary_normalize Float64.prec Float64.emax (cond_Zopp s (Zpos m)) e s
  | _ => x
  end.

End Float32.

Module Double.

(** ** Values and object literals *)

Inductive value : Type :=
| VUndefined
| VNum (d : Float64.t).

(** ToNumber: [undefined] becomes NaN. *)
Definition toNumber (v : value) : Float64.t :=
  match v with
  | VUndefined => Float64.nan
  | VNum d => d
  end.

Abbreviation obj := (gmap string value).

(** [o.k] and ['k' in o]. *)
Definition get (o : obj) (k : string) : value :=
  match o !! k with
  | Some v => v
  | None => VUndefined
  end.

Definition has (k : string) (o : obj) : bool :=
  match o !! k with
  | Some _ => true
  | None => false
  end.

(** [a === b] when [b] is a number. *)
Definition strictEqNum (a : value) (b : Float64.t) : bool :=
  match a with
  | VNum d => Float64.eqb d b
  | VUndefined => false
  end.

(** ** types/Vector2.ts *)

Module Vector2.

Record t : Type := mk { x : Float64.t; y : Float64.t }.

Definition length (sqrt : Float64.t -> Float64.t) (v : t) : Float64.t :=
  sqrt (Float64.add (Float64.mul (x v) (x v)) (Float64.mul (y v) (y v))).

Definition normalize (sqrt : Float64.t -> Float64.t) (v : t) (allowZero : bool)
  : t :=
  let len := length sqrt v in
  if negb (Float64.eqb len Float64.zero)
  then mk (Float64.div (x v) len) (Float64.div (y v) len)
  else mk Float64.zero (if allowZero then Float64.zero else Float64.one).

Definition getOrthonormal (sqrt : Float64.t -> Float64.t) (v : t)
  (polarity allowZero : bool) : t :=
  let len := length sqrt v in
  if negb (Float64.eqb len Float64.zero) then
    if polarity
    then mk (Float64.div (Float64.neg (y v)) len) (Float64.div (x v) len)
    else mk (Float64.div (y v) len) (Float64.div (Float64.neg (x v)) len)
  else
    let sign := if allowZero then Float64.zero else Float64.one in
    if polarity then mk Float64.zero sign
    else mk Float64.zero (Float64.neg sign).

Definition add (a b : t) : t :=
  mk (Float64.add (x a) (x b)) (Float64.add (y a) (y b)).
Definition subtract (a b : t) : t :=
  mk (Float64.sub (x a) (x b)) (Float64.sub (y a) (y b)).
Definition sub (a b : t) : t := subtract a b.
Definition mul (a b : t) : t :=
  mk (Float64.mul (x a) (x b)) (Float64.mul (y a) (y b)).
Definition div (a b : t) : t :=
  mk (Float64.div (x a) (x b)) (Float64.div (y a) (y b)).

Definition dotProduct (a b : t) : Float64.t :=
  Float64.add (Float64.mul (x a) (x b)) (Float64.mul (y a) (y b)).
Definition crossProduct (a b : t) : Float64.t :=
  Float64.sub (Float64.mul (x a) (y b)) (Float64.mul (y a) (x b)).

(** [mix] on numbers and on vectors: [a + t * (b - a)]. *)
Definition mixNumber (a b t : Float64.t) : Float64.t :=
  Float64.add a (Float64.mul t (Float64.sub b a)).
Definition mix (a b : t) (t : Float64.t) : Vector2.t :=
  mk (mixNumber (x a) (x b) t) (mixNumber (y a) (y b) t).

End Vector2.

Definition Point2 : Type := Vector2.t.

(** ** edge/equation-solver.ts *)

Module EquationSolver.

(** [1e12] is an integer below 2^53. *)
Definition solveQuadratic (sqrt : Float64.t -> Float64.t) (a b c : Float64.t)
  : list Float64.t :=
  if Float64.eqb a Float64.zero
     || Float64.gtb (Float64.abs b)
                    (Float64.mul (Float64.ofZ (10 ^ 12)) (Float64.abs a))
  then
    if Float64.eqb b Float64.zero then []
    else [Float64.div (Float64.neg c) b]
  else
    let discriminant :=
      Float64.sub (Float64.mul b b)
                  (Float64.mul (Float64.mul (Float64.ofZ 4) a) c) in
    if Float64.gtb discriminant Float64.zero then
      let sqrtD := sqrt discriminant in
      [Float64.div (Float64.add (Float64.neg b) sqrtD)
                   (Float64.mul (Float64.ofZ 2) a);
       Float64.div (Float64.sub (Float64.neg b) sqrtD)
                   (Float64.mul (Float64.ofZ 2) a)]
    else if Float64.eqb discriminant Float64.zero then
      [Float64.div (Float64.neg b) (Float64.mul (Float64.ofZ 2) a)]
    else [].

End EquationSolver.

(** ** types/Range.ts and types/DistanceMapping.ts *)

Module Range.

Record t : Type := mk { lower : Float64.t; upper : Float64.t }.

End Range.

Module DistanceMapping.

Record t : Type := mk { scale : Float64.t; translate : Float64.t }.

(** [new DistanceMapping(range)]. *)
Definition fromRange (range : Range.t) : t :=
  let rangeWidth := Float64.sub (Range.upper range) (Range.lower range) in
  mk (Float64.div Float64.one rangeWidth) (Float64.neg (Range.lower range)).

Definition map (m : t) (distance : Float64.t) : Float64.t :=
  Float64.mul (scale m) (Float64.add distance (translate m)).

Definition mapDelta (m : t) (delta : Float64.t) : Float64.t :=
  Float64.mul (scale m) delta.

Definition getInverse (m : t) : t :=
  mk (Float64.div Float64.one (scale m))
     (Float64.mul (Float64.neg (scale m)) (translate m)).

(** [DistanceMapping.inverse(range)]; [rangeWidth || 1] is 1 when the
    width is 0 or NaN. *)
Definition inverse (range : Range.t) : t :=
  let rangeWidth := Float64.sub (Range.upper range) (Range.lower range) in
  mk rangeWidth
     (Float64.div (Range.lower range)
                  (if Float64.truthy rangeWidth then rangeWidth
                   else Float64.one)).

End DistanceMapping.

(** ** types/Projection.ts, generators/SDFTransformation.ts *)

Module Projection.

Record t : Type := mk { scale : Vector2.t; translate : Vector2.t }.

Definition project (p : t) (coord : Point2) : Point2 :=
  Vector2.mul (scale p) (Vector2.add coord (translate p)).

Definition unproject (p : t) (coord : Point2) : Point2 :=
  Vector2.sub (Vector2.div coord (scale p)) (translate p).

End Projection.

Module SDFTransformation.

Record t : Type :=
  mk { projection : Projection.t; distanceMapping : DistanceMapping.t }.

Definition unproject (tr : t) (point : Point2) : Point2 :=
  Projection.unproject (projection tr) point.

End SDFTransformation.

(** ** types/SignedDistance.ts *)

Module SignedDistance.

Record t : Type := mk { distance : Float64.t; dot : Float64.t }.

Definition lessThan (a other : t) : bool :=
  let absA := Float64.abs (distance a) in
  let absB := Float64.abs (distance other) in
  Float64.ltb absA absB
  || (Float64.eqb absA absB && Float64.ltb (dot a) (dot other)).

End SignedDistance.

(** ** edge/EdgeSegment.ts: the abstract class

    What the contours, the combiners and the selectors call on an edge.
    The subclasses are the instances; the results on the generators
    hold for every instance, whatever its arithmetic. *)

Class EdgeSegment (E : Type) : Type := {
  color : E -> EdgeColor.t;
  point : E -> Float64.t -> Point2;
  reverse : E -> E;
  (** [{ distance, param }] *)
  signedDistance : E -> Point2 -> SignedDistance.t * Float64.t;
  distanceToPerpendicularDistance :
    E -> SignedDistance.t -> Point2 -> Float64.t -> SignedDistance.t;
  scanlineIntersections : E -> Float64.t -> list obj
}.

(** [{ x, dy }], the object an edge pushes for a scanline crossing. *)
Definition edgeIntersection (x dy : Float64.t) : obj :=
  <[ "x"%string := VNum x ]> (<[ "dy"%string := VNum dy ]> ∅).

(** [nonZeroSign]: [2 * (n > 0 ? 1 : 0) - 1]. *)
Definition nonZeroSign (n : Float64.t) : Float64.t :=
  Float64.sub
    (Float64.mul (Float64.ofZ 2)
                 (if Float64.gtb n Float64.zero then Float64.one
                  else Float64.zero))
    Float64.one.

(** ** edge/LinearSegment.ts *)

Module LinearSegment.

Record t : Type := mk { p0 : Point2; p1 : Point2; color : EdgeColor.t }.

Definition point (e : t) (t : Float64.t) : Point2 :=
  Vector2.mix (p0 e) (p1 e) t.

Definition direction (e : t) (_t : Float64.t) : Vector2.t :=
  Vector2.subtract (p1 e) (p0 e).

Definition signedDistance (sqrt : Float64.t -> Float64.t) (e : t)
  (origin : Point2) : SignedDistance.t * Float64.t :=
  let aq := Vector2.subtract origin (p0 e) in
  let ab := Vector2.subtract (p1 e) (p0 e) in
  let param :=
    Float64.div (Vector2.dotProduct aq ab) (Vector2.dotProduct ab ab) in
  let eq :=
    Vector2.subtract
      (if Float64.gtb param (Float64.decimal 5 1) then p1 e else p0 e)
      origin in
  let endpointDistance := Vector2.length sqrt eq in
  let orthoDistance :=
    Vector2.dotProduct (Vector2.getOrthonormal sqrt ab false false) aq in
  if Float64.gtb param Float64.zero && Float64.ltb param Float64.one
     && Float64.ltb (Float64.abs orthoDistance) endpointDistance
  then (SignedDistance.mk orthoDistance Float64.zero, param)
  else
    (SignedDistance.mk
       (Float64.mul (nonZeroSign (Vector2.crossProduct aq ab)) endpointDistance)
       (Float64.abs
          (Vector2.dotProduct (Vector2.normalize sqrt ab false)
                              (Vector2.normalize sqrt eq false))),
     param).

(** The default of the base class, which [LinearSegment] inherits. *)
Definition distanceToPerpendicularDistance (sqrt : Float64.t -> Float64.t)
  (e : t) (distance : SignedDistance.t) (origin : Point2) (param : Float64.t)
  : SignedDistance.t :=
  if Float64.ltb param (Float64.decimal 1 4)
     || Float64.gtb param (Float64.decimal 9999 4)
  then
    let dir :=
      if Float64.ltb param (Float64.decimal 5 1)
      then direction e Float64.zero else direction e Float64.one in
    let dirNorm := Vector2.normalize sqrt dir true in
    let aq := Vector2.subtract origin (point e param) in
    let ts := Vector2.dotProduct aq dirNorm in
    let pseudoDistance := Vector2.crossProduct aq dirNorm in
    if Float64.ltb (Float64.abs pseudoDistance)
                   (Float64.abs (SignedDistance.distance distance))
    then SignedDistance.mk pseudoDistance ts
    else distance
  else distance.

Definition scanlineIntersections (e : t) (y : Float64.t) : list obj :=
  if (Float64.geb y (Vector2.y (p0 e)) && Float64.ltb y (Vector2.y (p1 e)))
     || (Float64.geb y (Vector2.y (p1 e)) && Float64.ltb y (Vector2.y (p0 e)))
  then
    let param :=
      Float64.div (Float64.sub y (Vector2.y (p0 e)))
                  (Float64.sub (Vector2.y (p1 e)) (Vector2.y (p0 e))) in
    let x := Vector2.mixNumber (Vector2.x (p0 e)) (Vector2.x (p1 e)) param in
    let dy := Float64.sign (Float64.sub (Vector2.y (p1 e)) (Vector2.y (p0 e))) in
    [edgeIntersection x dy]
  else [].

Definition reverse (e : t) : t := mk (p1 e) (p0 e) (color e).

Definition moveStartPoint (e : t) (to : Point2) : t := mk to (p1 e) (color e).
Definition moveEndPoint (e : t) (to : Point2) : t := mk (p0 e) to (color e).

End LinearSegment.

(** The line segments implement the interface. *)
Definition linearEdges (sqrt : Float64.t -> Float64.t)
  : EdgeSegment LinearSegment.t :=
  {| color := LinearSegment.color;
     point := LinearSegment.point;
     reverse := LinearSegment.reverse;
     signedDistance := LinearSegment.signedDistance sqrt;
     distanceToPerpendicularDistance :=
       LinearSegment.distanceToPerpendicularDistance sqrt;
     scanlineIntersections := LinearSegment.scanlineIntersections |}.

(** ** shape/EdgeHolder.ts, shape/Contour.ts, shape/Shape.ts *)

Module Contour.

Record t (E : Type) : Type := mk { edges : list (option E) }.
Arguments mk {E} _.
Arguments edges {E} _.

Definition shoelace (a b : Point2) : Float64.t :=
  Float64.mul (Float64.sub (Vector2.x b) (Vector2.x a))
              (Float64.add (Vector2.y a) (Vector2.y b)).

Section Edges.
Context {E : Type} `{EdgeSegment E}.

(** The loop of the general case of [winding]; [None] when [get()]
    throws on an empty holder. *)
Fixpoint windingLoop (hs : list (option E)) (prev : Point2)
  (total : Float64.t) : option Float64.t :=
  match hs with
  | [] => Some total
  | None :: _ => None
  | Some edge :: hs' =>
      let cur := point edge Float64.zero in
      windingLoop hs' cur (Float64.add total (shoelace prev cur))
  end.

(** The sum whose sign [winding] returns. *)
Definition windingTotal (c : t E) : option Float64.t :=
  match edges c with
  | [] => Some Float64.zero
  | [h0] =>
      match h0 with
      | Some edge =>
          let a := point edge Float64.zero in
          let b := point edge (Float64.div Float64.one (Float64.ofZ 3)) in
          let c := point edge (Float64.div (Float64.ofZ 2) (Float64.ofZ 3)) in
          Some (Float64.add
                  (Float64.add (Float64.add Float64.zero (shoelace a b))
                               (shoelace b c))
                  (shoelace c a))
      | None => None
      end
  | [h0; h1] =>
      match h0, h1 with
      | Some edge0, Some edge1 =>
          let a := point edge0 Float64.zero in
          let b := point edge0 (Float64.decimal 5 1) in
          let c := point edge1 Float64.zero in
          let d := point edge1 (Float64.decimal 5 1) in
          Some (Float64.add
                  (Float64.add
                     (Float64.add (Float64.add Float64.zero (shoelace a b))
                                  (shoelace b c))
                     (shoelace c d))
                  (shoelace d a))
      | _, _ => None
      end
  | hs =>
      match last hs with
      | Some (Some lastEdge) =>
          windingLoop hs (point lastEdge Float64.zero) Float64.zero
      | _ => None
      end
  end.

Definition winding (c : t E) : option Float64.t :=
  match windingTotal c with
  | Some total => Some (Float64.sign total)
  | None => None
  end.

(** Every held edge is reversed, then the array is. *)
Definition reverse (c : t E) : t E :=
  mk (rev (List.map (option_map Double.reverse) (edges c))).

End Edges.

End Contour.

Module Shape.

Record t (E : Type) : Type :=
  mk { contours : list (Contour.t E); inverseYAxis : bool }.
Arguments mk {E} _ _.
Arguments contours {E} _.
Arguments inverseYAxis {E} _.

(** The enumeration [YAxisOrientation]: TOP_UP = 1, TOP_DOWN = -1. *)
Definition TOP_UP : Z := 1%Z.
Definition TOP_DOWN : Z := (-1)%Z.

Definition getYAxisOrientation {E : Type} (s : t E) : Z :=
  if inverseYAxis s then TOP_DOWN else TOP_UP.

Section Edges.
Context {E : Type} `{EdgeSegment E}.

(** The loop of [normalize]; [None] when [winding] throws. *)
Fixpoint normalizeContours (cs : list (Contour.t E))
  : option (list (Contour.t E)) :=
  match cs with
  | [] => Some []
  | contour :: cs' =>
      match Contour.winding contour with
      | None => None
      | Some w =>
          let contour' :=
            if Float64.ltb w Float64.zero then Contour.reverse contour
            else contour in
          match normalizeContours cs' with
          | Some r => Some (contour' :: r)
          | None => None
          end
      end
  end.

Definition normalize (s : t E) : option (t E) :=
  match normalizeContours (contours s) with
  | Some cs => Some (mk cs (inverseYAxis s))
  | None => None
  end.

End Edges.

End Shape.

(** ** distance/Scanline.ts *)

Module Scanline.

(** A stored intersection [{ x, direction }]; both fields hold whatever
    [addIntersection] was called with. *)
Record Intersection : Type := mkIntersection { x : value; direction : value }.

Record t : Type := mk { intersections : list Intersection; lastIndex : nat }.

(** [new Scanline()]. *)
Definition empty : t := mk [] 0.

Definition addIntersection (s : t) (x direction : value) : t :=
  if strictEqNum direction Float64.zero then s
  else mk (intersections s ++ [mkIntersection x direction]) (lastIndex s).

(** [comparator(a, b) > 0] for the comparator [(a, b) => a.x - b.x]; a
    NaN result orders nothing. *)
Definition comesAfter (a b : Intersection) : bool :=
  Float64.gtb (Float64.sub (toNumber (x a)) (toNumber (x b))) Float64.zero.

(** [Array.prototype.sort] is stable: insertion from the left. *)
Fixpoint insertSorted (a : Intersection) (l : list Intersection)
  : list Intersection :=
  match l with
  | [] => [a]
  | b :: l' => if comesAfter b a then a :: b :: l' else b :: insertSorted a l'
  end.

Definition sortIntersections (l : list Intersection) : list Intersection :=
  fold_left (fun acc a => insertSorted a acc) l [].

Definition sort (s : t) : t := mk (sortIntersections (intersections s)) 0.

(** The loop of [countWinding], with its [break]. *)
Fixpoint countWindingFrom (l : list Intersection) (qx : Float64.t)
  (winding : Float64.t) : Float64.t :=
  match l with
  | [] => winding
  | intersection :: l' =>
      if Float64.ltb (toNumber (x intersection)) qx
      then countWindingFrom
             l' qx (Float64.add winding (toNumber (direction intersection)))
      else winding
  end.

Definition countWinding (s : t) (qx : Float64.t) : Float64.t :=
  countWindingFrom (intersections s) qx Float64.zero.

(** [countWinding(x) !== 0]. *)
Definition filled (s : t) (qx : Float64.t) : bool :=
  negb (Float64.eqb (countWinding s qx) Float64.zero).

Definition reset (s : t) : t := mk [] 0.

End Scanline.

(** ** types/MultiDistance.ts, types/MultiAndTrueDistance.ts: the objects
       the selectors return *)

Definition signedDistanceObject (d : SignedDistance.t) : obj :=
  <[ "distance"%string := VNum (SignedDistance.distance d) ]>
    (<[ "dot"%string := VNum (SignedDistance.dot d) ]> ∅).

Definition multiDistanceObject (r g b : Float64.t) : obj :=
  <[ "r"%string := VNum r ]>
    (<[ "g"%string := VNum g ]> (<[ "b"%string := VNum b ]> ∅)).

Definition multiAndTrueDistanceObject (r g b a : Float64.t) : obj :=
  <[ "a"%string := VNum a ]> (multiDistanceObject r g b).

(** ** distance/*Selector.ts *)

(** The interface [EdgeSelector<T>].  [reset] ignores its argument in
    the four implementations, so it is the state it leaves; the cache of
    a selector is written and never read by the combiners and is left
    out. *)
Record EdgeSelector (E : Type) : Type := {
  selectorState : Type;
  selectorReset : selectorState;
  selectorAddEdge :
    selectorState -> SignedDistance.t -> E -> Point2 -> Float64.t ->
    selectorState;
  selectorDistance : selectorState -> obj
}.
Arguments selectorState {E} _.
Arguments selectorReset {E} _.
Arguments selectorAddEdge {E} _ _ _ _ _ _.
Arguments selectorDistance {E} _ _.

(** [new SignedDistance(-MAX_VAL, 0)]. *)
Definition resetDistance : SignedDistance.t :=
  SignedDistance.mk (Float64.neg Float64.MAX_VALUE) Float64.zero.

Module TrueDistanceSelector.

Definition reset : SignedDistance.t := resetDistance.

Definition addEdge {E : Type} (minDistance : SignedDistance.t)
  (distance : SignedDistance.t) (edge : E) (origin : Point2)
  (param : Float64.t) : SignedDistance.t :=
  if SignedDistance.lessThan distance minDistance then distance
  else minDistance.

Definition distance (minDistance : SignedDistance.t) : obj :=
  signedDistanceObject minDistance.

Definition selector (E : Type) : EdgeSelector E :=
  {| selectorState := SignedDistance.t;
     selectorReset := reset;
     selectorAddEdge := addEdge;
     selectorDistance := distance |}.

End TrueDistanceSelector.

Module PerpendicularDistanceSelector.

Definition reset : SignedDistance.t := resetDistance.

(** [perpDistance || distance] is [perpDistance]: an object is truthy. *)
Definition addEdge {E : Type} `{EdgeSegment E} (minDistance : SignedDistance.t)
  (distance : SignedDistance.t) (edge : E) (origin : Point2)
  (param : Float64.t) : SignedDistance.t :=
  let perpDistance :=
    distanceToPerpendicularDistance edge distance origin param in
  let finalDistance := perpDistance in
  if SignedDistance.lessThan finalDistance minDistance then finalDistance
  else minDistance.

Definition distance (minDistance : SignedDistance.t) : obj :=
  signedDistanceObject minDistance.

Definition selector (E : Type) `{EdgeSegment E} : EdgeSelector E :=
  {| selectorState := SignedDistance.t;
     selectorReset := reset;
     selectorAddEdge := addEdge;
     selectorDistance := distance |}.

End PerpendicularDistanceSelector.

Module MultiDistanceSelector.

Record state : Type :=
  mk { r : SignedDistance.t; g : SignedDistance.t; b : SignedDistance.t }.

Definition reset : state := mk resetDistance resetDistance resetDistance.

(** One channel of [addEdge]. *)
Definition updateChannel {E : Type} `{EdgeSegment E} (channel : EdgeColor.t)
  (edge : E) (distance current : SignedDistance.t) : SignedDistance.t :=
  if EdgeColor.has (color edge) channel then
    if SignedDistance.lessThan distance current then distance else current
  else current.

Definition addEdge {E : Type} `{EdgeSegment E} (s : state)
  (distance : SignedDistance.t) (edge : E) (origin : Point2)
  (param : Float64.t) : state :=
  mk (updateChannel EdgeColor.RED edge distance (r s))
     (updateChannel EdgeColor.GREEN edge distance (g s))
     (updateChannel EdgeColor.BLUE edge distance (b s)).

Definition distance (s : state) : obj :=
  multiDistanceObject (SignedDistance.distance (r s))
                      (SignedDistance.distance (g s))
                      (SignedDistance.distance (b s)).

Definition selector (E : Type) `{EdgeSegment E} : EdgeSelector E :=
  {| selectorState := state;
     selectorReset := reset;
     selectorAddEdge := addEdge;
     selectorDistance := distance |}.

End MultiDistanceSelector.

Module MultiAndTrueDistanceSelector.

Record state : Type :=
  mk { r : SignedDistance.t; g : SignedDistance.t; b : SignedDistance.t;
       a : SignedDistance.t }.

Definition reset : state :=
  mk resetDistance resetDistance resetDistance resetDistance.

Definition addEdge {E : Type} `{EdgeSegment E} (s : state)
  (distance : SignedDistance.t) (edge : E) (origin : Point2)
  (param : Float64.t) : state :=
  mk (MultiDistanceSelector.updateChannel EdgeColor.RED edge distance (r s))
     (MultiDistanceSelector.updateChannel EdgeColor.GREEN edge distance (g s))
     (MultiDistanceSelector.updateChannel EdgeColor.BLUE edge distance (b s))
     (if SignedDistance.lessThan distance (a s) then distance else a s).

Definition distance (s : state) : obj :=
  multiAndTrueDistanceObject (SignedDistance.distance (r s))
                             (SignedDistance.distance (g s))
                             (SignedDistance.distance (b s))
                             (SignedDistance.distance (a s)).

Definition selector (E : Type) `{EdgeSegment E} : EdgeSelector E :=
  {| selectorState := state;
     selectorReset := reset;
     selectorAddEdge := addEdge;
     selectorDistance := distance |}.

End MultiAndTrueDistanceSelector.

(** ** distance/SimpleContourCombiner.ts *)

Module SimpleContourCombiner.

Section Edges.
Context {E : Type} `{EdgeSegment E}.
Variable S : EdgeSelector E.

(** The body of the inner loop: an empty holder is skipped. *)
Definition feedEdge (origin : Point2) (st : selectorState S)
  (edgeHolder : option E) : selectorState S :=
  match edgeHolder with
  | None => st
  | Some edge =>
      let '(distance, param) := signedDistance edge origin in
      selectorAddEdge S st distance edge origin param
  end.

Definition feedContour (origin : Point2) (st : selectorState S)
  (contour : Contour.t E) : selectorState S :=
  fold_left (feedEdge origin) (Contour.edges contour) st.

(** Reset, then every edge of every contour. *)
Definition feedContours (origin : Point2) (contours : list (Contour.t E))
  : selectorState S :=
  fold_left (feedContour origin) contours (selectorReset S).

Definition distance (origin : Point2) (contours : list (Contour.t E)) : obj :=
  selectorDistance S (feedContours origin contours).

End Edges.

End SimpleContourCombiner.

(** ** distance/OverlappingContourCombiner.ts *)

Module OverlappingContourCombiner.

(** The fields that outlive a call of [distance]: the selector is reset
    at the start of every call. *)
Record t : Type := mk { scanline : Scanline.t; lastY : Float64.t }.

(** The constructor: an empty scanline, [lastY = NaN]. *)
Definition create : t := mk Scanline.empty Float64.nan.

(** The innermost loop of [updateScanline]: the properties [x] and
    [direction] of each object the edge returned. *)
Definition addCrossings (s : Scanline.t) (crossings : list obj) : Scanline.t :=
  fold_left
    (fun s intersection =>
       Scanline.addIntersection s (get intersection "x")
                                  (get intersection "direction"))
    crossings s.

(** The sign correction at the end of [distance]. *)
Definition correctSign (filled : bool) (dist : obj) : obj :=
  if has "distance" dist then
    let isInside := filled in
    let distanceIsNegative :=
      Float64.ltb (toNumber (get dist "distance")) Float64.zero in
    if negb (eqb isInside distanceIsNegative) then
      if has "r" dist && has "g" dist && has "b" dist then
        let dist :=
          <[ "r"%string := VNum (Float64.neg (toNumber (get dist "r"))) ]> dist in
        let dist :=
          <[ "g"%string := VNum (Float64.neg (toNumber (get dist "g"))) ]> dist in
        let dist :=
          <[ "b"%string := VNum (Float64.neg (toNumber (get dist "b"))) ]> dist in
        if has "a" dist
        then <[ "a"%string := VNum (Float64.neg (toNumber (get dist "a"))) ]> dist
        else dist
      else
        <[ "distance"%string :=
             VNum (Float64.neg (toNumber (get dist "distance"))) ]> dist
    else dist
  else dist.

Section Edges.
Context {E : Type} `{EdgeSegment E}.
Variable S : EdgeSelector E.

Definition scanEdge (y : Float64.t) (s : Scanline.t) (edgeHolder : option E)
  : Scanline.t :=
  match edgeHolder with
  | None => s
  | Some edge => addCrossings s (scanlineIntersections edge y)
  end.

Definition scanContour (y : Float64.t) (s : Scanline.t)
  (contour : Contour.t E) : Scanline.t :=
  fold_left (scanEdge y) (Contour.edges contour) s.

Definition updateScanline (s : Scanline.t) (y : Float64.t)
  (contours : list (Contour.t E)) : Scanline.t :=
  Scanline.sort (fold_left (scanContour y) contours (Scanline.reset s)).

(** [origin.y !== this.lastY] is true when one of them is NaN. *)
Definition distance (c : t) (origin : Point2) (contours : list (Contour.t E))
  : obj * t :=
  let c :=
    if negb (Float64.eqb (Vector2.y origin) (lastY c))
    then mk (updateScanline (scanline c) (Vector2.y origin) contours)
            (Vector2.y origin)
    else c in
  let dist :=
    selectorDistance S (SimpleContourCombiner.feedContours S origin contours) in
  let filled := Scanline.filled (scanline c) (Vector2.x origin) in
  (correctSign filled dist, c).

End Edges.

End OverlappingContourCombiner.

(** ** distance/ShapeDistanceFinder.ts: the interface of the combiners *)

Record ContourCombiner (E : Type) : Type := {
  combinerState : Type;
  combinerCreate : combinerState;
  combinerDistance :
    combinerState -> Point2 -> list (Contour.t E) -> obj * combinerState
}.
Arguments combinerState {E} _.
Arguments combinerCreate {E} _.
Arguments combinerDistance {E} _ _ _ _.

Definition simpleCombiner {E : Type} `{EdgeSegment E} (S : EdgeSelector E)
  : ContourCombiner E :=
  {| combinerState := unit;
     combinerCreate := tt;
     combinerDistance := fun c origin contours =>
       (SimpleContourCombiner.distance S origin contours, c) |}.

Definition overlappingCombiner {E : Type} `{EdgeSegment E} (S : EdgeSelector E)
  : ContourCombiner E :=
  {| combinerState := OverlappingContourCombiner.t;
     combinerCreate := OverlappingContourCombiner.create;
     combinerDistance := OverlappingContourCombiner.distance S |}.

(** ** bitmap/Bitmap.ts on a [Float32Array] *)

Module Bitmap.

Record t : Type :=
  mk { width : nat; height : nat; channelCount : nat; data : list Float32.t }.

(** [new Bitmap(Float32Array, channels, width, height)]: zero filled. *)
Definition create (channels width height : nat) : t :=
  mk width height channels (replicate (channels * width * height) Float32.zero).

(** [array[offset] = v]: the number is rounded to binary32, and an index
    outside the array is ignored. *)
Definition store (pixels : list Float32.t) (offset : Z) (v : Float64.t)
  : list Float32.t :=
  if (0 <=? offset)%Z then <[ Z.to_nat offset := Float32.fround v ]> pixels
  else pixels.

(** [array[offset]]: [undefined] outside the array. *)
Definition load (pixels : list Float32.t) (offset : Z) : value :=
  if (0 <=? offset)%Z then
    match pixels !! Z.to_nat offset with
    | Some v => VNum (Float32.toNumber v)
    | None => VUndefined
    end
  else VUndefined.

(** The coordinates and the channel are integers. *)
Definition getChannel (b : t) (x y channel : Z) : value :=
  let index :=
    (Z.of_nat (channelCount b) * (Z.of_nat (width b) * y + x) + channel)%Z in
  load (data b) index.

Definition setChannel (b : t) (x y channel : Z) (v : Float64.t) : t :=
  let index :=
    (Z.of_nat (channelCount b) * (Z.of_nat (width b) * y + x) + channel)%Z in
  mk (width b) (height b) (channelCount b) (store (data b) index v).

End Bitmap.

(** ** generators/msdfgen.ts *)

Module Generators.

(** [(d) => distanceMapping.map(d)] applied to a property read: an
    absent property is [undefined], which the sum turns into NaN. *)
Definition mapValue (m : DistanceMapping.t) (d : value) : Float64.t :=
  DistanceMapping.map m (toNumber d).

(** The three converters. *)
Definition singleChannelConvert (m : DistanceMapping.t)
  (pixels : list Float32.t) (offset : Z) (distance : obj) : list Float32.t :=
  Bitmap.store pixels offset (mapValue m (get distance "distance")).

Definition multiChannelConvert (m : DistanceMapping.t)
  (pixels : list Float32.t) (offset : Z) (distance : obj) : list Float32.t :=
  let pixels := Bitmap.store pixels offset (mapValue m (get distance "r")) in
  let pixels :=
    Bitmap.store pixels (offset + 1) (mapValue m (get distance "g")) in
  Bitmap.store pixels (offset + 2) (mapValue m (get distance "b")).

Definition multiAndTrueChannelConvert (m : DistanceMapping.t)
  (pixels : list Float32.t) (offset : Z) (distance : obj) : list Float32.t :=
  let pixels := Bitmap.store pixels offset (mapValue m (get distance "r")) in
  let pixels :=
    Bitmap.store pixels (offset + 1) (mapValue m (get distance "g")) in
  let pixels :=
    Bitmap.store pixels (offset + 2) (mapValue m (get distance "b")) in
  Bitmap.store pixels (offset + 3) (mapValue m (get distance "a")).

(** [orientation === 'Y_UPWARD']: a number is never strictly equal to a
    string. *)
Definition strictEqNumberString (n : Z) (s : string) : bool := false.

(** The sample point of the pixel (x, y): [x + 0.5] and [y + 0.5] in
    doubles.  The counters of the loops are integers below 2^53 (a
    typed array has fewer elements), which a double holds exactly; they
    are kept as integers. *)
Definition pixelSample (x y : Z) : Point2 :=
  Vector2.mk (Float64.add (Float64.ofZ x) (Float64.decimal 5 1))
             (Float64.add (Float64.ofZ y) (Float64.decimal 5 1)).

Section DistanceField.
Context {E : Type}.
Variable C : ContourCombiner E.
Variable convertDistance : list Float32.t -> Z -> obj -> list Float32.t.
Variable shape : Shape.t E.
Variable transformation : SDFTransformation.t.
Variables width channelCount : Z.

(** The inner loop: [cols] columns remain, the current one is [x]. *)
Fixpoint columnLoop (cols : nat) (y x xDirection : Z)
  (st : combinerState C * list Float32.t) : combinerState C * list Float32.t :=
  match cols with
  | O => st
  | S cols' =>
      let '(combiner, pixels) := st in
      let p := SDFTransformation.unproject transformation (pixelSample x y) in
      let '(distance, combiner) :=
        combinerDistance C combiner p (Shape.contours shape) in
      let pixelOffset := ((y * width + x) * channelCount)%Z in
      let pixels := convertDistance pixels pixelOffset distance in
      columnLoop cols' y (x + xDirection)%Z xDirection (combiner, pixels)
  end.

(** The outer loop: [rows] rows remain, the current one is [row]. *)
Fixpoint rowLoop (rows : nat) (row yDirection yStart xDirection : Z)
  (st : combinerState C * list Float32.t) : combinerState C * list Float32.t :=
  match rows with
  | O => st
  | S rows' =>
      let y := if (yDirection <? 0)%Z then (yStart - row * yDirection)%Z
               else (yStart + row * yDirection)%Z in
      let x := if (xDirection <? 0)%Z then (width - 1)%Z else 0%Z in
      let st := columnLoop (Z.to_nat width) y x xDirection st in
      rowLoop rows' (row + 1)%Z yDirection yStart (- xDirection)%Z st
  end.

End DistanceField.

Definition generateDistanceField {E : Type} (C : ContourCombiner E)
  (output : Bitmap.t) (shape : Shape.t E) (transformation : SDFTransformation.t)
  (convertDistance : list Float32.t -> Z -> obj -> list Float32.t) : Bitmap.t :=
  let width := Z.of_nat (Bitmap.width output) in
  let height := Z.of_nat (Bitmap.height output) in
  let channelCount := Z.of_nat (Bitmap.channelCount output) in
  let pixels := Bitmap.data output in
  let yDirection :=
    if strictEqNumberString (Shape.getYAxisOrientation shape) "Y_UPWARD"
    then (-1)%Z else 1%Z in
  let yStart := if (yDirection <? 0)%Z then (height - 1)%Z else 0%Z in
  let '(_, pixels) :=
    rowLoop C convertDistance shape transformation width channelCount
            (Bitmap.height output) 0 yDirection yStart 1
            (combinerCreate C, pixels) in
  Bitmap.mk (Bitmap.width output) (Bitmap.height output)
            (Bitmap.channelCount output) pixels.

(** [GeneratorConfig]: only [overlapSupport] is read. *)
Record GeneratorConfig : Type := { overlapSupport : bool }.

(** [new GeneratorConfig()]. *)
Definition defaultConfig : GeneratorConfig := {| overlapSupport := true |}.

Section Edges.
Context {E : Type} `{EdgeSegment E}.

Definition combinerFor (config : GeneratorConfig) (S : EdgeSelector E)
  : ContourCombiner E :=
  if overlapSupport config then overlappingCombiner S
  else simpleCombiner S.

Definition generateSDF (output : Bitmap.t) (shape : Shape.t E)
  (transformation : SDFTransformation.t)
  (config : GeneratorConfig) : Bitmap.t :=
  generateDistanceField
    (combinerFor config (TrueDistanceSelector.selector E))
    output shape transformation
    (singleChannelConvert (SDFTransformation.distanceMapping transformation)).

Definition generatePSDF (output : Bitmap.t) (shape : Shape.t E)
  (transformation : SDFTransformation.t)
  (config : GeneratorConfig) : Bitmap.t :=
  generateDistanceField
    (combinerFor config (PerpendicularDistanceSelector.selector E))
    output shape transformation
    (singleChannelConvert (SDFTransformation.distanceMapping transformation)).

Definition generateMSDF (output : Bitmap.t) (shape : Shape.t E)
  (transformation : SDFTransformation.t)
  (config : GeneratorConfig) : Bitmap.t :=
  generateDistanceField
    (combinerFor config (MultiDistanceSelector.selector E))
    output shape transformation
    (multiChannelConvert (SDFTransformation.distanceMapping transformation)).

Definition generateMTSDF (output : Bitmap.t) (shape : Shape.t E)
  (transformation : SDFTransformation.t)
  (config : GeneratorConfig) : Bitmap.t :=
  generateDistanceField
    (combinerFor config (MultiAndTrueDistanceSelector.selector E))
    output shape transformation
    (multiAndTrueChannelConvert
       (SDFTransformation.distanceMapping transformation)).

End Edges.

End Generators.

End Double.

(** ** The numbers and the pixels of the model over doubles *)

(** The rational that a finite double is. *)
Definition exactValue (x : Float64.t) : option Q :=
  match x with
  | S754_zero _ => Some 0
  | S754_finite s m e =>
      Some ((if s then -1 else 1) * inject_Z (Zpos m) * (2 ^ e))
  | _ => None
  end.

(** The double [x] is the number [q]. *)
Definition isNumber (x : Float64.t) (q : Q) : Prop :=
  match exactValue x with
  | Some v => v == q
  | None => False
  end.

(** The first test of [solveQuadratic] and its discriminant, as the
    code computes them. *)
Definition computedLinearFallback (a b : Float64.t) : bool :=
  Float64.eqb a Float64.zero
  || Float64.gtb (Float64.abs b)
                 (Float64.mul (Float64.ofZ (10 ^ 12)) (Float64.abs a)).

Definition computedDiscriminant (a b c : Float64.t) : Float64.t :=
  Float64.sub (Float64.mul b b)
              (Float64.mul (Float64.mul (Float64.ofZ 4) a) c).

(** The invariant [new Bitmap(Float32Array, ...)] establishes. *)
Definition float32Sized (output : Double.Bitmap.t) : Prop :=
  length (Double.Bitmap.data output)
  = (Double.Bitmap.channelCount output * Double.Bitmap.width output
     * Double.Bitmap.height output)%nat.

(** A bitmap of the dimensions of [output] whose cells all hold [v]. *)
Definition float32FilledWith (output : Double.Bitmap.t) (v : Float32.t)
  : Double.Bitmap.t :=
  Double.Bitmap.mk
    (Double.Bitmap.width output) (Double.Bitmap.height output)
    (Double.Bitmap.channelCount output)
    (replicate (Double.Bitmap.channelCount output * Double.Bitmap.width output
                * Double.Bitmap.height output) v).

(** The cell of the channel [k] of the pixel (x, y). *)
Definition float32Cell (b : Double.Bitmap.t) (x y k : nat) : option Float32.t :=
  Double.Bitmap.data b
    !! ((y * Double.Bitmap.width b + x) * Double.Bitmap.channelCount b + k)%nat.

(** The point at which [generateDistanceField] samples the pixel
    (x, y): the center of the pixel, unprojected in doubles. *)
Definition doublePixelCenter (tr : Double.SDFTransformation.t) (x y : nat)
  : Double.Point2 :=
  Double.SDFTransformation.unproject
    tr (Double.Generators.pixelSample (Z.of_nat x) (Z.of_nat y)).

(** The state of the selector [S] once every edge of the shape was fed
    to it for the pixel (x, y). *)
Definition doubleSelectedAtPixel {E : Type} `{Double.EdgeSegment E}
  (S : Double.EdgeSelector E) (shape : Double.Shape.t E)
  (tr : Double.SDFTransformation.t) (x y : nat) : Double.selectorState S :=
  Double.SimpleContourCombiner.feedContours
    S (doublePixelCenter tr x y) (Double.Shape.contours shape).

(** The inputs of the test "should handle empty shapes gracefully" of
    msdfgen.test.ts, in doubles: a 16 x 16 one-channel bitmap, the
    projection with scale (14, 14) and translation (-0.5, -0.5), the
    range [-2, 2]. *)
Definition float32TestBitmap : Double.Bitmap.t := Double.Bitmap.create 1 16 16.

Definition doubleTestTransformation : Double.SDFTransformation.t :=
  Double.SDFTransformation.mk
    (Double.Projection.mk
       (Double.Vector2.mk (Float64.ofZ 14) (Float64.ofZ 14))
       (Double.Vector2.mk (Float64.neg (Float64.decimal 5 1))
                          (Float64.neg (Float64.decimal 5 1))))
    (Double.DistanceMapping.fromRange
       (Double.Range.mk (Float64.ofZ (-2)) (Float64.ofZ 2))).

(** The clockwise square of shape.test.ts, in doubles. *)
Definition doubleSegment (x0 y0 x1 y1 : Z) : Double.LinearSegment.t :=
  Double.LinearSegment.mk
    (Double.Vector2.mk (Float64.ofZ x0) (Float64.ofZ y0))
    (Double.Vector2.mk (Float64.ofZ x1) (Float64.ofZ y1))
    EdgeColor.WHITE.

Definition doubleSquare : Double.Contour.t Double.LinearSegment.t :=
  Double.Contour.mk
    [Some (doubleSegment 0 0 1 0); Some (doubleSegment 1 0 1 1);
     Some (doubleSegment 1 1 0 1); Some (doubleSegment 0 1 0 0)].

(** ===================================================================== *)
(** * Lemmas *)

(** ** Comparisons *)

Lemma Qltb_lt x y : Qltb x y = true <-> x < y.
Proof.
  unfold Qltb. rewrite negb_true_iff.
  destruct (Qle_bool y x) eqn:E.
  - apply Qle_bool_iff in E. split; [discriminate | intros H; lra].
  - split; [intros _ | reflexivity].
    apply Qnot_le_lt. intros H. apply Qle_bool_iff in H. congruence.
Qed.

Lemma Qltb_ge x y : Qltb x y = false <-> y <= x.
Proof.
  unfold Qltb. rewrite negb_false_iff. apply Qle_bool_iff.
Qed.

Lemma Qeq_bool_false x y : Qeq_bool x y = false <-> ~ x == y.
Proof.
  split.
  - intros E H. apply Qeq_bool_iff in H. congruence.
  - intros H. destruct (Qeq_bool x y) eqn:E; [|reflexivity].
    apply Qeq_bool_iff in E. contradiction.
Qed.

(** ** equation-solver.ts: the quadratic solver *)

Section SolverFacts.
Variable M : MathOps.

Lemma linearFallback_test a b :
  Qeq_bool a 0 || Qgtb (Qabs b) (1e12 * Qabs a) = true
  <-> EquationSolver.linearFallback a b.
Proof.
  unfold EquationSolver.linearFallback, Qgtb.
  rewrite orb_true_iff, Qeq_bool_iff, Qltb_lt. reflexivity.
Qed.

Lemma linearFallback_test_false a b :
  Qeq_bool a 0 || Qgtb (Qabs b) (1e12 * Qabs a) = false
  <-> ~ EquationSolver.linearFallback a b.
Proof.
  rewrite <- linearFallback_test.
  destruct (Qeq_bool a 0 || Qgtb (Qabs b) (1e12 * Qabs a)); split; congruence.
Qed.

(** A degenerate equation takes the linear branch. *)
Lemma degenerate_linearFallback a b :
  a == 0 -> EquationSolver.linearFallback a b.
Proof. intros H. left. exact H. Qed.


End SolverFacts.

(** ** DistanceMapping.ts *)



(** ** LinearSegment.ts: crossings of a scanline *)

Lemma Qgeb_le x y : Qgeb x y = true <-> y <= x.
Proof. unfold Qgeb. apply Qle_bool_iff. Qed.

Lemma linear_span_test (e : LinearSegment.t) (y : Q) :
  (Qgeb y (Vector2.y (LinearSegment.p0 e)) && Qltb y (Vector2.y (LinearSegment.p1 e)))
  || (Qgeb y (Vector2.y (LinearSegment.p1 e)) && Qltb y (Vector2.y (LinearSegment.p0 e)))
  = true <-> inLinearSpan e y.
Proof.
  unfold inLinearSpan.
  rewrite orb_true_iff, !andb_true_iff, !Qgeb_le, !Qltb_lt. reflexivity.
Qed.

Lemma linear_scanline_in (e : LinearSegment.t) (y : Q) :
  inLinearSpan e y ->
  exists x dy, LinearSegment.scanlineIntersections e y = [edgeIntersection x dy].
Proof.
  intros H. apply linear_span_test in H.
  unfold LinearSegment.scanlineIntersections. rewrite H. eauto.
Qed.

Lemma linear_scanline_out (e : LinearSegment.t) (y : Q) :
  ~ inLinearSpan e y -> LinearSegment.scanlineIntersections e y = [].
Proof.
  intros H. unfold LinearSegment.scanlineIntersections.
  destruct (_ || _) eqn:E; [|reflexivity].
  apply linear_span_test in E. contradiction.
Qed.

Lemma inLinearSpan_dec (e : LinearSegment.t) (y : Q) :
  inLinearSpan e y \/ ~ inLinearSpan e y.
Proof.
  destruct ((Qgeb y (Vector2.y (LinearSegment.p0 e))
             && Qltb y (Vector2.y (LinearSegment.p1 e)))
            || (Qgeb y (Vector2.y (LinearSegment.p1 e))
                && Qltb y (Vector2.y (LinearSegment.p0 e)))) eqn:E.
  - left. apply linear_span_test. exact E.
  - right. intros H. apply linear_span_test in H. congruence.
Qed.

(** C9.  [LinearSegment.scanlineIntersections(y)] returns at most one
    intersection; exactly one if and only if y lies in the half-open
    span (p0.y <= y < p1.y, or p1.y <= y < p0.y); at the ordinate of the
    higher endpoint it returns none, and a horizontal segment never
    yields an intersection. *)
Theorem linear_scanlineIntersections_span (e : LinearSegment.t) (y : Q) :
  let r := LinearSegment.scanlineIntersections e y in
  let y0 := Vector2.y (LinearSegment.p0 e) in
  let y1 := Vector2.y (LinearSegment.p1 e) in
  (length r <= 1)%nat /\
  (length r = 1%nat <-> (y0 <= y /\ y < y1) \/ (y1 <= y /\ y < y0)) /\
  (y0 <= y1 /\ y == y1 -> r = []) /\
  (y1 <= y0 /\ y == y0 -> r = []) /\
  (y0 == y1 -> r = []).
Proof.
  cbv zeta.
  split; [|split; [|split; [|split]]].
  - destruct (inLinearSpan_dec e y) as [H|H].
    + destruct (linear_scanline_in e y H) as (x & dy & ->). simpl. lia.
    + rewrite (linear_scanline_out e y H). simpl. lia.
  - fold (inLinearSpan e y). split.
    + intros Hlen. destruct (inLinearSpan_dec e y) as [H|H]; [exact H|].
      rewrite (linear_scanline_out e y H) in Hlen. discriminate Hlen.
    + intros H. destruct (linear_scanline_in e y H) as (x & dy & ->).
      reflexivity.
  - intros [Hle Heq]. apply linear_scanline_out.
    unfold inLinearSpan. intros [[? ?]|[? ?]]; lra.
  - intros [Hle Heq]. apply linear_scanline_out.
    unfold inLinearSpan. intros [[? ?]|[? ?]]; lra.
  - intros Heq. apply linear_scanline_out.
    unfold inLinearSpan. intros [[? ?]|[? ?]]; lra.
Qed.

(** ** edge-coloring.ts: the balanced trichotomy *)

Lemma Qfloor_between (q : Q) (lo hi : Z) :
  inject_Z lo <= q -> q < inject_Z hi -> (lo <= Qfloor q < hi)%Z.
Proof.
  intros Hlo Hhi. split.
  - assert (H := Qfloor_resp_le _ _ Hlo). rewrite Qfloor_Z in H. exact H.
  - assert (H := Qfloor_le q).
    assert (H' : inject_Z (Qfloor q) < inject_Z hi) by lra.
    rewrite <- Zlt_Qlt in H'. exact H'.
Qed.

(** The values of the trichotomy are -1, 0 and 1 (first half of C4). *)
Lemma symmetricalTrichotomy_range (i m : nat) :
  (2 <= m)%nat -> (i < m)%nat ->
  (-1 <= EdgeColoring.symmetricalTrichotomy i m <= 1)%Z.
Proof.
  intros Hm Hi. unfold EdgeColoring.symmetricalTrichotomy.
  set (p := inject_Z (Z.of_nat i)).
  set (d := inject_Z (Z.of_nat m) - 1).
  assert (Hp0 : 0 <= p).
  { unfold p. change 0 with (inject_Z 0). rewrite <- Zle_Qle. lia. }
  assert (Hd : 1 <= d).
  { unfold d. assert (inject_Z 2 <= inject_Z (Z.of_nat m))
      by (rewrite <- Zle_Qle; lia).
    change (inject_Z 2) with 2 in H. lra. }
  assert (Hpd : p <= d).
  { unfold p, d.
    assert (inject_Z (Z.of_nat i) + inject_Z 1 <= inject_Z (Z.of_nat m))
      by (rewrite <- inject_Z_plus, <- Zle_Qle; lia).
    change (inject_Z 1) with 1 in H. lra. }
  clearbody p d.
  assert (Hq0 : 0 <= 2.875 * p / d).
  { apply Qle_shift_div_l; lra. }
  assert (Hq1 : 2.875 * p / d <= 2.875).
  { apply Qle_shift_div_r; lra. }
  assert (H := Qfloor_between (3 + 2.875 * p / d - 1.4375 + 0.5) 2 5).
  change (inject_Z 2) with 2 in H. change (inject_Z 5) with 5 in H.
  assert (H2 : 2 <= 3 + 2.875 * p / d - 1.4375 + 0.5) by lra.
  assert (H5 : 3 + 2.875 * p / d - 1.4375 + 0.5 < 5) by lra.
  specialize (H H2 H5). lia.
Qed.

(** C4, evaluated on a contour of 47 edges: positions 15 and 31 are sent
    to 0 and 1, and the total over the positions 0 .. 46 is 1, not 0.
    Up to 46 edges the total is zero. *)
Theorem symmetricalTrichotomy_total_47 :
  EdgeColoring.symmetricalTrichotomy 15 47 = 0%Z /\
  EdgeColoring.symmetricalTrichotomy 31 47 = 1%Z /\
  EdgeColoring.trichotomyTotal 47 = 1%Z /\
  forallb (fun m => EdgeColoring.trichotomyTotal m =? 0)%Z (seq 2 45) = true.
Proof. vm_compute. repeat split. Qed.

(** ** Objects returned by the selectors and by the edges *)

Lemma multiDistanceObject_no_distance (r g b : Q) :
  js_in "distance" (multiDistanceObject r g b) = false.
Proof.
  unfold js_in, multiDistanceObject.
  rewrite !lookup_insert_ne by discriminate.
  rewrite lookup_empty. reflexivity.
Qed.

Lemma multiAndTrueDistanceObject_no_distance (r g b a : Q) :
  js_in "distance" (multiAndTrueDistanceObject r g b a) = false.
Proof.
  unfold js_in, multiAndTrueDistanceObject, multiDistanceObject.
  rewrite !lookup_insert_ne by discriminate.
  rewrite lookup_empty. reflexivity.
Qed.

Lemma edgeIntersection_direction (qx dy : Q) :
  js_get (edgeIntersection qx dy) "direction" = JUndefined.
Proof.
  unfold js_get, edgeIntersection.
  rewrite !lookup_insert_ne by discriminate.
  rewrite lookup_empty. reflexivity.
Qed.

Lemma edgeIntersection_x (qx dy : Q) :
  js_get (edgeIntersection qx dy) "x" = JNum qx.
Proof.
  unfold js_get, edgeIntersection.
  rewrite lookup_insert_eq. reflexivity.
Qed.

Lemma edgeIntersection_dy (qx dy : Q) :
  js_get (edgeIntersection qx dy) "dy" = JNum dy.
Proof.
  unfold js_get, edgeIntersection.
  rewrite lookup_insert_ne by discriminate.
  rewrite lookup_insert_eq. reflexivity.
Qed.

(** ** OverlappingContourCombiner.ts with a multi-channel selector *)

(** C1.  With the multi-channel selectors the sign correction of the
    overlapping combiner never runs: the object returned has no property
    named distance, so the outer test fails and r, g, b (and a) come
    back as the selector computed them, whatever the fill test says.
    On the shape without contours, queried at the origin, the point is
    not filled, every channel is -MAX_VALUE (so is their median), and
    the channels are returned negative, not flipped. *)
Theorem overlapping_multi_channel_not_flipped :
  (forall M c origin contours,
     fst (OverlappingContourCombiner.distance
            M MultiDistanceSelector.selector c origin contours)
     = SimpleContourCombiner.distance
         M MultiDistanceSelector.selector origin contours) /\
  (forall M c origin contours,
     fst (OverlappingContourCombiner.distance
            M MultiAndTrueDistanceSelector.selector c origin contours)
     = SimpleContourCombiner.distance
         M MultiAndTrueDistanceSelector.selector origin contours) /\
  (let origin := Vector2.mk 0 0 in
   let r := OverlappingContourCombiner.distance
              exampleMath MultiAndTrueDistanceSelector.selector
              OverlappingContourCombiner.create origin [] in
   Scanline.filled (OverlappingContourCombiner.scanline (snd r)) 0 = false /\
   fst r = multiAndTrueDistanceObject
             (- MAX_VALUE) (- MAX_VALUE) (- MAX_VALUE) (- MAX_VALUE) /\
   median (- MAX_VALUE) (- MAX_VALUE) (- MAX_VALUE) < 0).
Proof.
  split; [|split].
  - intros M c origin contours.
    unfold OverlappingContourCombiner.distance,
      SimpleContourCombiner.distance; simpl.
    unfold OverlappingContourCombiner.correctSign,
      MultiDistanceSelector.distance.
    rewrite multiDistanceObject_no_distance. reflexivity.
  - intros M c origin contours.
    unfold OverlappingContourCombiner.distance,
      SimpleContourCombiner.distance; simpl.
    unfold OverlappingContourCombiner.correctSign,
      MultiAndTrueDistanceSelector.distance.
    rewrite multiAndTrueDistanceObject_no_distance. reflexivity.
  - cbv zeta. split; [|split].
    + vm_compute. reflexivity.
    + unfold OverlappingContourCombiner.distance; simpl.
      unfold OverlappingContourCombiner.correctSign,
        MultiAndTrueDistanceSelector.distance.
      rewrite multiAndTrueDistanceObject_no_distance. reflexivity.
    + vm_compute. reflexivity.
Qed.

(** ** OverlappingContourCombiner.ts: what the scanline records *)

Lemma linear_crossings_lack_direction e y :
  Forall lacksDirection (LinearSegment.scanlineIntersections e y).
Proof.
  unfold LinearSegment.scanlineIntersections.
  destruct (_ || _); constructor; [apply edgeIntersection_direction|constructor].
Qed.

Lemma quadratic_crossings_lack_direction M e y :
  Forall lacksDirection (QuadraticSegment.scanlineIntersections M e y).
Proof.
  unfold QuadraticSegment.scanlineIntersections.
  induction (EquationSolver.solveQuadratic _ _ _ _) as [|t ts IH]; simpl.
  - constructor.
  - apply Forall_app. split; [|exact IH].
    unfold QuadraticSegment.crossingAt.
    destruct (inUnitClosed t); constructor;
      [apply edgeIntersection_direction|constructor].
Qed.

Lemma cubic_crossings_lack_direction M e y :
  Forall lacksDirection (CubicSegment.scanlineIntersections M e y).
Proof.
  unfold CubicSegment.scanlineIntersections.
  induction (EquationSolver.solveCubic _ _ _ _ _) as [|t ts IH]; simpl.
  - constructor.
  - apply Forall_app. split; [|exact IH].
    unfold CubicSegment.crossingAt.
    destruct (inUnitClosed t); constructor;
      [apply edgeIntersection_direction|constructor].
Qed.

Lemma crossings_lack_direction M e y :
  Forall lacksDirection (EdgeSegment.scanlineIntersections M e y).
Proof.
  destruct e; simpl.
  - apply linear_crossings_lack_direction.
  - apply quadratic_crossings_lack_direction.
  - apply cubic_crossings_lack_direction.
Qed.

Lemma reportedCrossings_lack_direction M y contours :
  Forall lacksDirection (reportedCrossings M y contours).
Proof.
  unfold reportedCrossings.
  induction contours as [|c cs IH]; simpl; [constructor|].
  apply Forall_app. split; [|exact IH].
  induction (Contour.edges c) as [|h hs IHh]; simpl; [constructor|].
  apply Forall_app. split; [|exact IHh].
  destruct h; [apply crossings_lack_direction|constructor].
Qed.

Lemma addCrossings_records s crossings :
  Forall lacksDirection crossings ->
  Scanline.intersections (OverlappingContourCombiner.addCrossings s crossings)
  = Scanline.intersections s ++ List.map recordOf crossings.
Proof.
  unfold OverlappingContourCombiner.addCrossings.
  revert s. induction crossings as [|o os IH]; intros s H; simpl.
  - rewrite app_nil_r. reflexivity.
  - inversion H as [|? ? Ho Hos]; subst.
    rewrite IH by assumption.
    unfold Scanline.addIntersection. rewrite Ho. simpl.
    rewrite <- app_assoc. reflexivity.
Qed.

Lemma scanContours_records M y contours s :
  Scanline.intersections
    (fold_left (OverlappingContourCombiner.scanContour M y) contours s)
  = Scanline.intersections s ++ List.map recordOf (reportedCrossings M y contours).
Proof.
  unfold reportedCrossings.
  revert s. induction contours as [|c cs IH]; intros s; simpl.
  - rewrite app_nil_r. reflexivity.
  - rewrite IH. rewrite map_app, app_assoc. f_equal.
    unfold OverlappingContourCombiner.scanContour.
    generalize (Contour.edges c). clear. intros hs. revert s.
    induction hs as [|h hs IHh]; intros s; simpl.
    + rewrite app_nil_r. reflexivity.
    + rewrite IHh. rewrite map_app, app_assoc. f_equal.
      destruct h as [e|]; simpl.
      * apply addCrossings_records, crossings_lack_direction.
      * rewrite app_nil_r. reflexivity.
Qed.

Lemma insertSorted_length a l :
  length (Scanline.insertSorted a l) = S (length l).
Proof.
  induction l as [|b l IH]; simpl; [reflexivity|].
  destruct (Scanline.comesAfter b a); simpl; [reflexivity|].
  rewrite IH. reflexivity.
Qed.

Lemma insertSorted_Forall (P : Scanline.Intersection -> Prop) a l :
  P a -> Forall P l -> Forall P (Scanline.insertSorted a l).
Proof.
  intros Ha Hl. induction Hl as [|b l Hb Hl IH]; simpl.
  - constructor; [exact Ha|constructor].
  - destruct (Scanline.comesAfter b a).
    + constructor; [exact Ha|]. constructor; assumption.
    + constructor; assumption.
Qed.

Lemma sortIntersections_spec (P : Scanline.Intersection -> Prop) l :
  length (Scanline.sortIntersections l) = length l /\
  (Forall P l -> Forall P (Scanline.sortIntersections l)).
Proof.
  unfold Scanline.sortIntersections.
  assert (G : forall acc,
             length (fold_left (fun acc a => Scanline.insertSorted a acc) l acc)
             = (length acc + length l)%nat /\
             (Forall P acc -> Forall P l ->
              Forall P (fold_left (fun acc a => Scanline.insertSorted a acc) l acc))).
  { induction l as [|a l IH]; intros acc; simpl.
    - split; [lia|]. intros H _. exact H.
    - destruct (IH (Scanline.insertSorted a acc)) as [IH1 IH2].
      split.
      + rewrite IH1, insertSorted_length. lia.
      + intros Hacc Hl. inversion Hl; subst.
        apply IH2; [apply insertSorted_Forall|]; assumption. }
  destruct (G []) as [G1 G2]. split; [exact G1|].
  intros H. apply G2; [constructor|exact H].
Qed.

(** C2.  When the overlapping combiner rebuilds its scanline, every
    crossing that an edge reports is stored with the direction
    [undefined]: the edges name that property dy, the combiner reads
    direction.  No crossing is dropped, a tangent one included, since
    [undefined === 0] is false.
    - A vertical edge from (0,0) to (0,2) reports x = 0, dy = 1 at
      y = 1; the scanline stores ([0], [undefined]) and the winding at
      x = 1 is NaN instead of 1.
    - The parabola (0,0), (1,2), (2,0) touches y = 1 and reports dy = 0
      there; the crossing is stored all the same. *)
Theorem overlapping_scanline_direction_undefined :
  (forall M s y contours,
     let recorded :=
       Scanline.intersections
         (OverlappingContourCombiner.updateScanline M s y contours) in
     Forall (fun i => Scanline.direction i = JUndefined) recorded /\
     length recorded = length (reportedCrossings M y contours)) /\
  (let edge := EdgeSegment.Linear
                 (LinearSegment.mk (Vector2.mk 0 0) (Vector2.mk 0 2)
                                   EdgeColor.WHITE) in
   let s := OverlappingContourCombiner.updateScanline
              exampleMath Scanline.empty 1 [Contour.mk [Some edge]] in
   (exists qx, EdgeSegment.scanlineIntersections exampleMath edge 1
               = [edgeIntersection qx 1] /\ qx == 0) /\
   (exists qx, Scanline.intersections s
               = [Scanline.mkIntersection (JNum qx) JUndefined] /\ qx == 0) /\
   Scanline.countWinding s 1 = JNaN) /\
  (let edge := EdgeSegment.Quadratic
                 (QuadraticSegment.mk (Vector2.mk 0 0) (Vector2.mk 1 2)
                                      (Vector2.mk 2 0) EdgeColor.WHITE) in
   let s := OverlappingContourCombiner.updateScanline
              exampleMath Scanline.empty 1 [Contour.mk [Some edge]] in
   (exists qx, EdgeSegment.scanlineIntersections exampleMath edge 1
               = [edgeIntersection qx 0] /\ qx == 1) /\
   Scanline.getIntersectionCount s = 1%nat).
Proof.
  split; [|split].
  - intros M s y contours recorded. subst recorded.
    unfold OverlappingContourCombiner.updateScanline, Scanline.sort; simpl.
    rewrite scanContours_records; simpl.
    destruct (sortIntersections_spec
                (fun i => Scanline.direction i = JUndefined)
                (List.map recordOf (reportedCrossings M y contours)))
      as [Hlen Hall].
    split.
    + apply Hall. apply List.Forall_forall. intros i Hi.
      apply in_map_iff in Hi. destruct Hi as (o & <- & _). reflexivity.
    + rewrite Hlen, length_map. reflexivity.
  - cbv zeta. split; [|split].
    + eexists. split; [vm_compute; reflexivity|reflexivity].
    + eexists. split; [vm_compute; reflexivity|reflexivity].
    + vm_compute. reflexivity.
  - cbv zeta. split.
    + eexists. split; [vm_compute; reflexivity|reflexivity].
    + vm_compute. reflexivity.
Qed.

(** ** msdfgen.ts: the pixel loop on a shape without contours *)

Lemma store_length pixels offset v :
  length (Bitmap.store pixels offset v) = length pixels.
Proof.
  unfold Bitmap.store. destruct (0 <=? offset)%Z; [|reflexivity].
  apply length_insert.
Qed.

(** A store of a number keeps the cells that already hold it. *)
Lemma store_keeps pixels offset q i :
  pixels !! i = Some (JNum q) ->
  Bitmap.store pixels offset (JNum q) !! i = Some (JNum q).
Proof.
  intros H. unfold Bitmap.store. destruct (0 <=? offset)%Z; [|exact H].
  destruct (decide (Z.to_nat offset = i)) as [->|Hne].
  - apply list_lookup_insert_eq. eapply lookup_lt_Some. exact H.
  - rewrite list_lookup_insert_ne by exact Hne. exact H.
Qed.

Lemma store_sets pixels q (i : nat) :
  (i < length pixels)%nat ->
  Bitmap.store pixels (Z.of_nat i) (JNum q) !! i = Some (JNum q).
Proof.
  intros H. unfold Bitmap.store.
  destruct (0 <=? Z.of_nat i)%Z eqn:E; [|apply Z.leb_gt in E; lia].
  rewrite Nat2Z.id. apply list_lookup_insert_eq. exact H.
Qed.

Section EmptyShapeLoop.
Variable C : ContourCombiner.
Variable convertDistance : list jsval -> Z -> jsobj -> list jsval.
Variable inverseYAxis : bool.
Variable transformation : SDFTransformation.t.
Variables width channels : nat.
Variable Inv : combinerState C -> Prop.
Variable dist0 : jsobj.
Variable q : Q.

(** On the empty list of contours the combiner keeps [Inv] and answers
    [dist0]. *)
Hypothesis combiner_answer :
  forall st p, Inv st ->
    exists st', combinerDistance C st p [] = (dist0, st') /\ Inv st'.

(** The converter stores the number [q] in the [channels] cells that
    start at the offset, and touches nothing else. *)
Hypothesis convert_length :
  forall pixels offset,
    length (convertDistance pixels offset dist0) = length pixels.
Hypothesis convert_keeps :
  forall pixels offset i,
    pixels !! i = Some (JNum q) ->
    convertDistance pixels offset dist0 !! i = Some (JNum q).
Hypothesis convert_sets :
  forall pixels (offset k : nat),
    (k < channels)%nat -> (offset + k < length pixels)%nat ->
    convertDistance pixels (Z.of_nat offset) dist0 !! (offset + k)%nat
    = Some (JNum q).

Local Abbreviation shape := (Shape.mk [] inverseYAxis).
Local Abbreviation colLoop :=
  (Generators.columnLoop C convertDistance shape transformation
                         (Z.of_nat width) (Z.of_nat channels)).
Local Abbreviation rowsLoop :=
  (Generators.rowLoop C convertDistance shape transformation
                      (Z.of_nat width) (Z.of_nat channels)).

Lemma columnLoop_length cols y x xDirection st :
  Inv (fst st) ->
  Inv (fst (colLoop cols y x xDirection st)) /\
  length (snd (colLoop cols y x xDirection st)) = length (snd st).
Proof.
  revert x st. induction cols as [|cols IH]; intros x st HInv.
  - simpl. split; [exact HInv|reflexivity].
  - destruct st as [combiner pixels]. simpl in HInv.
    cbn [Generators.columnLoop].
    destruct (combiner_answer combiner
                (SDFTransformation.unproject transformation
                   (Vector2.mk (inject_Z x + 0.5) (inject_Z y + 0.5))) HInv)
      as (combiner' & Hd & HInv').
    cbn [Shape.contours]. rewrite Hd.
    destruct (IH (x + xDirection)%Z
                 (combiner', convertDistance pixels
                    ((y * Z.of_nat width + x) * Z.of_nat channels)%Z dist0)
                 HInv') as [I1 I2].
    split; [exact I1|]. rewrite I2. cbn [snd]. apply convert_length.
Qed.

Lemma rowLoop_length rows row xDirection st :
  Inv (fst st) ->
  length (snd (rowsLoop rows row 1%Z 0%Z xDirection st)) = length (snd st).
Proof.
  revert row xDirection st.
  induction rows as [|rows IH]; intros row xDirection st HInv.
  - reflexivity.
  - cbn [Generators.rowLoop].
    change (1 <? 0)%Z with false. cbv iota.
    destruct (columnLoop_length (Z.to_nat (Z.of_nat width)) (0 + row * 1)%Z
                (if (xDirection <? 0)%Z then (Z.of_nat width - 1)%Z else 0%Z)
                xDirection st HInv) as [I1 I2].
    rewrite IH by exact I1. exact I2.
Qed.

(** The column loop keeps [Inv] and the length; the cell [i] holds [q]
    afterwards as soon as it held it before, or belongs to a pixel the
    loop visits. *)
Lemma columnLoop_cell (i : nat) (ty tx k : nat) :
  (k < channels)%nat -> i = ((ty * width + tx) * channels + k)%nat ->
  forall cols y x xDirection st,
    Inv (fst st) ->
    let st' := colLoop cols y x xDirection st in
    Inv (fst st') /\ length (snd st') = length (snd st) /\
    (snd st !! i = Some (JNum q)
     \/ (i < length (snd st))%nat /\ y = Z.of_nat ty /\
        (exists j, (j < cols)%nat
                   /\ (x + Z.of_nat j * xDirection)%Z = Z.of_nat tx) ->
     snd st' !! i = Some (JNum q)).
Proof.
  intros Hk Hi. induction cols as [|cols IH]; intros y x xDirection st HInv.
  - simpl. split; [exact HInv|]. split; [reflexivity|].
    intros [H|(_ & _ & j & Hj & _)]; [exact H|lia].
  - destruct st as [combiner pixels]. simpl in HInv.
    cbn [Generators.columnLoop].
    destruct (combiner_answer combiner
                (SDFTransformation.unproject transformation
                   (Vector2.mk (inject_Z x + 0.5) (inject_Z y + 0.5))) HInv)
      as (combiner' & Hd & HInv').
    change (Shape.contours shape) with (@nil Contour.t).
    rewrite Hd.
    set (pixels' := convertDistance pixels _ dist0).
    assert (Hlen : length pixels' = length pixels) by apply convert_length.
    destruct (IH y (x + xDirection)%Z xDirection (combiner', pixels') HInv')
      as (I1 & I2 & I3).
    split; [exact I1|]. split.
    { rewrite I2. exact Hlen. }
    intros H. apply I3. cbn [snd] in *.
    destruct H as [H|(Hlt & Hy & j & Hj & Hx)].
    + left. apply convert_keeps. exact H.
    + destruct j as [|j].
      * left. subst pixels'.
        assert (Hoff : ((y * Z.of_nat width + x) * Z.of_nat channels)%Z
                       = Z.of_nat ((ty * width + tx) * channels)) by lia.
        rewrite Hoff, Hi. apply convert_sets; [exact Hk|lia].
      * right. split; [lia|]. split; [exact Hy|].
        exists j. split; lia.
Qed.

(** The row loop of [generateDistanceField], where yDirection is 1 and
    yStart is 0: every row from [row] on is visited, from the left or
    from the right. *)
Lemma rowLoop_cell (i : nat) (ty tx k : nat) :
  (k < channels)%nat -> (tx < width)%nat ->
  i = ((ty * width + tx) * channels + k)%nat ->
  forall rows row xDirection st,
    Inv (fst st) -> (xDirection = 1 \/ xDirection = -1)%Z ->
    let st' := rowsLoop rows row 1%Z 0%Z xDirection st in
    length (snd st') = length (snd st) /\
    (snd st !! i = Some (JNum q)
     \/ (i < length (snd st))%nat
        /\ (row <= Z.of_nat ty < row + Z.of_nat rows)%Z ->
     snd st' !! i = Some (JNum q)).
Proof.
  intros Hk Htx Hi. induction rows as [|rows IH];
    intros row xDirection st HInv Hdir.
  - simpl. split; [reflexivity|].
    intros [H|[_ H]]; [exact H|lia].
  - cbn [Generators.rowLoop].
    change (1 <? 0)%Z with false. cbv iota.
    replace (0 + row * 1)%Z with row by lia.
    set (x := if (xDirection <? 0)%Z then (Z.of_nat width - 1)%Z else 0%Z).
    destruct (columnLoop_cell i ty tx k Hk Hi (Z.to_nat (Z.of_nat width))
                row x xDirection st HInv) as (I1 & I2 & I3).
    set (st1 := colLoop (Z.to_nat (Z.of_nat width)) row x xDirection st) in *.
    assert (Hdir' : (- xDirection = 1 \/ - xDirection = -1)%Z) by lia.
    destruct (IH (row + 1)%Z (- xDirection)%Z st1 I1 Hdir') as [J1 J2].
    split; [rewrite J1; exact I2|].
    intros H. apply J2.
    destruct H as [H|[Hlt Hr]].
    + left. apply I3. left. exact H.
    + destruct (decide (row = Z.of_nat ty)) as [E|E].
      * left. apply I3. right. split; [exact Hlt|]. split; [exact E|].
        rewrite Nat2Z.id. subst x.
        destruct Hdir as [-> | ->]; simpl.
        -- exists tx. split; lia.
        -- exists (width - 1 - tx)%nat. split; lia.
      * right. rewrite I2. split; [exact Hlt|lia].
Qed.

(** Every cell of a bitmap of [width] x [height] pixels holds [q] after
    [generateDistanceField] on the shape without contours. *)
Lemma generateDistanceField_empty (output : Bitmap.t) :
  Bitmap.width output = width -> Bitmap.channelCount output = channels ->
  length (Bitmap.data output) = (channels * width * Bitmap.height output)%nat ->
  Inv (combinerCreate C) ->
  let result :=
    Generators.generateDistanceField C output shape transformation
                                     convertDistance in
  Bitmap.width result = Bitmap.width output /\
  Bitmap.height result = Bitmap.height output /\
  Bitmap.channelCount result = Bitmap.channelCount output /\
  length (Bitmap.data result) = length (Bitmap.data output) /\
  forall i, (i < length (Bitmap.data output))%nat ->
            Bitmap.data result !! i = Some (JNum q).
Proof.
  intros Hw Hc Hlen HInv. unfold Generators.generateDistanceField.
  unfold Generators.strictEqNumberString. cbv zeta.
  change (1 <? 0)%Z with false. cbv iota.
  rewrite Hw, Hc.
  destruct (rowsLoop (Bitmap.height output) 0%Z 1%Z 0%Z 1%Z
                     (combinerCreate C, Bitmap.data output))
    as [combiner pixels] eqn:E.
  cbn [Bitmap.width Bitmap.height Bitmap.channelCount Bitmap.data].
  split; [reflexivity|]. split; [reflexivity|]. split; [reflexivity|].
  assert (Hrows := rowLoop_length (Bitmap.height output) 0%Z 1%Z
                                    (combinerCreate C, Bitmap.data output) HInv).
  rewrite E in Hrows. cbn [snd] in Hrows.
  split; [exact Hrows|].
  intros i Hi. rewrite Hlen in Hi.
  assert (Hc0 : (0 < channels)%nat) by (destruct channels; [simpl in Hi|]; lia).
  assert (Hw0 : (0 < width)%nat)
    by (destruct width; [rewrite Nat.mul_0_r in Hi; simpl in Hi|]; lia).
  set (k := (i mod channels)%nat).
  set (px := (i / channels)%nat).
  set (tx := (px mod width)%nat).
  set (ty := (px / width)%nat).
  assert (Hk : (k < channels)%nat) by (apply Nat.mod_upper_bound; lia).
  assert (Htx : (tx < width)%nat) by (apply Nat.mod_upper_bound; lia).
  assert (Hpx : px = (width * ty + tx)%nat) by (apply Nat.div_mod_eq).
  assert (Hik : i = (channels * px + k)%nat) by (apply Nat.div_mod_eq).
  assert (Hi' : i = ((ty * width + tx) * channels + k)%nat) by lia.
  assert (Hty : (ty < Bitmap.height output)%nat).
  { assert (px < width * Bitmap.height output)%nat.
    { apply Nat.Div0.div_lt_upper_bound. lia. }
    apply Nat.Div0.div_lt_upper_bound. lia. }
  destruct (rowLoop_cell i ty tx k Hk Htx Hi' (Bitmap.height output) 0%Z 1%Z
              (combinerCreate C, Bitmap.data output) HInv) as [_ Hcell];
    [left; reflexivity|].
  rewrite E in Hcell. cbn [snd] in Hcell. apply Hcell.
  right. split; lia.
Qed.

End EmptyShapeLoop.

Lemma MAX_VALUE_opp_opp : - - MAX_VALUE = MAX_VALUE.
Proof. reflexivity. Qed.

Lemma MAX_VALUE_negative : Qltb (- MAX_VALUE) 0 = true.
Proof. vm_compute. reflexivity. Qed.

(** The answers of the combiners on the empty list of contours. *)
Lemma simple_distance_nil M S origin :
  SimpleContourCombiner.distance M S origin [] = selectorDistance S (selectorReset S).
Proof. reflexivity. Qed.

Lemma overlapping_distance_nil M S c origin :
  scanlineEmpty c ->
  exists c',
    OverlappingContourCombiner.distance M S c origin []
    = (OverlappingContourCombiner.correctSign
         false (selectorDistance S (selectorReset S)), c')
    /\ scanlineEmpty c'.
Proof.
  intros Hc. unfold OverlappingContourCombiner.distance.
  destruct (negb (js_strict_eq_num (OverlappingContourCombiner.lastY c)
                                   (Vector2.y origin))).
  - eexists. split; [reflexivity|reflexivity].
  - exists c. split; [|exact Hc].
    unfold Scanline.filled, Scanline.countWinding.
    unfold scanlineEmpty in Hc. rewrite Hc. reflexivity.
Qed.

(** Not filled, and the reset value is negative: the sign is flipped. *)
Lemma correctSign_reset :
  OverlappingContourCombiner.correctSign
    false (signedDistanceObject (SignedDistance.mk (- MAX_VALUE) 0))
  = signedDistanceObject (SignedDistance.mk MAX_VALUE 0).
Proof.
  unfold OverlappingContourCombiner.correctSign, signedDistanceObject.
  unfold js_in, js_get. cbn [SignedDistance.distance SignedDistance.dot].
  rewrite !lookup_insert_eq.
  cbn [js_lt]. rewrite MAX_VALUE_negative. cbn [eqb negb].
  rewrite !lookup_insert_ne by discriminate.
  rewrite lookup_empty. cbn [andb js_neg].
  rewrite MAX_VALUE_opp_opp. apply insert_insert_eq.
Qed.

Lemma signedDistanceObject_distance d :
  js_get (signedDistanceObject d) "distance" = JNum (SignedDistance.distance d).
Proof. unfold js_get, signedDistanceObject. rewrite lookup_insert_eq. reflexivity. Qed.

Lemma multiDistanceObject_channels r g b :
  js_get (multiDistanceObject r g b) "r" = JNum r /\
  js_get (multiDistanceObject r g b) "g" = JNum g /\
  js_get (multiDistanceObject r g b) "b" = JNum b.
Proof. repeat split. Qed.

Lemma multiAndTrueDistanceObject_channels r g b a :
  js_get (multiAndTrueDistanceObject r g b a) "r" = JNum r /\
  js_get (multiAndTrueDistanceObject r g b a) "g" = JNum g /\
  js_get (multiAndTrueDistanceObject r g b a) "b" = JNum b /\
  js_get (multiAndTrueDistanceObject r g b a) "a" = JNum a.
Proof. repeat split. Qed.

(** A bitmap whose cells all hold [v] is [filledWith]. *)
Lemma filledWith_intro (output result : Bitmap.t) (v : Q) :
  wellSized output ->
  Bitmap.width result = Bitmap.width output /\
  Bitmap.height result = Bitmap.height output /\
  Bitmap.channelCount result = Bitmap.channelCount output /\
  length (Bitmap.data result) = length (Bitmap.data output) /\
  (forall i, (i < length (Bitmap.data output))%nat ->
             Bitmap.data result !! i = Some (JNum v)) ->
  result = filledWith output v.
Proof.
  intros Hsize (Hw & Hh & Hc & Hlen & Hcells).
  destruct result as [w h c data]. simpl in *. subst w h c.
  unfold filledWith. f_equal.
  apply list_eq. intros i.
  destruct (decide (i < length (Bitmap.data output))%nat) as [Hi|Hi].
  - rewrite Hcells by exact Hi.
    symmetry. apply lookup_replicate_2. rewrite <- Hsize. exact Hi.
  - rewrite lookup_ge_None_2 by lia.
    symmetry. apply lookup_ge_None_2. rewrite length_replicate.
    rewrite <- Hsize. lia.
Qed.

(** The three converters store one mapped number per channel. *)
Section Converters.
Variable m : DistanceMapping.t.
Variable dist0 : jsobj.
Variable d : Q.

Lemma single_convert_length pixels offset :
  length (Generators.singleChannelConvert m pixels offset dist0) = length pixels.
Proof. apply store_length. Qed.

Lemma single_convert_keeps pixels offset i :
  js_get dist0 "distance" = JNum d ->
  pixels !! i = Some (JNum (DistanceMapping.map m d)) ->
  Generators.singleChannelConvert m pixels offset dist0 !! i
  = Some (JNum (DistanceMapping.map m d)).
Proof.
  intros Hd H. unfold Generators.singleChannelConvert.
  rewrite Hd. apply store_keeps. exact H.
Qed.

Lemma single_convert_sets pixels (offset k : nat) :
  js_get dist0 "distance" = JNum d ->
  (k < 1)%nat -> (offset + k < length pixels)%nat ->
  Generators.singleChannelConvert m pixels (Z.of_nat offset) dist0
    !! (offset + k)%nat
  = Some (JNum (DistanceMapping.map m d)).
Proof.
  intros Hd Hk Hlt. unfold Generators.singleChannelConvert.
  rewrite Hd. replace k with 0%nat by lia. rewrite Nat.add_0_r.
  apply store_sets. lia.
Qed.

Lemma multi_convert_length pixels offset :
  length (Generators.multiChannelConvert m pixels offset dist0) = length pixels.
Proof.
  unfold Generators.multiChannelConvert. rewrite !store_length. reflexivity.
Qed.

Lemma multi_convert_keeps pixels offset i :
  js_get dist0 "r" = JNum d -> js_get dist0 "g" = JNum d ->
  js_get dist0 "b" = JNum d ->
  pixels !! i = Some (JNum (DistanceMapping.map m d)) ->
  Generators.multiChannelConvert m pixels offset dist0 !! i
  = Some (JNum (DistanceMapping.map m d)).
Proof.
  intros Hr Hg Hb H. unfold Generators.multiChannelConvert.
  rewrite Hr, Hg, Hb. cbn [Generators.mapValue].
  repeat apply store_keeps. exact H.
Qed.

Lemma multi_convert_sets pixels (offset k : nat) :
  js_get dist0 "r" = JNum d -> js_get dist0 "g" = JNum d ->
  js_get dist0 "b" = JNum d ->
  (k < 3)%nat -> (offset + k < length pixels)%nat ->
  Generators.multiChannelConvert m pixels (Z.of_nat offset) dist0
    !! (offset + k)%nat
  = Some (JNum (DistanceMapping.map m d)).
Proof.
  intros Hr Hg Hb Hk Hlt. unfold Generators.multiChannelConvert.
  rewrite Hr, Hg, Hb. cbn [Generators.mapValue].
  replace (Z.of_nat offset + 1)%Z with (Z.of_nat (offset + 1)) by lia.
  replace (Z.of_nat offset + 2)%Z with (Z.of_nat (offset + 2)) by lia.
  destruct k as [|[|[|k]]]; [| | |lia].
  - rewrite Nat.add_0_r. do 2 apply store_keeps. apply store_sets. lia.
  - apply store_keeps. apply store_sets. rewrite store_length. lia.
  - apply store_sets. rewrite !store_length. lia.
Qed.

Lemma multiAndTrue_convert_length pixels offset :
  length (Generators.multiAndTrueChannelConvert m pixels offset dist0)
  = length pixels.
Proof.
  unfold Generators.multiAndTrueChannelConvert. rewrite !store_length.
  reflexivity.
Qed.

Lemma multiAndTrue_convert_keeps pixels offset i :
  js_get dist0 "r" = JNum d -> js_get dist0 "g" = JNum d ->
  js_get dist0 "b" = JNum d -> js_get dist0 "a" = JNum d ->
  pixels !! i = Some (JNum (DistanceMapping.map m d)) ->
  Generators.multiAndTrueChannelConvert m pixels offset dist0 !! i
  = Some (JNum (DistanceMapping.map m d)).
Proof.
  intros Hr Hg Hb Ha H. unfold Generators.multiAndTrueChannelConvert.
  rewrite Hr, Hg, Hb, Ha. cbn [Generators.mapValue].
  repeat apply store_keeps. exact H.
Qed.

Lemma multiAndTrue_convert_sets pixels (offset k : nat) :
  js_get dist0 "r" = JNum d -> js_get dist0 "g" = JNum d ->
  js_get dist0 "b" = JNum d -> js_get dist0 "a" = JNum d ->
  (k < 4)%nat -> (offset + k < length pixels)%nat ->
  Generators.multiAndTrueChannelConvert m pixels (Z.of_nat offset) dist0
    !! (offset + k)%nat
  = Some (JNum (DistanceMapping.map m d)).
Proof.
  intros Hr Hg Hb Ha Hk Hlt. unfold Generators.multiAndTrueChannelConvert.
  rewrite Hr, Hg, Hb, Ha. cbn [Generators.mapValue].
  replace (Z.of_nat offset + 1)%Z with (Z.of_nat (offset + 1)) by lia.
  replace (Z.of_nat offset + 2)%Z with (Z.of_nat (offset + 2)) by lia.
  replace (Z.of_nat offset + 3)%Z with (Z.of_nat (offset + 3)) by lia.
  destruct k as [|[|[|[|k]]]]; [| | | |lia].
  - rewrite Nat.add_0_r. do 3 apply store_keeps. apply store_sets. lia.
  - do 2 apply store_keeps. apply store_sets. rewrite store_length. lia.
  - apply store_keeps. apply store_sets. rewrite !store_length. lia.
  - apply store_sets. rewrite !store_length. lia.
Qed.

End Converters.

Lemma field_empty (C : ContourCombiner)
  (convertDistance : list jsval -> Z -> jsobj -> list jsval)
  (Inv : combinerState C -> Prop) (dist0 : jsobj) (v : Q)
  (output : Bitmap.t) (inverseYAxis : bool) (tr : SDFTransformation.t) :
  wellSized output ->
  Inv (combinerCreate C) ->
  (forall st p, Inv st ->
     exists st', combinerDistance C st p [] = (dist0, st') /\ Inv st') ->
  (forall pixels offset,
     length (convertDistance pixels offset dist0) = length pixels) ->
  (forall pixels offset i,
     pixels !! i = Some (JNum v) ->
     convertDistance pixels offset dist0 !! i = Some (JNum v)) ->
  (forall pixels (offset k : nat),
     (k < Bitmap.channelCount output)%nat ->
     (offset + k < length pixels)%nat ->
     convertDistance pixels (Z.of_nat offset) dist0 !! (offset + k)%nat
     = Some (JNum v)) ->
  Generators.generateDistanceField C output (Shape.mk [] inverseYAxis) tr
                                   convertDistance
  = filledWith output v.
Proof.
  intros Hsize HInv Hans Hlen Hkeeps Hsets.
  apply filledWith_intro; [exact Hsize|].
  apply (generateDistanceField_empty C convertDistance inverseYAxis tr
           (Bitmap.width output) (Bitmap.channelCount output) Inv dist0 v
           Hans Hlen Hkeeps Hsets output eq_refl eq_refl Hsize HInv).
Qed.

Lemma simple_answer M S :
  forall (st : combinerState (simpleCombiner M S)) (p : Point2), True ->
    exists st',
      combinerDistance (simpleCombiner M S) st p []
      = (selectorDistance S (selectorReset S), st') /\ True.
Proof. intros st p _. exists st. split; [reflexivity|exact I]. Qed.

Lemma overlapping_answer M S :
  forall (st : combinerState (overlappingCombiner M S)) (p : Point2),
    scanlineEmpty st ->
    exists st',
      combinerDistance (overlappingCombiner M S) st p []
      = (OverlappingContourCombiner.correctSign
           false (selectorDistance S (selectorReset S)), st')
      /\ scanlineEmpty st'.
Proof. intros st p H. apply overlapping_distance_nil. exact H. Qed.

(** The single-channel generators on the shape without contours. *)
Lemma single_channel_empty M (S : EdgeSelector) output inverseYAxis tr :
  selectorDistance S (selectorReset S)
  = signedDistanceObject (SignedDistance.mk (- MAX_VALUE) 0) ->
  wellSized output -> Bitmap.channelCount output = 1%nat ->
  let m := SDFTransformation.distanceMapping tr in
  Generators.generateDistanceField
    (overlappingCombiner M S) output (Shape.mk [] inverseYAxis) tr
    (Generators.singleChannelConvert m)
  = filledWith output (DistanceMapping.map m MAX_VALUE) /\
  Generators.generateDistanceField
    (simpleCombiner M S) output (Shape.mk [] inverseYAxis) tr
    (Generators.singleChannelConvert m)
  = filledWith output (DistanceMapping.map m (- MAX_VALUE)).
Proof.
  intros HS Hsize Hc m. split.
  - apply (field_empty (overlappingCombiner M S) _ scanlineEmpty
             (signedDistanceObject (SignedDistance.mk MAX_VALUE 0)));
      try exact Hsize.
    + reflexivity.
    + intros st p H. rewrite <- correctSign_reset, <- HS.
      apply overlapping_answer. exact H.
    + intros. apply single_convert_length.
    + intros. apply single_convert_keeps; [|assumption].
      apply signedDistanceObject_distance.
    + intros pixels offset k Hk Hlt. rewrite Hc in Hk.
      apply single_convert_sets; [|assumption..].
      apply signedDistanceObject_distance.
  - apply (field_empty (simpleCombiner M S) _ (fun _ => True)
             (signedDistanceObject (SignedDistance.mk (- MAX_VALUE) 0)));
      try exact Hsize.
    + exact I.
    + intros st p H. rewrite <- HS. apply simple_answer. exact H.
    + intros. apply single_convert_length.
    + intros. apply single_convert_keeps; [|assumption].
      apply signedDistanceObject_distance.
    + intros pixels offset k Hk Hlt. rewrite Hc in Hk.
      apply single_convert_sets; [|assumption..].
      apply signedDistanceObject_distance.
Qed.




(** ** Contour.ts and Shape.ts: winding, reverse, normalize *)


Lemma veq_refl a : veq a a.
Proof. split; reflexivity. Qed.

Lemma veq_sym a b : veq a b -> veq b a.
Proof. intros [H1 H2]. split; symmetry; assumption. Qed.

Lemma veq_trans a b c : veq a b -> veq b c -> veq a c.
Proof. intros [H1 H2] [H3 H4]. split; etransitivity; eassumption. Qed.

Lemma shoelace_veq a a' b b' :
  veq a a' -> veq b b' -> Contour.shoelace a b == Contour.shoelace a' b'.
Proof.
  intros [H1 H2] [H3 H4]. unfold Contour.shoelace.
  rewrite H1, H2, H3, H4. reflexivity.
Qed.

Lemma shoelace_antisym a b : Contour.shoelace b a == - Contour.shoelace a b.
Proof. unfold Contour.shoelace. ring. Qed.

Lemma chain_veq l l' : Forall2 veq l l' -> chain l == chain l'.
Proof.
  intros H. induction H as [|a a' l l' Ha Hl IH]; [reflexivity|].
  destruct Hl as [|b b' l l' Hb Hl]; [reflexivity|].
  change (Contour.shoelace a b + chain (b :: l)
          == Contour.shoelace a' b' + chain (b' :: l')).
  rewrite IH, (shoelace_veq a a' b b' Ha Hb). reflexivity.
Qed.

(** The chain over [l ++ [a; b]] ends with the pair (a, b). *)
Lemma chain_snoc l a b :
  chain (l ++ [a; b]) == chain (l ++ [a]) + Contour.shoelace a b.
Proof.
  induction l as [|c l IH].
  - simpl. ring.
  - destruct l as [|d l].
    + simpl. ring.
    + change (Contour.shoelace c d + chain ((d :: l) ++ [a; b])
              == Contour.shoelace c d + chain ((d :: l) ++ [a])
                 + Contour.shoelace a b).
      rewrite IH. ring.
Qed.

(** Walking a polyline backwards negates the sum. *)
Lemma chain_rev l : chain (rev l) == - chain l.
Proof.
  induction l as [|a l IH]; [reflexivity|].
  destruct l as [|b l]; [reflexivity|].
  change (chain (rev (b :: l) ++ [a]) == - (Contour.shoelace a b + chain (b :: l))).
  change (rev (b :: l)) with (rev l ++ [b]).
  rewrite <- app_assoc. change ([b] ++ [a]) with [b; a].
  rewrite chain_snoc.
  change (rev l ++ [b]) with (rev (b :: l)).
  rewrite IH, shoelace_antisym. ring.
Qed.

(** Closing a polyline at either end gives the same sum. *)
Lemma chain_cycle (a b z : Point2) (rest : list Point2) :
  chain ((b :: rest ++ [z]) ++ [a; b])
  == chain (z :: a :: b :: rest ++ [z]).
Proof.
  rewrite chain_snoc.
  change (chain (z :: a :: b :: rest ++ [z]))
    with (Contour.shoelace z a + (Contour.shoelace a b + chain (b :: rest ++ [z]))).
  assert (H : chain ((b :: rest ++ [z]) ++ [a])
              == chain (b :: rest ++ [z]) + Contour.shoelace z a).
  { change ((b :: rest ++ [z]) ++ [a]) with (b :: (rest ++ [z]) ++ [a]).
    rewrite <- app_assoc. change ([z] ++ [a]) with [z; a].
    change (b :: rest ++ [z; a]) with ((b :: rest) ++ [z; a]).
    rewrite chain_snoc. reflexivity. }
  rewrite H. ring.
Qed.

(** The value of the general loop of [winding]. *)
Lemma windingLoop_chain es prev total :
  exists t,
    Contour.windingLoop (List.map Some es) prev total = Some t /\
    t == total + chain (prev :: List.map (fun e => EdgeSegment.point e 0) es).
Proof.
  revert prev total. induction es as [|e es IH]; intros prev total.
  - exists total. split; [reflexivity|]. simpl. ring.
  - destruct (IH (EdgeSegment.point e 0)
                 (total + Contour.shoelace prev (EdgeSegment.point e 0)))
      as (t & Ht & Heq).
    exists t. split; [exact Ht|]. rewrite Heq.
    change (chain (prev :: List.map (fun e0 => EdgeSegment.point e0 0) (e :: es)))
      with (Contour.shoelace prev (EdgeSegment.point e 0)
            + chain (EdgeSegment.point e 0
                     :: List.map (fun e0 => EdgeSegment.point e0 0) es)).
    ring.
Qed.

Lemma getAll_Some hs es :
  Contour.getAll hs = Some es <-> hs = List.map Some es.
Proof.
  revert es. induction hs as [|h hs IH]; intros es; simpl.
  - split.
    + intros H. injection H as <-. reflexivity.
    + intros H. destruct es; [reflexivity|discriminate].
  - destruct h as [e|].
    + destruct (Contour.getAll hs) as [es'|] eqn:E.
      * split.
        -- intros H. injection H as <-. simpl. f_equal. apply IH. reflexivity.
        -- intros H. destruct es as [|e' es]; [discriminate|].
           simpl in H. injection H as -> H. apply IH in H.
           injection H as ->. reflexivity.
      * split; [discriminate|].
        intros H. destruct es as [|e' es]; [discriminate|].
        simpl in H. injection H as -> H. apply IH in H. discriminate.
    + split; [discriminate|]. intros H. destruct es; discriminate.
Qed.

(** A reversed edge is the edge walked backwards, at the parameters
    that [winding] samples. *)
Lemma point_reverse_0 e :
  veq (EdgeSegment.point (EdgeSegment.reverse e) 0) (EdgeSegment.point e 1).
Proof. destruct e as [e|e|e]; destruct e; split; simpl; ring. Qed.

Lemma point_reverse_third e :
  veq (EdgeSegment.point (EdgeSegment.reverse e) (1 / 3))
      (EdgeSegment.point e (2 / 3)).
Proof. destruct e as [e|e|e]; destruct e; split; simpl; field. Qed.

Lemma point_reverse_two_thirds e :
  veq (EdgeSegment.point (EdgeSegment.reverse e) (2 / 3))
      (EdgeSegment.point e (1 / 3)).
Proof. destruct e as [e|e|e]; destruct e; split; simpl; field. Qed.

Lemma point_reverse_half e :
  veq (EdgeSegment.point (EdgeSegment.reverse e) 0.5)
      (EdgeSegment.point e 0.5).
Proof. destruct e as [e|e|e]; destruct e; split; simpl; ring. Qed.

Lemma reverse_edges es :
  Contour.edges (Contour.reverse (Contour.mk (List.map Some es)))
  = List.map Some (rev (List.map EdgeSegment.reverse es)).
Proof.
  unfold Contour.reverse. simpl.
  rewrite List.map_map, <- map_rev. simpl.
  rewrite <- (List.map_map EdgeSegment.reverse Some), map_rev. reflexivity.
Qed.

Lemma Forall2_veq_refl l : Forall2 veq l l.
Proof. induction l; constructor; [apply veq_refl|assumption]. Qed.

Lemma Forall2_veq_rev l l' : Forall2 veq l l' -> Forall2 veq (rev l) (rev l').
Proof.
  intros H. induction H as [|a a' l l' Ha Hl IH]; [constructor|].
  simpl. apply Forall2_app; [exact IH|]. constructor; [exact Ha|constructor].
Qed.

Lemma Forall2_veq_trans l1 l2 l3 :
  Forall2 veq l1 l2 -> Forall2 veq l2 l3 -> Forall2 veq l1 l3.
Proof.
  intros H. revert l3. induction H as [|a b l1 l2 Hab Hl IH]; intros l3 H3.
  - inversion H3. constructor.
  - inversion H3 as [|? c ? l3' Hbc Hl3]; subst.
    constructor; [eapply veq_trans; eassumption|apply IH; assumption].
Qed.

Lemma reversed_starts es :
  Forall2 veq
    (List.map (fun e => EdgeSegment.point e 0)
              (rev (List.map EdgeSegment.reverse es)))
    (rev (List.map (fun e => EdgeSegment.point e 1) es)).
Proof.
  rewrite map_rev. apply Forall2_veq_rev.
  induction es as [|e es IH]; simpl; constructor;
    [apply point_reverse_0|exact IH].
Qed.

Lemma last_map_Some (es : list EdgeSegment.t) (z : EdgeSegment.t) :
  last (List.map Some (es ++ [z])) = Some (Some z).
Proof. rewrite List.map_app. simpl. apply last_snoc. Qed.

Lemma windingTotal_long es :
  (3 <= length es)%nat ->
  Contour.windingTotal (Contour.mk (List.map Some es))
  = match last (List.map Some es) with
    | Some (Some lastEdge) =>
        Contour.windingLoop (List.map Some es) (EdgeSegment.point lastEdge 0) 0
    | _ => None
    end.
Proof.
  destruct es as [|a [|b [|c es]]]; simpl length; try lia. reflexivity.
Qed.

(** The sum computed by [winding] on a closed loop of three edges or
    more, before and after [reverse]. *)
Lemma windingTotal_reverse_general a b rest z :
  let es := a :: b :: rest ++ [z] in
  closedLoop es ->
  exists t t',
    Contour.windingTotal (Contour.mk (List.map Some es)) = Some t /\
    Contour.windingTotal (Contour.reverse (Contour.mk (List.map Some es)))
    = Some t' /\
    t' == - t.
Proof.
  intros es Hclosed.
  set (start := fun e : EdgeSegment.t => EdgeSegment.point e 0).
  set (stop := fun e : EdgeSegment.t => EdgeSegment.point e 1).
  (* before *)
  assert (H1 : exists t,
             Contour.windingTotal (Contour.mk (List.map Some es)) = Some t /\
             t == chain (start z :: List.map start es)).
  { assert (Hlast : last (List.map Some es) = Some (Some z)).
    { unfold es. change (a :: b :: rest ++ [z]) with ((a :: b :: rest) ++ [z]).
      apply last_map_Some. }
    destruct (windingLoop_chain es (EdgeSegment.point z 0) 0) as (t & Ht & Heq).
    exists t. split.
    - rewrite windingTotal_long, Hlast; [exact Ht|].
      unfold es. simpl. rewrite length_app. simpl. lia.
    - rewrite Heq. unfold start. apply Qplus_0_l. }
  (* after *)
  set (es' := rev (List.map EdgeSegment.reverse es)).
  assert (Hes' : es' = (EdgeSegment.reverse z
                        :: rev (List.map EdgeSegment.reverse rest))
                       ++ [EdgeSegment.reverse b; EdgeSegment.reverse a]).
  { unfold es', es. simpl. rewrite List.map_app, rev_app_distr. simpl.
    rewrite <- !app_assoc. reflexivity. }
  assert (H2 : exists t',
             Contour.windingTotal
               (Contour.reverse (Contour.mk (List.map Some es))) = Some t' /\
             t' == chain (start (EdgeSegment.reverse a) :: List.map start es')).
  { assert (Hrev : Contour.reverse (Contour.mk (List.map Some es))
                    = Contour.mk (List.map Some es')).
    { unfold Contour.reverse. f_equal. apply reverse_edges. }
    rewrite Hrev.
    assert (Hlast : last (List.map Some es') = Some (Some (EdgeSegment.reverse a))).
    { rewrite Hes'.
      change ([EdgeSegment.reverse b; EdgeSegment.reverse a])
        with ([EdgeSegment.reverse b] ++ [EdgeSegment.reverse a]).
      rewrite app_assoc. apply last_map_Some. }
    destruct (windingLoop_chain es' (EdgeSegment.point (EdgeSegment.reverse a) 0) 0)
      as (t' & Ht & Heq).
    exists t'. split.
    - rewrite windingTotal_long, Hlast; [exact Ht|].
      unfold es', es. rewrite length_rev, length_map. simpl.
      rewrite length_app. simpl. lia.
    - rewrite Heq. unfold start. apply Qplus_0_l. }
  destruct H1 as (t & Ht & Heqt). destruct H2 as (t' & Ht' & Heqt').
  exists t, t'. split; [exact Ht|]. split; [exact Ht'|].
  rewrite Heqt, Heqt'.
  (* the ends are the starts, rotated *)
  unfold closedLoop in Hclosed. fold start stop in Hclosed.
  assert (Hstops : Forall2 veq (List.map stop es)
                     ((start b :: List.map start rest ++ [start z]) ++ [start a])).
  { unfold es in *. simpl in Hclosed. rewrite !List.map_app in Hclosed.
    simpl in Hclosed. rewrite <- app_assoc in Hclosed.
    simpl. rewrite List.map_app. simpl.
    rewrite <- app_assoc. exact Hclosed. }
  assert (Ha : veq (start (EdgeSegment.reverse a)) (start b)).
  { eapply veq_trans; [apply point_reverse_0|].
    unfold es in Hstops. simpl in Hstops. inversion Hstops; subst. assumption. }
  assert (Hstarts' : Forall2 veq (List.map start es')
                       (rev ((start b :: List.map start rest ++ [start z])
                             ++ [start a]))).
  { eapply Forall2_veq_trans; [apply reversed_starts|].
    apply Forall2_veq_rev. exact Hstops. }
  assert (Hall : Forall2 veq
                   (start (EdgeSegment.reverse a) :: List.map start es')
                   (rev (((start b :: List.map start rest ++ [start z])
                          ++ [start a]) ++ [start b]))).
  { rewrite rev_app_distr. simpl rev at 1. simpl app at 1.
    constructor; [exact Ha|exact Hstarts']. }
  rewrite (chain_veq _ _ Hall), chain_rev.
  rewrite <- app_assoc. change ([start a] ++ [start b]) with [start a; start b].
  rewrite chain_cycle.
  unfold es. simpl. rewrite List.map_app. reflexivity.
Qed.

(** The same for a closed loop of any length. *)
Lemma windingTotal_reverse es :
  closedLoop es ->
  exists t t',
    Contour.windingTotal (Contour.mk (List.map Some es)) = Some t /\
    Contour.windingTotal (Contour.reverse (Contour.mk (List.map Some es)))
    = Some t' /\
    t' == - t.
Proof.
  intros Hclosed.
  destruct es as [|a [|b rest]].
  - exists 0, 0. repeat split.
  - (* one edge, which ends where it starts *)
    unfold closedLoop in Hclosed. simpl in Hclosed.
    inversion Hclosed as [|? ? ? ? Ha _]; subst.
    eexists. eexists. split; [reflexivity|]. split; [reflexivity|].
    rewrite (shoelace_veq _ (EdgeSegment.point a 0) _ (EdgeSegment.point a (2 / 3))).
    2: { eapply veq_trans; [apply point_reverse_0|exact Ha]. }
    2: { apply point_reverse_third. }
    rewrite (shoelace_veq (EdgeSegment.point (EdgeSegment.reverse a) (1 / 3))
               (EdgeSegment.point a (2 / 3)) _ (EdgeSegment.point a (1 / 3))).
    2: { apply point_reverse_third. }
    2: { apply point_reverse_two_thirds. }
    rewrite (shoelace_veq (EdgeSegment.point (EdgeSegment.reverse a) (2 / 3))
               (EdgeSegment.point a (1 / 3)) _ (EdgeSegment.point a 0)).
    2: { apply point_reverse_two_thirds. }
    2: { eapply veq_trans; [apply point_reverse_0|exact Ha]. }
    unfold Contour.shoelace. ring.
  - destruct (exists_last (l := b :: rest)) as (rest' & z & Hz); [discriminate|].
    destruct rest' as [|b' rest'].
    + (* two edges *)
      simpl in Hz. injection Hz as -> ->.
      unfold closedLoop in Hclosed. simpl in Hclosed.
      inversion Hclosed as [|? ? ? ? Ha Hrest]; subst.
      inversion Hrest as [|? ? ? ? Hb _]; subst.
      eexists. eexists. split; [reflexivity|]. split; [reflexivity|].
      rewrite (shoelace_veq (EdgeSegment.point (EdgeSegment.reverse z) 0)
                 (EdgeSegment.point a 0) _ (EdgeSegment.point z 0.5)).
      2: { eapply veq_trans; [apply point_reverse_0|exact Hb]. }
      2: { apply point_reverse_half. }
      rewrite (shoelace_veq (EdgeSegment.point (EdgeSegment.reverse z) 0.5)
                 (EdgeSegment.point z 0.5) _ (EdgeSegment.point z 0)).
      2: { apply point_reverse_half. }
      2: { eapply veq_trans; [apply point_reverse_0|exact Ha]. }
      rewrite (shoelace_veq (EdgeSegment.point (EdgeSegment.reverse a) 0)
                 (EdgeSegment.point z 0) _ (EdgeSegment.point a 0.5)).
      2: { eapply veq_trans; [apply point_reverse_0|exact Ha]. }
      2: { apply point_reverse_half. }
      rewrite (shoelace_veq (EdgeSegment.point (EdgeSegment.reverse a) 0.5)
                 (EdgeSegment.point a 0.5) _ (EdgeSegment.point a 0)).
      2: { apply point_reverse_half. }
      2: { eapply veq_trans; [apply point_reverse_0|exact Hb]. }
      unfold Contour.shoelace. ring.
    + (* three edges or more *)
      simpl in Hz. injection Hz as -> ->.
      apply (windingTotal_reverse_general a b' rest' z). exact Hclosed.
Qed.

Lemma sign_opp t t' : t' == - t -> sign t' = - sign t.
Proof.
  intros H. unfold sign.
  destruct (t ?= 0) eqn:E; destruct (t' ?= 0) eqn:E'; try reflexivity;
    exfalso;
    [ apply Qeq_alt in E; apply Qlt_alt in E'
    | apply Qeq_alt in E; apply Qgt_alt in E'
    | apply Qlt_alt in E; apply Qeq_alt in E'
    | apply Qlt_alt in E; apply Qlt_alt in E'
    | apply Qgt_alt in E; apply Qeq_alt in E'
    | apply Qgt_alt in E; apply Qgt_alt in E' ]; lra.
Qed.

Lemma sign_values t : sign t = -1 \/ sign t = 0 \/ sign t = 1.
Proof. unfold sign. destruct (t ?= 0); auto. Qed.

(** Reversing a closed contour negates its winding. *)
Lemma winding_reverse c :
  closedContour c ->
  exists w, Contour.winding c = Some w /\
            Contour.winding (Contour.reverse c) = Some (- w).
Proof.
  intros (es & Hes & Hclosed).
  apply getAll_Some in Hes. destruct c as [hs]. simpl in Hes. subst hs.
  destruct (windingTotal_reverse es Hclosed) as (t & t' & Ht & Ht' & Heq).
  exists (sign t). unfold Contour.winding. rewrite Ht, Ht'.
  split; [reflexivity|]. f_equal. apply sign_opp. exact Heq.
Qed.

Lemma normalizeContours_closed cs :
  Forall closedContour cs ->
  exists cs1,
    Shape.normalizeContours cs = Some cs1 /\
    Shape.normalizeContours cs1 = Some cs1 /\
    Forall windingNonNegative cs1.
Proof.
  intros H. induction H as [|c cs Hc Hcs IH].
  - exists []. repeat split. constructor.
  - destruct IH as (cs1 & H1 & H2 & H3).
    destruct (winding_reverse c Hc) as (w & Hw & Hw').
    simpl. rewrite Hw, H1.
    destruct (Qltb w 0) eqn:E.
    + exists (Contour.reverse c :: cs1).
      apply Qltb_lt in E.
      assert (E' : Qltb (- w) 0 = false) by (apply Qltb_ge; lra).
      split; [reflexivity|]. split.
      * simpl. rewrite Hw', E', H2. reflexivity.
      * constructor; [|exact H3]. exists (- w). split; [exact Hw'|lra].
    + exists (c :: cs1).
      split; [reflexivity|]. split.
      * simpl. rewrite Hw, E, H2. reflexivity.
      * constructor; [|exact H3]. exists w. split; [exact Hw|].
        apply Qltb_ge in E. exact E.
Qed.


Lemma clockwiseSquare_closed : closedContour clockwiseSquare.
Proof.
  eexists. split; [reflexivity|].
  unfold closedLoop. simpl.
  repeat (constructor; [split; reflexivity|]). constructor.
Qed.


(** ** Edge coloring: the loops that paint a contour *)

Lemma mod_add_inj (m a i j : nat) :
  (i < m)%nat -> (j < m)%nat ->
  ((a + i) mod m = (a + j) mod m)%nat -> i = j.
Proof.
  intros Hi Hj H.
  pose proof (Nat.div_mod_eq (a + i) m) as H1.
  pose proof (Nat.div_mod_eq (a + j) m) as H2.
  rewrite H in H1.
  set (q1 := ((a + i) / m)%nat) in *. set (q2 := ((a + j) / m)%nat) in *.
  set (r := ((a + j) mod m)%nat) in *. clearbody q1 q2 r.
  destruct (Nat.lt_trichotomy q1 q2) as [Hq|[Hq|Hq]]; [|subst; lia|]; nia.
Qed.

Lemma mod_add_sub (m start p : nat) :
  (p < m)%nat ->
  ((start + (p + m - start mod m) mod m) mod m = p)%nat.
Proof.
  intros Hp.
  assert (Hs : (start mod m < m)%nat) by (apply Nat.mod_upper_bound; lia).
  rewrite Nat.Div0.add_mod_idemp_r.
  rewrite <- Nat.Div0.add_mod_idemp_l.
  replace (start mod m + (p + m - start mod m))%nat with (p + 1 * m)%nat by lia.
  rewrite Nat.Div0.mod_add. apply Nat.mod_small. exact Hp.
Qed.

Lemma color_setColor (e : EdgeSegment.t) (c : EdgeColor.t) :
  EdgeSegment.color (EdgeSegment.setColor e c) = c.
Proof. destruct e; reflexivity. Qed.

Section PaintLoop.

Context {St : Type}.
Variable body : nat -> St -> St * EdgeColor.t.
Variables start m : nat.
Variable st0 : St.
Variable es0 : list EdgeSegment.t.
Hypothesis Hm : length es0 = m.

Local Abbreviation loop := (EdgeColoring.paintLoop body start m st0 es0).

Local Abbreviation paintedColor :=
  (EdgeColoring.paintedColor body start m st0 es0).

Lemma paintLoop_S (i : nat) :
  loop (S i) =
  (fst (body i (fst (loop i))),
   alter (fun e => EdgeSegment.setColor e (paintedColor i))
         ((start + i) mod m)%nat (snd (loop i))).
Proof.
  unfold EdgeColoring.paintedColor. simpl.
  destruct (EdgeColoring.paintLoop body start m st0 es0 i) as [st es].
  simpl. destruct (body i st); reflexivity.
Qed.

Lemma paintLoop_length (k : nat) : length (snd (loop k)) = m.
Proof.
  induction k as [|k IH]; [exact Hm|].
  rewrite paintLoop_S. simpl. rewrite length_alter. exact IH.
Qed.

Lemma paintLoop_untouched (k p : nat) :
  (forall i, (i < k)%nat -> ((start + i) mod m)%nat <> p) ->
  snd (loop k) !! p = es0 !! p.
Proof.
  induction k as [|k IH]; intros H; [reflexivity|].
  rewrite paintLoop_S. simpl.
  rewrite list_lookup_alter_ne by (apply H; lia).
  apply IH. intros i Hi. apply H. lia.
Qed.

Lemma paintLoop_painted (k i : nat) :
  (i < k)%nat -> (k <= m)%nat ->
  snd (loop k) !! ((start + i) mod m)%nat =
  (fun e => EdgeSegment.setColor e (paintedColor i))
    <$> es0 !! ((start + i) mod m)%nat.
Proof.
  induction k as [|k IH]; intros Hi Hk; [lia|].
  rewrite paintLoop_S. simpl.
  destruct (Nat.eq_dec i k) as [->|Hne].
  - rewrite list_lookup_alter_eq. f_equal.
    apply paintLoop_untouched. intros j Hj Heq.
    apply mod_add_inj in Heq; lia.
  - rewrite list_lookup_alter_ne.
    + apply IH; lia.
    + intros Heq. apply mod_add_inj in Heq; lia.
Qed.

(** After the whole loop every edge carries a color that some iteration
    painted. *)
Lemma paintLoop_full (p : nat) (e : EdgeSegment.t) :
  snd (loop m) !! p = Some e ->
  exists i, (i < m)%nat /\ EdgeSegment.color e = paintedColor i.
Proof.
  intros He.
  assert (Hp : (p < m)%nat).
  { rewrite <- (paintLoop_length m). eapply lookup_lt_Some; eauto. }
  exists ((p + m - start mod m) mod m)%nat. split.
  - apply Nat.mod_upper_bound. lia.
  - rewrite <- (mod_add_sub m start p Hp) in He.
    rewrite paintLoop_painted in He;
      [|apply Nat.mod_upper_bound; lia|lia].
    destruct (es0 !! _) as [e0|]; simpl in He; [|discriminate].
    injection He as <-. apply color_setColor.
Qed.

(** What two iterations painted is found at their positions. *)
Lemma paintLoop_color_at (i p : nat) (e : EdgeSegment.t) :
  (i < m)%nat -> p = ((start + i) mod m)%nat ->
  snd (loop m) !! p = Some e ->
  EdgeSegment.color e = paintedColor i.
Proof.
  intros Hi -> He. rewrite paintLoop_painted in He by lia.
  destruct (es0 !! _) as [e0|]; simpl in He; [|discriminate].
  injection He as <-. apply color_setColor.
Qed.

End PaintLoop.

(** ** Edge coloring: the colors *)

Lemma seedExtract2_bit (seed : Z) :
  fst (EdgeColoring.seedExtract2 seed) = 0%nat
  \/ fst (EdgeColoring.seedExtract2 seed) = 1%nat.
Proof.
  unfold EdgeColoring.seedExtract2. simpl fst.
  change 1%Z with (Z.ones 1). rewrite Z.land_ones by lia.
  change (2 ^ 1)%Z with 2%Z.
  pose proof (Z.mod_pos_bound seed 2 ltac:(lia)) as H.
  set (r := (seed mod 2)%Z) in *. clearbody r. lia.
Qed.

Lemma seedExtract3_trit (seed : Z) :
  (-3 < fst (EdgeColoring.seedExtract3 seed) < 3)%Z.
Proof.
  unfold EdgeColoring.seedExtract3. simpl.
  pose proof (Z.rem_bound_abs seed 3 ltac:(lia)) as H. lia.
Qed.

Lemma seedGivesColor_nonneg (seed : Z) :
  (0 <= seed)%Z -> EdgeColoring.seedGivesColor seed.
Proof.
  intros H. unfold EdgeColoring.seedGivesColor.
  apply Z.rem_nonneg; lia.
Qed.

Lemma initColor_twoChannel (seed : Z) :
  EdgeColoring.seedGivesColor seed ->
  EdgeColoring.twoChannel (fst (EdgeColoring.initColor seed)).
Proof.
  unfold EdgeColoring.seedGivesColor, EdgeColoring.initColor.
  pose proof (seedExtract3_trit seed) as H.
  unfold EdgeColoring.seedExtract3 in *. simpl in *. intros Hs.
  set (v := Z.rem seed 3) in *. clearbody v.
  unfold EdgeColoring.twoChannel.
  assert (v = 0 \/ v = 1 \/ v = 2)%Z as [-> | [-> | ->]] by lia;
    vm_compute; auto.
Qed.

Lemma initColor_undefined (seed : Z) :
  ~ EdgeColoring.seedGivesColor seed ->
  fst (EdgeColoring.initColor seed) = EdgeColor.BLACK.
Proof.
  unfold EdgeColoring.seedGivesColor, EdgeColoring.initColor.
  unfold EdgeColoring.seedExtract3. simpl. intros Hs.
  unfold EdgeColoring.colorAt.
  destruct (Z.ltb_spec (Z.rem seed 3) 0); [reflexivity | lia].
Qed.

Lemma rotateColor_twoChannel (seed : Z) (c : EdgeColor.t) :
  EdgeColoring.twoChannel c ->
  EdgeColoring.twoChannel (fst (EdgeColoring.rotateColor seed c))
  /\ fst (EdgeColoring.rotateColor seed c) <> c.
Proof.
  intros Hc. unfold EdgeColoring.rotateColor.
  pose proof (seedExtract2_bit seed) as H.
  destruct (EdgeColoring.seedExtract2 seed) as [bit seed']. simpl in *.
  unfold EdgeColoring.twoChannel in *.
  destruct H as [-> | ->], Hc as [-> | [-> | ->]];
    vm_compute; split; (auto || discriminate).
Qed.

Lemma land_single_not_in (c b r : Z) :
  Z.land c b = r -> forall k, Z.testbit r k = true -> Z.testbit c k = true.
Proof.
  intros <- k. rewrite Z.land_spec. intros H.
  apply andb_true_iff in H. tauto.
Qed.

(** Whatever is banned, the color changes and keeps two channels. *)
Lemma switchColor_twoChannel (seed : Z) (c : EdgeColor.t)
  (banned : option EdgeColor.t) :
  EdgeColoring.twoChannel c ->
  EdgeColoring.twoChannel (fst (EdgeColoring.switchColor seed c banned))
  /\ fst (EdgeColoring.switchColor seed c banned) <> c.
Proof.
  intros Hc. unfold EdgeColoring.switchColor.
  destruct banned as [b|]; [|apply rotateColor_twoChannel; exact Hc].
  destruct (_ || _) eqn:E; [|apply rotateColor_twoChannel; exact Hc].
  simpl. unfold EdgeColoring.twoChannel.
  apply orb_true_iff in E. rewrite orb_true_iff in E.
  rewrite !Z.eqb_eq in E.
  destruct E as [[E|E]|E]; rewrite E; vm_compute; (split; [auto|]);
    intros <-.
  - pose proof (land_single_not_in _ _ _ E 0%Z eq_refl). discriminate.
  - pose proof (land_single_not_in _ _ _ E 1%Z eq_refl). discriminate.
  - pose proof (land_single_not_in _ _ _ E 2%Z eq_refl). discriminate.
Qed.

(** A banned color of two channels is avoided. *)
Lemma switchColor_banned (seed : Z) (c b : EdgeColor.t) :
  EdgeColoring.twoChannel c -> EdgeColoring.twoChannel b ->
  fst (EdgeColoring.switchColor seed c (Some b)) <> b.
Proof.
  intros Hc Hb.
  destruct (Z.eq_dec c b) as [->|Hne].
  - apply switchColor_twoChannel. exact Hb.
  - unfold EdgeColoring.twoChannel in *.
    destruct Hc as [-> | [-> | ->]], Hb as [-> | [-> | ->]];
      try congruence; vm_compute; discriminate.
Qed.

(** Two different colors of two channels share one channel. *)
Lemma twoChannel_separated (a b : EdgeColor.t) :
  EdgeColoring.twoChannel a -> EdgeColoring.twoChannel b -> a <> b ->
  (EdgeColoring.popcount (Z.land a b) <=? 1)%Z = true.
Proof.
  unfold EdgeColoring.twoChannel.
  intros [-> | [-> | ->]] [-> | [-> | ->]] H;
    try congruence; reflexivity.
Qed.

(** ** Edge coloring: the detected corners *)

Lemma cornerLoop_bounds M thr es prev index c :
  In c (EdgeColoring.cornerLoop M thr es prev index) ->
  (index <= c < index + length es)%nat.
Proof.
  revert prev index. induction es as [|e es IH]; intros prev index H.
  - destruct H.
  - simpl in H. simpl length.
    destruct (EdgeColoring.isCorner _ _ _).
    + destruct H as [<-|H]; [lia|]. apply IH in H. lia.
    + apply IH in H. lia.
Qed.

Lemma cornerLoop_sorted M thr es prev index :
  StronglySorted lt (EdgeColoring.cornerLoop M thr es prev index).
Proof.
  revert prev index. induction es as [|e es IH]; intros prev index.
  - constructor.
  - simpl. destruct (EdgeColoring.isCorner _ _ _); [|apply IH].
    constructor; [apply IH|].
    apply List.Forall_forall. intros c Hc.
    apply cornerLoop_bounds in Hc. lia.
Qed.

Lemma findCorners_bounds M thr es c :
  In c (EdgeColoring.findCorners M thr es) -> (c < length es)%nat.
Proof.
  unfold EdgeColoring.findCorners. destruct (last es); [|intros []].
  intros H. apply cornerLoop_bounds in H. lia.
Qed.

Lemma findCorners_sorted M thr es :
  StronglySorted lt (EdgeColoring.findCorners M thr es).
Proof.
  unfold EdgeColoring.findCorners. destruct (last es); [|constructor].
  apply cornerLoop_sorted.
Qed.

Lemma sorted_nth (l : list nat) (a b : nat) :
  StronglySorted lt l -> (a < b < length l)%nat ->
  (nth a l 0 < nth b l 0)%nat.
Proof.
  intros Hs. revert a b. induction Hs as [|x l Hs IH Hx]; intros a b H.
  - simpl in H. lia.
  - simpl in H. destruct b as [|b]; [lia|]. destruct a as [|a]; simpl.
    + rewrite List.Forall_forall in Hx. apply Hx. apply nth_In. lia.
    + apply IH. lia.
Qed.

(** ** Edge coloring: the walk along the splines of a contour

    The loops over a contour with several corners start at the first
    corner and step to the next spline where the next corner is met.
    [sp] is the number of the spline in the state, [col] its color and
    [adv] the step to the next spline. *)

Section SplineWalk.

Local Open Scope nat_scope.

Context {St : Type}.
Variable sp : St -> nat.
Variable col : St -> EdgeColor.t.
Variable adv : St -> St.
Variable idxs : list nat.
Variables start m : nat.
Variable body : nat -> St -> St * EdgeColor.t.
Variable st0 : St.
Variable es0 : list EdgeSegment.t.

Hypothesis Hbody : forall i st,
  body i st =
  if (sp st + 1 <? length idxs)%nat
     && (nth (sp st + 1) idxs 0 =? (start + i) mod m)%nat
  then (adv st, col (adv st)) else (st, col st).
Hypothesis Hadv : forall st, sp (adv st) = S (sp st).
Hypothesis Hsp0 : sp st0 = 0%nat.
Hypothesis Hsorted : StronglySorted lt idxs.
Hypothesis Hbound : forall c, In c idxs -> (c < m)%nat.
Hypothesis Hstart : nth 0 idxs 0%nat = start.
Hypothesis Hn : (0 < length idxs)%nat.
Hypothesis Hm : length es0 = m.

Local Abbreviation loop := (EdgeColoring.paintLoop body start m st0 es0).
Local Abbreviation paintedColor :=
  (EdgeColoring.paintedColor body start m st0 es0).
Local Abbreviation splineColor := (fun j => col (Nat.iter j adv st0)).

Lemma sp_iter (s : nat) : sp (Nat.iter s adv st0) = s.
Proof. induction s as [|s IH]; simpl; [exact Hsp0|]. rewrite Hadv, IH. reflexivity. Qed.

Lemma idx_bound (j : nat) : (j < length idxs)%nat -> (nth j idxs 0 < m)%nat.
Proof. intros H. apply Hbound, nth_In, H. Qed.

Lemma idx_after_start (j : nat) :
  (1 <= j < length idxs)%nat -> (start < nth j idxs 0)%nat.
Proof. intros H. rewrite <- Hstart. apply sorted_nth; [exact Hsorted|lia]. Qed.

(** After [i] iterations the loop is in the spline [s] whose corners up
    to [s] lie behind and whose later corners lie ahead. *)
Lemma walk_state (i : nat) :
  (i <= m)%nat ->
  exists s, fst (loop i) = Nat.iter s adv st0 /\ (s < length idxs)%nat
    /\ (forall j, (1 <= j <= s)%nat -> (nth j idxs 0 < start + i)%nat)
    /\ (forall j, (s < j < length idxs)%nat -> (start + i <= nth j idxs 0)%nat).
Proof.
  induction i as [|i IH]; intros Hi.
  - exists 0%nat. simpl. repeat split; [exact Hn|lia|].
    intros j Hj. pose proof (idx_after_start j). lia.
  - destruct IH as (s & Hst & Hs & Hbehind & Hahead); [lia|].
    rewrite paintLoop_S. simpl fst. rewrite Hbody, Hst, sp_iter.
    destruct (_ && _) eqn:E.
    + apply andb_true_iff in E. destruct E as [E1 E2].
      apply Nat.ltb_lt in E1. apply Nat.eqb_eq in E2.
      pose proof (Hahead (s + 1)%nat ltac:(lia)) as Ha.
      pose proof (idx_bound (s + 1) E1) as Hb.
      rewrite Nat.mod_small in E2 by lia.
      exists (S s). simpl. repeat split; [lia| |].
      * intros j Hj. destruct (Nat.eq_dec j (s + 1)) as [->|Hne]; [lia|].
        pose proof (Hbehind j). lia.
      * intros j Hj.
        pose proof (sorted_nth idxs (s + 1) j Hsorted). lia.
    + exists s. simpl. repeat split; [exact Hs| |].
      * intros j Hj. pose proof (Hbehind j). lia.
      * intros j Hj.
        pose proof (Hahead (s + 1)%nat ltac:(lia)) as Ha.
        pose proof (idx_bound (s + 1) ltac:(lia)) as Hb.
        apply andb_false_iff in E. destruct E as [E|E].
        { apply Nat.ltb_ge in E. lia. }
        apply Nat.eqb_neq in E. rewrite Nat.mod_small in E by lia.
        destruct (Nat.eq_dec j (s + 1)) as [->|Hne]; [lia|].
        pose proof (sorted_nth idxs (s + 1) j Hsorted). lia.
Qed.

Lemma painted_next (i : nat) : paintedColor i = col (fst (loop (S i))).
Proof.
  rewrite paintLoop_S. simpl. unfold EdgeColoring.paintedColor.
  rewrite Hbody. destruct (_ && _); reflexivity.
Qed.

Lemma walk_any (i : nat) :
  (i < m)%nat ->
  exists j, (j < length idxs)%nat /\ paintedColor i = splineColor j.
Proof.
  intros Hi. destruct (walk_state (S i)) as (s & Hst & Hs & _); [lia|].
  exists s. split; [exact Hs|]. rewrite painted_next, Hst. reflexivity.
Qed.

Lemma walk_first : (0 < m)%nat -> paintedColor 0 = splineColor 0.
Proof.
  intros H0. destruct (walk_state 1) as (s & Hst & Hs & Hbehind & _); [lia|].
  rewrite painted_next, Hst.
  destruct s as [|s]; [reflexivity|].
  pose proof (Hbehind 1%nat ltac:(lia)).
  pose proof (idx_after_start 1 ltac:(lia)). lia.
Qed.

Lemma walk_last :
  (0 < m)%nat -> paintedColor (m - 1) = splineColor (length idxs - 1).
Proof.
  intros H0.
  destruct (walk_state (S (m - 1))) as (s & Hst & Hs & _ & Hahead); [lia|].
  rewrite painted_next, Hst.
  destruct (Nat.eq_dec s (length idxs - 1)) as [->|Hne]; [reflexivity|].
  pose proof (Hahead (S s) ltac:(lia)).
  pose proof (idx_bound (S s) ltac:(lia)). lia.
Qed.

(** At a later corner the color steps from a spline to the next. *)
Lemma walk_corner (j : nat) :
  (1 <= j < length idxs)%nat ->
  paintedColor (nth j idxs 0 - start) = splineColor j
  /\ paintedColor (nth j idxs 0 - start - 1) = splineColor (j - 1).
Proof.
  intros Hj.
  pose proof (idx_after_start j Hj) as Hgt.
  pose proof (idx_bound j ltac:(lia)) as Hlt.
  set (i := (nth j idxs 0 - start)%nat).
  assert (Hi : (start + i = nth j idxs 0)%nat) by (unfold i; lia).
  split.
  - destruct (walk_state (S i)) as (s & Hst & Hs & Hbehind & Hahead); [lia|].
    rewrite painted_next, Hst.
    assert (s = j) as ->; [|reflexivity].
    destruct (Nat.lt_trichotomy s j) as [H|[H|H]]; [|exact H|].
    + pose proof (Hahead j ltac:(lia)). lia.
    + pose proof (Hbehind (S j) ltac:(lia)).
      pose proof (sorted_nth idxs j (S j) Hsorted ltac:(lia)). lia.
  - replace (i - 1)%nat with (pred i) by lia.
    destruct (walk_state i) as (s & Hst & Hs & Hbehind & Hahead); [lia|].
    rewrite painted_next.
    replace (S (pred i)) with i by lia. rewrite Hst.
    assert (s = (j - 1)%nat) as ->; [|reflexivity].
    destruct (Nat.lt_trichotomy s (j - 1)) as [H|[H|H]]; [|exact H|].
    + pose proof (Hahead (S s) ltac:(lia)).
      pose proof (sorted_nth idxs (S s) j Hsorted ltac:(lia)). lia.
    + pose proof (Hbehind j ltac:(lia)). lia.
Qed.

(** Every edge of the contour gets the color of one of the splines. *)
Lemma walk_colors (p : nat) (e : EdgeSegment.t) :
  snd (loop m) !! p = Some e ->
  exists j, (j < length idxs)%nat /\ EdgeSegment.color e = splineColor j.
Proof.
  intros He. apply (paintLoop_full body start m st0 es0 Hm) in He.
  destruct He as (i & Hi & ->). apply walk_any. exact Hi.
Qed.

(** When the splines that follow each other differ in color, the last
    and the first included, every corner is separated. *)
Lemma walk_separated :
  (forall j, (j < length idxs)%nat -> EdgeColoring.twoChannel (splineColor j)) ->
  (forall j, (j + 1 < length idxs)%nat -> splineColor j <> splineColor (j + 1)) ->
  splineColor (length idxs - 1) <> splineColor 0 ->
  forallb (EdgeColoring.cornerSeparated (snd (loop m))) idxs = true.
Proof.
  intros Htwo Hnext Hwrap. apply forallb_forall. intros c Hc.
  pose proof (Hbound c Hc) as Hcm.
  destruct (In_nth idxs c 0%nat Hc) as (j & Hj & Hnth).
  unfold EdgeColoring.cornerSeparated.
  rewrite (paintLoop_length body start m st0 es0 Hm).
  assert (Hlen := paintLoop_length body start m st0 es0 Hm m).
  destruct (lookup_lt_is_Some_2 (snd (loop m)) ((c + m - 1) mod m))
    as [a Ha]; [rewrite Hlen; apply Nat.mod_upper_bound; lia|].
  destruct (lookup_lt_is_Some_2 (snd (loop m)) c) as [b Hb]; [lia|].
  rewrite Ha, Hb.
  destruct (Nat.eq_dec j 0) as [->|Hj0].
  - (* the first corner: the last spline meets the first *)
    rewrite Hstart in Hnth. subst c.
    apply (paintLoop_color_at body start m st0 es0 Hm (m - 1)) in Ha;
      [|lia|f_equal; lia].
    apply (paintLoop_color_at body start m st0 es0 Hm 0) in Hb;
      [|lia|rewrite Nat.add_0_r, Nat.mod_small; lia].
    rewrite Ha, Hb, walk_first, walk_last by lia.
    apply twoChannel_separated; [apply Htwo; lia|apply Htwo; lia|].
    exact Hwrap.
  - pose proof (idx_after_start j ltac:(lia)) as Hgt.
    pose proof (walk_corner j ltac:(lia)) as [H1 H2].
    rewrite Hnth in *.
    apply (paintLoop_color_at body start m st0 es0 Hm (c - start - 1)) in Ha;
      [|lia|].
    2:{ replace (c + m - 1)%nat with (start + (c - start - 1) + 1 * m)%nat
          by lia.
        rewrite Nat.Div0.mod_add. reflexivity. }
    apply (paintLoop_color_at body start m st0 es0 Hm (c - start)) in Hb;
      [|lia|rewrite Nat.mod_small; lia].
    rewrite Ha, Hb, H1, H2.
    apply twoChannel_separated; [apply Htwo; lia|apply Htwo; lia|].
    pose proof (Hnext (j - 1) ltac:(lia)) as Hd.
    replace (j - 1 + 1) with j in Hd by lia. exact Hd.
Qed.

End SplineWalk.

(** ** Edge coloring: the teardrop *)

Lemma symmetricalTrichotomy_first (m : nat) :
  (2 <= m)%nat -> EdgeColoring.symmetricalTrichotomy 0 m = (-1)%Z.
Proof.
  intros Hm. unfold EdgeColoring.symmetricalTrichotomy.
  assert (Hd : ~ inject_Z (Z.of_nat m) - 1 == 0).
  { assert (inject_Z 2 <= inject_Z (Z.of_nat m))
      by (rewrite <- Zle_Qle; lia).
    change (inject_Z 2) with 2 in H. lra. }
  set (d := inject_Z (Z.of_nat m) - 1) in *. clearbody d.
  assert (E : 3 + 2.875 * inject_Z (Z.of_nat 0) / d - 1.4375 + 0.5 == 33 # 16).
  { simpl. field. exact Hd. }
  rewrite E. reflexivity.
Qed.

Lemma symmetricalTrichotomy_last (m : nat) :
  (2 <= m)%nat -> EdgeColoring.symmetricalTrichotomy (m - 1) m = 1%Z.
Proof.
  intros Hm. unfold EdgeColoring.symmetricalTrichotomy.
  assert (Hd : ~ inject_Z (Z.of_nat m) - 1 == 0).
  { assert (inject_Z 2 <= inject_Z (Z.of_nat m))
      by (rewrite <- Zle_Qle; lia).
    change (inject_Z 2) with 2 in H. lra. }
  assert (Hp : inject_Z (Z.of_nat (m - 1)) == inject_Z (Z.of_nat m) - 1).
  { rewrite Nat2Z.inj_sub by lia. unfold Qeq. simpl. lia. }
  rewrite Hp.
  set (d := inject_Z (Z.of_nat m) - 1) in *. clearbody d.
  assert (E : 3 + 2.875 * d / d - 1.4375 + 0.5 == 79 # 16).
  { field. exact Hd. }
  rewrite E. reflexivity.
Qed.

Lemma twoChannel_visible (c : EdgeColor.t) :
  EdgeColoring.twoChannel c -> EdgeColoring.visible c.
Proof.
  unfold EdgeColoring.twoChannel, EdgeColoring.visible.
  intros [-> | [-> | ->]]; simpl; auto.
Qed.

Lemma white_visible : EdgeColoring.visible EdgeColor.WHITE.
Proof. unfold EdgeColoring.visible. simpl. auto. Qed.

Lemma splitTeardrop_spec (P : EdgeColor.t -> Prop)
  (es : list EdgeSegment.t) (corner : nat) (c0 c1 c2 : EdgeColor.t) :
  (length es < 3)%nat -> (corner < length es)%nat ->
  P c0 -> P c1 -> P c2 ->
  (EdgeColoring.popcount (Z.land c2 c0) <=? 1)%Z = true ->
  let out := EdgeColoring.splitTeardrop es corner [c0; c1; c2] in
  Forall (fun e => P (EdgeSegment.color e)) out
  /\ EdgeColoring.cornerSeparated out 0 = true.
Proof.
  intros Hlen Hc V0 V1 V2 Hsep.
  destruct es as [|e0 [|e1 [|e2 es]]]; simpl in Hlen, Hc; try lia.
  - assert (corner = 0%nat) as -> by lia.
    unfold EdgeColoring.splitTeardrop, EdgeColoring.splitParts.
    destruct (EdgeSegment.splitInThirds e0) as [[a0 a1] a2].
    cbn. unfold EdgeColoring.cornerSeparated. cbn. simpl.
    rewrite !color_setColor. split; [|exact Hsep].
    repeat (apply List.Forall_cons; [rewrite color_setColor; assumption|]).
    apply List.Forall_nil.
  - assert (corner = 0%nat \/ corner = 1%nat) as [-> | ->] by lia;
      unfold EdgeColoring.splitTeardrop, EdgeColoring.splitParts;
      destruct (EdgeSegment.splitInThirds e0) as [[a0 a1] a2];
      destruct (EdgeSegment.splitInThirds e1) as [[b0 b1] b2];
      cbn; unfold EdgeColoring.cornerSeparated; cbn; simpl;
      rewrite !color_setColor; (split; [|exact Hsep]);
      repeat (apply List.Forall_cons; [rewrite color_setColor; assumption|]);
      apply List.Forall_nil.
Qed.

Lemma colorAt_trichotomy (P : EdgeColor.t -> Prop) (c0 c1 c2 : EdgeColor.t)
  (i m : nat) :
  (2 <= m)%nat -> (i < m)%nat -> P c0 -> P c1 -> P c2 ->
  P (EdgeColoring.colorAt [c0; c1; c2]
       (1 + EdgeColoring.symmetricalTrichotomy i m)).
Proof.
  intros Hm Hi H0 H1 H2.
  pose proof (symmetricalTrichotomy_range i m Hm Hi) as H.
  set (t := EdgeColoring.symmetricalTrichotomy i m) in *. clearbody t.
  assert (t = (-1)%Z \/ t = 0%Z \/ t = 1%Z) as [-> | [-> | ->]] by lia;
    assumption.
Qed.

(** The teardrop of three edges or more: the loop paints around the
    contour from the corner. *)
Lemma teardropLoop_spec (P : EdgeColor.t -> Prop) (es : list EdgeSegment.t)
  (corner : nat) (c0 c1 c2 : EdgeColor.t) :
  (3 <= length es)%nat -> (corner < length es)%nat ->
  P c0 -> P c1 -> P c2 ->
  (EdgeColoring.popcount (Z.land c2 c0) <=? 1)%Z = true ->
  let m := length es in
  let out :=
    snd (EdgeColoring.paintLoop
           (fun i (st : unit) =>
              (st, EdgeColoring.colorAt
                     [c0; c1; c2] (1 + EdgeColoring.symmetricalTrichotomy i m)))
           corner m tt es m) in
  Forall (fun e => P (EdgeSegment.color e)) out
  /\ EdgeColoring.cornerSeparated out corner = true.
Proof.
  intros Hm Hc H0 H1 H2 Hsep m out.
  set (body := fun i (st : unit) =>
    (st, EdgeColoring.colorAt
           [c0; c1; c2] (1 + EdgeColoring.symmetricalTrichotomy i m))) in *.
  assert (Hlen : length out = m)
    by (apply (paintLoop_length body corner m tt es eq_refl)).
  split.
  - apply List.Forall_forall. intros e He.
    apply list_elem_of_In, list_elem_of_lookup in He. destruct He as [p Hp].
    apply (paintLoop_full body corner m tt es eq_refl) in Hp.
    destruct Hp as (i & Hi & ->). unfold EdgeColoring.paintedColor, body.
    simpl. apply colorAt_trichotomy; (assumption || fold m; lia).
  - unfold EdgeColoring.cornerSeparated. rewrite Hlen.
    destruct (lookup_lt_is_Some_2 out ((corner + m - 1) mod m))
      as [a Ha]; [rewrite Hlen; apply Nat.mod_upper_bound; fold m in Hm; lia|].
    destruct (lookup_lt_is_Some_2 out corner) as [b Hb];
      [rewrite Hlen; exact Hc|].
    rewrite Ha, Hb.
    apply (paintLoop_color_at body corner m tt es eq_refl (m - 1)%nat) in Ha;
      [|fold m in Hm; lia|f_equal; fold m in Hm; lia].
    apply (paintLoop_color_at body corner m tt es eq_refl 0%nat) in Hb;
      [|fold m in Hm; lia|rewrite Nat.add_0_r, Nat.mod_small; [reflexivity|exact Hc]].
    rewrite Ha, Hb. unfold EdgeColoring.paintedColor, body. simpl.
    rewrite symmetricalTrichotomy_first, symmetricalTrichotomy_last
      by (fold m in Hm; lia).
    exact Hsep.
Qed.

Lemma colorTeardrop_spec (st : EdgeColor.t * Z) (corner : nat)
  (es : list EdgeSegment.t) :
  EdgeColoring.twoChannel (fst st) -> (corner < length es)%nat ->
  let out := EdgeColoring.colorTeardrop st corner es in
  EdgeColoring.twoChannel (fst (snd out))
  /\ Forall (fun e => EdgeColoring.visible (EdgeSegment.color e)) (fst out)
  /\ forallb (EdgeColoring.cornerSeparated (fst out))
             (EdgeColoring.cornerPositions (length es) [corner]) = true.
Proof.
  intros Hst Hc. destruct st as [color seed]. simpl in Hst.
  unfold EdgeColoring.colorTeardrop.
  destruct (switchColor_twoChannel seed color None Hst) as [T0 _].
  destruct (EdgeColoring.switchColor seed color None) as [c0 seed0].
  simpl in T0.
  destruct (switchColor_twoChannel seed0 c0 None T0) as [T2 D2].
  destruct (EdgeColoring.switchColor seed0 c0 None) as [c2 seed2].
  simpl in T2, D2.
  pose proof (twoChannel_separated c2 c0 T2 T0 D2) as Hsep.
  unfold EdgeColoring.cornerPositions.
  destruct (3 <=? length es)%nat eqn:E.
  - apply Nat.leb_le in E.
    destruct (teardropLoop_spec EdgeColoring.visible es corner
                c0 EdgeColor.WHITE c2 E Hc) as [HF HS];
      [apply twoChannel_visible, T0|apply white_visible
      |apply twoChannel_visible, T2|exact Hsep|].
    replace (length es <? 3)%nat with false by (symmetry; apply Nat.ltb_ge; lia).
    simpl. rewrite HS. auto.
  - apply Nat.leb_gt in E.
    destruct (splitTeardrop_spec EdgeColoring.visible es corner
                c0 EdgeColor.WHITE c2 E Hc) as [HF HS];
      [apply twoChannel_visible, T0|apply white_visible
      |apply twoChannel_visible, T2|exact Hsep|].
    replace (length es <? 3)%nat with true by (symmetry; apply Nat.ltb_lt; lia).
    simpl. rewrite HS. auto.
Qed.

(** ** edgeColoringSimple on one contour *)

Lemma advanceSpline_spline n ic st :
  EdgeColoring.spline (EdgeColoring.advanceSpline n ic st)
  = S (EdgeColoring.spline st).
Proof.
  unfold EdgeColoring.advanceSpline.
  destruct (EdgeColoring.switchColor _ _ _). simpl. lia.
Qed.

Lemma advanceSpline_color n ic st :
  EdgeColoring.twoChannel (EdgeColoring.splineColor st) ->
  EdgeColoring.twoChannel
    (EdgeColoring.splineColor (EdgeColoring.advanceSpline n ic st))
  /\ EdgeColoring.splineColor (EdgeColoring.advanceSpline n ic st)
     <> EdgeColoring.splineColor st.
Proof.
  intros H. unfold EdgeColoring.advanceSpline.
  match goal with
  | |- context [EdgeColoring.switchColor ?s ?c ?b] =>
      pose proof (switchColor_twoChannel s c b H) as Hs;
      destruct (EdgeColoring.switchColor s c b)
  end.
  exact Hs.
Qed.

Lemma advanceSpline_last n ic st :
  EdgeColoring.twoChannel (EdgeColoring.splineColor st) ->
  EdgeColoring.twoChannel ic ->
  (EdgeColoring.spline st + 1 = n - 1)%nat ->
  EdgeColoring.splineColor (EdgeColoring.advanceSpline n ic st) <> ic.
Proof.
  intros H Hic Hn. unfold EdgeColoring.advanceSpline.
  rewrite Hn, Nat.eqb_refl.
  pose proof (switchColor_banned (EdgeColoring.splineSeed st) _ _ H Hic) as Hs.
  destruct (EdgeColoring.switchColor _ _ _). exact Hs.
Qed.

Lemma advanceSpline_iter n ic st0 j :
  EdgeColoring.twoChannel (EdgeColoring.splineColor st0) ->
  EdgeColoring.spline st0 = 0%nat ->
  let st := Nat.iter j (EdgeColoring.advanceSpline n ic) st0 in
  EdgeColoring.twoChannel (EdgeColoring.splineColor st)
  /\ EdgeColoring.spline st = j.
Proof.
  intros H0 Hs. induction j as [|j [IH1 IH2]]; simpl; [auto|].
  split; [apply advanceSpline_color, IH1|].
  rewrite advanceSpline_spline, IH2. reflexivity.
Qed.

Lemma findCorners_nil M thr : EdgeColoring.findCorners M thr [] = [].
Proof. reflexivity. Qed.

Lemma colorEdgesSimple_spec M thr (st : EdgeColor.t * Z)
  (es : list EdgeSegment.t) :
  EdgeColoring.twoChannel (fst st) ->
  let out := EdgeColoring.colorEdgesSimple M thr st es in
  EdgeColoring.twoChannel (fst (snd out))
  /\ Forall (fun e => EdgeColoring.visible (EdgeSegment.color e)) (fst out)
  /\ EdgeColoring.properlyColored M thr es (fst out) = true.
Proof.
  intros Hst. destruct st as [color seed]. simpl in Hst.
  unfold EdgeColoring.colorEdgesSimple, EdgeColoring.properlyColored.
  pose proof (findCorners_bounds M thr es) as Hbound.
  pose proof (findCorners_sorted M thr es) as Hsorted.
  destruct (EdgeColoring.findCorners M thr es) as [|start [|c1 corners]].
  - (* a smooth contour *)
    destruct (switchColor_twoChannel seed color None Hst) as [T _].
    destruct (EdgeColoring.switchColor seed color None) as [c seed'].
    simpl in *. split; [exact T|]. split.
    + unfold EdgeColoring.paintAll. apply List.Forall_forall.
      intros e He. apply in_map_iff in He. destruct He as (e0 & <- & _).
      rewrite color_setColor. apply twoChannel_visible, T.
    + unfold EdgeColoring.paintAll, EdgeColoring.sameColor.
      destruct es as [|e es]; [reflexivity|]. simpl.
      apply forallb_forall. intros e' He'.
      apply in_map_iff in He'. destruct He' as (e0 & <- & _).
      rewrite !color_setColor. apply Z.eqb_refl.
  - (* a teardrop *)
    apply colorTeardrop_spec; [exact Hst|]. apply Hbound. left. reflexivity.
  - (* several corners *)
    set (corners' := start :: c1 :: corners) in *.
    destruct (switchColor_twoChannel seed color None Hst) as [T _].
    destruct (EdgeColoring.switchColor seed color None) as [c seed'].
    simpl in T.
    set (m := length es).
    set (body := EdgeColoring.nextSpline corners' start m c).
    set (st0 := EdgeColoring.mkSplineState 0 c seed').
    set (adv := EdgeColoring.advanceSpline (length corners') c).
    assert (Hbody : forall i st,
      body i st =
      if (EdgeColoring.spline st + 1 <? length corners')%nat
         && (nth (EdgeColoring.spline st + 1) corners' 0 =? (start + i) mod m)%nat
      then (adv st, EdgeColoring.splineColor (adv st))
      else (st, EdgeColoring.splineColor st)) by reflexivity.
    assert (Hiter := fun j => advanceSpline_iter (length corners') c st0 j T eq_refl).
    fold adv in Hiter.
    assert (Hlen : (0 < length corners')%nat) by (simpl; lia).
    pose proof (walk_colors EdgeColoring.spline EdgeColoring.splineColor adv
                  corners' start m body st0 es Hbody
                  (advanceSpline_spline _ _) eq_refl Hsorted Hbound eq_refl
                  Hlen eq_refl) as Hcolors.
    pose proof (walk_separated EdgeColoring.spline EdgeColoring.splineColor adv
                  corners' start m body st0 es Hbody
                  (advanceSpline_spline _ _) eq_refl Hsorted Hbound eq_refl
                  Hlen eq_refl) as Hsep.
    pose proof (walk_state EdgeColoring.spline EdgeColoring.splineColor adv
                  corners' start m body st0 es Hbody
                  (advanceSpline_spline _ _) eq_refl Hsorted Hbound eq_refl
                  Hlen eq_refl m (le_n m)) as (s & Hs & _).
    destruct (EdgeColoring.paintLoop body start m st0 es m) as [stf out].
    simpl in *. split; [rewrite Hs; apply Hiter|]. split.
    + apply List.Forall_forall. intros e He.
      apply list_elem_of_In, list_elem_of_lookup in He. destruct He as [p Hp].
      destruct (Hcolors p e Hp) as (j & _ & ->).
      apply twoChannel_visible, Hiter.
    + apply Hsep.
      * intros j _. apply Hiter.
      * intros j _. rewrite Nat.add_1_r. simpl.
        apply not_eq_sym, advanceSpline_color, Hiter.
      * replace (length corners' - 1)%nat with (S (length corners)) by (simpl; lia).
        simpl Nat.iter at 1. apply advanceSpline_last; [apply Hiter|exact T|].
        destruct (Hiter (length corners)) as [_ ->]. simpl. lia.
Qed.

(** ** The loop over the contours *)

Section ColorContours.

Variable colorEdges :
  EdgeColor.t * Z -> list EdgeSegment.t -> list EdgeSegment.t * (EdgeColor.t * Z).
Variable Q : list EdgeSegment.t -> list EdgeSegment.t -> Prop.

Hypothesis HcolorEdges : forall st es,
  EdgeColoring.twoChannel (fst st) ->
  EdgeColoring.twoChannel (fst (snd (colorEdges st es)))
  /\ Q es (fst (colorEdges st es)).
Hypothesis Hempty : Q [] [].

(** What holds of the edges of a contour before and after one pass
    holds of every contour of the shape. *)
Lemma colorContours_spec contours st out :
  EdgeColoring.twoChannel (fst st) ->
  EdgeColoring.colorContours colorEdges st contours = Some out ->
  Forall2
    (fun c c' => exists es es',
       Contour.getAll (Contour.edges c) = Some es
       /\ Contour.edges c' = List.map Some es' /\ Q es es')
    contours out.
Proof.
  revert st out. induction contours as [|c contours IH]; intros st out Hst H.
  - simpl in H. injection H as <-. constructor.
  - simpl in H. destruct (Contour.edges c) as [|h hs] eqn:Ec.
    + destruct (EdgeColoring.colorContours colorEdges st contours) as [r|] eqn:Er;
        [|discriminate].
      injection H as <-. constructor; [|exact (IH st r Hst Er)].
      exists [], []. rewrite Ec. simpl. repeat split. exact Hempty.
    + destruct (Contour.getAll (h :: hs)) as [es|] eqn:Eg; [|discriminate].
      pose proof (HcolorEdges st es Hst) as [T HQ].
      destruct (colorEdges st es) as [es' st']. simpl in T, HQ.
      destruct (EdgeColoring.colorContours colorEdges st' contours) as [r|] eqn:Er;
        [|discriminate].
      injection H as <-. constructor; [|exact (IH st' r T Er)].
      exists es, es'. rewrite Ec. simpl. repeat split; [exact Eg|exact HQ].
Qed.

(** The coloring completes when no holder is empty. *)
Lemma colorContours_total contours st :
  Forall (fun c => is_Some (Contour.getAll (Contour.edges c))) contours ->
  is_Some (EdgeColoring.colorContours colorEdges st contours).
Proof.
  intros H. revert st. induction H as [|c contours [es Hes] _ IH]; intros st.
  - simpl. eauto.
  - simpl. rewrite Hes. destruct (Contour.edges c).
    + destruct (IH st) as [r ->]. eauto.
    + destruct (colorEdges st es) as [es' st'].
      destruct (IH st') as [r ->]. eauto.
Qed.

End ColorContours.

Lemma edgeColoringSimple_total M shape thr seed :
  Forall (fun c => is_Some (Contour.getAll (Contour.edges c)))
         (Shape.contours shape) ->
  is_Some (EdgeColoring.edgeColoringSimple M shape thr seed).
Proof.
  intros H. unfold EdgeColoring.edgeColoringSimple.
  destruct (colorContours_total
              (EdgeColoring.colorEdgesSimple M (sin M thr))
              (Shape.contours shape) (EdgeColoring.initColor seed) H)
    as [r ->].
  eauto.
Qed.

(** ** edgeColoringInkTrap: the corners *)

Lemma fold_left_seq_ind {A : Type} (step : A -> nat -> A)
  (P : nat -> A -> Prop) (n : nat) (a0 : A) :
  P 0%nat a0 ->
  (forall i a, (i < n)%nat -> P i a -> P (S i) (step a i)) ->
  P n (fold_left step (seq 0 n) a0).
Proof.
  intros H0 Hstep. induction n as [|n IH]; [exact H0|].
  rewrite seq_S, fold_left_app. simpl.
  apply Hstep; [lia|]. apply IH. intros i a Hi. apply Hstep. lia.
Qed.

Lemma map_alter_same {A B : Type} (g : A -> B) (f : A -> A) (k : nat)
  (l : list A) :
  (forall x, g (f x) = g x) -> List.map g (alter f k l) = List.map g l.
Proof.
  intros H. revert k. induction l as [|x l IH]; intros [|k]; simpl;
    try reflexivity.
  - rewrite H. reflexivity.
  - f_equal. apply IH.
Qed.

Lemma nth_alter_eq {A : Type} (f : A -> A) (k : nat) (l : list A) (d : A) :
  (k < length l)%nat -> nth k (alter f k l) d = f (nth k l d).
Proof.
  revert k. induction l as [|x l IH]; intros [|k] H; simpl in *;
    try lia; [reflexivity|].
  apply IH. lia.
Qed.

Lemma nth_alter_ne {A : Type} (f : A -> A) (k j : nat) (l : list A) (d : A) :
  j <> k -> nth j (alter f k l) d = nth j l d.
Proof.
  revert k j. induction l as [|x l IH]; intros [|k] [|j] H; simpl;
    try reflexivity; try congruence.
  apply IH. congruence.
Qed.

Lemma minorFlags_nth corners k :
  nth k (EdgeColoring.minorFlags corners) false
  = EdgeColoring.minor (EdgeColoring.cornerAt corners k).
Proof.
  unfold EdgeColoring.minorFlags, EdgeColoring.cornerAt.
  change false with (EdgeColoring.minor EdgeColoring.noCorner).
  apply map_nth.
Qed.

Lemma lens_nth corners k :
  nth k (List.map EdgeColoring.prevEdgeLengthEstimate corners) 0
  = EdgeColoring.prevEdgeLengthEstimate (EdgeColoring.cornerAt corners k).
Proof.
  unfold EdgeColoring.cornerAt.
  change 0 with (EdgeColoring.prevEdgeLengthEstimate EdgeColoring.noCorner) at 1.
  apply map_nth.
Qed.

Lemma index_nth corners k :
  nth k (List.map EdgeColoring.index corners) 0%nat
  = EdgeColoring.index (EdgeColoring.cornerAt corners k).
Proof.
  unfold EdgeColoring.cornerAt.
  change 0%nat with (EdgeColoring.index EdgeColoring.noCorner) at 1.
  apply map_nth.
Qed.

Lemma colorOf_alter_eq f k corners :
  (k < length corners)%nat ->
  EdgeColoring.colorOf (alter f k corners) k
  = EdgeColoring.cornerColor (f (EdgeColoring.cornerAt corners k)).
Proof.
  intros H. unfold EdgeColoring.colorOf, EdgeColoring.cornerAt.
  rewrite nth_alter_eq by exact H. reflexivity.
Qed.

Lemma colorOf_alter_ne f k j corners :
  j <> k ->
  EdgeColoring.colorOf (alter f k corners) j = EdgeColoring.colorOf corners j.
Proof.
  intros H. unfold EdgeColoring.colorOf, EdgeColoring.cornerAt.
  rewrite nth_alter_ne by exact H. reflexivity.
Qed.

(** *** Counting the major corners *)

Lemma countMajors_mark (flags : list bool) (p : nat) :
  (p < length flags)%nat -> nth p flags false = false ->
  EdgeColoring.countMajors flags
  = S (EdgeColoring.countMajors (alter (fun _ => true) p flags)).
Proof.
  unfold EdgeColoring.countMajors.
  revert p. induction flags as [|b flags IH]; intros [|p] Hp Hb;
    simpl in *; try lia.
  - subst b. reflexivity.
  - destruct b; simpl; rewrite (IH p) by (assumption || lia); reflexivity.
Qed.

Lemma minorFlags_setMinor corners p :
  EdgeColoring.minorFlags (alter EdgeColoring.setMinor p corners)
  = alter (fun _ => true) p (EdgeColoring.minorFlags corners).
Proof.
  unfold EdgeColoring.minorFlags. revert p.
  induction corners as [|c corners IH]; intros [|p]; simpl; try reflexivity.
  f_equal. apply IH.
Qed.

Lemma countMajors_drop (flags : list bool) (i : nat) :
  (i < length flags)%nat ->
  EdgeColoring.countMajors (drop i flags)
  = ((if nth i flags false then 0 else 1)
     + EdgeColoring.countMajors (drop (S i) flags))%nat.
Proof.
  unfold EdgeColoring.countMajors.
  revert i. induction flags as [|b flags IH]; intros [|i] H; simpl in *;
    try lia.
  - rewrite drop_0. destruct b; reflexivity.
  - apply IH. lia.
Qed.

Lemma countMajors_none (flags : list bool) (i : nat) :
  (forall q, (i <= q)%nat -> (q < length flags)%nat -> nth q flags false = true) ->
  EdgeColoring.countMajors (drop i flags) = 0%nat.
Proof.
  unfold EdgeColoring.countMajors.
  revert i. induction flags as [|b flags IH]; intros i H.
  - destruct i; reflexivity.
  - destruct i as [|i].
    + rewrite drop_0. simpl.
      pose proof (H 0%nat ltac:(lia) ltac:(simpl; lia)) as Hb. simpl in Hb.
      subst b. simpl.
      specialize (IH 0%nat). rewrite drop_0 in IH. apply IH.
      intros q _ Hq. apply (H (S q)); simpl; lia.
    + simpl. apply IH. intros q H1 H2. apply (H (S q)); simpl; lia.
Qed.

(** *** The loop that identifies the minor corners *)

Lemma mod_succ_inj (n i j : nat) :
  (i < n)%nat -> (j < n)%nat ->
  ((i + 1) mod n = (j + 1) mod n)%nat -> i = j.
Proof.
  intros Hi Hj H. rewrite (Nat.add_comm i), (Nat.add_comm j) in H.
  eapply mod_add_inj; eauto.
Qed.

Lemma markMinor_inv n idxs lens i st :
  length lens = n -> (i < n)%nat ->
  EdgeColoring.markInv n idxs lens i st ->
  EdgeColoring.markInv n idxs lens (S i) (EdgeColoring.markMinor n st i).
Proof.
  intros Hn Hi [Hidx Hlens Hflag Hcount]. destruct st as [cs major].
  simpl in *. unfold EdgeColoring.markMinor.
  rewrite <- !lens_nth, Hlens.
  fold (EdgeColoring.shorterThanNeighbours lens n i).
  destruct (EdgeColoring.shorterThanNeighbours lens n i) eqn:E.
  - assert (Hp : ((i + 1) mod n < n)%nat) by (apply Nat.mod_upper_bound; lia).
    assert (Hlen : length (EdgeColoring.minorFlags cs) = n).
    { unfold EdgeColoring.minorFlags. rewrite length_map.
      rewrite <- Hn, <- Hlens, length_map. reflexivity. }
    constructor; simpl.
    + rewrite map_alter_same; [exact Hidx|reflexivity].
    + rewrite map_alter_same; [exact Hlens|reflexivity].
    + intros k Hk. rewrite minorFlags_setMinor in Hk.
      destruct (Nat.eq_dec k ((i + 1) mod n)) as [->|Hne].
      * exists i. repeat split; [lia|exact E].
      * rewrite nth_alter_ne in Hk by exact Hne.
        destruct (Hflag k Hk) as (i' & Hi' & Hk' & Hs).
        exists i'. repeat split; [lia|exact Hk'|exact Hs].
    + rewrite minorFlags_setMinor.
      assert (Hfalse : nth ((i + 1) mod n) (EdgeColoring.minorFlags cs) false = false).
      { destruct (nth _ _ _) eqn:Ef; [|reflexivity].
        destruct (Hflag _ Ef) as (i' & Hi' & Hk' & _).
        apply mod_succ_inj in Hk'; lia. }
      rewrite (countMajors_mark _ ((i + 1) mod n)) in Hcount
        by (rewrite ?Hlen; assumption).
      lia.
  - constructor; simpl; try assumption.
    intros k Hk. destruct (Hflag k Hk) as (i' & Hi' & Hk' & Hs).
    exists i'. repeat split; [lia|exact Hk'|exact Hs].
Qed.

Lemma countMajors_all (flags : list bool) :
  Forall (fun b => b = false) flags ->
  EdgeColoring.countMajors flags = length flags.
Proof.
  unfold EdgeColoring.countMajors.
  induction 1 as [|b flags -> _ IH]; simpl; [reflexivity|].
  rewrite IH. reflexivity.
Qed.

Lemma nth_all_false (flags : list bool) (k : nat) :
  Forall (fun b => b = false) flags -> nth k flags false = false.
Proof.
  intros H. revert k. induction H as [|b flags -> _ IH]; intros [|k];
    simpl; auto.
Qed.

(** Two corners that are both shorter than their neighbours do not
    follow each other. *)
Lemma marked_not_adjacent n lens (flags : list bool) :
  length flags = n ->
  (forall k, nth k flags false = true ->
     exists i', (i' < n)%nat /\ k = ((i' + 1) mod n)%nat
                /\ EdgeColoring.shorterThanNeighbours lens n i' = true) ->
  EdgeColoring.noAdjacentMinors flags.
Proof.
  intros Hn H k Hk Hf. rewrite Hn in *.
  destruct (nth ((k + 1) mod n) flags false) eqn:E; [|reflexivity].
  destruct (H _ Hf) as (i & Hi & Hki & Hs).
  destruct (H _ E) as (i' & Hi' & Hki' & Hs').
  apply mod_succ_inj in Hki'; [|lia|lia]. subst i'.
  unfold EdgeColoring.shorterThanNeighbours in Hs, Hs'.
  apply andb_true_iff in Hs, Hs'.
  destruct Hs as [_ Hs], Hs' as [Hs' _].
  replace ((i + 2) mod n)%nat with ((k + 1) mod n)%nat in Hs.
  2:{ rewrite Hki, Nat.Div0.add_mod_idemp_l. f_equal. lia. }
  rewrite <- Hki in Hs.
  unfold Qgtb in Hs'. apply Qltb_lt in Hs, Hs'. lra.
Qed.

(** *** The loop that colors the major corners *)

Lemma twoChannel_not_black (c : EdgeColor.t) :
  EdgeColoring.twoChannel c -> (c =? EdgeColor.BLACK)%Z = false.
Proof. intros [-> | [-> | ->]]; reflexivity. Qed.

Lemma colorMajor_inv n idxs flags i st :
  length flags = n -> (i < n)%nat ->
  EdgeColoring.majorInv n idxs flags i st ->
  EdgeColoring.majorInv n idxs flags (S i) (EdgeColoring.colorMajor st i).
Proof.
  intros Hn Hi [Hidx Hfl Hcnt Hcol Htwo Hprev Hcur Hnone Hinit Hwrap].
  unfold EdgeColoring.colorMajor.
  rewrite <- minorFlags_nth, Hfl.
  rewrite countMajors_drop in Hcnt by lia.
  destruct (nth i flags false) eqn:Fi; simpl negb; cbv iota.
  - (* a minor corner: nothing changes *)
    assert (Hlt : forall k, (k < S i)%nat -> nth k flags false = false ->
                            (k < i)%nat).
    { intros k Hk Hf. destruct (Nat.eq_dec k i) as [->|]; [congruence|lia]. }
    constructor; auto.
  - (* a major corner *)
    assert (Hlen : (i < length (EdgeColoring.msCorners st))%nat).
    { pose proof (f_equal (@length bool) Hfl) as Hl.
      unfold EdgeColoring.minorFlags in Hl. rewrite length_map in Hl. lia. }
    set (banned := if (EdgeColoring.msMajorCornerCount st - 1 =? 0)%Z
                   then EdgeColoring.msInitialColor st else EdgeColor.BLACK).
    pose proof (switchColor_twoChannel (EdgeColoring.msSeed st)
                  (EdgeColoring.msColor st) (Some banned) Hcol) as [T D].
    pose proof (switchColor_banned (EdgeColoring.msSeed st)
                  (EdgeColoring.msColor st) banned Hcol) as B.
    destruct (EdgeColoring.switchColor _ _ _) as [c' seed']. simpl in T, D, B.
    set (cs := EdgeColoring.msCorners st) in *.
    assert (Ceq : EdgeColoring.colorOf
                    (alter (EdgeColoring.setCornerColor c') i cs) i = c')
      by (rewrite colorOf_alter_eq by exact Hlen; reflexivity).
    assert (Cne : forall k, k <> i ->
              EdgeColoring.colorOf (alter (EdgeColoring.setCornerColor c') i cs) k
              = EdgeColoring.colorOf cs k)
      by (intros k Hk; apply colorOf_alter_ne; exact Hk).
    constructor; simpl.
    + rewrite map_alter_same; [exact Hidx|reflexivity].
    + unfold EdgeColoring.minorFlags. rewrite map_alter_same; [exact Hfl|reflexivity].
    + lia.
    + exact T.
    + intros k Hk Fk. destruct (Nat.eq_dec k i) as [->|Hne].
      * rewrite Ceq. exact T.
      * rewrite Cne by exact Hne. apply Htwo; [lia|exact Fk].
    + intros p k Hpk Hk Fp Fk Hq. rewrite (Cne p) by lia.
      destruct (Nat.eq_dec k i) as [->|Hne].
      * rewrite Ceq. rewrite <- (Hcur p); auto.
      * rewrite Cne by exact Hne. apply Hprev; auto. lia.
    + intros p Hp Fp Hq. destruct (Nat.eq_dec p i) as [->|Hne].
      * rewrite Ceq. reflexivity.
      * pose proof (Hq i ltac:(lia) ltac:(lia)). congruence.
    + intros Hq. pose proof (Hq i ltac:(lia)). congruence.
    + intros f Hf Ff Hq. destruct (Nat.eq_dec f i) as [->|Hne].
      * rewrite Ceq, Hnone by exact Hq. reflexivity.
      * rewrite Cne by exact Hne.
        assert (Hfi : (f < i)%nat) by lia.
        rewrite (Hinit f Hfi Ff Hq).
        rewrite twoChannel_not_black by (apply Htwo; assumption).
        reflexivity.
    + intros f l Hfl' Hl Ff Fl Hq1 Hq2. rewrite (Cne f) by lia.
      destruct (Nat.eq_dec l i) as [->|Hne].
      * rewrite Ceq.
        assert (Hzero : EdgeColoring.countMajors (drop (S i) flags) = 0%nat).
        { apply countMajors_none. intros q H1 H2. apply Hq2; lia. }
        assert (Hb : banned = EdgeColoring.colorOf cs f).
        { unfold banned. rewrite Hcnt, Hzero. simpl.
          apply Hinit; auto. }
        rewrite <- Hb. apply B. rewrite Hb. apply Htwo; auto.
      * rewrite Cne by exact Hne. apply Hwrap; auto. lia.
Qed.

(** *** The loop that colors the minor corners *)

Lemma succ_mod_small (n k : nat) : (k + 1 < n)%nat -> ((k + 1) mod n = k + 1)%nat.
Proof. intros H. apply Nat.mod_small. exact H. Qed.

Lemma succ_mod_wrap (n : nat) : (0 < n)%nat -> ((n - 1 + 1) mod n = 0)%nat.
Proof.
  intros H. replace (n - 1 + 1)%nat with n by lia. apply Nat.Div0.mod_same.
Qed.

Lemma pred_mod_zero (n : nat) : (0 < n)%nat -> ((0 + n - 1) mod n = n - 1)%nat.
Proof. intros H. apply Nat.mod_small. lia. Qed.

Lemma pred_mod_succ (n k : nat) : (S k < n)%nat -> ((S k + n - 1) mod n = k)%nat.
Proof.
  intros H. replace (S k + n - 1)%nat with (k + 1 * n)%nat by lia.
  rewrite Nat.Div0.mod_add. apply Nat.mod_small. lia.
Qed.

Lemma pred_succ_mod (n k : nat) :
  (k < n)%nat -> (((k + 1) mod n + n - 1) mod n = k)%nat.
Proof.
  intros H. destruct (Nat.eq_dec (k + 1)%nat n) as [E|E].
  - rewrite E, Nat.Div0.mod_same, pred_mod_zero by lia. lia.
  - rewrite (Nat.mod_small (k + 1)%nat n) by lia.
    rewrite Nat.add_1_r. apply pred_mod_succ. lia.
Qed.

(** The corner before a minor corner is major. *)
Lemma noAdjacentMinors_before (flags : list bool) (k : nat) :
  EdgeColoring.noAdjacentMinors flags ->
  (k < length flags)%nat -> nth k flags false = true ->
  nth ((k + length flags - 1) mod length flags) flags false = false.
Proof.
  intros H Hk Fk. set (n := length flags) in *.
  destruct (nth ((k + n - 1) mod n) flags false) eqn:E; [|reflexivity].
  apply H in E; [|apply Nat.mod_upper_bound; lia].
  fold n in E. rewrite Nat.Div0.add_mod_idemp_l in E.
  replace (k + n - 1 + 1)%nat with (k + 1 * n)%nat in E by lia.
  rewrite Nat.Div0.mod_add, Nat.mod_small in E by lia. congruence.
Qed.

Lemma colorMinor_inv n idxs flags majorColor majorColors i st :
  length flags = n -> (i < n)%nat ->
  EdgeColoring.noAdjacentMinors flags ->
  (forall p, (p < n)%nat -> nth p flags false = false ->
     (forall q, (p < q)%nat -> (q < n)%nat -> nth q flags false = true) ->
     majorColor = majorColors p) ->
  EdgeColoring.minorInv n idxs flags majorColor majorColors i st ->
  EdgeColoring.minorInv n idxs flags majorColor majorColors (S i)
    (EdgeColoring.colorMinor n st i).
Proof.
  intros Hn Hi Hadj Hlast [Hidx Hfl Hmaj Hdone Hfirst Hcur].
  destruct st as [cs color]. simpl in *.
  unfold EdgeColoring.colorMinor.
  rewrite <- minorFlags_nth, Hfl.
  assert (Hlen : (i < length cs)%nat).
  { pose proof (f_equal (@length bool) Hfl) as Hl.
    unfold EdgeColoring.minorFlags in Hl. rewrite length_map in Hl. lia. }
  destruct (nth i flags false) eqn:Fi.
  - (* a minor corner *)
    pose proof (Hadj i ltac:(lia) Fi) as Fnext.
    pose proof (noAdjacentMinors_before flags i Hadj ltac:(lia) Fi) as Fprev.
    rewrite Hn in Fnext, Fprev.
    assert (Hcolor : color = majorColors ((i + n - 1) mod n)%nat).
    { destruct i as [|i'].
      - rewrite Hfirst by reflexivity.
        rewrite pred_mod_zero in * by lia.
        apply Hlast; [lia|exact Fprev|]. intros q H1 H2. lia.
      - rewrite pred_mod_succ in * by lia. apply (Hcur i'); auto. }
    fold (EdgeColoring.colorOf cs ((i + 1) mod n)).
    rewrite (Hmaj _ Fnext), Hcolor.
    fold (EdgeColoring.thirdColor (majorColors ((i + n - 1) mod n)%nat)
                                  (majorColors ((i + 1) mod n)%nat)).
    constructor; simpl.
    + rewrite map_alter_same; [exact Hidx|reflexivity].
    + unfold EdgeColoring.minorFlags. rewrite map_alter_same; [exact Hfl|reflexivity].
    + intros k Fk. rewrite colorOf_alter_ne by congruence. apply Hmaj, Fk.
    + intros k Hk Fk. destruct (Nat.eq_dec k i) as [->|Hne].
      * rewrite colorOf_alter_eq by exact Hlen. reflexivity.
      * rewrite colorOf_alter_ne by exact Hne. apply Hdone; [lia|exact Fk].
    + discriminate.
    + intros i' [= <-] Fi'. congruence.
  - (* a major corner *)
    constructor; simpl; auto.
    + intros k Hk Fk. apply Hdone; [|exact Fk].
      destruct (Nat.eq_dec k i) as [->|]; [congruence|lia].
    + discriminate.
    + intros i' [= <-] _. apply Hmaj, Fi.
Qed.

Lemma thirdColor_spec (a b : EdgeColor.t) :
  EdgeColoring.twoChannel a -> EdgeColoring.twoChannel b -> a <> b ->
  EdgeColoring.twoChannel (EdgeColoring.thirdColor a b)
  /\ EdgeColoring.thirdColor a b <> a /\ EdgeColoring.thirdColor a b <> b.
Proof.
  unfold EdgeColoring.twoChannel.
  intros [-> | [-> | ->]] [-> | [-> | ->]] H; try congruence;
    vm_compute; repeat split; auto; discriminate.
Qed.

(** *** The colors of the corners *)

Section CornerColors.

Local Open Scope nat_scope.

Lemma markMinors_spec (corners : list EdgeColoring.InkTrapCorner)
  (splineLength : Q) :
  Forall (fun c => EdgeColoring.minor c = false) corners ->
  let n := length corners in
  let r :=
    if (3 <? n)%nat then
      fold_left (EdgeColoring.markMinor n) (seq 0 n)
                (alter (EdgeColoring.addLength splineLength) 0%nat corners,
                 Z.of_nat n)
    else (corners, Z.of_nat n) in
  List.map EdgeColoring.index (fst r) = List.map EdgeColoring.index corners
  /\ length (EdgeColoring.minorFlags (fst r)) = n
  /\ EdgeColoring.noAdjacentMinors (EdgeColoring.minorFlags (fst r))
  /\ snd r = Z.of_nat (EdgeColoring.countMajors (EdgeColoring.minorFlags (fst r)))
  /\ ((exists k, nth k (EdgeColoring.minorFlags (fst r)) false = true) ->
      (3 < n)%nat).
Proof.
  intros Hall n r.
  assert (Hflags : Forall (fun b => b = false) (EdgeColoring.minorFlags corners)).
  { unfold EdgeColoring.minorFlags. apply List.Forall_forall.
    intros b Hb. apply in_map_iff in Hb. destruct Hb as (c & <- & Hc).
    rewrite List.Forall_forall in Hall. apply Hall, Hc. }
  assert (Hlen0 : length (EdgeColoring.minorFlags corners) = n)
    by (unfold EdgeColoring.minorFlags; apply length_map).
  unfold r. destruct (3 <? n)%nat eqn:E.
  - apply Nat.ltb_lt in E.
    set (corners1 := alter (EdgeColoring.addLength splineLength) 0%nat corners).
    set (lens := List.map EdgeColoring.prevEdgeLengthEstimate corners1).
    assert (Hlens : length lens = n).
    { unfold lens, corners1. rewrite length_map, length_alter. reflexivity. }
    assert (Hf1 : EdgeColoring.minorFlags corners1 = EdgeColoring.minorFlags corners).
    { unfold EdgeColoring.minorFlags, corners1.
      apply map_alter_same. reflexivity. }
    pose proof (fold_left_seq_ind (EdgeColoring.markMinor n)
                  (EdgeColoring.markInv n (List.map EdgeColoring.index corners) lens)
                  n (corners1, Z.of_nat n)) as H.
    destruct H as [Hidx Hl Hflag Hcount].
    + constructor; simpl.
      * unfold corners1. apply map_alter_same. reflexivity.
      * reflexivity.
      * intros k Hk. rewrite Hf1, nth_all_false in Hk by exact Hflags.
        discriminate.
      * rewrite Hf1, countMajors_all by exact Hflags.
        rewrite Hlen0. reflexivity.
    + intros i a Hi Ha. apply markMinor_inv; assumption.
    + set (res := fold_left _ _ _) in *.
      assert (Hlen : length (EdgeColoring.minorFlags (fst res)) = n).
      { unfold EdgeColoring.minorFlags. rewrite length_map.
        rewrite <- Hlens, <- Hl, length_map. reflexivity. }
      repeat split; auto.
      apply (marked_not_adjacent n lens); assumption.
  - apply Nat.ltb_ge in E. simpl.
    repeat split; auto.
    + intros k Hk Fk. rewrite nth_all_false in Fk by exact Hflags.
      discriminate.
    + rewrite countMajors_all by exact Hflags. rewrite Hlen0. reflexivity.
    + intros [k Fk]. rewrite nth_all_false in Fk by exact Hflags.
      discriminate.
Qed.

Lemma colorInkTrapCorners_spec (corners : list EdgeColoring.InkTrapCorner)
  (splineLength : Q) (st : EdgeColor.t * Z) :
  Forall (fun c => EdgeColoring.minor c = false) corners ->
  (2 <= length corners)%nat ->
  EdgeColoring.twoChannel (fst st) ->
  let n := length corners in
  let cs := fst (EdgeColoring.colorInkTrapCorners corners splineLength st) in
  List.map EdgeColoring.index cs = List.map EdgeColoring.index corners
  /\ (forall k, (k < n)%nat -> EdgeColoring.twoChannel (EdgeColoring.colorOf cs k))
  /\ (forall k, (k < n)%nat ->
        EdgeColoring.colorOf cs k <> EdgeColoring.colorOf cs ((k + 1) mod n)).
Proof.
  intros Hall Hn2 Hst n cs. destruct st as [color seed]. simpl in Hst.
  unfold EdgeColoring.colorInkTrapCorners in cs. fold n in cs.
  pose proof (markMinors_spec corners splineLength Hall)
    as (Hidx2 & Hlen2 & Hadj & Hcount & Hmany).
  fold n in Hidx2, Hlen2, Hadj, Hcount, Hmany.
  destruct (if (3 <? n)%nat then _ else _) as [cs2 major2] eqn:Emark.
  simpl in Hidx2, Hlen2, Hadj, Hcount, Hmany.
  set (idxs := List.map EdgeColoring.index corners) in *.
  set (flags := EdgeColoring.minorFlags cs2) in *.
  (* the major corners *)
  pose proof (fold_left_seq_ind EdgeColoring.colorMajor
                (EdgeColoring.majorInv n idxs flags) n
                (EdgeColoring.mkMajorState cs2 major2 color seed EdgeColor.BLACK))
    as HM.
  destruct HM as [_ _ _ _ Mtwo Mprev Mcur _ _ Mwrap].
  { constructor; simpl; auto; try (intros; lia). }
  { intros i a Hi Ha. apply colorMajor_inv; assumption. }
  set (stM := fold_left EdgeColoring.colorMajor (seq 0 n) _) in *.
  set (majorColors := EdgeColoring.colorOf (EdgeColoring.msCorners stM)) in *.
  (* the minor corners *)
  pose proof (fold_left_seq_ind (EdgeColoring.colorMinor n)
                (EdgeColoring.minorInv n idxs flags
                   (EdgeColoring.msColor stM) majorColors) n
                (EdgeColoring.msCorners stM, EdgeColoring.msColor stM))
    as Hm.
  destruct Hm as [midx mfl mmaj mdone _ _].
  { pose proof (fold_left_seq_ind EdgeColoring.colorMajor
                  (EdgeColoring.majorInv n idxs flags) n
                  (EdgeColoring.mkMajorState cs2 major2 color seed EdgeColor.BLACK))
      as HM.
    destruct HM as [Midx Mfl _ _ _ _ _ _ _ _].
    { constructor; simpl; auto; try (intros; lia). }
    { intros i a Hi Ha. apply colorMajor_inv; assumption. }
    constructor; simpl; auto; try discriminate. intros; lia. }
  { intros i a Hi Ha. apply colorMinor_inv; assumption. }
  assert (Hcs : cs = fst (fold_left (EdgeColoring.colorMinor n) (seq 0 n)
                            (EdgeColoring.msCorners stM, EdgeColoring.msColor stM))).
  { unfold cs. destruct (fold_left (EdgeColoring.colorMinor n) _ _).
    reflexivity. }
  rewrite <- Hcs in midx, mfl, mmaj, mdone. clear Hcs.
  (* the corners around a minor corner *)
  assert (Haround : forall k, (k < n)%nat -> nth k flags false = true ->
    nth ((k + n - 1) mod n) flags false = false
    /\ nth ((k + 1) mod n) flags false = false
    /\ EdgeColoring.twoChannel (majorColors ((k + n - 1) mod n)%nat)
    /\ EdgeColoring.twoChannel (majorColors ((k + 1) mod n)%nat)
    /\ majorColors ((k + n - 1) mod n)%nat <> majorColors ((k + 1) mod n)%nat).
  { intros k Hk Fk.
    assert (Hn4 : (3 < n)%nat) by (apply Hmany; eauto).
    pose proof (Hadj k ltac:(lia) Fk) as Fnext.
    pose proof (noAdjacentMinors_before flags k Hadj ltac:(lia) Fk) as Fprev.
    rewrite Hlen2 in Fnext, Fprev.
    assert (Ha : ((k + n - 1) mod n < n)%nat) by (apply Nat.mod_upper_bound; lia).
    assert (Hb : ((k + 1) mod n < n)%nat) by (apply Nat.mod_upper_bound; lia).
    repeat split; auto.
    destruct k as [|k].
    - rewrite pred_mod_zero in * by lia.
      rewrite (Nat.mod_small (0 + 1) n) in * by lia. simpl in *.
      apply (Mwrap 1%nat (n - 1)%nat); auto; try lia.
      intros q Hq. replace q with 0%nat by lia. exact Fk.
    - rewrite pred_mod_succ in * by lia.
      destruct (Nat.eq_dec (S k + 1) n) as [E|E].
      + rewrite E, Nat.Div0.mod_same in *.
        apply (Mwrap 0%nat k); auto; try lia.
        intros q H1 H2. replace q with (S k) by lia. exact Fk.
      + rewrite (Nat.mod_small (S k + 1) n) in * by lia.
        apply not_eq_sym. apply (Mprev k (S k + 1)%nat); auto; try lia.
        intros q H1 H2. replace q with (S k) by lia. exact Fk. }
  split; [exact midx|]. split.
  - intros k Hk. destruct (nth k flags false) eqn:Fk.
    + rewrite (mdone k Hk Fk).
      destruct (Haround k Hk Fk) as (_ & _ & Ta & Tb & Dab).
      apply thirdColor_spec; assumption.
    + rewrite (mmaj k Fk). apply Mtwo; assumption.
  - intros k Hk.
    assert (Hb : ((k + 1) mod n < n)%nat) by (apply Nat.mod_upper_bound; lia).
    destruct (nth k flags false) eqn:Fk.
    + destruct (Haround k Hk Fk) as (_ & Fnext & Ta & Tb & Dab).
      rewrite (mdone k Hk Fk), (mmaj _ Fnext).
      apply thirdColor_spec; assumption.
    + destruct (nth ((k + 1) mod n) flags false) eqn:Fnext.
      * destruct (Haround _ Hb Fnext) as (_ & _ & Ta & Tb & Dab).
        rewrite (mmaj k Fk), (mdone _ Hb Fnext).
        rewrite (pred_succ_mod n k Hk) in *.
        apply not_eq_sym. apply thirdColor_spec; assumption.
      * rewrite (mmaj k Fk), (mmaj _ Fnext).
        destruct (Nat.eq_dec (k + 1) n) as [E|E].
        -- rewrite E, Nat.Div0.mod_same in *.
           apply (Mwrap 0%nat k); auto; try lia.
        -- rewrite (Nat.mod_small (k + 1) n) in * by lia.
           apply not_eq_sym. apply (Mprev k (k + 1)%nat); auto; try lia.
Qed.

End CornerColors.

(** ** edgeColoringInkTrap on one contour *)

Lemma inkTrapCornerLoop_index M thr es prev index len :
  List.map EdgeColoring.index
    (fst (EdgeColoring.inkTrapCornerLoop M thr es prev index len))
  = EdgeColoring.cornerLoop M thr es prev index.
Proof.
  revert prev index len. induction es as [|e es IH]; intros prev index len;
    [reflexivity|].
  simpl. destruct (EdgeColoring.isCorner _ _ _).
  - specialize (IH (EdgeSegment.direction e 1) (S index)
                   (0 + EdgeColoring.estimateEdgeLength M e)).
    destruct (EdgeColoring.inkTrapCornerLoop _ _ _ _ _ _) as [rest len'].
    simpl in *. rewrite IH. reflexivity.
  - apply IH.
Qed.

Lemma inkTrapCornerLoop_major M thr es prev index len :
  Forall (fun c => EdgeColoring.minor c = false)
    (fst (EdgeColoring.inkTrapCornerLoop M thr es prev index len)).
Proof.
  revert prev index len. induction es as [|e es IH]; intros prev index len;
    [constructor|].
  simpl. destruct (EdgeColoring.isCorner _ _ _).
  - specialize (IH (EdgeSegment.direction e 1) (S index)
                   (0 + EdgeColoring.estimateEdgeLength M e)).
    destruct (EdgeColoring.inkTrapCornerLoop _ _ _ _ _ _) as [rest len'].
    simpl in *. constructor; [reflexivity|exact IH].
  - apply IH.
Qed.

Lemma findInkTrapCorners_index M thr es :
  List.map EdgeColoring.index (fst (EdgeColoring.findInkTrapCorners M thr es))
  = EdgeColoring.findCorners M thr es.
Proof.
  unfold EdgeColoring.findInkTrapCorners, EdgeColoring.findCorners.
  destruct (last es); [|reflexivity]. apply inkTrapCornerLoop_index.
Qed.

Lemma findInkTrapCorners_major M thr es :
  Forall (fun c => EdgeColoring.minor c = false)
    (fst (EdgeColoring.findInkTrapCorners M thr es)).
Proof.
  unfold EdgeColoring.findInkTrapCorners.
  destruct (last es); [|constructor]. apply inkTrapCornerLoop_major.
Qed.

Lemma colorInkTrapSplines_spec (corners : list EdgeColoring.InkTrapCorner)
  (len : Q) (st : EdgeColor.t * Z) (es : list EdgeSegment.t) :
  Forall (fun c => EdgeColoring.minor c = false) corners ->
  (2 <= length corners)%nat ->
  StronglySorted lt (List.map EdgeColoring.index corners) ->
  (forall c, In c (List.map EdgeColoring.index corners) -> (c < length es)%nat) ->
  EdgeColoring.twoChannel (fst st) ->
  let out := EdgeColoring.colorInkTrapSplines corners len st es in
  EdgeColoring.twoChannel (fst (snd out))
  /\ Forall (fun e => EdgeColoring.visible (EdgeSegment.color e)) (fst out)
  /\ forallb (EdgeColoring.cornerSeparated (fst out))
             (List.map EdgeColoring.index corners) = true.
Proof.
  intros Hmajor Hn2 Hsorted Hbound Hst.
  unfold EdgeColoring.colorInkTrapSplines.
  pose proof (colorInkTrapCorners_spec corners len st Hmajor Hn2 Hst)
    as (Hidx & Htwo & Hnext).
  destruct (EdgeColoring.colorInkTrapCorners corners len st)
    as [cs [color seed]].
  cbn [fst] in Hidx, Htwo, Hnext.
  set (idxs := List.map EdgeColoring.index corners) in *.
  assert (Hlen : length cs = length corners).
  { pose proof (f_equal (@length nat) Hidx) as H.
    unfold idxs in H. rewrite !length_map in H. exact H. }
  set (n := length corners) in *.
  set (m := length es) in *.
  set (start := EdgeColoring.index (EdgeColoring.cornerAt cs 0)).
  set (body := EdgeColoring.nextInkTrapSpline cs start m).
  set (st0 := (0%nat, EdgeColoring.cornerColor (EdgeColoring.cornerAt cs 0))).
  set (adv := fun s : nat * EdgeColor.t =>
                ((fst s + 1)%nat, EdgeColoring.colorOf cs (fst s + 1))).
  assert (Hn : length idxs = n) by (unfold idxs; apply length_map).
  assert (Hbody : forall i s,
    body i s =
    if (fst s + 1 <? length idxs)%nat
       && (nth (fst s + 1) idxs 0 =? (start + i) mod m)%nat
    then (adv s, snd (adv s)) else (s, snd s)).
  { intros i s. unfold body, EdgeColoring.nextInkTrapSpline.
    rewrite Hn, Hlen. rewrite <- Hidx, index_nth. reflexivity. }
  assert (Hiter : forall j, Nat.iter j adv st0 = (j, EdgeColoring.colorOf cs j)).
  { induction j as [|j IH]; [reflexivity|].
    simpl. rewrite IH. unfold adv. simpl.
    rewrite Nat.add_1_r. reflexivity. }
  assert (Hstart : nth 0 idxs 0%nat = start).
  { unfold start. rewrite <- Hidx. apply index_nth. }
  assert (Hpos : (0 < length idxs)%nat) by (rewrite Hn; lia).
  assert (Hadv : forall s, fst (adv s) = S (fst s))
    by (intros s; simpl; lia).
  pose proof (walk_colors fst snd adv idxs start m body st0 es Hbody
                Hadv eq_refl Hsorted Hbound Hstart Hpos eq_refl) as Hcolors.
  pose proof (walk_separated fst snd adv idxs start m body st0 es Hbody
                Hadv eq_refl Hsorted Hbound Hstart Hpos eq_refl) as Hsep.
  pose proof (walk_state fst snd adv idxs start m body st0 es Hbody
                Hadv eq_refl Hsorted Hbound Hstart Hpos eq_refl
                m (le_n m)) as (s & Hs & Hsn & _).
  destruct (EdgeColoring.paintLoop body start m st0 es m) as [[sp c] out].
  cbn [fst snd] in *. rewrite Hiter in Hs. injection Hs as -> ->.
  split; [apply Htwo; lia|]. split.
  - apply List.Forall_forall. intros e He.
    apply list_elem_of_In, list_elem_of_lookup in He. destruct He as [p Hp].
    destruct (Hcolors p e Hp) as (j & Hj & ->).
    rewrite Hiter. simpl. apply twoChannel_visible, Htwo. lia.
  - apply Hsep.
    + intros j Hj. rewrite Hiter. simpl. apply Htwo. lia.
    + intros j Hj. rewrite !Hiter. simpl.
      pose proof (Hnext j ltac:(lia)) as Hd.
      rewrite Nat.mod_small in Hd by lia. exact Hd.
    + rewrite !Hiter. simpl.
      pose proof (Hnext (n - 1)%nat ltac:(lia)) as Hd.
      replace (n - 1 + 1)%nat with n in Hd by lia.
      rewrite Nat.Div0.mod_same in Hd. rewrite Hn. exact Hd.
Qed.

Lemma colorEdgesInkTrap_spec M thr (st : EdgeColor.t * Z)
  (es : list EdgeSegment.t) :
  EdgeColoring.twoChannel (fst st) ->
  let out := EdgeColoring.colorEdgesInkTrap M thr st es in
  EdgeColoring.twoChannel (fst (snd out))
  /\ Forall (fun e => EdgeColoring.visible (EdgeSegment.color e)) (fst out)
  /\ EdgeColoring.properlyColored M thr es (fst out) = true.
Proof.
  intros Hst.
  unfold EdgeColoring.colorEdgesInkTrap, EdgeColoring.properlyColored.
  pose proof (findCorners_bounds M thr es) as Hbound.
  pose proof (findCorners_sorted M thr es) as Hsorted.
  pose proof (findInkTrapCorners_index M thr es) as Hidx.
  pose proof (findInkTrapCorners_major M thr es) as Hmajor.
  destruct (EdgeColoring.findInkTrapCorners M thr es) as [corners0 len].
  simpl in Hidx, Hmajor. rewrite <- Hidx in *. clear Hidx.
  destruct corners0 as [|c0 [|c1 corners0]].
  - (* a smooth contour *)
    destruct st as [color seed]. simpl in Hst.
    destruct (switchColor_twoChannel seed color None Hst) as [T _].
    destruct (EdgeColoring.switchColor seed color None) as [c seed'].
    simpl in *. split; [exact T|]. split.
    + unfold EdgeColoring.paintAll. apply List.Forall_forall.
      intros e He. apply in_map_iff in He. destruct He as (e0 & <- & _).
      rewrite color_setColor. apply twoChannel_visible, T.
    + unfold EdgeColoring.paintAll, EdgeColoring.sameColor.
      destruct es as [|e es]; [reflexivity|]. simpl.
      apply forallb_forall. intros e' He'.
      apply in_map_iff in He'. destruct He' as (e0 & <- & _).
      rewrite !color_setColor. apply Z.eqb_refl.
  - (* a teardrop *)
    apply colorTeardrop_spec; [exact Hst|]. apply Hbound. left. reflexivity.
  - (* several corners *)
    apply (colorInkTrapSplines_spec (c0 :: c1 :: corners0) len st es);
      [exact Hmajor|simpl; lia|exact Hsorted|exact Hbound|exact Hst].
Qed.

(** ** edgeColoringByDistance: the splines *)

Section Segmentation.

Local Open Scope nat_scope.

Lemma sorted_snoc (l : list nat) (x : nat) :
  StronglySorted lt l -> Forall (fun s => s < x) l ->
  StronglySorted lt (l ++ [x]).
Proof.
  intros Hs Hb. induction Hs as [|a l Hs IH Ha]; simpl.
  - repeat constructor.
  - apply Forall_cons_1 in Hb. destruct Hb as [Hax Hb].
    constructor; [apply IH, Hb|].
    apply Forall_app. split; [exact Ha|]. repeat constructor. exact Hax.
Qed.

Lemma segmented_open seg :
  EdgeColoring.segmented seg -> EdgeColoring.segmentedOpen seg.
Proof.
  intros [Hs Hb]. constructor; [exact Hs|].
  eapply Forall_impl; [exact Hb|]. simpl. intros; lia.
Qed.

Lemma pushStart_open seg :
  EdgeColoring.segmented seg ->
  EdgeColoring.segmentedOpen (EdgeColoring.pushStart seg).
Proof.
  intros [Hs Hb]. constructor; simpl.
  - apply sorted_snoc; assumption.
  - apply Forall_app. split.
    + eapply Forall_impl; [exact Hb|]. simpl. intros; lia.
    + repeat constructor.
Qed.

Lemma pushEdge_segmented seg e :
  EdgeColoring.segmentedOpen seg ->
  EdgeColoring.segmented
    (EdgeColoring.mkSegmentation (EdgeColoring.edgeSegments seg ++ [e])
                                 (EdgeColoring.splineStarts seg)).
Proof.
  intros [Hs Hb]. constructor; simpl; [exact Hs|].
  eapply Forall_impl; [exact Hb|]. simpl. intros s H.
  rewrite length_app. simpl. lia.
Qed.

Lemma extends_refl seg : EdgeColoring.extends seg seg.
Proof. split; reflexivity. Qed.

Lemma extends_trans a b c :
  EdgeColoring.extends a b -> EdgeColoring.extends b c ->
  EdgeColoring.extends a c.
Proof. intros [H1 H2] [H3 H4]. split; etrans; eauto. Qed.

Lemma extends_pushStart seg :
  EdgeColoring.extends seg (EdgeColoring.pushStart seg).
Proof. split; simpl; [apply prefix_app_r|]; reflexivity. Qed.

Lemma extends_pushEdge seg e :
  EdgeColoring.extends seg
    (EdgeColoring.mkSegmentation (EdgeColoring.edgeSegments seg ++ [e])
                                 (EdgeColoring.splineStarts seg)).
Proof. split; simpl; [|apply prefix_app_r]; reflexivity. Qed.

(** [pushEdgeAt] at an index of the contour *)
Lemma pushEdgeAt_spec es idx seg slots :
  idx < length es ->
  exists e,
    EdgeColoring.pushEdgeAt es idx (seg, slots)
    = (EdgeColoring.mkSegmentation (EdgeColoring.edgeSegments seg ++ [e])
                                   (EdgeColoring.splineStarts seg),
       <[ idx := EdgeColoring.Ref (length (EdgeColoring.edgeSegments seg)) ]>
         slots).
Proof.
  intros H. unfold EdgeColoring.pushEdgeAt.
  destruct (lookup_lt_is_Some_2 es idx H) as [e ->]. eauto.
Qed.

(** *** The teardrop of three edges or more *)

Lemma teardropStep_extends es corner m st i :
  (corner + i) mod m < length es ->
  EdgeColoring.extends
    (fst st) (fst (EdgeColoring.segmentTeardropStep es corner m st i)).
Proof.
  intros Hidx. destruct st as [seg slots].
  unfold EdgeColoring.segmentTeardropStep. cbn [fst snd].
  destruct (i =? m / 2); destruct (negb _); cbn [fst snd].
  - destruct (pushEdgeAt_spec es ((corner + i) mod m)
                (EdgeColoring.pushStart seg) slots Hidx) as [e ->].
    cbn [fst]. eapply extends_trans; [apply extends_pushStart|].
    apply (extends_pushEdge (EdgeColoring.pushStart seg)).
  - apply extends_pushStart.
  - destruct (pushEdgeAt_spec es ((corner + i) mod m) seg slots Hidx) as [e ->].
    simpl. apply extends_pushEdge.
  - apply extends_refl.
Qed.

Lemma teardropStep_open es corner m st i :
  (corner + i) mod m < length es -> i <> m / 2 ->
  EdgeColoring.segmentedOpen (fst st) ->
  EdgeColoring.segmentedOpen
    (fst (EdgeColoring.segmentTeardropStep es corner m st i)).
Proof.
  intros Hidx Hi H. destruct st as [seg slots].
  unfold EdgeColoring.segmentTeardropStep.
  apply Nat.eqb_neq in Hi. rewrite Hi. cbn [fst snd] in *.
  destruct (negb _); [|exact H].
  destruct (pushEdgeAt_spec es ((corner + i) mod m) seg slots Hidx) as [e ->].
  simpl. apply segmented_open, pushEdge_segmented, H.
Qed.

Lemma teardropStep_segmented es corner m st i :
  (corner + i) mod m < length es -> i <> m / 2 ->
  EdgeColoring.segmented (fst st) ->
  EdgeColoring.segmented
    (fst (EdgeColoring.segmentTeardropStep es corner m st i)).
Proof.
  intros Hidx Hi H. destruct st as [seg slots].
  unfold EdgeColoring.segmentTeardropStep.
  apply Nat.eqb_neq in Hi. rewrite Hi. cbn [fst snd] in *.
  destruct (negb _); [|exact H].
  destruct (pushEdgeAt_spec es ((corner + i) mod m) seg slots Hidx) as [e ->].
  simpl. apply pushEdge_segmented, segmented_open, H.
Qed.

Lemma teardropStep_push es corner m st i :
  (corner + i) mod m < length es -> i <> m / 2 ->
  EdgeColoring.symmetricalTrichotomy i m <> 0%Z ->
  EdgeColoring.segmentedOpen (fst st) ->
  EdgeColoring.segmented
    (fst (EdgeColoring.segmentTeardropStep es corner m st i)).
Proof.
  intros Hidx Hi Ht H. destruct st as [seg slots].
  unfold EdgeColoring.segmentTeardropStep.
  apply Nat.eqb_neq in Hi. rewrite Hi. cbn [fst snd] in *.
  apply Z.eqb_neq in Ht. rewrite Ht. cbn [negb].
  destruct (pushEdgeAt_spec es ((corner + i) mod m) seg slots Hidx) as [e ->].
  simpl. apply pushEdge_segmented, H.
Qed.

Lemma teardropStep_start es corner m st i :
  (corner + i) mod m < length es ->
  EdgeColoring.segmented (fst st) ->
  EdgeColoring.segmentedOpen
    (fst (EdgeColoring.segmentTeardropStep es corner m st i)).
Proof.
  intros Hidx H. destruct st as [seg slots].
  unfold EdgeColoring.segmentTeardropStep. cbn [fst snd] in *.
  destruct (i =? m / 2); cbn [fst snd].
  - destruct (negb _); [|apply pushStart_open, H].
    destruct (pushEdgeAt_spec es ((corner + i) mod m)
                (EdgeColoring.pushStart seg) slots Hidx) as [e ->].
    cbn [fst]. apply segmented_open.
    apply (pushEdge_segmented (EdgeColoring.pushStart seg)).
    apply pushStart_open, H.
  - destruct (negb _); [|apply segmented_open, H].
    destruct (pushEdgeAt_spec es ((corner + i) mod m) seg slots Hidx) as [e ->].
    simpl. apply segmented_open, pushEdge_segmented, segmented_open, H.
Qed.

Lemma segmentTeardrop_spec es corner seg slots :
  3 <= length es ->
  EdgeColoring.segmentedOpen seg ->
  let m := length es in
  let st := fold_left (EdgeColoring.segmentTeardropStep es corner m)
                      (seq 0 m) (seg, slots) in
  EdgeColoring.segmented (fst st) /\ EdgeColoring.extends seg (fst st).
Proof.
  intros Hm Hopen m st.
  assert (Hidx : forall i, (corner + i) mod m < length es)
    by (intros i; apply Nat.mod_upper_bound; lia).
  assert (Hhalf : 1 <= m / 2 /\ m / 2 < m - 1).
  { split.
    - apply Nat.div_le_lower_bound; lia.
    - apply Nat.Div0.div_lt_upper_bound. lia. }
  assert (Hst : st = EdgeColoring.segmentTeardropStep es corner m
                       (fold_left (EdgeColoring.segmentTeardropStep es corner m)
                                  (seq 0 (m - 1)) (seg, slots)) (m - 1)).
  { unfold st. replace (seq 0 m) with (seq 0 (m - 1) ++ [m - 1]).
    - rewrite fold_left_app. reflexivity.
    - change (m - 1) with (0 + (m - 1)) at 2.
      rewrite <- (seq_S (m - 1) 0). f_equal. lia. }
  rewrite Hst. clear Hst st.
  pose proof (fold_left_seq_ind (EdgeColoring.segmentTeardropStep es corner m)
                (fun i st =>
                   EdgeColoring.extends seg (fst st)
                   /\ EdgeColoring.segmentedOpen (fst st)
                   /\ (1 <= i <= m / 2 -> EdgeColoring.segmented (fst st)))
                (m - 1) (seg, slots)) as H.
  destruct H as (Hext & Ho & _).
  - simpl. split; [apply extends_refl|]. split; [exact Hopen|]. lia.
  - intros i a Hi (Hext & Ho & Hs). split; [|split].
    + eapply extends_trans; [exact Hext|]. apply teardropStep_extends, Hidx.
    + destruct (Nat.eq_dec i (m / 2)) as [E|E].
      * apply teardropStep_start; [apply Hidx|]. apply Hs. lia.
      * apply teardropStep_open; [apply Hidx|exact E|exact Ho].
    + intros Hrange. destruct (Nat.eq_dec i 0) as [->|E0].
      * apply teardropStep_push; [apply Hidx|lia| |exact Ho].
        rewrite symmetricalTrichotomy_first by lia. discriminate.
      * apply teardropStep_segmented; [apply Hidx|lia|]. apply Hs. lia.
  - split.
    + apply teardropStep_push; [apply Hidx|lia| |exact Ho].
      unfold m. rewrite symmetricalTrichotomy_last by lia. discriminate.
    + eapply extends_trans; [exact Hext|]. apply teardropStep_extends, Hidx.
Qed.

(** *** The contour with several corners *)

Lemma segmentSplines_spec es corners start seg slots :
  es <> [] -> start < length es ->
  nth 1 corners 0 <> start ->
  EdgeColoring.segmentedOpen seg ->
  let m := length es in
  let st := fold_left (EdgeColoring.segmentSplineStep es corners start m)
                      (seq 0 m) (seg, slots, 0) in
  EdgeColoring.segmented (fst (fst st))
  /\ EdgeColoring.extends seg (fst (fst st)).
Proof.
  intros Hne Hstart Hc1 Hopen m st.
  assert (Hm : 1 <= m) by (unfold m; destruct es; simpl; [congruence|lia]).
  assert (Hidx : forall i, (start + i) mod m < length es)
    by (intros i; apply Nat.mod_upper_bound; lia).
  pose proof (fold_left_seq_ind (EdgeColoring.segmentSplineStep es corners start m)
                (fun i st =>
                   EdgeColoring.extends seg (fst (fst st))
                   /\ (i = 0 -> EdgeColoring.segmentedOpen (fst (fst st))
                                /\ snd st = 0)
                   /\ (1 <= i -> EdgeColoring.segmented (fst (fst st))))
                m (seg, slots, 0)) as H.
  destruct H as (Hext & _ & Hs).
  - simpl. split; [apply extends_refl|]. split; [auto|lia].
  - intros i [[sg sl] spline] Hi (Hext & H0 & H1). cbn [fst snd] in *.
    unfold EdgeColoring.segmentSplineStep.
    destruct (_ && _) eqn:E.
    + (* a start is pushed *)
      destruct (pushEdgeAt_spec es ((start + i) mod m)
                  (EdgeColoring.pushStart sg) sl (Hidx i)) as [e ->].
      cbn [fst snd].
      assert (Hi1 : 1 <= i).
      { destruct (Nat.eq_dec i 0) as [->|]; [|lia]. exfalso.
        destruct (H0 eq_refl) as [_ ->].
        apply andb_true_iff in E. destruct E as [_ E].
        apply Nat.eqb_eq in E.
        rewrite Nat.add_0_r, Nat.mod_small in E by exact Hstart.
        simpl in E. congruence. }
      split; [|split].
      * eapply extends_trans; [exact Hext|].
        eapply extends_trans; [apply extends_pushStart|].
        apply (extends_pushEdge (EdgeColoring.pushStart sg)).
      * lia.
      * intros _. apply (pushEdge_segmented (EdgeColoring.pushStart sg)).
        apply pushStart_open, H1, Hi1.
    + destruct (pushEdgeAt_spec es ((start + i) mod m) sg sl (Hidx i)) as [e ->].
      cbn [fst snd]. split; [|split].
      * eapply extends_trans; [exact Hext|]. apply extends_pushEdge.
      * lia.
      * intros _. apply pushEdge_segmented.
        destruct (Nat.eq_dec i 0) as [->|]; [apply H0; reflexivity|].
        apply segmented_open, H1. lia.
  - split; [apply Hs; lia|exact Hext].
Qed.

(** *** The teardrop of fewer than three edges *)

Lemma segmentSplitTeardrop_spec es corner seg seg' slots :
  EdgeColoring.segmentedOpen seg -> es <> [] ->
  EdgeColoring.segmentSplitTeardrop es corner seg = Some (seg', slots) ->
  EdgeColoring.segmented seg' /\ EdgeColoring.extends seg seg'.
Proof.
  intros [Hs Hb] Hne H. unfold EdgeColoring.segmentSplitTeardrop in H.
  set (k := length (EdgeColoring.edgeSegments seg)) in *.
  destruct es as [|e0 [|e1 es]]; [congruence| |].
  - destruct (EdgeColoring.splitParts [e0] corner)
      as [|[q0|] [|[q1|] [|[q2|] parts]]]; try discriminate.
    injection H as <- <-. split; [constructor|split]; simpl.
    + apply sorted_snoc; [exact Hs|].
      eapply Forall_impl; [exact Hb|]. simpl. intros; lia.
    + apply Forall_app. split.
      * eapply Forall_impl; [exact Hb|]. simpl. intros.
        rewrite length_app. simpl. lia.
      * repeat constructor. rewrite length_app. simpl. lia.
    + apply prefix_app_r. reflexivity.
    + apply prefix_app_r. reflexivity.
  - destruct (EdgeColoring.splitParts (e0 :: e1 :: es) corner)
      as [|[q0|] [|[q1|] [|[q2|] [|[q3|] [|[q4|] [|[q5|] parts]]]]]];
      try discriminate.
    injection H as <- <-. split; [constructor|split]; simpl.
    + apply sorted_snoc; [exact Hs|].
      eapply Forall_impl; [exact Hb|]. simpl. intros; lia.
    + apply Forall_app. split.
      * eapply Forall_impl; [exact Hb|]. simpl. intros.
        rewrite length_app. simpl. lia.
      * repeat constructor. rewrite length_app. simpl. lia.
    + apply prefix_app_r. reflexivity.
    + apply prefix_app_r. reflexivity.
Qed.

(** *** One contour *)

Lemma segmentContour_spec M thr seg es seg' slots :
  EdgeColoring.segmented seg -> es <> [] ->
  EdgeColoring.segmentContour M thr seg es = Some (seg', slots) ->
  EdgeColoring.segmented seg'
  /\ EdgeColoring.extends (EdgeColoring.pushStart seg) seg'
  /\ (EdgeColoring.findCorners M thr es = [] ->
      slots = List.map EdgeColoring.Ref
                (seq (length (EdgeColoring.edgeSegments seg)) (length es))
      /\ seg' = EdgeColoring.mkSegmentation
                  (EdgeColoring.edgeSegments seg ++ es)
                  (EdgeColoring.splineStarts (EdgeColoring.pushStart seg))).
Proof.
  intros Hseg Hne H. unfold EdgeColoring.segmentContour in H.
  pose proof (pushStart_open seg Hseg) as Hopen.
  pose proof (findCorners_bounds M thr es) as Hbound.
  pose proof (findCorners_sorted M thr es) as Hsorted.
  destruct (EdgeColoring.findCorners M thr es) as [|c0 [|c1 corners]].
  - (* a smooth contour *)
    injection H as <- <-. split; [|split].
    + destruct Hopen as [Hs Hb]. constructor; [exact Hs|]. simpl in *.
      eapply Forall_impl; [exact Hb|]. simpl. intros s Hle.
      rewrite length_app. destruct es; [congruence|]. simpl. lia.
    + split; simpl; [reflexivity|apply prefix_app_r; reflexivity].
    + intros _. split; reflexivity.
  - (* a teardrop *)
    destruct (3 <=? length es) eqn:E.
    + apply Nat.leb_le in E. injection H as H.
      pose proof (segmentTeardrop_spec es c0 (EdgeColoring.pushStart seg)
                    (List.map EdgeColoring.Kept es) E Hopen) as [H1 H2].
      cbv zeta in H1, H2. rewrite H in H1, H2. cbn [fst] in H1, H2.
      split; [exact H1|]. split; [exact H2|]. discriminate.
    + apply segmentSplitTeardrop_spec in H; [|exact Hopen|exact Hne].
      destruct H as [H1 H2]. split; [exact H1|]. split; [exact H2|].
      discriminate.
  - (* several corners *)
    injection H as H.
    pose proof (segmentSplines_spec es (c0 :: c1 :: corners) c0
                  (EdgeColoring.pushStart seg)
                  (List.map EdgeColoring.Kept es) Hne) as Hspec.
    destruct Hspec as [H1 H2].
    + apply Hbound. left. reflexivity.
    + simpl. inversion Hsorted as [|? ? _ Hlt]. subst.
      apply Forall_cons_1 in Hlt. lia.
    + exact Hopen.
    + cbv zeta in H1, H2.
      destruct (fold_left _ _ _) as [[sg sl] sp]. cbn [fst] in *.
      injection H as <- <-.
      split; [exact H1|]. split; [exact H2|]. discriminate.
Qed.

(** *** The loop over the contours *)

Lemma splineHolds_extends a b j k es :
  EdgeColoring.extends a b ->
  EdgeColoring.splineHolds a j k es -> EdgeColoring.splineHolds b j k es.
Proof.
  intros [H1 H2] (Hj & HSj & Hes). repeat split.
  - eapply prefix_lookup_Some; eauto.
  - eapply prefix_lookup_Some; eauto.
  - intros i Hi. destruct (lookup_lt_is_Some_2 es i Hi) as [e He].
    rewrite He. eapply prefix_lookup_Some; [|exact H2].
    rewrite Hes by exact Hi. exact He.
Qed.

Lemma splineHolds_smooth seg es :
  EdgeColoring.splineHolds
    (EdgeColoring.pushStart
       (EdgeColoring.mkSegmentation
          (EdgeColoring.edgeSegments seg ++ es)
          (EdgeColoring.splineStarts (EdgeColoring.pushStart seg))))
    (length (EdgeColoring.splineStarts seg))
    (length (EdgeColoring.edgeSegments seg)) es.
Proof.
  unfold EdgeColoring.splineHolds, EdgeColoring.pushStart. simpl.
  repeat split.
  - rewrite <- app_assoc. apply list_lookup_middle. reflexivity.
  - rewrite lookup_app_r by (rewrite length_app; simpl; lia).
    rewrite length_app. simpl.
    replace (S (length (EdgeColoring.splineStarts seg))
             - (length (EdgeColoring.splineStarts seg) + 1)) with 0 by lia.
    simpl. rewrite length_app. reflexivity.
  - intros i Hi. rewrite lookup_app_r by lia. f_equal. lia.
Qed.

Lemma getAll_cons_nonempty h hs es :
  Contour.getAll (h :: hs) = Some es -> es <> [].
Proof.
  simpl. destruct h; [|discriminate].
  destruct (Contour.getAll hs); [|discriminate].
  intros [= <-]. discriminate.
Qed.

Lemma segmentContours_spec M thr contours seg seg' slotss :
  EdgeColoring.segmented seg ->
  EdgeColoring.segmentContours M thr seg contours = Some (seg', slotss) ->
  EdgeColoring.segmented seg'
  /\ EdgeColoring.extends (EdgeColoring.pushStart seg)
                          (EdgeColoring.pushStart seg')
  /\ Forall2
       (fun c slots => forall es,
          Contour.getAll (Contour.edges c) = Some es ->
          EdgeColoring.findCorners M thr es = [] ->
          exists j k,
            slots = List.map EdgeColoring.Ref (seq k (length es))
            /\ (es <> [] ->
                EdgeColoring.splineHolds (EdgeColoring.pushStart seg') j k es))
       contours slotss.
Proof.
  revert seg seg' slotss.
  induction contours as [|c contours IH]; intros seg seg' slotss Hseg H.
  - simpl in H. injection H as <- <-.
    split; [exact Hseg|]. split; [apply extends_refl|constructor].
  - simpl in H. destruct (Contour.edges c) as [|h hs] eqn:Ec.
    + destruct (EdgeColoring.segmentContours M thr seg contours)
        as [[seg1 r]|] eqn:Er; [|discriminate].
      injection H as <- <-.
      destruct (IH _ _ _ Hseg Er) as (H1 & H2 & H3).
      split; [exact H1|]. split; [exact H2|].
      constructor; [|exact H3].
      intros es Hes _. rewrite Ec in Hes. simpl in Hes. injection Hes as <-.
      exists 0, 0. split; [reflexivity|congruence].
    + destruct (Contour.getAll (h :: hs)) as [es|] eqn:Eg; [|discriminate].
      pose proof (getAll_cons_nonempty h hs es Eg) as Hne.
      destruct (EdgeColoring.segmentContour M thr seg es)
        as [[seg1 slots]|] eqn:Ec1; [|discriminate].
      destruct (EdgeColoring.segmentContours M thr seg1 contours)
        as [[seg2 r]|] eqn:Er; [|discriminate].
      injection H as <- <-.
      destruct (segmentContour_spec M thr seg es seg1 slots Hseg Hne Ec1)
        as (S1 & E1 & Hsmooth).
      destruct (IH _ _ _ S1 Er) as (H1 & H2 & H3).
      split; [exact H1|]. split.
      { eapply extends_trans; [exact E1|].
        eapply extends_trans; [apply extends_pushStart|exact H2]. }
      constructor; [|exact H3].
      intros es' Hes' Hsm. rewrite Ec, Eg in Hes'. injection Hes' as <-.
      destruct (Hsmooth Hsm) as [-> ->].
      exists (length (EdgeColoring.splineStarts seg)),
             (length (EdgeColoring.edgeSegments seg)).
      split; [reflexivity|]. intros _.
      eapply splineHolds_extends; [exact H2|]. apply splineHolds_smooth.
Qed.

(** *** The loop that applies the colors *)

Lemma applySplineColor_inv starts coloring i spline segs :
  StronglySorted lt starts ->
  EdgeColoring.applyInv starts i spline ->
  EdgeColoring.applyInv starts (S i)
    (fst (EdgeColoring.applySplineColor starts coloring (spline, segs) i)).
Proof.
  intros Hsorted [Hrange Hbehind Hahead].
  unfold EdgeColoring.applySplineColor, EdgeColoring.atZ. cbn [fst].
  replace (spline + 1 <? 0)%Z with false by (symmetry; apply Z.ltb_ge; lia).
  set (c := Z.to_nat (spline + 1)).
  assert (Hc : spline = (Z.of_nat c - 1)%Z) by (unfold c; lia).
  destruct (starts !! c) as [s|] eqn:Es.
  - pose proof (lookup_lt_Some _ _ _ Es) as Hlt.
    pose proof (nth_lookup_Some starts c 0 s Es) as Hnth.
    pose proof (Hahead c ltac:(lia) Hlt) as Hge.
    destruct (s =? i) eqn:E.
    + apply Nat.eqb_eq in E. subst s. constructor.
      * lia.
      * intros j Hj. destruct (Nat.eq_dec j c) as [->|Hne]; [lia|].
        pose proof (Hbehind j ltac:(lia)). lia.
      * intros j Hj Hjl.
        pose proof (sorted_nth starts c j Hsorted ltac:(lia)). lia.
    + apply Nat.eqb_neq in E. constructor.
      * lia.
      * intros j Hj. pose proof (Hbehind j Hj). lia.
      * intros j Hj Hjl. destruct (Nat.eq_dec j c) as [->|Hne]; [lia|].
        pose proof (sorted_nth starts c j Hsorted ltac:(lia)). lia.
  - apply lookup_ge_None in Es. constructor.
    + lia.
    + intros j Hj. pose proof (Hbehind j Hj). lia.
    + intros j Hj Hjl. lia.
Qed.

(** In a spline the loop is in that spline. *)
Lemma applyInv_spline starts i spline j k k' :
  EdgeColoring.applyInv starts (S i) spline ->
  starts !! j = Some k -> starts !! S j = Some k' -> k <= i < k' ->
  spline = Z.of_nat j.
Proof.
  intros [Hrange Hbehind Hahead] Hj HSj Hi.
  pose proof (nth_lookup_Some starts j 0 k Hj) as Hn.
  pose proof (nth_lookup_Some starts (S j) 0 k' HSj) as Hn'.
  pose proof (lookup_lt_Some _ _ _ Hj) as Hlt.
  destruct (Z.lt_trichotomy spline (Z.of_nat j)) as [H|[H|H]]; [|exact H|].
  - pose proof (Hahead j H Hlt). lia.
  - pose proof (Hbehind (S j) ltac:(lia)). lia.
Qed.

Lemma applyColors_spec starts coloring segs :
  StronglySorted lt starts ->
  let r := fold_left (EdgeColoring.applySplineColor starts coloring)
                     (seq 0 (length segs)) ((-1)%Z, segs) in
  forall j k k' i,
    starts !! j = Some k -> starts !! S j = Some k' -> k <= i < k' ->
    i < length segs ->
    snd r !! i
    = (fun e => EdgeSegment.setColor
                  e (EdgeColoring.splineColorOf coloring (Z.of_nat j)))
        <$> segs !! i.
Proof.
  intros Hsorted r.
  pose proof (fold_left_seq_ind (EdgeColoring.applySplineColor starts coloring)
                (fun i st =>
                   EdgeColoring.applyInv starts i (fst st)
                   /\ (forall p, i <= p -> snd st !! p = segs !! p)
                   /\ (forall p j k k',
                         p < i ->
                         starts !! j = Some k -> starts !! S j = Some k' ->
                         k <= p < k' ->
                         snd st !! p
                         = (fun e => EdgeSegment.setColor
                                       e (EdgeColoring.splineColorOf
                                            coloring (Z.of_nat j)))
                             <$> segs !! p))
                (length segs) ((-1)%Z, segs)) as H.
  destruct H as (_ & _ & H).
  - cbn [fst snd]. split; [|split].
    + constructor; intros; lia.
    + reflexivity.
    + intros; lia.
  - intros i [spline sg] Hi (Hinv & Hrest & Hdone). cbn [fst snd] in *.
    pose proof (applySplineColor_inv starts coloring i spline sg Hsorted Hinv)
      as Hinv'.
    unfold EdgeColoring.applySplineColor in *. cbn [fst snd] in *.
    set (spline' := match EdgeColoring.atZ starts (spline + 1) with
                    | Some s => if s =? i then (spline + 1)%Z else spline
                    | None => spline
                    end) in *.
    split; [exact Hinv'|]. split.
    + intros p Hp. rewrite list_lookup_alter_ne by lia. apply Hrest. lia.
    + intros p j k k' Hp Hj HSj Hk.
      destruct (Nat.eq_dec p i) as [->|Hne].
      * rewrite list_lookup_alter_eq, Hrest by lia.
        rewrite (applyInv_spline starts i spline' j k k' Hinv' Hj HSj Hk).
        reflexivity.
      * rewrite list_lookup_alter_ne by lia.
        apply (Hdone p j k k'); auto. lia.
  - intros j k k' i Hj HSj Hk Hi. apply (H i j k k'); auto.
Qed.

(** *** The smooth contours *)

Lemma nil_or_not {A : Type} (l : list A) : l = [] \/ l <> [].
Proof. destruct l; [left; reflexivity|right; discriminate]. Qed.

Lemma sameColor_paintAll color es :
  EdgeColoring.sameColor (EdgeColoring.paintAll color es) = true.
Proof.
  unfold EdgeColoring.paintAll, EdgeColoring.sameColor.
  destruct es as [|e es]; [reflexivity|]. simpl.
  apply forallb_forall. intros e' He'.
  apply in_map_iff in He'. destruct He' as (e0 & <- & _).
  rewrite !color_setColor. apply Z.eqb_refl.
Qed.

Lemma resolve_spline (segs : list EdgeSegment.t)
  (g : EdgeSegment.t -> EdgeSegment.t) (es : list EdgeSegment.t) (k : nat) :
  (forall i, i < length es -> segs !! (k + i) = g <$> es !! i) ->
  List.map (EdgeColoring.resolveSlot segs)
           (List.map EdgeColoring.Ref (seq k (length es)))
  = List.map Some (List.map g es).
Proof.
  revert k. induction es as [|e es IH]; intros k H; [reflexivity|].
  simpl. f_equal.
  - pose proof (H 0 ltac:(simpl; lia)) as H0.
    rewrite Nat.add_0_r in H0. exact H0.
  - apply IH. intros i Hi.
    pose proof (H (S i) ltac:(simpl; lia)) as HS.
    replace (S k + i) with (k + S i) by lia. exact HS.
Qed.

Lemma getAll_nil hs : Contour.getAll hs = Some [] -> hs = [].
Proof.
  destruct hs as [|[e|] hs]; simpl; [reflexivity| |discriminate].
  destruct (Contour.getAll hs); discriminate.
Qed.

Lemma Forall2_diag {A B : Type} (P : A -> B -> Prop) (R : A -> A -> Prop)
  (l : list A) (l' : list B) :
  (forall x y, P x y -> R x x) -> Forall2 P l l' -> Forall2 R l l.
Proof.
  intros H HF. induction HF; constructor; eauto.
Qed.

Lemma Forall2_map_r {A B C : Type} (P : A -> B -> Prop) (R : A -> C -> Prop)
  (f : B -> C) (l : list A) (l' : list B) :
  (forall x y, P x y -> R x (f y)) -> Forall2 P l l' ->
  Forall2 R l (List.map f l').
Proof.
  intros H HF. induction HF; simpl; constructor; eauto.
Qed.

(** After edgeColoringByDistance the edges of a contour without
    corners have one color. *)
Lemma edgeColoringByDistance_smooth M shape thr seed shape' :
  EdgeColoring.edgeColoringByDistance M shape thr seed = Some shape' ->
  Forall2
    (fun c c' => forall es,
       Contour.getAll (Contour.edges c) = Some es ->
       EdgeColoring.findCorners M (sin M thr) es = [] ->
       exists es',
         Contour.edges c' = List.map Some es'
         /\ EdgeColoring.sameColor es' = true)
    (Shape.contours shape) (Shape.contours shape').
Proof.
  unfold EdgeColoring.edgeColoringByDistance. intros H.
  destruct (EdgeColoring.segmentContours _ _ _ _) as [[seg slotss]|] eqn:E;
    [|discriminate].
  apply segmentContours_spec in E; [|repeat constructor].
  destruct E as (Hseg & _ & HF).
  pose proof (pushStart_open seg Hseg) as [Hsorted _].
  set (segF := EdgeColoring.pushStart seg) in *.
  destruct (_ =? 0) eqn:Ecount.
  - (* no spline: every contour is empty *)
    injection H as <-. apply Nat.eqb_eq in Ecount.
    eapply Forall2_diag; [|exact HF]. simpl.
    intros c slots Hc es Hes Hsm.
    destruct (Hc es Hes Hsm) as (j & k & _ & Hholds).
    destruct es as [|e es].
    + apply getAll_nil in Hes. rewrite Hes. exists []. auto.
    + exfalso. destruct Hholds as (_ & HSj & _); [discriminate|].
      apply lookup_lt_Some in HSj. lia.
  - set (coloring := EdgeColoring.colorSplines M segF _ seed) in *.
    pose proof (applyColors_spec (EdgeColoring.splineStarts segF) coloring
                  (EdgeColoring.edgeSegments segF) Hsorted) as Happly.
    cbv zeta in Happly.
    destruct (fold_left _ _ _) as [spline segs'].
    injection H as <-. cbn [snd] in Happly. simpl.
    eapply Forall2_map_r; [|exact HF]. simpl.
    intros c slots Hc es Hes Hsm.
    destruct (Hc es Hes Hsm) as (j & k & Hslots & Hholds).
    clear Hc. subst slots.
    destruct (nil_or_not es) as [->|Hne].
    + exists []. auto.
    + destruct (Hholds Hne) as (Hj & HSj & Hedges).
      exists (EdgeColoring.paintAll
                (EdgeColoring.splineColorOf coloring (Z.of_nat j)) es).
      split; [|apply sameColor_paintAll].
      apply resolve_spline. intros i Hi.
      assert (Hin : k + i < length (EdgeColoring.edgeSegments segF)).
      { destruct (lookup_lt_is_Some_2 es i Hi) as [e He].
        apply (lookup_lt_Some _ _ e). rewrite Hedges by exact Hi. exact He. }
      rewrite (Happly j k (k + length es) (k + i) Hj HSj) by lia.
      rewrite Hedges by exact Hi. reflexivity.
Qed.

End Segmentation.

(** ** edgeColoringByDistance: the recoloring loop *)

Section Recoloring.

Local Open Scope nat_scope.

Lemma mod3_next (step : nat) : S step mod 3 <> step mod 3.
Proof.
  pose proof (Nat.mod_upper_bound step 3 ltac:(lia)) as H.
  replace (S step) with (step + 1) by lia.
  rewrite <- Nat.Div0.add_mod_idemp_l.
  set (r := step mod 3) in *. clearbody r.
  assert (r = 0 \/ r = 1 \/ r = 2) as [-> | [-> | ->]] by lia;
    vm_compute; discriminate.
Qed.

(** The color that [pickColor] returns ends the [do ... while] loop. *)
Lemma pickColor_ends adjacentToA colorA step :
  adjacentToA
  && (fst (EdgeColoring.pickColor adjacentToA colorA step) =? colorA)%Z
  = false.
Proof.
  unfold EdgeColoring.pickColor.
  destruct (adjacentToA && (Z.of_nat (step mod 3) =? colorA)%Z) eqn:E;
    cbn [fst]; [|exact E].
  apply andb_true_iff in E. destruct E as [-> E].
  apply Z.eqb_eq in E. cbn [andb]. apply Z.eqb_neq. rewrite <- E.
  intros H. apply Nat2Z.inj in H. exact (mod3_next step H).
Qed.

Lemma pickColor_step adjacentToA colorA step :
  step < snd (EdgeColoring.pickColor adjacentToA colorA step).
Proof.
  unfold EdgeColoring.pickColor. destruct (_ && _); simpl; lia.
Qed.

(** One round of the [while] loop. *)
Lemma recolorLoop_S fuel edgeMatrix vertexA vertexCount step
  uncolored coloringBuffer :
  EdgeColoring.recolorLoop (S fuel) edgeMatrix vertexA vertexCount step
                           uncolored coloringBuffer
  = match uncolored with
    | [] => ([], coloringBuffer)
    | i :: rest =>
        if negb (step <? EdgeColoring.MAX_RECOLOR_STEPS)
        then (uncolored, coloringBuffer)
        else
          let possibleColors :=
            EdgeColoring.vertexPossibleColors
              coloringBuffer (nth i edgeMatrix []) vertexCount in
          if negb (possibleColors =? 0)%Z
          then EdgeColoring.recolorLoop
                 (S fuel) edgeMatrix vertexA vertexCount step rest
                 (<[ i := EdgeColoring.firstPossibleColor possibleColors ]>
                    coloringBuffer)
          else
            let '(c, step') :=
              EdgeColoring.pickColor
                (EdgeColoring.edgeAt edgeMatrix i vertexA)
                (nth vertexA coloringBuffer 0%Z) step in
            let coloringBuffer := <[ i := c ]> coloringBuffer in
            let '(uncolored', coloringBuffer) :=
              EdgeColoring.uncolorSameNeighbors
                rest coloringBuffer edgeMatrix i vertexCount in
            EdgeColoring.recolorLoop fuel edgeMatrix vertexA vertexCount step'
                                     uncolored' coloringBuffer
    end.
Proof. destruct uncolored; reflexivity. Qed.

(** MAX_RECOLOR_STEPS of fuel are enough: more fuel does not change what
    the loop returns. *)
Lemma recolorLoop_fuel fuel edgeMatrix vertexA vertexCount step
  uncolored coloringBuffer :
  EdgeColoring.MAX_RECOLOR_STEPS <= fuel + step ->
  EdgeColoring.recolorLoop (S fuel) edgeMatrix vertexA vertexCount step
                           uncolored coloringBuffer
  = EdgeColoring.recolorLoop fuel edgeMatrix vertexA vertexCount step
                             uncolored coloringBuffer.
Proof.
  revert step uncolored coloringBuffer.
  induction fuel as [|fuel IH]; intros step uncolored coloringBuffer H.
  - rewrite recolorLoop_S. simpl in H.
    destruct uncolored as [|i rest]; [reflexivity|].
    replace (step <? EdgeColoring.MAX_RECOLOR_STEPS) with false
      by (symmetry; apply Nat.ltb_ge; exact H).
    reflexivity.
  - revert coloringBuffer.
    induction uncolored as [|i rest IHu]; intros coloringBuffer;
      [reflexivity|].
    rewrite (recolorLoop_S (S fuel)), (recolorLoop_S fuel).
    destruct (negb (step <? EdgeColoring.MAX_RECOLOR_STEPS)); [reflexivity|].
    cbv zeta.
    destruct (negb (_ =? 0)%Z); [apply IHu|].
    pose proof (pickColor_step (EdgeColoring.edgeAt edgeMatrix i vertexA)
                  (nth vertexA coloringBuffer 0%Z) step) as Hstep.
    destruct (EdgeColoring.pickColor _ _ _) as [c step']. simpl in Hstep.
    destruct (EdgeColoring.uncolorSameNeighbors _ _ _ _ _) as [u b].
    apply IH. lia.
Qed.

End Recoloring.

(** ** The three colorings *)

Lemma edgeColoringSimple_proper M shape thr seed shape' :
  EdgeColoring.seedGivesColor seed ->
  EdgeColoring.edgeColoringSimple M shape thr seed = Some shape' ->
  EdgeColoring.coloringProper M thr shape shape'.
Proof.
  unfold EdgeColoring.edgeColoringSimple, EdgeColoring.coloringProper.
  intros Hseed H.
  destruct (EdgeColoring.colorContours _ _ _) as [out|] eqn:E; [|discriminate].
  injection H as <-. simpl.
  apply (colorContours_spec
           (EdgeColoring.colorEdgesSimple M (sin M thr))
           (fun es es' =>
              EdgeColoring.properlyColored M (sin M thr) es es' = true)) in E.
  - eapply Forall2_impl; [exact E|]. simpl.
    intros c c' (es & es' & Hes & Hc & Hp) es0 Hes0.
    rewrite Hes in Hes0. injection Hes0 as <-. eauto.
  - intros st es Hst.
    destruct (colorEdgesSimple_spec M (sin M thr) st es Hst) as (T & _ & HP).
    auto.
  - reflexivity.
  - apply initColor_twoChannel, Hseed.
Qed.

Lemma edgeColoringInkTrap_proper M shape thr seed shape' :
  EdgeColoring.seedGivesColor seed ->
  EdgeColoring.edgeColoringInkTrap M shape thr seed = Some shape' ->
  EdgeColoring.coloringProper M thr shape shape'.
Proof.
  unfold EdgeColoring.edgeColoringInkTrap, EdgeColoring.coloringProper.
  intros Hseed H.
  destruct (EdgeColoring.colorContours _ _ _) as [out|] eqn:E; [|discriminate].
  injection H as <-. simpl.
  apply (colorContours_spec
           (EdgeColoring.colorEdgesInkTrap M (sin M thr))
           (fun es es' =>
              EdgeColoring.properlyColored M (sin M thr) es es' = true)) in E.
  - eapply Forall2_impl; [exact E|]. simpl.
    intros c c' (es & es' & Hes & Hc & Hp) es0 Hes0.
    rewrite Hes in Hes0. injection Hes0 as <-. eauto.
  - intros st es Hst.
    destruct (colorEdgesInkTrap_spec M (sin M thr) st es Hst) as (T & _ & HP).
    auto.
  - reflexivity.
  - apply initColor_twoChannel, Hseed.
Qed.

Lemma edgeColoringInkTrap_total M shape thr seed :
  Forall (fun c => is_Some (Contour.getAll (Contour.edges c)))
         (Shape.contours shape) ->
  is_Some (EdgeColoring.edgeColoringInkTrap M shape thr seed).
Proof.
  intros H. unfold EdgeColoring.edgeColoringInkTrap.
  destruct (colorContours_total
              (EdgeColoring.colorEdgesInkTrap M (sin M thr))
              (Shape.contours shape) (EdgeColoring.initColor seed) H)
    as [r ->].
  eauto.
Qed.

(** C3, as it holds.  After edgeColoringSimple and after
    edgeColoringInkTrap, whatever the shape, the angle threshold and the
    seed that is a natural number (any seed whose remainder by 3 is not
    negative): the two edges that meet at a detected corner share one
    channel at most, and the edges of a contour without detected corners
    have one color.  After edgeColoringByDistance, whatever the seed,
    the edges of a contour without detected corners have one color. *)
Theorem colorings_proper M shape thr seed :
  (forall shape',
     EdgeColoring.seedGivesColor seed ->
     EdgeColoring.edgeColoringSimple M shape thr seed = Some shape' ->
     EdgeColoring.coloringProper M thr shape shape')
  /\ (forall shape',
        EdgeColoring.seedGivesColor seed ->
        EdgeColoring.edgeColoringInkTrap M shape thr seed = Some shape' ->
        EdgeColoring.coloringProper M thr shape shape')
  /\ (forall shape',
        EdgeColoring.edgeColoringByDistance M shape thr seed = Some shape' ->
        EdgeColoring.smoothProper M thr shape shape').
Proof.
  split; [|split]; intros shape'.
  - apply (edgeColoringSimple_proper M shape thr seed).
  - apply (edgeColoringInkTrap_proper M shape thr seed).
  - apply (edgeColoringByDistance_smooth M shape thr seed).
Qed.

Lemma colorings_proper_witness :
  (exists shape',
     EdgeColoring.edgeColoringSimple exampleMath squareAndRound 3 0%Z
     = Some shape'
     /\ EdgeColoring.coloringProper exampleMath 3 squareAndRound shape')
  /\ (exists shape',
        EdgeColoring.edgeColoringInkTrap exampleMath squareAndRound 3 0%Z
        = Some shape'
        /\ EdgeColoring.coloringProper exampleMath 3 squareAndRound shape')
  /\ (exists shape',
        EdgeColoring.edgeColoringByDistance exampleMath squareAndRound 3 0%Z
        = Some shape'
        /\ EdgeColoring.smoothProper exampleMath 3 squareAndRound shape').
Proof.
  pose proof (colorings_proper exampleMath squareAndRound 3 0%Z)
    as (H1 & H2 & H3).
  split; [|split]; eexists; (split; [vm_compute; reflexivity|]).
  - apply H1; [vm_compute; discriminate|]. vm_compute. reflexivity.
  - apply H2; [vm_compute; discriminate|]. vm_compute. reflexivity.
  - apply H3. vm_compute. reflexivity.
Defined.

Lemma map_Some_inj {A : Type} (l l' : list A) :
  List.map Some l = List.map Some l' -> l = l'.
Proof.
  revert l'. induction l as [|x l IH]; intros [|y l'] H; simpl in H;
    try discriminate; [reflexivity|].
  injection H as -> H. f_equal. apply IH, H.
Qed.

(** C3 as stated fails for edgeColoringByDistance: on the two petals the
    four splines touch each other, the fourth gets the color of the
    first, and the two meet at the corner at index 0. *)
Lemma edgeColoringByDistance_petals_not_proper :
  exists shape',
    EdgeColoring.edgeColoringByDistance exampleMath petals 3 0%Z = Some shape'
    /\ ~ EdgeColoring.coloringProper exampleMath 3 petals shape'.
Proof.
  eexists. split; [vm_compute; reflexivity|].
  unfold EdgeColoring.coloringProper. intros H.
  inversion H as [|c c' cs cs' Hc _ E1 E2]. subst.
  destruct (Hc petalEdges eq_refl) as (es' & Hes' & Hp).
  simpl in Hes'.
  match type of Hes' with
  | ?l = _ => change l with (List.map Some (omap id l)) in Hes'
  end.
  apply map_Some_inj in Hes'. subst es'.
  vm_compute in Hp. discriminate.
Qed.

(** ** equation-solver.ts: the roots of the quadratic solver *)

Lemma Qsquare_zero (u : Q) : u * u == 0 -> u == 0.
Proof. intros H. destruct (Qmult_integral _ _ H); assumption. Qed.

Lemma Qsquare_nonneg (u : Q) : 0 <= u * u.
Proof.
  destruct (Qlt_le_dec u 0) as [H|H].
  - assert (E : u * u == (- u) * (- u)) by ring.
    rewrite E. apply Qmult_le_0_compat; lra.
  - apply Qmult_le_0_compat; assumption.
Qed.

Lemma quadratic_complete_square (a b c x : Q) :
  4 * a * (a * x * x + b * x + c)
  == (2 * a * x + b) * (2 * a * x + b) - (b * b - 4 * a * c).
Proof. ring. Qed.

Lemma quadratic_root_iff (a b c x : Q) :
  ~ a == 0 ->
  (a * x * x + b * x + c == 0
   <-> (2 * a * x + b) * (2 * a * x + b) == b * b - 4 * a * c).
Proof.
  intros Ha. pose proof (quadratic_complete_square a b c x) as E. split.
  - intros H. rewrite H in E. lra.
  - intros H. rewrite H in E.
    assert (E' : (4 * a) * (a * x * x + b * x + c) == 0).
    { rewrite <- Qmult_assoc in E |- *. rewrite E. ring. }
    destruct (Qmult_integral _ _ E') as [F|F]; [|exact F].
    exfalso. apply Ha. lra.
Qed.

(** X1.  Whenever the equation is not sent to the linear branch by the
    magnitude test alone (a = 0 with b <> 0, or the quadratic branch),
    and the square root is exact on the discriminant, [solveQuadratic]
    returns the roots of a x^2 + b x + c and nothing else: a number is
    equal to a returned value exactly when it is a root. *)
Theorem solveQuadratic_roots (M : MathOps) (a b c : Q) :
  (a == 0 /\ ~ b == 0) \/ ~ EquationSolver.linearFallback a b ->
  (0 < b * b - 4 * a * c ->
   sqrt M (b * b - 4 * a * c) * sqrt M (b * b - 4 * a * c)
   == b * b - 4 * a * c) ->
  forall x,
    (exists r, In r (EquationSolver.solveQuadratic M a b c) /\ r == x)
    <-> a * x * x + b * x + c == 0.
Proof.
  intros Hcase Hsqrt x. unfold EquationSolver.solveQuadratic.
  destruct Hcase as [[Ha Hb]|Hf].
  - pose proof (degenerate_linearFallback a b Ha) as Hf.
    apply linearFallback_test in Hf. rewrite Hf.
    pose proof Hb as Hb'. apply Qeq_bool_false in Hb'. rewrite Hb'.
    split.
    + intros (r & [<-|[]] & Hr). rewrite <- Hr, Ha. field. exact Hb.
    + intros H. exists (- c / b). split; [left; reflexivity|].
      rewrite Ha in H.
      assert (Hx : b * x == - c) by lra.
      rewrite <- Hx. field. exact Hb.
  - assert (Ha : ~ a == 0).
    { intros Ha. apply Hf. left. exact Ha. }
    apply linearFallback_test_false in Hf. rewrite Hf.
    rewrite (quadratic_root_iff a b c x Ha).
    set (D := b * b - 4 * a * c) in *.
    destruct (Qgtb D 0) eqn:E1.
    + apply Qltb_lt in E1. specialize (Hsqrt E1).
      set (s := sqrt M D) in *. split.
      * intros (r & [<-|[<-|[]]] & Hr); rewrite <- Hr, <- Hsqrt.
        -- assert (E : 2 * a * ((- b + s) / (2 * a)) + b == s)
             by (field; exact Ha).
           rewrite E. reflexivity.
        -- assert (E : 2 * a * ((- b - s) / (2 * a)) + b == - s)
             by (field; exact Ha).
           rewrite E. ring.
      * intros H. rewrite <- Hsqrt in H.
        assert (F : (2 * a * x + b - s) * (2 * a * x + b + s) == 0).
        { assert (G : (2 * a * x + b - s) * (2 * a * x + b + s)
                      == (2 * a * x + b) * (2 * a * x + b) - s * s) by ring.
          rewrite G, H. ring. }
        destruct (Qmult_integral _ _ F) as [G|G].
        -- exists ((- b + s) / (2 * a)). split; [left; reflexivity|].
           assert (Es : s == 2 * a * x + b) by lra.
           rewrite Es. field. exact Ha.
        -- exists ((- b - s) / (2 * a)). split; [right; left; reflexivity|].
           assert (Es : s == - (2 * a * x + b)) by lra.
           rewrite Es. field. exact Ha.
    + apply Qltb_ge in E1.
      destruct (Qeq_bool D 0) eqn:E2.
      * apply Qeq_bool_iff in E2. split.
        -- intros (r & [<-|[]] & Hr). rewrite <- Hr, E2.
           assert (E : 2 * a * (- b / (2 * a)) + b == 0)
             by (field; exact Ha).
           rewrite E. ring.
        -- intros H. rewrite E2 in H. apply Qsquare_zero in H.
           exists (- b / (2 * a)). split; [left; reflexivity|].
           assert (Eb : b == - (2 * a * x)) by lra.
           rewrite Eb. field. exact Ha.
      * apply Qeq_bool_false in E2. split.
        -- intros (r & [] & _).
        -- intros H. exfalso.
           pose proof (Qsquare_nonneg (2 * a * x + b)) as Hn.
           rewrite H in Hn. apply E2. lra.
Qed.

Lemma solveQuadratic_roots_witness :
  (exists r, In r (EquationSolver.solveQuadratic exampleMath 1 (-3) 2)
             /\ r == 2)
  <-> 1 * 2 * 2 + (-3) * 2 + 2 == 0.
Proof.
  apply (solveQuadratic_roots exampleMath 1 (-3) 2).
  - right. intros [H|H]; vm_compute in H; discriminate.
  - intros _. vm_compute. reflexivity.
Defined.

(** ** DistanceMapping.ts: the mapping of a range *)





(** ** Projection.ts *)



(** ** SignedDistance.ts: the comparisons *)

Lemma Qle_bool_false x y : Qle_bool x y = false <-> y < x.
Proof.
  destruct (Qle_bool x y) eqn:E.
  - apply Qle_bool_iff in E. split; [discriminate | intros H; lra].
  - split; [intros _ | reflexivity].
    destruct (Qlt_le_dec y x) as [H|H]; [exact H|].
    apply Qle_bool_iff in H. congruence.
Qed.

(** The truth value of a comparison of rationals, decided. *)
Ltac Qbool_cases :=
  repeat match goal with
    | |- context [Qltb ?a ?b] =>
        let E := fresh "E" in
        destruct (Qltb a b) eqn:E;
        [apply Qltb_lt in E | apply Qltb_ge in E]
    | |- context [Qle_bool ?a ?b] =>
        let E := fresh "E" in
        destruct (Qle_bool a b) eqn:E;
        [apply Qle_bool_iff in E | apply Qle_bool_false in E]
    | |- context [Qeq_bool ?a ?b] =>
        let E := fresh "E" in
        destruct (Qeq_bool a b) eqn:E;
        [apply Qeq_bool_iff in E | apply Qeq_bool_false in E]
    end.

(** X5.  The comparisons of signed distances form one total order.
    [lessThan] is a strict order: nothing is closer than itself, two
    distances are never each closer than the other, and closer than is
    transitive.  The three other comparisons agree with it:
    [greaterThan] is [lessThan] with the arguments exchanged,
    [lessThanOrEqual] is the negation of [greaterThan] and
    [greaterThanOrEqual] the negation of [lessThan]. *)
Theorem signedDistance_order (a b c : SignedDistance.t) :
  SignedDistance.lessThan a a = false
  /\ (SignedDistance.lessThan a b = true ->
      SignedDistance.lessThan b a = false)
  /\ (SignedDistance.lessThan a b = true ->
      SignedDistance.lessThan b c = true ->
      SignedDistance.lessThan a c = true)
  /\ SignedDistance.greaterThan a b = SignedDistance.lessThan b a
  /\ SignedDistance.lessThanOrEqual a b = negb (SignedDistance.greaterThan a b)
  /\ SignedDistance.greaterThanOrEqual a b = negb (SignedDistance.lessThan a b).
Proof.
  unfold SignedDistance.greaterThan, SignedDistance.lessThan,
    SignedDistance.lessThanOrEqual, SignedDistance.greaterThanOrEqual,
    Qgtb, Qgeb. cbv zeta.
  set (x := Qabs (SignedDistance.distance a)).
  set (y := Qabs (SignedDistance.distance b)).
  set (z := Qabs (SignedDistance.distance c)).
  set (p := SignedDistance.dot a). set (q := SignedDistance.dot b).
  set (r := SignedDistance.dot c).
  clearbody x y z p q r.
  split; [|split; [|split; [|split; [|split]]]].
  - Qbool_cases; cbn; try reflexivity; exfalso; lra.
  - Qbool_cases; cbn; intros; try reflexivity; try discriminate;
      exfalso; lra.
  - Qbool_cases; cbn; intros; try reflexivity; try discriminate;
      exfalso; lra.
  - Qbool_cases; cbn; try reflexivity; exfalso; lra.
  - Qbool_cases; cbn; try reflexivity; exfalso; lra.
  - Qbool_cases; cbn; try reflexivity; exfalso; lra.
Qed.

(** ** MultiDistance.ts: the median *)

(** Every [Qmin] and [Qmax] of the goal, innermost first, is replaced
    by a variable with its specification. *)
Ltac minmax_atom t :=
  lazymatch t with
  | context [Qmin _ _] => fail
  | context [Qmax _ _] => fail
  | _ => idtac
  end.

Ltac minmax_cases :=
  repeat match goal with
    | |- context [Qmin ?u ?v] =>
        minmax_atom u; minmax_atom v;
        let m := fresh "m" in
        destruct (Q.min_spec u v) as [[? ?]|[? ?]];
        set (m := Qmin u v) in *; clearbody m
    | |- context [Qmax ?u ?v] =>
        minmax_atom u; minmax_atom v;
        let m := fresh "m" in
        destruct (Q.max_spec u v) as [[? ?]|[? ?]];
        set (m := Qmax u v) in *; clearbody m
    end.

(** X6.  [median] returns the middle one of the three channels, whatever
    their order: if lo <= mid <= hi, the median of the three values taken
    in any of the six orders is mid. *)
Theorem median_middle (lo mid hi : Q) :
  lo <= mid -> mid <= hi ->
  median lo mid hi == mid /\ median lo hi mid == mid
  /\ median mid lo hi == mid /\ median mid hi lo == mid
  /\ median hi lo mid == mid /\ median hi mid lo == mid.
Proof.
  intros H1 H2. unfold median.
  repeat split; minmax_cases; lra.
Qed.

Lemma median_middle_witness :
  median 1 2 3 == 2 /\ median 1 3 2 == 2
  /\ median 2 1 3 == 2 /\ median 2 3 1 == 2
  /\ median 3 1 2 == 2 /\ median 3 2 1 == 2.
Proof. apply (median_middle 1 2 3); lra. Defined.

(** ** EdgeColor.ts: the channel operations *)

Lemma color_enumeration (c : EdgeColor.t) :
  (0 <= c <= 7)%Z ->
  c = EdgeColor.BLACK \/ c = EdgeColor.RED \/ c = EdgeColor.GREEN
  \/ c = EdgeColor.YELLOW \/ c = EdgeColor.BLUE \/ c = EdgeColor.MAGENTA
  \/ c = EdgeColor.CYAN \/ c = EdgeColor.WHITE.
Proof.
  unfold EdgeColor.BLACK, EdgeColor.RED, EdgeColor.GREEN, EdgeColor.YELLOW,
    EdgeColor.BLUE, EdgeColor.MAGENTA, EdgeColor.CYAN, EdgeColor.WHITE.
  lia.
Qed.

(** X7.  On the eight colors, [numChannels] counts the channels that
    [hasRed], [hasGreen] and [hasBlue] report; the complement of a color
    has the channels the color lacks (complementing twice gives the color
    back, a color and its complement share no channel and together make
    WHITE); and the channels of a union and of an intersection add up to
    those of the two colors. *)
Theorem edgeColor_channel_algebra (a b : EdgeColor.t) :
  (0 <= a <= 7)%Z -> (0 <= b <= 7)%Z ->
  EdgeColor.numChannels a
  = ((if EdgeColor.hasRed a then 1 else 0)
     + (if EdgeColor.hasGreen a then 1 else 0)
     + (if EdgeColor.hasBlue a then 1 else 0))%nat
  /\ EdgeColor.complementColor (EdgeColor.complementColor a) = a
  /\ EdgeColor.intersectColors a (EdgeColor.complementColor a) = EdgeColor.BLACK
  /\ EdgeColor.combineColors a (EdgeColor.complementColor a) = EdgeColor.WHITE
  /\ (EdgeColor.numChannels a + EdgeColor.numChannels (EdgeColor.complementColor a)
      = 3)%nat
  /\ (EdgeColor.numChannels (EdgeColor.combineColors a b)
      + EdgeColor.numChannels (EdgeColor.intersectColors a b)
      = EdgeColor.numChannels a + EdgeColor.numChannels b)%nat.
Proof.
  intros Ha Hb.
  apply color_enumeration in Ha. apply color_enumeration in Hb.
  repeat (destruct Ha as [Ha|Ha]); subst a;
    repeat (destruct Hb as [Hb|Hb]); subst b;
    vm_compute; repeat split.
Qed.

Lemma edgeColor_channel_algebra_witness :
  EdgeColor.numChannels EdgeColor.CYAN
  = ((if EdgeColor.hasRed EdgeColor.CYAN then 1 else 0)
     + (if EdgeColor.hasGreen EdgeColor.CYAN then 1 else 0)
     + (if EdgeColor.hasBlue EdgeColor.CYAN then 1 else 0))%nat
  /\ EdgeColor.complementColor (EdgeColor.complementColor EdgeColor.CYAN)
     = EdgeColor.CYAN
  /\ EdgeColor.intersectColors EdgeColor.CYAN
       (EdgeColor.complementColor EdgeColor.CYAN) = EdgeColor.BLACK
  /\ EdgeColor.combineColors EdgeColor.CYAN
       (EdgeColor.complementColor EdgeColor.CYAN) = EdgeColor.WHITE
  /\ (EdgeColor.numChannels EdgeColor.CYAN
      + EdgeColor.numChannels (EdgeColor.complementColor EdgeColor.CYAN)
      = 3)%nat
  /\ (EdgeColor.numChannels (EdgeColor.combineColors EdgeColor.CYAN EdgeColor.MAGENTA)
      + EdgeColor.numChannels (EdgeColor.intersectColors EdgeColor.CYAN EdgeColor.MAGENTA)
      = EdgeColor.numChannels EdgeColor.CYAN
        + EdgeColor.numChannels EdgeColor.MAGENTA)%nat.
Proof.
  apply (edgeColor_channel_algebra EdgeColor.CYAN EdgeColor.MAGENTA);
    unfold EdgeColor.CYAN, EdgeColor.MAGENTA; lia.
Defined.

(** ** Vector2.ts *)

(** X8.  [getOrthogonal] turns a vector by a right angle: the result is
    perpendicular to the vector and as long; the polarity [true] turns
    counterclockwise (the cross product with the vector is its squared
    length), [false] gives the opposite vector, and turning twice the
    same way negates the vector. *)
Theorem getOrthogonal_right_angle (v : Vector2.t) (polarity : bool) :
  Vector2.dotProduct v (Vector2.getOrthogonal v polarity) == 0
  /\ Vector2.squaredLength (Vector2.getOrthogonal v polarity)
     == Vector2.squaredLength v
  /\ Vector2.crossProduct v (Vector2.getOrthogonal v true)
     == Vector2.squaredLength v
  /\ veq (Vector2.getOrthogonal v false)
         (Vector2.negate (Vector2.getOrthogonal v true))
  /\ veq (Vector2.getOrthogonal (Vector2.getOrthogonal v polarity) polarity)
         (Vector2.negate v).
Proof.
  destruct v as [a b], polarity;
    unfold veq, Vector2.dotProduct, Vector2.squaredLength,
      Vector2.crossProduct, Vector2.getOrthogonal, Vector2.negate;
    cbn; repeat split; ring.
Qed.



(** ** Edge segments: reversal and splitting *)

Lemma isZeroVector_veq (u w : Vector2.t) :
  veq u w -> QuadraticSegment.isZeroVector u = QuadraticSegment.isZeroVector w.
Proof.
  intros [Hx Hy]. unfold QuadraticSegment.isZeroVector.
  assert (Ex : Qeq_bool (Vector2.x u) 0 = Qeq_bool (Vector2.x w) 0).
  { destruct (Qeq_bool (Vector2.x w) 0) eqn:E.
    - apply Qeq_bool_iff in E. apply Qeq_bool_iff. lra.
    - apply Qeq_bool_false in E. apply Qeq_bool_false. lra. }
  assert (Ey : Qeq_bool (Vector2.y u) 0 = Qeq_bool (Vector2.y w) 0).
  { destruct (Qeq_bool (Vector2.y w) 0) eqn:E.
    - apply Qeq_bool_iff in E. apply Qeq_bool_iff. lra.
    - apply Qeq_bool_false in E. apply Qeq_bool_false. lra. }
  rewrite Ex, Ey. reflexivity.
Qed.

Lemma isZeroVector_negate (u : Vector2.t) :
  QuadraticSegment.isZeroVector (Vector2.negate u)
  = QuadraticSegment.isZeroVector u.
Proof.
  unfold QuadraticSegment.isZeroVector, Vector2.negate. cbn.
  assert (Ex : Qeq_bool (- Vector2.x u) 0 = Qeq_bool (Vector2.x u) 0).
  { destruct (Qeq_bool (Vector2.x u) 0) eqn:E.
    - apply Qeq_bool_iff in E. apply Qeq_bool_iff. lra.
    - apply Qeq_bool_false in E. apply Qeq_bool_false. lra. }
  assert (Ey : Qeq_bool (- Vector2.y u) 0 = Qeq_bool (Vector2.y u) 0).
  { destruct (Qeq_bool (Vector2.y u) 0) eqn:E.
    - apply Qeq_bool_iff in E. apply Qeq_bool_iff. lra.
    - apply Qeq_bool_false in E. apply Qeq_bool_false. lra. }
  rewrite Ex, Ey. reflexivity.
Qed.

Lemma Qeq_bool_flip (t : Q) :
  Qeq_bool (1 - t) 0 = Qeq_bool t 1 /\ Qeq_bool (1 - t) 1 = Qeq_bool t 0.
Proof.
  split.
  - destruct (Qeq_bool t 1) eqn:E.
    + apply Qeq_bool_iff in E. apply Qeq_bool_iff. lra.
    + apply Qeq_bool_false in E. apply Qeq_bool_false. lra.
  - destruct (Qeq_bool t 0) eqn:E.
    + apply Qeq_bool_iff in E. apply Qeq_bool_iff. lra.
    + apply Qeq_bool_false in E. apply Qeq_bool_false. lra.
Qed.

(** X10.  A reversed edge is the same curve walked backwards: it keeps its
    color, its point at t is the point of the edge at 1 - t, and its
    direction at t is the opposite of the direction of the edge at 1 - t;
    reversing twice gives the edge back. *)
Theorem edge_reverse_backwards (e : EdgeSegment.t) (t : Q) :
  EdgeSegment.color (EdgeSegment.reverse e) = EdgeSegment.color e
  /\ veq (EdgeSegment.point (EdgeSegment.reverse e) t)
         (EdgeSegment.point e (1 - t))
  /\ veq (EdgeSegment.direction (EdgeSegment.reverse e) t)
         (Vector2.negate (EdgeSegment.direction e (1 - t)))
  /\ EdgeSegment.reverse (EdgeSegment.reverse e) = e.
Proof.
  split; [destruct e as [e|e|e]; reflexivity|].
  split; [destruct e as [e|e|e]; destruct e; split; simpl; ring|].
  split; [|destruct e as [e|e|e]; destruct e; reflexivity].
  destruct e as [e|e|e].
  - destruct e. split; simpl; ring.
  - destruct e as [p0 p1 p2 c].
    cbn [EdgeSegment.direction EdgeSegment.reverse QuadraticSegment.reverse].
    unfold QuadraticSegment.direction, QuadraticSegment.reverse. cbv zeta.
    cbn [QuadraticSegment.p0 QuadraticSegment.p1 QuadraticSegment.p2].
    set (tr := Vector2.mix (Vector2.subtract p1 p2) (Vector2.subtract p0 p1) t).
    set (te := Vector2.mix (Vector2.subtract p1 p0) (Vector2.subtract p2 p1)
                           (1 - t)).
    assert (Ht : veq tr (Vector2.negate te)) by (split; simpl; ring).
    rewrite (isZeroVector_veq _ _ Ht), isZeroVector_negate.
    destruct (QuadraticSegment.isZeroVector te); [split; simpl; ring|exact Ht].
  - destruct e as [p0 p1 p2 p3 c].
    cbn [EdgeSegment.direction EdgeSegment.reverse CubicSegment.reverse].
    unfold CubicSegment.direction, CubicSegment.reverse. cbv zeta.
    cbn [CubicSegment.p0 CubicSegment.p1 CubicSegment.p2 CubicSegment.p3].
    set (tr := Vector2.mix
                 (Vector2.mix (Vector2.subtract p2 p3) (Vector2.subtract p1 p2) t)
                 (Vector2.mix (Vector2.subtract p1 p2) (Vector2.subtract p0 p1) t)
                 t).
    set (te := Vector2.mix
                 (Vector2.mix (Vector2.subtract p1 p0) (Vector2.subtract p2 p1)
                              (1 - t))
                 (Vector2.mix (Vector2.subtract p2 p1) (Vector2.subtract p3 p2)
                              (1 - t))
                 (1 - t)).
    assert (Ht : veq tr (Vector2.negate te)) by (split; simpl; ring).
    rewrite (isZeroVector_veq _ _ Ht), isZeroVector_negate.
    destruct (Qeq_bool_flip t) as [F0 F1]. rewrite F0, F1.
    destruct (QuadraticSegment.isZeroVector te); [|exact Ht].
    destruct (Qeq_bool t 0) eqn:E0, (Qeq_bool t 1) eqn:E1;
      try (split; simpl; ring); try exact Ht.
    apply Qeq_bool_iff in E0. apply Qeq_bool_iff in E1. exfalso. lra.
Qed.

(** X11.  [splitInThirds] cuts an edge into three edges of its color that
    trace the same curve one after the other: the first one covers the
    parameters 0 to 1/3 of the edge, the second one 1/3 to 2/3 and the
    third one 2/3 to 1. *)
Theorem splitInThirds_same_curve (e : EdgeSegment.t) (t : Q) :
  let '(a, b, c) := EdgeSegment.splitInThirds e in
  (EdgeSegment.color a = EdgeSegment.color e
   /\ EdgeSegment.color b = EdgeSegment.color e
   /\ EdgeSegment.color c = EdgeSegment.color e)
  /\ veq (EdgeSegment.point a t) (EdgeSegment.point e (t / 3))
  /\ veq (EdgeSegment.point b t) (EdgeSegment.point e ((1 + t) / 3))
  /\ veq (EdgeSegment.point c t) (EdgeSegment.point e ((2 + t) / 3)).
Proof.
  destruct e as [e|e|e]; destruct e;
    cbn; repeat split; try reflexivity; simpl; field.
Qed.

(** ** Scanline.ts: sorting and counting *)

Lemma scanlineOf_intersections (l : list (Q * Q)) :
  Scanline.intersections (scanlineOf l)
  = List.map numericIntersection (keptCrossings l)
  /\ Scanline.lastIndex (scanlineOf l) = 0%nat.
Proof.
  unfold scanlineOf.
  assert (G : forall s,
    let r := fold_left
      (fun s p => Scanline.addIntersection s (JNum (fst p)) (JNum (snd p)))
      l s in
    Scanline.intersections r
    = Scanline.intersections s ++ List.map numericIntersection (keptCrossings l)
    /\ Scanline.lastIndex r = Scanline.lastIndex s).
  { induction l as [|p l IH]; intros s; cbn.
    - rewrite app_nil_r. split; reflexivity.
    - destruct (IH (Scanline.addIntersection s (JNum (fst p)) (JNum (snd p))))
        as [E1 E2].
      cbv zeta in E1, E2. rewrite E1, E2.
      unfold Scanline.addIntersection, js_strict_eq_num.
      destruct (Qeq_bool (snd p) 0); cbn; [split; reflexivity|].
      rewrite <- app_assoc. split; reflexivity. }
  destruct (G Scanline.empty) as [E1 E2]. split; assumption.
Qed.

Lemma comesAfter_numeric (p q : Q * Q) :
  Scanline.comesAfter (numericIntersection p) (numericIntersection q) = true
  <-> fst q < fst p.
Proof.
  unfold Scanline.comesAfter, numericIntersection, Qgtb. cbn.
  rewrite Qltb_lt. split; intros H; lra.
Qed.

Lemma insertSorted_numeric (a : Q * Q) (l : list (Q * Q)) :
  exists l',
    Scanline.insertSorted (numericIntersection a)
                          (List.map numericIntersection l)
    = List.map numericIntersection l'
    /\ Permutation (a :: l) l'
    /\ (orderedByX l -> orderedByX l').
Proof.
  induction l as [|b l (l' & E & HP & HS)].
  - exists [a]. cbn. split; [reflexivity|]. split; [reflexivity|].
    intros _. repeat constructor.
  - cbn [List.map Scanline.insertSorted].
    destruct (Scanline.comesAfter (numericIntersection b)
                                  (numericIntersection a)) eqn:C.
    + apply comesAfter_numeric in C.
      exists (a :: b :: l). split; [reflexivity|]. split; [reflexivity|].
      intros Hs. constructor; [exact Hs|].
      apply StronglySorted_inv in Hs. destruct Hs as [_ Hb].
      constructor; [lra|].
      eapply List.Forall_impl; [|exact Hb]. cbn. intros c Hc. lra.
    + assert (Hle : fst b <= fst a).
      { destruct (Qlt_le_dec (fst a) (fst b)) as [H|H]; [|exact H].
        apply comesAfter_numeric in H. congruence. }
      exists (b :: l'). rewrite E. split; [reflexivity|]. split.
      * rewrite <- HP. apply perm_swap.
      * intros Hs. apply StronglySorted_inv in Hs. destruct Hs as [Hs Hb].
        constructor; [apply HS; exact Hs|].
        rewrite <- HP. constructor; assumption.
Qed.

Lemma sortIntersections_numeric (l : list (Q * Q)) :
  exists l',
    Scanline.sortIntersections (List.map numericIntersection l)
    = List.map numericIntersection l'
    /\ Permutation l l' /\ orderedByX l'.
Proof.
  unfold Scanline.sortIntersections.
  assert (G : forall acc, orderedByX acc ->
    exists l',
      fold_left (fun acc a => Scanline.insertSorted a acc)
                (List.map numericIntersection l)
                (List.map numericIntersection acc)
      = List.map numericIntersection l'
      /\ Permutation (acc ++ l) l' /\ orderedByX l').
  { induction l as [|a l IH]; intros acc Hacc; cbn.
    - exists acc. rewrite app_nil_r. repeat split; [reflexivity|exact Hacc].
    - destruct (insertSorted_numeric a acc) as (acc' & E & HP & HS).
      rewrite E. destruct (IH acc' (HS Hacc)) as (l' & E' & HP' & HS').
      exists l'. split; [exact E'|]. split; [|exact HS'].
      rewrite <- HP', <- HP. cbn. symmetry. apply Permutation_middle. }
  destruct (G [] ltac:(constructor)) as (l' & E & HP & HS).
  exists l'. repeat split; assumption.
Qed.

(** The directions of the crossings on the left of an abscissa. *)
Lemma windingLeftOf_cons p l qx :
  windingLeftOf (p :: l) qx
  = if Qltb (fst p) qx then snd p + windingLeftOf l qx
    else windingLeftOf l qx.
Proof.
  unfold windingLeftOf. cbn. destruct (Qltb (fst p) qx); reflexivity.
Qed.

Lemma windingLeftOf_perm l l' qx :
  Permutation l l' -> windingLeftOf l qx == windingLeftOf l' qx.
Proof.
  induction 1 as [|p l l' _ IH|p q l|l l' l'' _ IH1 _ IH2].
  - reflexivity.
  - rewrite !windingLeftOf_cons. destruct (Qltb (fst p) qx); lra.
  - rewrite !windingLeftOf_cons.
    destruct (Qltb (fst p) qx), (Qltb (fst q) qx); lra.
  - lra.
Qed.

Lemma windingLeftOf_kept l qx :
  windingLeftOf (keptCrossings l) qx == windingLeftOf l qx.
Proof.
  induction l as [|p l IH]; [reflexivity|].
  unfold keptCrossings in *. cbn [List.filter].
  destruct (Qeq_bool (snd p) 0) eqn:E; cbn [negb].
  - apply Qeq_bool_iff in E. rewrite windingLeftOf_cons.
    destruct (Qltb (fst p) qx); lra.
  - rewrite !windingLeftOf_cons. destruct (Qltb (fst p) qx); lra.
Qed.

Lemma leadingSum_ordered l qx :
  orderedByX l -> leadingSum l qx == windingLeftOf l qx.
Proof.
  induction l as [|p l IH]; intros Hs; [reflexivity|].
  apply StronglySorted_inv in Hs. destruct Hs as [Hs Hp].
  rewrite windingLeftOf_cons. cbn [leadingSum].
  destruct (Qltb (fst p) qx) eqn:E; [rewrite (IH Hs); reflexivity|].
  apply Qltb_ge in E.
  clear IH Hs. induction l as [|q l IH]; [reflexivity|].
  apply Forall_cons_1 in Hp. destruct Hp as [Hq Hp].
  rewrite windingLeftOf_cons.
  assert (F : Qltb (fst q) qx = false) by (apply Qltb_ge; lra).
  rewrite F. apply IH. exact Hp.
Qed.

Lemma countWindingFrom_numeric l qx w :
  exists w',
    Scanline.countWindingFrom (List.map numericIntersection l) qx (JNum w)
    = JNum w'
    /\ w' == w + leadingSum l qx.
Proof.
  revert w. induction l as [|p l IH]; intros w; cbn.
  - exists w. split; [reflexivity|ring].
  - destruct (Qltb (fst p) qx).
    + destruct (IH (w + snd p)) as (w' & E & Hw).
      exists w'. split; [exact E|]. rewrite Hw. ring.
    + exists w. split; [reflexivity|ring].
Qed.

Lemma sequentialLoop_numeric l qx i w :
  exists w',
    Scanline.sequentialLoop (List.map numericIntersection l) qx i (JNum w, i)
    = (JNum w', (i + leadingCount l qx)%nat)
    /\ w' == w + leadingSum l qx.
Proof.
  revert i w. induction l as [|p l IH]; intros i w; cbn.
  - exists w. rewrite Nat.add_0_r. split; [reflexivity|ring].
  - destruct (Qltb (fst p) qx).
    + destruct (IH (S i) (w + snd p)) as (w' & E & Hw).
      exists w'. rewrite E. split; [f_equal; lia|].
      rewrite Hw. ring.
    + exists w. rewrite Nat.add_0_r. split; [reflexivity|ring].
Qed.

Lemma leadingSum_resume l x1 x2 :
  x1 <= x2 ->
  leadingSum l x2
  == leadingSum l x1 + leadingSum (drop (leadingCount l x1) l) x2.
Proof.
  intros Hx. induction l as [|p l IH]; [reflexivity|].
  cbn [leadingSum leadingCount].
  destruct (Qltb (fst p) x1) eqn:E1.
  - apply Qltb_lt in E1.
    assert (E2 : Qltb (fst p) x2 = true) by (apply Qltb_lt; lra).
    rewrite E2. cbn [drop]. rewrite IH. ring.
  - cbn [drop leadingSum]. destruct (Qltb (fst p) x2); ring.
Qed.

Lemma Qeq_bool_comp (u w : Q) : u == w -> Qeq_bool u 0 = Qeq_bool w 0.
Proof.
  intros H. destruct (Qeq_bool w 0) eqn:E.
  - apply Qeq_bool_iff in E. apply Qeq_bool_iff. lra.
  - apply Qeq_bool_false in E. apply Qeq_bool_false. lra.
Qed.

(** X14.  When crossings with numeric fields are added to an empty scanline
    in any order and the scanline is sorted, it holds the crossings whose
    direction is not 0, each as often as it was added, in the order of
    their abscissas, and its cached index is 0. *)
Theorem scanline_sort_orders (l : list (Q * Q)) :
  exists l',
    Scanline.intersections (Scanline.sort (scanlineOf l))
    = List.map numericIntersection l'
    /\ Permutation (keptCrossings l) l'
    /\ orderedByX l'
    /\ Scanline.lastIndex (Scanline.sort (scanlineOf l)) = 0%nat.
Proof.
  destruct (scanlineOf_intersections l) as [E _].
  destruct (sortIntersections_numeric (keptCrossings l)) as (l' & E' & HP & HS).
  exists l'. unfold Scanline.sort. cbn. rewrite E, E'.
  repeat split; assumption.
Qed.

(** X15.  On such a scanline, [countWinding(x)] is the sum of the directions
    of all the crossings that were added with an abscissa smaller than
    x, and [filled(x)] tells whether that sum is not 0. *)
Theorem scanline_countWinding_sum (l : list (Q * Q)) (qx : Q) :
  let s := Scanline.sort (scanlineOf l) in
  (exists w, Scanline.countWinding s qx = JNum w /\ w == windingLeftOf l qx)
  /\ Scanline.filled s qx = negb (Qeq_bool (windingLeftOf l qx) 0).
Proof.
  cbv zeta.
  destruct (scanlineOf_intersections l) as [E _].
  destruct (sortIntersections_numeric (keptCrossings l)) as (l' & E' & HP & HS).
  unfold Scanline.filled, Scanline.countWinding, Scanline.sort. cbn.
  rewrite E, E'.
  destruct (countWindingFrom_numeric l' qx 0) as (w & Ew & Hw).
  assert (Hsum : w == windingLeftOf l qx).
  { rewrite Hw, (leadingSum_ordered l' qx HS), <- (windingLeftOf_perm _ _ qx HP),
      windingLeftOf_kept. ring. }
  rewrite Ew. split.
  - exists w. split; [reflexivity|exact Hsum].
  - cbn. rewrite (Qeq_bool_comp _ _ Hsum). reflexivity.
Qed.

Lemma sequentialLoop_winding l qx i st :
  fst (Scanline.sequentialLoop l qx i st)
  = Scanline.countWindingFrom l qx (fst st).
Proof.
  revert i st. induction l as [|a l IH]; intros i st; cbn; [reflexivity|].
  destruct (js_lt (Scanline.x a) (JNum qx)); [|reflexivity].
  rewrite IH. reflexivity.
Qed.

Lemma filledSequential_numeric (l : list (Q * Q)) (k : nat) (qx : Q) :
  exists w,
    Scanline.filledSequential
      (Scanline.mk (List.map numericIntersection l) k) qx
    = (negb (Qeq_bool w 0),
       Scanline.mk (List.map numericIntersection l)
                   (k + leadingCount (drop k l) qx))
    /\ w == leadingSum (drop k l) qx.
Proof.
  unfold Scanline.filledSequential.
  cbn [Scanline.lastIndex Scanline.intersections].
  replace (drop k (List.map numericIntersection l))
    with (List.map numericIntersection (drop k l))
    by apply (fmap_drop numericIntersection).
  destruct (sequentialLoop_numeric (drop k l) qx k 0) as (w & E & Hw).
  rewrite E. exists w. split; [reflexivity|]. rewrite Hw. ring.
Qed.

(** X16.  The first [filledSequential(x)] after [sort()] answers as
    [filled(x)] does, whatever the scanline holds, and it leaves the
    crossings as they are. *)
Theorem filledSequential_after_sort (s : Scanline.t) (qx : Q) :
  let s := Scanline.sort s in
  fst (Scanline.filledSequential s qx) = Scanline.filled s qx
  /\ Scanline.intersections (snd (Scanline.filledSequential s qx))
     = Scanline.intersections s.
Proof.
  cbv zeta. unfold Scanline.filledSequential, Scanline.filled,
    Scanline.countWinding, Scanline.sort.
  cbn [Scanline.lastIndex Scanline.intersections drop].
  pose proof (sequentialLoop_winding
                (Scanline.sortIntersections (Scanline.intersections s)) qx 0
                (JNum 0, 0%nat)) as H.
  destruct (Scanline.sequentialLoop _ qx 0 (JNum 0, 0%nat)) as [w k].
  cbn in H. subst w. split; reflexivity.
Qed.

(** X17.  A later [filledSequential] starts again from a winding of 0 at the
    cached index: on a sorted scanline of numeric crossings, a query at
    x1 followed by a query at x2 >= x1 answers, the second time, whether
    the directions of the crossings between x1 (included) and x2
    (excluded) have a sum that is not 0. *)
Theorem filledSequential_resumes (l : list (Q * Q)) (x1 x2 : Q) :
  x1 <= x2 ->
  let s := Scanline.sort (scanlineOf l) in
  let s1 := snd (Scanline.filledSequential s x1) in
  fst (Scanline.filledSequential s1 x2)
  = negb (Qeq_bool (windingLeftOf l x2 - windingLeftOf l x1) 0).
Proof.
  intros Hx. cbv zeta.
  destruct (scanlineOf_intersections l) as [E _].
  destruct (sortIntersections_numeric (keptCrossings l)) as (l' & E' & HP & HS).
  unfold Scanline.sort. rewrite E, E'.
  destruct (filledSequential_numeric l' 0 x1) as (w1 & E1 & _).
  rewrite E1. cbn [snd Nat.add]. rewrite drop_0.
  set (k := leadingCount l' x1).
  destruct (filledSequential_numeric l' k x2) as (w2 & E2 & Hw2).
  rewrite E2. cbn [fst]. f_equal.
  apply Qeq_bool_comp.
  pose proof (leadingSum_resume l' x1 x2 Hx) as Hr. fold k in Hr.
  assert (W1 : windingLeftOf l x1 == leadingSum l' x1).
  { rewrite (leadingSum_ordered l' x1 HS), <- (windingLeftOf_perm _ _ x1 HP),
      windingLeftOf_kept. reflexivity. }
  assert (W2 : windingLeftOf l x2 == leadingSum l' x2).
  { rewrite (leadingSum_ordered l' x2 HS), <- (windingLeftOf_perm _ _ x2 HP),
      windingLeftOf_kept. reflexivity. }
  rewrite Hw2, W1, W2, Hr. ring.
Qed.

Lemma filledSequential_resumes_witness :
  let l := [(0, 1); (2, -1)] in
  let s := Scanline.sort (scanlineOf l) in
  let s1 := snd (Scanline.filledSequential s 1) in
  fst (Scanline.filledSequential s1 3)
  = negb (Qeq_bool (windingLeftOf l 3 - windingLeftOf l 1) 0).
Proof.
  apply (filledSequential_resumes [(0, 1); (2, -1)] 1 3).
  vm_compute. discriminate.
Defined.

(** ** Contour.ts, Shape.ts: empty holders and reversal *)

Lemma getAll_None hs : Contour.getAll hs = None <-> In None hs.
Proof.
  induction hs as [|[e|] hs IH]; cbn.
  - split; [discriminate | intros []].
  - destruct (Contour.getAll hs).
    + split; [discriminate|]. intros [H|H]; [discriminate|].
      apply IH in H. discriminate.
    + split; [|reflexivity]. intros _. right. apply IH. reflexivity.
  - split; [|reflexivity]. intros _. left. reflexivity.
Qed.

Lemma windingLoop_None hs prev total :
  Contour.windingLoop hs prev total = None <-> In None hs.
Proof.
  revert prev total. induction hs as [|[e|] hs IH]; intros prev total; cbn.
  - split; [discriminate | intros []].
  - rewrite IH. split; [auto|]. intros [H|H]; [discriminate|exact H].
  - split; [|reflexivity]. intros _. left. reflexivity.
Qed.

Lemma last_In {A : Type} (l : list A) (a : A) : last l = Some a -> In a l.
Proof.
  intros H. apply list_elem_of_In. apply last_Some in H.
  destruct H as [l' ->]. apply elem_of_app. right. apply list_elem_of_here.
Qed.

(** [winding] throws exactly on a contour that has an empty holder. *)
Lemma winding_None c :
  Contour.winding c = None <-> In None (Contour.edges c).
Proof.
  unfold Contour.winding.
  assert (G : Contour.windingTotal c = None <-> In None (Contour.edges c)).
  { unfold Contour.windingTotal. destruct (Contour.edges c) as [|h0 [|h1 [|h2 hs]]].
    - split; [discriminate | intros []].
    - destruct h0; cbn; split; try discriminate; auto.
      intros [H|[]]. discriminate.
    - destruct h0, h1; cbn; split; try discriminate; auto.
      intros [H|[H|[]]]; discriminate.
    - set (l := h0 :: h1 :: h2 :: hs).
      destruct (last l) as [[lastEdge|]|] eqn:E.
      + apply windingLoop_None.
      + split; [|reflexivity]. intros _. apply last_In. exact E.
      + apply last_None in E. discriminate. }
  destruct (Contour.windingTotal c); [|exact G].
  split; [discriminate|]. intros H. apply G in H. discriminate.
Qed.

(** X18.  [Shape.normalize] throws exactly when a contour of the shape has an
    empty holder.  When it returns, the shape has as many contours as
    before and the same orientation of the axis, and every contour is
    either left as it was or replaced by its reversal, the latter
    exactly when its winding is negative. *)
Theorem shape_normalize_outcome (s : Shape.t) :
  (Shape.normalize s = None
   <-> Exists (fun c => In None (Contour.edges c)) (Shape.contours s))
  /\ (forall s', Shape.normalize s = Some s' ->
        Shape.inverseYAxis s' = Shape.inverseYAxis s
        /\ Forall2
             (fun c c' =>
                exists w, Contour.winding c = Some w
                  /\ (w < 0 -> c' = Contour.reverse c)
                  /\ (0 <= w -> c' = c))
             (Shape.contours s) (Shape.contours s')).
Proof.
  unfold Shape.normalize. destruct s as [cs inv]. cbn [Shape.contours Shape.inverseYAxis].
  assert (G : (Shape.normalizeContours cs = None
               <-> Exists (fun c => In None (Contour.edges c)) cs)
              /\ forall cs', Shape.normalizeContours cs = Some cs' ->
                   Forall2
                     (fun c c' =>
                        exists w, Contour.winding c = Some w
                          /\ (w < 0 -> c' = Contour.reverse c)
                          /\ (0 <= w -> c' = c))
                     cs cs').
  { induction cs as [|c cs [IH1 IH2]]; cbn.
    - split.
      + split; [discriminate|]. intros H. inversion H.
      + intros cs' [= <-]. constructor.
    - destruct (Contour.winding c) as [w|] eqn:W.
      + destruct (Shape.normalizeContours cs) as [r|].
        * split.
          -- split; [discriminate|]. intros H.
             apply List.Exists_cons in H. destruct H as [H|H].
             ++ apply winding_None in H. congruence.
             ++ apply IH1 in H. discriminate.
          -- intros cs' [= <-]. constructor; [|apply IH2; reflexivity].
             exists w. split; [exact W|]. split; intros Hw.
             ++ apply Qltb_lt in Hw. rewrite Hw. reflexivity.
             ++ apply Qltb_ge in Hw. rewrite Hw. reflexivity.
        * split; [|discriminate].
          split; [|reflexivity]. intros _.
          apply List.Exists_cons_tl. apply IH1. reflexivity.
      + split; [|discriminate].
        split; [|reflexivity]. intros _.
        apply List.Exists_cons_hd. apply winding_None. exact W. }
  destruct G as [G1 G2]. split.
  - destruct (Shape.normalizeContours cs); [|tauto].
    split; [discriminate|]. intros H. apply G1 in H. discriminate.
  - intros s' H. destruct (Shape.normalizeContours cs) as [r|]; [|discriminate].
    injection H as <-. cbn. split; [reflexivity|]. apply G2. reflexivity.
Qed.

(** X19.  Reversing a contour twice gives the contour back; a reversal keeps
    the number of holders, and the holder at position i of the reversed
    contour is the reversed holder at position n - 1 - i. *)
Theorem contour_reverse_involution (c : Contour.t) :
  Contour.reverse (Contour.reverse c) = c
  /\ length (Contour.edges (Contour.reverse c)) = length (Contour.edges c)
  /\ forall i, (i < length (Contour.edges c))%nat ->
       Contour.edges (Contour.reverse c) !! i
       = option_map EdgeSegment.reverse
           <$> Contour.edges c !! (length (Contour.edges c) - 1 - i)%nat.
Proof.
  destruct c as [hs]. unfold Contour.reverse. cbn [Contour.edges].
  split; [|split].
  - f_equal. rewrite <- map_rev, rev_involutive, List.map_map.
    rewrite <- (List.map_id hs) at 2. apply List.map_ext.
    intros [[e|e|e]|]; [destruct e..|]; reflexivity.
  - rewrite length_rev, length_map. reflexivity.
  - intros i Hi. rewrite <- map_rev.
    change (List.map ?f ?l) with (f <$> l). rewrite list_lookup_fmap.
    rewrite rev_alt. change (rev_append hs []) with (reverse hs).
    rewrite reverse_lookup by exact Hi.
    unfold EdgeHolder in *.
    replace (length hs - S i)%nat with (length hs - 1 - i)%nat by lia.
    reflexivity.
Qed.

(** ** edge-coloring.ts: what the colorings keep *)

Lemma geometry_setColor e c : geometry (EdgeSegment.setColor e c) = geometry e.
Proof. destruct e as [e|e|e]; destruct e; reflexivity. Qed.

Lemma geometry_paintAll c es :
  List.map geometry (EdgeColoring.paintAll c es) = List.map geometry es.
Proof.
  unfold EdgeColoring.paintAll. rewrite List.map_map.
  apply List.map_ext. intros e. apply geometry_setColor.
Qed.

Lemma geometry_paintLoop {St : Type} (body : nat -> St -> St * EdgeColor.t)
  (start m : nat) (st0 : St) (es0 : list EdgeSegment.t) (k : nat) :
  List.map geometry (snd (EdgeColoring.paintLoop body start m st0 es0 k))
  = List.map geometry es0.
Proof.
  induction k as [|k IH]; [reflexivity|].
  cbn [EdgeColoring.paintLoop].
  destruct (EdgeColoring.paintLoop body start m st0 es0 k) as [st es].
  destruct (body k st) as [st' color]. cbn [snd] in *.
  rewrite map_alter_same; [exact IH|].
  intros e. apply geometry_setColor.
Qed.

Lemma geometry_splitTeardrop es corner colors :
  (length es < 3)%nat -> (corner < length es)%nat ->
  recolored es (EdgeColoring.splitTeardrop es corner colors).
Proof.
  intros Hm Hc. right. split; [lia|]. exists corner. split; [exact Hc|].
  destruct es as [|e0 [|e1 [|e2 es]]]; cbn in Hm, Hc; try lia.
  - assert (corner = 0)%nat as -> by lia.
    unfold EdgeColoring.splitTeardrop, EdgeColoring.splitParts, startingAt,
      thirds.
    cbn [drop take app flat_map].
    destruct (EdgeSegment.splitInThirds e0) as [[a0 a1] a2].
    cbn. rewrite !geometry_setColor. reflexivity.
  - assert (corner = 0 \/ corner = 1)%nat as [-> | ->] by lia;
      unfold EdgeColoring.splitTeardrop, EdgeColoring.splitParts, startingAt,
        thirds;
      cbn [drop take app flat_map];
      destruct (EdgeSegment.splitInThirds e0) as [[a0 a1] a2];
      destruct (EdgeSegment.splitInThirds e1) as [[b0 b1] b2];
      cbn; rewrite !geometry_setColor; reflexivity.
Qed.

Lemma geometry_colorTeardrop st corner es :
  (corner < length es)%nat ->
  recolored es (fst (EdgeColoring.colorTeardrop st corner es)).
Proof.
  intros Hc. unfold EdgeColoring.colorTeardrop.
  destruct st as [color seed].
  destruct (EdgeColoring.switchColor seed color None) as [c0 seed0].
  destruct (EdgeColoring.switchColor seed0 c0 None) as [c2 seed2].
  destruct (3 <=? length es)%nat eqn:E; cbn [fst].
  - left. apply geometry_paintLoop.
  - apply Nat.leb_gt in E. apply geometry_splitTeardrop; assumption.
Qed.

Lemma recolored_simple M thr st es :
  recolored es (fst (EdgeColoring.colorEdgesSimple M thr st es)).
Proof.
  unfold EdgeColoring.colorEdgesSimple.
  destruct (EdgeColoring.findCorners M thr es) as [|corner [|c2 corners]] eqn:E.
  - destruct st as [color seed].
    destruct (EdgeColoring.switchColor seed color None) as [c s].
    left. apply geometry_paintAll.
  - apply geometry_colorTeardrop.
    apply (findCorners_bounds M thr es). rewrite E. left. reflexivity.
  - destruct st as [color seed].
    destruct (EdgeColoring.switchColor seed color None) as [c s].
    pose proof (geometry_paintLoop
                  (EdgeColoring.nextSpline (corner :: c2 :: corners) corner
                                           (length es) c)
                  corner (length es)
                  (EdgeColoring.mkSplineState 0 c s) es (length es)) as G.
    destruct (EdgeColoring.paintLoop _ _ _ _ _ _) as [st' es'].
    left. exact G.
Qed.

Lemma recolored_inkTrap M thr st es :
  recolored es (fst (EdgeColoring.colorEdgesInkTrap M thr st es)).
Proof.
  unfold EdgeColoring.colorEdgesInkTrap.
  pose proof (findInkTrapCorners_index M thr es) as Hidx.
  destruct (EdgeColoring.findInkTrapCorners M thr es) as [corners len].
  cbn [fst] in Hidx.
  destruct corners as [|corner [|c2 corners]].
  - destruct st as [color seed].
    destruct (EdgeColoring.switchColor seed color None) as [c s].
    left. apply geometry_paintAll.
  - apply geometry_colorTeardrop.
    apply (findCorners_bounds M thr es). rewrite <- Hidx. left. reflexivity.
  - unfold EdgeColoring.colorInkTrapSplines.
    destruct (EdgeColoring.colorInkTrapCorners _ _ _) as [cs [color seed]].
    pose proof (geometry_paintLoop
                  (EdgeColoring.nextInkTrapSpline
                     cs (EdgeColoring.index (EdgeColoring.cornerAt cs 0))
                     (length es))
                  (EdgeColoring.index (EdgeColoring.cornerAt cs 0)) (length es)
                  (0%nat, EdgeColoring.cornerColor (EdgeColoring.cornerAt cs 0))
                  es (length es)) as G.
    destruct (EdgeColoring.paintLoop _ _ _ _ _ _) as [[k c] es'].
    left. exact G.
Qed.

(** The loop over the contours, for any way of coloring the edges of
    one contour. *)
Section ContourLoop.

Variable colorEdges :
  EdgeColor.t * Z -> list EdgeSegment.t -> list EdgeSegment.t * (EdgeColor.t * Z).

Lemma colorContours_completes st contours :
  is_Some (EdgeColoring.colorContours colorEdges st contours)
  <-> Forall allHeld contours.
Proof.
  revert st. induction contours as [|c cs IH]; intros st; cbn.
  - split; [constructor | eauto].
  - unfold allHeld at 1.
    destruct (Contour.edges c) as [|h hs] eqn:Ec.
    + specialize (IH st).
      destruct (EdgeColoring.colorContours colorEdges st cs).
      * split; [|eauto]. intros _. constructor; [|apply IH; eauto].
        unfold allHeld. rewrite Ec. intros [].
      * split; [intros [? [=]]|]. intros H. apply Forall_cons_1 in H.
        apply IH, H.
    + rewrite <- Ec.
      destruct (Contour.getAll (Contour.edges c)) as [es|] eqn:G.
      * destruct (colorEdges st es) as [es' st'].
        specialize (IH st').
        destruct (EdgeColoring.colorContours colorEdges st' cs).
        -- split; [|eauto]. intros _. constructor; [|apply IH; eauto].
           unfold allHeld. intros H. apply getAll_None in H. congruence.
        -- split; [intros [? [=]]|]. intros H. apply Forall_cons_1 in H.
           apply IH, H.
      * split; [intros [? [=]]|]. intros H. apply Forall_cons_1 in H.
        destruct H as [H _]. exfalso. apply H. apply getAll_None. exact G.
Qed.

Variable R : list EdgeSegment.t -> list EdgeSegment.t -> Prop.
Hypothesis HcolorEdges : forall st es, R es (fst (colorEdges st es)).

Lemma colorContours_each st contours out :
  EdgeColoring.colorContours colorEdges st contours = Some out ->
  Forall2
    (fun c c' => exists es es',
       Contour.edges c = List.map Some es
       /\ Contour.edges c' = List.map Some es'
       /\ (es = [] /\ es' = [] \/ R es es'))
    contours out.
Proof.
  revert st out. induction contours as [|c cs IH]; intros st out; cbn.
  - intros [= <-]. constructor.
  - destruct (Contour.edges c) as [|h hs] eqn:Ec.
    + destruct (EdgeColoring.colorContours colorEdges st cs) as [r|] eqn:E;
        [|discriminate].
      intros [= <-]. constructor; [|eapply IH; exact E].
      exists [], []. rewrite Ec. auto.
    + rewrite <- Ec.
      destruct (Contour.getAll (Contour.edges c)) as [es|] eqn:G;
        [|discriminate].
      pose proof (HcolorEdges st es) as HR.
      destruct (colorEdges st es) as [es' st'].
      destruct (EdgeColoring.colorContours colorEdges st' cs) as [r|] eqn:E;
        [|discriminate].
      intros [= <-]. constructor; [|eapply IH; exact E].
      exists es, es'. apply getAll_Some in G. rewrite G. auto.
Qed.

End ContourLoop.

(** X21.  edgeColoringSimple and edgeColoringInkTrap complete on exactly the
    same shapes: those in which no holder of any contour is empty.  On
    any other shape they throw. *)
Theorem edgeColoring_completes M shape thr seed :
  (is_Some (EdgeColoring.edgeColoringSimple M shape thr seed)
   <-> Forall allHeld (Shape.contours shape))
  /\ (is_Some (EdgeColoring.edgeColoringInkTrap M shape thr seed)
      <-> Forall allHeld (Shape.contours shape)).
Proof.
  unfold EdgeColoring.edgeColoringSimple, EdgeColoring.edgeColoringInkTrap.
  split.
  - rewrite <- (colorContours_completes
                  (EdgeColoring.colorEdgesSimple M (sin M thr))
                  (EdgeColoring.initColor seed)).
    destruct (EdgeColoring.colorContours _ _ _); split; intros [? [=]]; eauto.
  - rewrite <- (colorContours_completes
                  (EdgeColoring.colorEdgesInkTrap M (sin M thr))
                  (EdgeColoring.initColor seed)).
    destruct (EdgeColoring.colorContours _ _ _); split; intros [? [=]]; eauto.
Qed.

(** X22.  edgeColoringSimple and edgeColoringInkTrap change nothing but
    colors: the shape keeps its contours, in order, and its axis
    orientation, and every contour keeps its edges with their control
    points; the one exception is a contour of one or two edges, whose
    edges may each be replaced by their three thirds (listed from the
    corner). *)
Theorem edgeColoring_keeps_geometry M shape thr seed shape' :
  EdgeColoring.edgeColoringSimple M shape thr seed = Some shape'
  \/ EdgeColoring.edgeColoringInkTrap M shape thr seed = Some shape' ->
  Shape.inverseYAxis shape' = Shape.inverseYAxis shape
  /\ Forall2
       (fun c c' => exists es es',
          Contour.edges c = List.map Some es
          /\ Contour.edges c' = List.map Some es'
          /\ recolored es es')
       (Shape.contours shape) (Shape.contours shape').
Proof.
  assert (G : forall colorEdges,
            (forall st es, recolored es (fst (colorEdges st es))) ->
            forall out,
              EdgeColoring.colorContours colorEdges (EdgeColoring.initColor seed)
                                         (Shape.contours shape) = Some out ->
              Forall2
                (fun c c' => exists es es',
                   Contour.edges c = List.map Some es
                   /\ Contour.edges c' = List.map Some es'
                   /\ recolored es es')
                (Shape.contours shape) out).
  { intros colorEdges Hc out E.
    apply (colorContours_each colorEdges recolored Hc) in E.
    eapply Forall2_impl; [exact E|].
    cbn. intros c c' (es & es' & E1 & E2 & [[-> ->]|HR]).
    - exists [], []. repeat split; try assumption. left. reflexivity.
    - exists es, es'. repeat split; assumption. }
  unfold EdgeColoring.edgeColoringSimple, EdgeColoring.edgeColoringInkTrap.
  intros [H|H].
  - destruct (EdgeColoring.colorContours _ _ _) as [out|] eqn:E; [|discriminate].
    injection H as <-. cbn. split; [reflexivity|].
    apply (G _ (recolored_simple M (sin M thr)) out E).
  - destruct (EdgeColoring.colorContours _ _ _) as [out|] eqn:E; [|discriminate].
    injection H as <-. cbn. split; [reflexivity|].
    apply (G _ (recolored_inkTrap M (sin M thr)) out E).
Qed.

Lemma edgeColoring_keeps_geometry_witness :
  exists shape',
    EdgeColoring.edgeColoringSimple
      exampleMath (Shape.mk [clockwiseSquare] false) 3 0%Z = Some shape'
    /\ Shape.inverseYAxis shape' = false
    /\ Forall2
         (fun c c' => exists es es',
            Contour.edges c = List.map Some es
            /\ Contour.edges c' = List.map Some es'
            /\ recolored es es')
         [clockwiseSquare] (Shape.contours shape').
Proof.
  eexists. split; [vm_compute; reflexivity|].
  apply (edgeColoring_keeps_geometry
           exampleMath (Shape.mk [clockwiseSquare] false) 3 0%Z).
  left. vm_compute. reflexivity.
Defined.

(** ** edge-coloring.ts: corners, the trichotomy and the switch of colors *)

Lemma cornerLoop_In M thr es prev index i :
  In i (EdgeColoring.cornerLoop M thr es prev index)
  <-> exists k e d,
        i = (index + k)%nat /\ es !! k = Some e
        /\ match k with
           | O => Some prev
           | S j => (fun e => EdgeSegment.direction e 1) <$> es !! j
           end = Some d
        /\ EdgeColoring.isCorner
             (Vector2.normalize M d true)
             (Vector2.normalize M (EdgeSegment.direction e 0) true)
             thr = true.
Proof.
  revert prev index i. induction es as [|edge es IH]; intros prev index i.
  - cbn. split; [intros []|]. intros (k & e & d & _ & H & _).
    destruct k; discriminate.
  - cbn [EdgeColoring.cornerLoop].
    assert (Hrest :
      In i (EdgeColoring.cornerLoop M thr es (EdgeSegment.direction edge 1)
                                    (S index))
      <-> exists k e d,
            i = (index + S k)%nat /\ (edge :: es) !! S k = Some e
            /\ (fun e => EdgeSegment.direction e 1) <$> (edge :: es) !! k
               = Some d
            /\ EdgeColoring.isCorner
                 (Vector2.normalize M d true)
                 (Vector2.normalize M (EdgeSegment.direction e 0) true)
                 thr = true).
    { rewrite IH. split.
      - intros (k & e & d & -> & He & Hd & Hc).
        exists k, e, d. split; [lia|]. split; [exact He|]. split; [|exact Hc].
        destruct k; [cbn; congruence|exact Hd].
      - intros (k & e & d & -> & He & Hd & Hc).
        exists k, e, d. split; [lia|]. split; [exact He|]. split; [|exact Hc].
        destruct k; [cbn in Hd; congruence|exact Hd]. }
    destruct (EdgeColoring.isCorner _ _ thr) eqn:C.
    + cbn [In]. rewrite Hrest. split.
      * intros [<-|(k & e & d & H)].
        -- exists 0%nat, edge, prev. rewrite Nat.add_0_r. auto.
        -- exists (S k), e, d. exact H.
      * intros ([|k] & e & d & Hi & He & Hd & Hc).
        -- left. lia.
        -- right. exists k, e, d. auto.
    + rewrite Hrest. split.
      * intros (k & e & d & H). exists (S k), e, d. exact H.
      * intros ([|k] & e & d & Hi & He & Hd & Hc).
        -- cbn in He, Hd. injection He as <-. injection Hd as <-. congruence.
        -- exists k, e, d. auto.
Qed.

(** X23.  The corners that the colorings identify on a contour are exactly
    the junctions where the contour turns: the index i is reported when,
    and only when, edge i exists and the normalized direction at the end
    of the edge before it (the last edge for i = 0) and the normalized
    direction at the start of edge i pass the corner test. *)
Theorem findCorners_junctions M thr es i :
  In i (EdgeColoring.findCorners M thr es) <-> cornerAtEdge M thr es i.
Proof.
  unfold EdgeColoring.findCorners, cornerAtEdge, arrivalDirection.
  destruct (last es) as [lastEdge|] eqn:L.
  - rewrite cornerLoop_In.
    assert (Hn : (0 < length es)%nat).
    { destruct es; [discriminate|cbn; lia]. }
    assert (Hl : es !! (length es - 1)%nat = Some lastEdge).
    { rewrite <- L. rewrite last_lookup. f_equal. lia. }
    split.
    + intros (k & e & d & -> & He & Hd & Hc). cbn [Nat.add].
      exists e, d. split; [exact He|]. split; [|exact Hc].
      destruct k as [|j].
      * replace ((0 + length es - 1) mod length es)%nat
          with (length es - 1)%nat
          by (cbn [Nat.add]; rewrite Nat.mod_small; lia).
        rewrite Hl. cbn. congruence.
      * apply lookup_lt_Some in He.
        replace ((S j + length es - 1) mod length es)%nat with j; [exact Hd|].
        replace (S j + length es - 1)%nat with (j + 1 * length es)%nat by lia.
        rewrite Nat.Div0.mod_add, Nat.mod_small; lia.
    + intros (e & d & He & Hd & Hc).
      exists i, e, d. split; [reflexivity|]. split; [exact He|].
      split; [|exact Hc].
      destruct i as [|j].
      * replace ((0 + length es - 1) mod length es)%nat
          with (length es - 1)%nat in Hd
          by (cbn [Nat.add]; rewrite Nat.mod_small; lia).
        rewrite Hl in Hd. cbn in Hd. congruence.
      * apply lookup_lt_Some in He.
        replace ((S j + length es - 1) mod length es)%nat with j in Hd;
          [exact Hd|].
        replace (S j + length es - 1)%nat with (j + 1 * length es)%nat by lia.
        rewrite Nat.Div0.mod_add, Nat.mod_small; lia.
  - apply last_None in L. subst es. cbn. split; [intros []|].
    intros (e & d & He & _). discriminate.
Qed.

(** X24.  Along a contour of n >= 2 edges the trichotomy never decreases: it
    starts at -1, ends at 1, and a later position never gets a smaller
    value than an earlier one. *)
Theorem symmetricalTrichotomy_monotone (i j n : nat) :
  (2 <= n)%nat -> (i <= j)%nat -> (j < n)%nat ->
  EdgeColoring.symmetricalTrichotomy 0 n = (-1)%Z
  /\ (EdgeColoring.symmetricalTrichotomy i n
      <= EdgeColoring.symmetricalTrichotomy j n)%Z
  /\ EdgeColoring.symmetricalTrichotomy (n - 1) n = 1%Z.
Proof.
  intros Hn Hij Hj.
  split; [apply symmetricalTrichotomy_first; exact Hn|].
  split; [|apply symmetricalTrichotomy_last; exact Hn].
  unfold EdgeColoring.symmetricalTrichotomy.
  apply Z.sub_le_mono_r. apply Qfloor_resp_le.
  assert (Hd : 0 < inject_Z (Z.of_nat n) - 1).
  { assert (H : 2 <= inject_Z (Z.of_nat n)).
    { change 2 with (inject_Z 2). rewrite <- Zle_Qle. lia. }
    lra. }
  assert (Hi : inject_Z (Z.of_nat i) <= inject_Z (Z.of_nat j))
    by (rewrite <- Zle_Qle; lia).
  assert (Hq : 2.875 * inject_Z (Z.of_nat i) / (inject_Z (Z.of_nat n) - 1)
               <= 2.875 * inject_Z (Z.of_nat j) / (inject_Z (Z.of_nat n) - 1)).
  { unfold Qdiv. apply Qmult_le_compat_r.
    - lra.
    - apply Qlt_le_weak, Qinv_lt_0_compat, Hd. }
  lra.
Qed.

Lemma symmetricalTrichotomy_monotone_witness :
  EdgeColoring.symmetricalTrichotomy 0 5 = (-1)%Z
  /\ (EdgeColoring.symmetricalTrichotomy 1 5
      <= EdgeColoring.symmetricalTrichotomy 3 5)%Z
  /\ EdgeColoring.symmetricalTrichotomy (5 - 1) 5 = 1%Z.
Proof. apply (symmetricalTrichotomy_monotone 1 3 5); lia. Defined.

(** X25.  What [switchColor] returns for a current color among CYAN, MAGENTA
    and YELLOW.  Without a banned color, or with BLACK or the current
    color banned, it returns one of the two other colors of the three
    and uses up one bit of the seed.  With another of the three colors
    banned, it returns the third one, whatever the seed, and leaves the
    seed as it is. *)
Theorem switchColor_outcome (seed : Z) (c b : EdgeColor.t) :
  EdgeColoring.twoChannel c ->
  (forall banned,
     banned = None \/ banned = Some EdgeColor.BLACK \/ banned = Some c ->
     let r := EdgeColoring.switchColor seed c banned in
     EdgeColoring.twoChannel (fst r) /\ fst r <> c
     /\ snd r = Z.shiftr seed 1)
  /\ (EdgeColoring.twoChannel b -> b <> c ->
      let r := EdgeColoring.switchColor seed c (Some b) in
      EdgeColoring.twoChannel (fst r) /\ fst r <> c /\ fst r <> b
      /\ snd r = seed).
Proof.
  intros Hc. split.
  - intros banned Hb. cbv zeta.
    assert (E : EdgeColoring.switchColor seed c banned
                = EdgeColoring.rotateColor seed c).
    { destruct Hb as [->|[->| ->]]; [reflexivity| |];
        destruct Hc as [->|[->| ->]]; reflexivity. }
    rewrite E. pose proof (rotateColor_twoChannel seed c Hc) as [H1 H2].
    split; [exact H1|]. split; [exact H2|].
    unfold EdgeColoring.rotateColor, EdgeColoring.seedExtract2. reflexivity.
  - intros Hb Hne. cbv zeta.
    unfold EdgeColoring.twoChannel in *.
    destruct Hc as [->|[->| ->]]; destruct Hb as [->|[->| ->]];
      try contradiction; cbn;
      repeat split; auto; try discriminate.
Qed.

Lemma switchColor_outcome_witness :
  (forall banned,
     banned = None \/ banned = Some EdgeColor.BLACK
     \/ banned = Some EdgeColor.CYAN ->
     let r := EdgeColoring.switchColor 5 EdgeColor.CYAN banned in
     EdgeColoring.twoChannel (fst r) /\ fst r <> EdgeColor.CYAN
     /\ snd r = Z.shiftr 5 1)
  /\ (EdgeColoring.twoChannel EdgeColor.YELLOW ->
      EdgeColor.YELLOW <> EdgeColor.CYAN ->
      let r := EdgeColoring.switchColor 5 EdgeColor.CYAN
                                        (Some EdgeColor.YELLOW) in
      EdgeColoring.twoChannel (fst r) /\ fst r <> EdgeColor.CYAN
      /\ fst r <> EdgeColor.YELLOW /\ snd r = 5%Z).
Proof.
  apply (switchColor_outcome 5 EdgeColor.CYAN EdgeColor.YELLOW).
  left. reflexivity.
Defined.

(** ** Bitmap.ts: reading and writing channels *)

Lemma pixel_index_range (w h cc x y c : Z) :
  (0 <= x < w)%Z -> (0 <= y < h)%Z -> (0 <= c < cc)%Z ->
  (0 <= cc * (w * y + x) + c < cc * w * h)%Z.
Proof.
  intros Hx Hy Hc.
  assert (H1 : (0 <= w * y + x)%Z) by nia.
  assert (H2 : (w * y + x + 1 <= w * h)%Z) by nia.
  split; [nia|].
  assert (H3 : (cc * (w * y + x) + c < cc * (w * y + x + 1))%Z) by lia.
  assert (H4 : (cc * (w * y + x + 1) <= cc * (w * h))%Z)
    by (apply Z.mul_le_mono_nonneg_l; lia).
  lia.
Qed.

Lemma pixel_index_inj (w cc x y c x' y' c' : Z) :
  (0 <= x < w)%Z -> (0 <= c < cc)%Z ->
  (0 <= x' < w)%Z -> (0 <= c' < cc)%Z ->
  (cc * (w * y + x) + c = cc * (w * y' + x') + c')%Z ->
  x = x' /\ y = y' /\ c = c'.
Proof.
  intros Hx Hc Hx' Hc' E.
  assert (E1 : (w * y + x = w * y' + x')%Z /\ c = c').
  { assert (D := Z.div_mod_unique cc (w * y + x) (w * y' + x') c c').
    apply D; [left; lia | left; lia | lia]. }
  destruct E1 as [E1 ->].
  assert (E2 : y = y' /\ x = x').
  { apply (Z.div_mod_unique w y y' x x'); [left; lia | left; lia | lia]. }
  destruct E2 as [-> ->]. auto.
Qed.

(** X26.  On a bitmap whose array has the size the constructor gives it,
    [setChannel] and [getChannel] behave as a store indexed by pixel and
    channel: inside the bitmap, a channel that was set to a number reads
    back as that number, and every other channel of every pixel reads as
    before; the dimensions do not change. *)
Theorem bitmap_channel_round_trip (b : Bitmap.t) (x y c x' y' c' : Z) (v : Q) :
  wellSized b -> inBitmap b x y c -> inBitmap b x' y' c' ->
  let b' := Bitmap.setChannel b x y c (JNum v) in
  Bitmap.getChannel b' x y c = JNum v
  /\ ((x', y', c') <> (x, y, c) ->
      Bitmap.getChannel b' x' y' c' = Bitmap.getChannel b x' y' c')
  /\ wellSized b'
  /\ (Bitmap.width b', Bitmap.height b', Bitmap.channelCount b')
     = (Bitmap.width b, Bitmap.height b, Bitmap.channelCount b).
Proof.
  intros Hsize (Hx & Hy & Hc) (Hx' & Hy' & Hc'). cbv zeta.
  unfold Bitmap.getChannel, Bitmap.setChannel, Bitmap.load, Bitmap.store,
    wellSized in *.
  cbn [Bitmap.width Bitmap.height Bitmap.channelCount Bitmap.data].
  set (w := Z.of_nat (Bitmap.width b)) in *.
  set (cc := Z.of_nat (Bitmap.channelCount b)) in *.
  pose proof (pixel_index_range w (Z.of_nat (Bitmap.height b)) cc x y c
                Hx Hy Hc) as [R1 R2].
  pose proof (pixel_index_range w (Z.of_nat (Bitmap.height b)) cc x' y' c'
                Hx' Hy' Hc') as [R1' R2'].
  assert (Hlen : Z.of_nat (length (Bitmap.data b))
                 = (cc * w * Z.of_nat (Bitmap.height b))%Z).
  { rewrite Hsize. subst w cc. lia. }
  set (i := (cc * (w * y + x) + c)%Z) in *.
  set (i' := (cc * (w * y' + x') + c')%Z) in *.
  assert (Ei : (0 <=? i)%Z = true) by (apply Z.leb_le; exact R1).
  assert (Ei' : (0 <=? i')%Z = true) by (apply Z.leb_le; exact R1').
  rewrite Ei, Ei'.
  split; [|split; [|split]].
  - rewrite list_lookup_insert_eq by lia. reflexivity.
  - intros Hne. rewrite list_lookup_insert_ne; [reflexivity|].
    intros E. apply Z2Nat.inj in E; [|lia|lia].
    apply Hne. subst i i'. symmetry in E.
    apply pixel_index_inj in E; [|assumption..].
    destruct E as (-> & -> & ->). reflexivity.
  - rewrite length_insert. exact Hsize.
  - reflexivity.
Qed.

Lemma bitmap_channel_round_trip_witness :
  let b := Bitmap.create 3 4 2 in
  let b' := Bitmap.setChannel b 1 1 2 (JNum 5) in
  Bitmap.getChannel b' 1 1 2 = JNum 5
  /\ ((2, 1, 0)%Z <> (1, 1, 2)%Z ->
      Bitmap.getChannel b' 2 1 0 = Bitmap.getChannel b 2 1 0)
  /\ wellSized b'
  /\ (Bitmap.width b', Bitmap.height b', Bitmap.channelCount b')
     = (Bitmap.width b, Bitmap.height b, Bitmap.channelCount b).
Proof.
  apply (bitmap_channel_round_trip (Bitmap.create 3 4 2) 1 1 2 2 1 0 5).
  - reflexivity.
  - unfold inBitmap. cbn. lia.
  - unfold inBitmap. cbn. lia.
Defined.

(** X27.  [setChannel] and [getChannel] do not check their arguments: when
    the index computed from the pixel and the channel falls outside the
    array, the write is dropped (the bitmap is unchanged) and the read
    gives [undefined]. *)
Theorem bitmap_channel_outside (b : Bitmap.t) (x y c : Z) (v : jsval) :
  let index :=
    (Z.of_nat (Bitmap.channelCount b) * (Z.of_nat (Bitmap.width b) * y + x)
     + c)%Z in
  (index < 0 \/ Z.of_nat (length (Bitmap.data b)) <= index)%Z ->
  Bitmap.setChannel b x y c v = b
  /\ Bitmap.getChannel b x y c = JUndefined.
Proof.
  cbv zeta. intros H.
  unfold Bitmap.getChannel, Bitmap.setChannel, Bitmap.load, Bitmap.store.
  set (i := (_ * _ + c)%Z) in *.
  destruct (0 <=? i)%Z eqn:E.
  - apply Z.leb_le in E.
    assert (Hi : (length (Bitmap.data b) <= Z.to_nat i)%nat) by lia.
    rewrite list_insert_ge by exact Hi.
    rewrite lookup_ge_None_2 by exact Hi.
    destruct b; auto.
  - destruct b; auto.
Qed.

Lemma bitmap_channel_outside_witness :
  Bitmap.setChannel (Bitmap.create 1 2 2) 0 2 0 (JNum 1) = Bitmap.create 1 2 2
  /\ Bitmap.getChannel (Bitmap.create 1 2 2) 0 2 0 = JUndefined.
Proof.
  apply (bitmap_channel_outside (Bitmap.create 1 2 2) 0 2 0 (JNum 1)).
  right. cbn. lia.
Defined.

(** ** msdfgen.ts: the pixels of a distance field without overlap support *)

Section SimpleField.

Variable M : MathOps.
Variable S : EdgeSelector.
Variable convertDistance : list jsval -> Z -> jsobj -> list jsval.
Variable shape : Shape.t.
Variable transformation : SDFTransformation.t.
Variables width channels written : nat.

(** What the converter writes into the channel [k] of a pixel. *)
Variable value : nat -> jsobj -> jsval.

Hypothesis written_le : (written <= channels)%nat.
Hypothesis convert_length : forall pixels offset dist,
  length (convertDistance pixels offset dist) = length pixels.
Hypothesis convert_other : forall pixels (offset i : nat) dist,
  (i < offset \/ offset + written <= i)%nat ->
  convertDistance pixels (Z.of_nat offset) dist !! i = pixels !! i.
Hypothesis convert_at : forall pixels (offset k : nat) dist,
  (k < written)%nat -> (offset + k < length pixels)%nat ->
  convertDistance pixels (Z.of_nat offset) dist !! (offset + k)%nat
  = Some (value k dist).

Local Abbreviation colLoop :=
  (Generators.columnLoop (simpleCombiner M S) convertDistance shape
                         transformation (Z.of_nat width) (Z.of_nat channels)).
Local Abbreviation rowsLoop :=
  (Generators.rowLoop (simpleCombiner M S) convertDistance shape
                      transformation (Z.of_nat width) (Z.of_nat channels)).

Local Abbreviation pixelDistance :=
  (distanceAtPixel M S shape transformation).

Lemma simple_columnLoop_cell (i : nat) (ty tx k : nat) :
  (k < written)%nat -> (tx < width)%nat ->
  i = ((ty * width + tx) * channels + k)%nat ->
  forall cols y x xDirection st,
    (0 <= y)%Z ->
    (forall j, (j < cols)%nat ->
       (0 <= x + Z.of_nat j * xDirection < Z.of_nat width)%Z) ->
    let st' := colLoop cols y x xDirection st in
    length (snd st') = length (snd st) /\
    (snd st !! i
       = Some (value k (pixelDistance (Z.of_nat tx) (Z.of_nat ty)))
     \/ (i < length (snd st))%nat /\ y = Z.of_nat ty /\
        (exists j, (j < cols)%nat
                   /\ (x + Z.of_nat j * xDirection)%Z = Z.of_nat tx) ->
     snd st' !! i
     = Some (value k (pixelDistance (Z.of_nat tx) (Z.of_nat ty)))).
Proof.
  intros Hk Htx Hi. induction cols as [|cols IH];
    intros y x xDirection st Hy Hrange.
  - cbn. split; [reflexivity|].
    intros [H|(_ & _ & j & Hj & _)]; [exact H|lia].
  - destruct st as [combiner pixels].
    cbn [Generators.columnLoop combinerDistance simpleCombiner].
    set (dist := SimpleContourCombiner.distance M S _ (Shape.contours shape)).
    set (pixels' := convertDistance pixels _ dist).
    assert (Hlen : length pixels' = length pixels) by apply convert_length.
    assert (Hx : (0 <= x < Z.of_nat width)%Z).
    { specialize (Hrange 0%nat ltac:(lia)). lia. }
    assert (Hrange' : forall j, (j < cols)%nat ->
              (0 <= x + xDirection + Z.of_nat j * xDirection
               < Z.of_nat width)%Z).
    { intros j Hj. specialize (Hrange (Datatypes.S j) ltac:(lia)). lia. }
    destruct (IH y (x + xDirection)%Z xDirection (combiner, pixels') Hy Hrange')
      as (I2 & I3).
    split; [rewrite I2; exact Hlen|].
    intros H. apply I3. cbn [snd] in *.
    set (a := (Z.to_nat y * width + Z.to_nat x)%nat).
    assert (Hoff : ((y * Z.of_nat width + x) * Z.of_nat channels)%Z
                   = Z.of_nat (a * channels)) by (subst a; lia).
    assert (Hsame : y = Z.of_nat ty -> x = Z.of_nat tx ->
                    (i < length pixels)%nat ->
                    pixels' !! i
                    = Some (value k (pixelDistance (Z.of_nat tx) (Z.of_nat ty)))).
    { intros Ey Ex Hlt. subst pixels'. rewrite Hoff.
      assert (Ea : a = (ty * width + tx)%nat) by (subst a; lia).
      rewrite Hi, Ea.
      rewrite convert_at by (rewrite <- ?Ea; lia).
      subst dist. unfold distanceAtPixel, pixelCenter. rewrite Ey, Ex.
      reflexivity. }
    destruct H as [H|(Hlt & Ey & j & Hj & Ex)].
    + left.
      destruct (decide (y = Z.of_nat ty /\ x = Z.of_nat tx)) as [[Ey Ex]|Hne].
      * apply Hsame; [exact Ey|exact Ex|]. apply lookup_lt_Some in H. exact H.
      * subst pixels'. rewrite Hoff, convert_other; [exact H|].
        set (b := (ty * width + tx)%nat).
        assert (Hab : a <> b).
        { subst a b. intros E. apply Hne.
          assert (ty = Z.to_nat y /\ tx = Z.to_nat x) as [-> ->]; [|lia].
          assert (Hx' : (Z.to_nat x < width)%nat) by lia.
          set (Y := Z.to_nat y) in *. set (X := Z.to_nat x) in *.
          clearbody Y X. clear - E Htx Hx'.
          assert (ty = Y); [|lia].
          destruct (Nat.lt_trichotomy ty Y) as [L|[L|L]]; [nia|exact L|nia]. }
        rewrite Hi. fold b.
        destruct (Nat.lt_trichotomy a b) as [L|[L|L]]; [|contradiction|].
        -- right. nia.
        -- left. nia.
    + destruct j as [|j].
      * left. apply Hsame; [exact Ey|lia|exact Hlt].
      * right. split; [lia|]. split; [exact Ey|].
        exists j. split; lia.
Qed.

Lemma simple_rowLoop_cell (i : nat) (ty tx k : nat) :
  (k < written)%nat -> (tx < width)%nat ->
  i = ((ty * width + tx) * channels + k)%nat ->
  forall rows row xDirection st,
    (0 <= row)%Z -> (xDirection = 1 \/ xDirection = -1)%Z ->
    let st' := rowsLoop rows row 1%Z 0%Z xDirection st in
    length (snd st') = length (snd st) /\
    (snd st !! i
       = Some (value k (pixelDistance (Z.of_nat tx) (Z.of_nat ty)))
     \/ (i < length (snd st))%nat
        /\ (row <= Z.of_nat ty < row + Z.of_nat rows)%Z ->
     snd st' !! i
     = Some (value k (pixelDistance (Z.of_nat tx) (Z.of_nat ty)))).
Proof.
  intros Hk Htx Hi. induction rows as [|rows IH];
    intros row xDirection st Hrow Hdir.
  - cbn. split; [reflexivity|].
    intros [H|[_ H]]; [exact H|lia].
  - cbn [Generators.rowLoop].
    change (1 <? 0)%Z with false. cbv iota.
    replace (0 + row * 1)%Z with row by lia.
    set (x := if (xDirection <? 0)%Z then (Z.of_nat width - 1)%Z else 0%Z).
    assert (Hrange : forall j, (j < Z.to_nat (Z.of_nat width))%nat ->
              (0 <= x + Z.of_nat j * xDirection < Z.of_nat width)%Z).
    { intros j Hj. rewrite Nat2Z.id in Hj. subst x.
      destruct Hdir as [-> | ->]; cbn; lia. }
    destruct (simple_columnLoop_cell i ty tx k Hk Htx Hi
                (Z.to_nat (Z.of_nat width)) row x xDirection st Hrow Hrange)
      as (I2 & I3).
    set (st1 := colLoop (Z.to_nat (Z.of_nat width)) row x xDirection st) in *.
    assert (Hdir' : (- xDirection = 1 \/ - xDirection = -1)%Z) by lia.
    destruct (IH (row + 1)%Z (- xDirection)%Z st1 ltac:(lia) Hdir') as [J1 J2].
    split; [rewrite J1; exact I2|].
    intros H. apply J2.
    destruct H as [H|[Hlt Hr]].
    + left. apply I3. left. exact H.
    + destruct (decide (row = Z.of_nat ty)) as [E|E].
      * left. apply I3. right. split; [exact Hlt|]. split; [exact E|].
        rewrite Nat2Z.id. subst x.
        destruct Hdir as [-> | ->]; cbn.
        -- exists tx. split; lia.
        -- exists (width - 1 - tx)%nat. split; lia.
      * right. rewrite I2. split; [exact Hlt|lia].
Qed.

(** Every written channel of every pixel of the bitmap holds the value
    of the distance at the center of the pixel. *)
Lemma simple_field_pixel (output : Bitmap.t) (tx ty k : nat) :
  Bitmap.width output = width -> Bitmap.channelCount output = channels ->
  wellSized output ->
  (tx < width)%nat -> (ty < Bitmap.height output)%nat -> (k < written)%nat ->
  Bitmap.getChannel
    (Generators.generateDistanceField (simpleCombiner M S) output shape
                                      transformation convertDistance)
    (Z.of_nat tx) (Z.of_nat ty) (Z.of_nat k)
  = value k (pixelDistance (Z.of_nat tx) (Z.of_nat ty)).
Proof.
  intros Hw Hc Hsize Htx Hty Hk.
  unfold Generators.generateDistanceField.
  change (Generators.strictEqNumberString _ _) with false. cbv iota.
  change (1 <? 0)%Z with false. cbv iota.
  rewrite Hw, Hc.
  set (i := ((ty * width + tx) * channels + k)%nat).
  destruct (simple_rowLoop_cell i ty tx k Hk Htx eq_refl
              (Bitmap.height output) 0%Z 1%Z
              (combinerCreate (simpleCombiner M S), Bitmap.data output)
              ltac:(lia) ltac:(left; reflexivity)) as [L C].
  destruct (rowsLoop _ _ _ _ _ _) as [combiner pixels].
  cbn [snd] in L, C.
  unfold Bitmap.getChannel, Bitmap.load.
  cbn [Bitmap.data Bitmap.width Bitmap.channelCount].
  assert (Hi : (i < length (Bitmap.data output))%nat).
  { unfold wellSized in Hsize. rewrite Hsize, Hw, Hc. subst i.
    assert ((ty * width + tx + 1) * channels
            <= Bitmap.height output * width * channels)%nat.
    { apply Nat.mul_le_mono_r. nia. }
    nia. }
  replace (Z.of_nat channels * (Z.of_nat width * Z.of_nat ty + Z.of_nat tx)
           + Z.of_nat k)%Z with (Z.of_nat i) by (subst i; lia).
  assert (E : (0 <=? Z.of_nat i)%Z = true) by (apply Z.leb_le; lia).
  rewrite E, Nat2Z.id, C; [reflexivity|].
  right. split; [exact Hi | lia].
Qed.

End SimpleField.

Lemma store_other pixels offset v (i : nat) :
  Z.of_nat i <> offset -> Bitmap.store pixels offset v !! i = pixels !! i.
Proof.
  intros H. unfold Bitmap.store.
  destruct (0 <=? offset)%Z eqn:E; [|reflexivity].
  apply Z.leb_le in E. apply list_lookup_insert_ne. lia.
Qed.

Lemma store_mapped pixels m d (i : nat) :
  (i < length pixels)%nat ->
  Bitmap.store pixels (Z.of_nat i) (Generators.mapValue m d) !! i
  = Some (Generators.mapValue m d).
Proof.
  intros H. unfold Bitmap.store.
  assert (E : (0 <=? Z.of_nat i)%Z = true) by (apply Z.leb_le; lia).
  rewrite E, Nat2Z.id, list_lookup_insert_eq by exact H.
  destruct d; reflexivity.
Qed.

(** The values that the three converters write into the channels of a
    pixel. *)
Lemma single_convert_writes m :
  (forall pixels (offset i : nat) dist,
     (i < offset \/ offset + 1 <= i)%nat ->
     Generators.singleChannelConvert m pixels (Z.of_nat offset) dist !! i
     = pixels !! i)
  /\ (forall pixels (offset k : nat) dist,
        (k < 1)%nat -> (offset + k < length pixels)%nat ->
        Generators.singleChannelConvert m pixels (Z.of_nat offset) dist
          !! (offset + k)%nat
        = Some (Generators.mapValue m (js_get dist "distance"))).
Proof.
  unfold Generators.singleChannelConvert. split.
  - intros pixels offset i dist H. apply store_other. lia.
  - intros pixels offset k dist Hk H.
    replace (offset + k)%nat with offset by lia.
    apply store_mapped. lia.
Qed.

Lemma multi_convert_writes m :
  (forall pixels (offset i : nat) dist,
     (i < offset \/ offset + 3 <= i)%nat ->
     Generators.multiChannelConvert m pixels (Z.of_nat offset) dist !! i
     = pixels !! i)
  /\ (forall pixels (offset k : nat) dist,
        (k < 3)%nat -> (offset + k < length pixels)%nat ->
        Generators.multiChannelConvert m pixels (Z.of_nat offset) dist
          !! (offset + k)%nat
        = Some (Generators.mapValue m (js_get dist (channelName k)))).
Proof.
  unfold Generators.multiChannelConvert. split.
  - intros pixels offset i dist H. rewrite !store_other by lia. reflexivity.
  - intros pixels offset k dist Hk H.
    destruct k as [|[|[|k]]]; [| | |lia]; cbn [channelName].
    + rewrite !store_other by lia. rewrite Nat.add_0_r.
      apply store_mapped. lia.
    + rewrite store_other by lia.
      replace (Z.of_nat offset + 1)%Z with (Z.of_nat (offset + 1)) by lia.
      apply store_mapped. rewrite store_length. exact H.
    + replace (Z.of_nat offset + 2)%Z with (Z.of_nat (offset + 2)) by lia.
      apply store_mapped. rewrite !store_length. exact H.
Qed.

Lemma multiAndTrue_convert_writes m :
  (forall pixels (offset i : nat) dist,
     (i < offset \/ offset + 4 <= i)%nat ->
     Generators.multiAndTrueChannelConvert m pixels (Z.of_nat offset) dist !! i
     = pixels !! i)
  /\ (forall pixels (offset k : nat) dist,
        (k < 4)%nat -> (offset + k < length pixels)%nat ->
        Generators.multiAndTrueChannelConvert m pixels (Z.of_nat offset) dist
          !! (offset + k)%nat
        = Some (Generators.mapValue m (js_get dist (channelName k)))).
Proof.
  unfold Generators.multiAndTrueChannelConvert. split.
  - intros pixels offset i dist H. rewrite !store_other by lia. reflexivity.
  - intros pixels offset k dist Hk H.
    destruct k as [|[|[|[|k]]]]; [| | | |lia]; cbn [channelName].
    + rewrite !store_other by lia. rewrite Nat.add_0_r.
      apply store_mapped. lia.
    + rewrite !store_other by lia.
      replace (Z.of_nat offset + 1)%Z with (Z.of_nat (offset + 1)) by lia.
      apply store_mapped. rewrite store_length. exact H.
    + rewrite store_other by lia.
      replace (Z.of_nat offset + 2)%Z with (Z.of_nat (offset + 2)) by lia.
      apply store_mapped. rewrite !store_length. exact H.
    + replace (Z.of_nat offset + 3)%Z with (Z.of_nat (offset + 3)) by lia.
      apply store_mapped. rewrite !store_length. exact H.
Qed.

Lemma inBitmap_nat (b : Bitmap.t) (x y c : Z) :
  inBitmap b x y c ->
  exists tx ty k,
    x = Z.of_nat tx /\ y = Z.of_nat ty /\ c = Z.of_nat k
    /\ (tx < Bitmap.width b)%nat /\ (ty < Bitmap.height b)%nat
    /\ (k < Bitmap.channelCount b)%nat.
Proof.
  intros (Hx & Hy & Hc).
  exists (Z.to_nat x), (Z.to_nat y), (Z.to_nat c). repeat split; lia.
Qed.





(** The loops of [generateDistanceField] keep the length of the array,
    whatever the combiner, as soon as the converter does. *)
Section FieldLength.

Variable C : ContourCombiner.
Variable convertDistance : list jsval -> Z -> jsobj -> list jsval.
Variable shape : Shape.t.
Variable transformation : SDFTransformation.t.
Variables width channelCount : Z.

Hypothesis convert_length : forall pixels offset dist,
  length (convertDistance pixels offset dist) = length pixels.

Lemma columnLoop_keeps_length cols y x xDirection st :
  length (snd (Generators.columnLoop C convertDistance shape transformation
                 width channelCount cols y x xDirection st))
  = length (snd st).
Proof.
  revert x st. induction cols as [|cols IH]; intros x st; [reflexivity|].
  destruct st as [combiner pixels]. cbn [Generators.columnLoop].
  destruct (combinerDistance C combiner _ (Shape.contours shape))
    as [distance combiner'].
  rewrite IH. cbn [snd]. apply convert_length.
Qed.

Lemma rowLoop_keeps_length rows row yDirection yStart xDirection st :
  length (snd (Generators.rowLoop C convertDistance shape transformation
                 width channelCount rows row yDirection yStart xDirection st))
  = length (snd st).
Proof.
  revert row xDirection st.
  induction rows as [|rows IH]; intros row xDirection st; [reflexivity|].
  cbn [Generators.rowLoop]. rewrite IH. apply columnLoop_keeps_length.
Qed.

End FieldLength.

(** X30.  The four generators never resize the bitmap: whatever the shape,
    the transformation and the configuration, with or without overlap
    support, the result has the width, the height, the channel count and
    the array length of the bitmap it was given. *)
Theorem generators_keep_dimensions M (output : Bitmap.t) (shape : Shape.t)
  (tr : SDFTransformation.t) (config : Generators.GeneratorConfig) :
  sameDimensions (Generators.generateSDF M output shape tr config) output
  /\ sameDimensions (Generators.generatePSDF M output shape tr config) output
  /\ sameDimensions (Generators.generateMSDF M output shape tr config) output
  /\ sameDimensions (Generators.generateMTSDF M output shape tr config) output.
Proof.
  assert (G : forall C convert,
            (forall pixels offset dist,
               length (convert pixels offset dist) = length pixels) ->
            sameDimensions
              (Generators.generateDistanceField C output shape tr convert)
              output).
  { intros C convert Hc. unfold Generators.generateDistanceField, sameDimensions.
    pose proof (rowLoop_keeps_length C convert shape tr
                  (Z.of_nat (Bitmap.width output))
                  (Z.of_nat (Bitmap.channelCount output)) Hc) as L.
    match goal with
    | |- context [Generators.rowLoop ?a ?b ?c ?d ?e ?f ?g ?h ?i ?j ?k ?l] =>
        specialize (L g h i j k l);
        destruct (Generators.rowLoop a b c d e f g h i j k l) as [st pixels]
    end.
    cbn in *. auto. }
  set (m := SDFTransformation.distanceMapping tr).
  unfold Generators.generateSDF, Generators.generatePSDF,
    Generators.generateMSDF, Generators.generateMTSDF.
  split; [|split; [|split]]; apply G; intros pixels offset dist.
  - apply store_length.
  - apply store_length.
  - apply (multi_convert_length _ dist).
  - apply (multiAndTrue_convert_length _ dist).
Qed.

(** ** Edge segments: moving the end points, crossing a scanline *)




(** ** The colors after edgeColoringSimple and edgeColoringInkTrap *)

(** The edges of a contour after a coloring: the edges before it with
    other colors (or their thirds), every one CYAN, MAGENTA, YELLOW or
    WHITE. *)
Lemma colorContours_visible colorEdges st contours out :
  (forall st es,
     EdgeColoring.twoChannel (fst st) ->
     EdgeColoring.twoChannel (fst (snd (colorEdges st es)))
     /\ Forall (fun e => EdgeColoring.visible (EdgeSegment.color e))
               (fst (colorEdges st es))) ->
  (forall st es, recolored es (fst (colorEdges st es))) ->
  EdgeColoring.twoChannel (fst st) ->
  EdgeColoring.colorContours colorEdges st contours = Some out ->
  Forall2
    (fun c c' => exists es es',
       Contour.edges c = List.map Some es
       /\ Contour.edges c' = List.map Some es'
       /\ recolored es es'
       /\ Forall (fun e => EdgeColoring.visible (EdgeSegment.color e)) es')
    contours out.
Proof.
  intros Hvis Hrec Hst E.
  apply (colorContours_spec colorEdges
           (fun es es' =>
              recolored es es'
              /\ Forall (fun e => EdgeColoring.visible (EdgeSegment.color e)) es'))
    in E.
  - eapply Forall2_impl; [exact E|]. cbn.
    intros c c' (es & es' & G & Hc & HR & HV).
    exists es, es'. apply getAll_Some in G. auto.
  - intros st' es Hst'. destruct (Hvis st' es Hst') as [T V]. auto.
  - split; [left; reflexivity|constructor].
  - exact Hst.
Qed.

Lemma black_not_visible : ~ EdgeColoring.visible EdgeColor.BLACK.
Proof.
  unfold EdgeColoring.visible. cbn. intros [H|[H|[H|[H|[]]]]]; discriminate.
Qed.

Lemma clockwiseSquare_allHeld : Forall allHeld [clockwiseSquare].
Proof.
  constructor; [|constructor]. unfold allHeld. cbn.
  intros [H|[H|[H|[H|[]]]]]; discriminate.
Qed.



(** C10 as stated fails for a negative seed.  With the seed -1n
    [initColor] reads [colors[-1]], the running color is [undefined],
    every [switchColor] turns it into BLACK, and the four edges of the
    square are painted BLACK. *)
Lemma edgeColoringSimple_negative_seed_black :
  exists shape',
    EdgeColoring.edgeColoringSimple
      exampleMath (Shape.mk [clockwiseSquare] false) 3 (-1)%Z = Some shape'
    /\ Forall
         (fun c =>
            Forall (fun h => exists e,
                      h = Some e
                      /\ EdgeSegment.color e = EdgeColor.BLACK
                      /\ ~ EdgeColoring.visible (EdgeSegment.color e))
                   (Contour.edges c))
         (Shape.contours shape')
    /\ Shape.contours shape' <> [].
Proof.
  eexists. split; [vm_compute; reflexivity|]. split; [|discriminate].
  repeat constructor; eexists; (split; [reflexivity|]);
    (split; [reflexivity|exact black_not_visible]).
Qed.


